(** * steamback: the save-game snapshot engine of decky-save-game-savior

  A shallow embedding of [py_modules/steamback/__init__.py] and the
  properties of its specification that concern the key/value parser, the
  save-root resolver, the change-manifest reader and the snapshot engine.

  Conventions of the embedding.
  - A Python [str] is a [list ascii]; the 256 values of [ascii] stand for
    the code points below 256.
  - A Python [int] is a [Z]; [None] is [option]'s [None].
  - A Python [float] is a binary64 number of [SpecFloat]; every operation
    rounds to the nearest, the even one of two that are equally near.
  - The file system is a tree of directories and files; paths are the
    strings the code builds with [os.path.join].
  - Code that touches the file system, the clock or the engine's fields
    runs in the monad [M]: a state transformer that returns either a value
    or the exception raised, together with the state at that moment. *)

From Stdlib Require Import ZArith Lia Ascii String List Bool Sorting.Sorted Permutation.
From Stdlib Require Floats.SpecFloat.
From stdpp Require Import gmap strings list.

(** ** Python strings *)

Definition str := list ascii.

Declare Scope str_scope.
Delimit Scope str_scope with str.

Inductive str_lit := lit_nil | lit_cons (a : ascii) (l : str_lit).

Fixpoint str_lit_of_bytes (l : list Byte.byte) : str_lit :=
match l with
| [] => lit_nil
| b :: l => lit_cons (ascii_of_byte b) (str_lit_of_bytes l)
end.

Fixpoint bytes_of_str_lit (l : str_lit) : list Byte.byte :=
match l with
| lit_nil => []
| lit_cons a l => byte_of_ascii a :: bytes_of_str_lit l
end.

#[warnings="-via-type-mismatch,-via-type-remapping"]
String Notation str str_lit_of_bytes bytes_of_str_lit
(via str_lit mapping [[nil] => lit_nil, [cons] => lit_cons]) : str_scope.

Open Scope str_scope.
Open Scope Z_scope.

Module Py.

(** The double quote, the line feed and the carriage return. *)
Definition dquote : ascii := Eval cbv in ascii_of_nat 34.
Definition LF : ascii := Eval cbv in ascii_of_nat 10.
Definition CR : ascii := Eval cbv in ascii_of_nat 13.
Definition slash : ascii := "/"%char.

(** [str.isspace] on one character, which is also what [\s] matches in a
    [str] pattern: the characters 9-13, 28-32, 133 and 160. *)
Definition isspace (c : ascii) : bool :=
  let n := nat_of_ascii c in
  ((9 <=? n)%nat && (n <=? 13)%nat) || ((28 <=? n)%nat && (n <=? 32)%nat)
  || (n =? 133)%nat || (n =? 160)%nat.

Definition len (s : str) : Z := Z.of_nat (length s).

(** [s.startswith(p)] and [s.endswith(p)]. *)
Fixpoint startswith (s p : str) : bool :=
  match p, s with
  | [], _ => true
  | c :: p', d :: s' => if decide (c = d) then startswith s' p' else false
  | _ :: _, [] => false
  end.

Definition endswith (s p : str) : bool := startswith (rev s) (rev p).

(** A slice bound [i] of a sequence of length [n]: negative bounds count
    from the end, and every bound is clamped to [0..n]. *)
Definition bound (n i : Z) : nat :=
  Z.to_nat (if i <? 0 then Z.max 0 (i + n) else Z.min i n).

(** [s[lo:hi]], either bound possibly omitted. *)
Definition slice {A} (lo hi : option Z) (s : list A) : list A :=
  let n := Z.of_nat (length s) in
  let a := match lo with Some i => bound n i | None => 0%nat end in
  let b := match hi with Some i => bound n i | None => length s end in
  take (b - a) (drop a s).

(** [s.rfind(c)] for a one-character [c]: the highest index of [c], or -1. *)
Fixpoint rfind_from (i : Z) (s : str) (c : ascii) : Z :=
  match s with
  | [] => -1
  | d :: s' =>
      let r := rfind_from (i + 1) s' c in
      if 0 <=? r then r else if decide (d = c) then i else -1
  end.

Definition rfind (s : str) (c : ascii) : Z := rfind_from 0 s c.

(** [s.split(sep)] for a one-character separator. *)
Fixpoint split (sep : ascii) (s : str) : list str :=
  match s with
  | [] => [[]]
  | c :: s' =>
      let r := split sep s' in
      if decide (c = sep) then [] :: r
      else match r with
           | h :: t => (c :: h) :: t
           | [] => [[c]]
           end
  end.

(** [sep.join(l)]. *)
Fixpoint join (sep : str) (l : list str) : str :=
  match l with
  | [] => []
  | [x] => x
  | x :: l' => x ++ sep ++ join sep l'
  end.

(** [s.lstrip()], [s.rstrip()] and [s.strip()]. *)
Fixpoint lstrip (s : str) : str :=
  match s with
  | c :: s' => if isspace c then lstrip s' else s
  | [] => []
  end.

Definition rstrip (s : str) : str := rev (lstrip (rev s)).
Definition strip (s : str) : str := rstrip (lstrip s).

(** [str(n)] for an [int]. *)
Definition digit (n : nat) : ascii := ascii_of_nat (48 + n).

Fixpoint digits_fuel (fuel : nat) (n : N) (acc : str) : str :=
  match fuel with
  | O => acc
  | S fuel' =>
      let acc' := digit (N.to_nat (n mod 10)) :: acc in
      if (n <? 10)%N then acc' else digits_fuel fuel' (n / 10)%N acc'
  end.

Definition str_of_N (n : N) : str := digits_fuel (S (N.to_nat (N.log2 n))) n [].

Definition str_of_int (z : Z) : str :=
  if z <? 0 then "-" ++ str_of_N (Z.to_N (- z)) else str_of_N (Z.to_N z).

(** [next((i for i in range(min(len(a), len(b))) if a[i] != b[i]), None)] *)
Fixpoint first_diff (a b : str) : option nat :=
  match a, b with
  | c :: a', d :: b' =>
      if decide (c = d) then S <$> first_diff a' b' else Some 0%nat
  | _, _ => None
  end.

End Py.

(** ** [posixpath] *)

Module PosixPath.

Import Py.

Definition sep : str := "/".

(** [os.path.join(a, b)] *)
Definition join2 (a b : str) : str :=
  if startswith b sep then b
  else if bool_decide (a = "") || endswith a sep then a ++ b
  else a ++ sep ++ b.

(** [os.path.join(a, *p)] *)
Definition join (a : str) (p : list str) : str := fold_left join2 p a.

(** The loop of [normpath]; [new_comps] is kept with its last element
    first. *)
Fixpoint norm_comps (initial_slashes : nat) (comps new_comps : list str)
  : list str :=
  match comps with
  | [] => rev new_comps
  | comp :: comps' =>
      if bool_decide (comp = "") || bool_decide (comp = ".") then
        norm_comps initial_slashes comps' new_comps
      else if bool_decide (comp <> "..")
              || ((initial_slashes =? 0)%nat && bool_decide (new_comps = []))
              || match new_comps with
                 | top :: _ => bool_decide (top = "..")
                 | [] => false
                 end then
        norm_comps initial_slashes comps' (comp :: new_comps)
      else
        norm_comps initial_slashes comps' (tail new_comps)
  end.

(** [os.path.normpath(path)] *)
Definition normpath (path : str) : str :=
  if bool_decide (path = "") then "."
  else
    let initial_slashes :=
      if startswith path sep then
        if startswith path "//" && negb (startswith path "///")
        then 2%nat else 1%nat
      else 0%nat in
    let comps := norm_comps initial_slashes (split slash path) [] in
    let path' := concat (replicate initial_slashes sep) ++ Py.join sep comps in
    if bool_decide (path' = "") then "." else path'.

(** [head.rstrip('/')] *)
Fixpoint lstrip_slash (s : str) : str :=
  match s with
  | c :: s' => if bool_decide (c = slash) then lstrip_slash s' else s
  | [] => []
  end.

(** [os.path.dirname(p)] *)
Definition dirname (p : str) : str :=
  let i := rfind p slash + 1 in
  let head := slice None (Some i) p in
  if bool_decide (head <> "")
     && bool_decide (head <> concat (replicate (length head) sep))
  then rev (lstrip_slash (rev head)) else head.

(** [os.path.basename(p)] *)
Definition basename (p : str) : str :=
  slice (Some (rfind p slash + 1)) None p.

End PosixPath.


(** ** The fragment of [re] that the parsers use

    The two patterns of the module are sequences of literal characters,
    [\s*], [\s+] and the capturing group [(.+)].  A pattern is a list of such
    items; [fullmatch] is the backtracking matcher: a repetition first takes
    as many characters as it can and gives them back one at a time. *)

Module Re.

Import Py.

Inductive cls := Space | Dot.

Definition in_cls (k : cls) (c : ascii) : bool :=
match k with
| Space => isspace c
| Dot => negb (bool_decide (c = LF))
end.

Inductive item :=
| Lit (c : ascii)     (* the character c *)
| Star (k : cls)      (* k*   *)
| Plus (k : cls)      (* k+   *)
| Group (k : cls).    (* (k+) *)

Definition regex := list item.

(** Greedy repetition of the class [k] on [s]; [acc] holds what the
    repetition has taken so far, last character first, and [cont] matches
    the rest of the pattern. *)
Fixpoint rep {X} (k : cls) (cont : str -> str -> option X) (acc s : str)
  : option X :=
match s with
| c :: s' =>
    if in_cls k c then
      match rep k cont (c :: acc) s' with
      | Some x => Some x
      | None => cont (rev acc) s
      end
    else cont (rev acc) s
| [] => cont (rev acc) []
end.

Definition rep1 {X} (k : cls) (cont : str -> str -> option X) (s : str)
  : option X :=
match s with
| c :: s' => if in_cls k c then rep k cont [c] s' else None
| [] => None
end.

(** [re.compile(r).fullmatch(s)]: the groups of the match, in order. *)
Fixpoint fullmatch (r : regex) (s : str) : option (list str) :=
match r with
| [] => match s with [] => Some [] | _ :: _ => None end
| Lit c :: r' =>
    match s with
    | d :: s' => if bool_decide (d = c) then fullmatch r' s' else None
    | [] => None
    end
| Star k :: r' => rep k (fun _ s' => fullmatch r' s') [] s
| Plus k :: r' => rep1 k (fun _ s' => fullmatch r' s') s
| Group k :: r' => rep1 k (fun g s' => cons g <$> fullmatch r' s') s
end.

End Re.

(** ** Python floats *)

Module Float.

Definition float := SpecFloat.spec_float.

Definition prec : Z := 53.
Definition emax : Z := 1024.

(** [float(z)] *)
Definition of_int (z : Z) : float := SpecFloat.binary_normalize prec emax z 0 false.

(** [x + y] and [x * y] *)
Definition add (x y : float) : float := SpecFloat.SFadd prec emax x y.
Definition mul (x y : float) : float := SpecFloat.SFmul prec emax x y.

(** [x > y] *)
Definition gt (x y : float) : bool := SpecFloat.SFltb y x.

(** The literal [1e-9]: the binary64 number next to it,
    [0x1.12e0be826d695p-30]. *)
Definition nano : float := SpecFloat.S754_finite false 0x112E0BE826D695 (-82).

Definition is_nan (x : float) : bool :=
match x with
| SpecFloat.S754_nan => true
| _ => false
end.

(** The integer next to [x], the even one of two that are equally near;
    none for an infinity and for a NaN. *)
Definition rounded (x : float) : option Z :=
match x with
| SpecFloat.S754_zero _ => Some 0
| SpecFloat.S754_finite s m e =>
    let v := if 0 <=? e then Z.pos m * 2 ^ e
             else
               let d := 2 ^ (- e) in
               let q := Z.pos m / d in
               let r := Z.pos m mod d in
               if 2 * r <? d then q
               else if d <? 2 * r then q + 1
               else if Z.even q then q else q + 1 in
    Some (if s then - v else v)
| _ => None
end.

End Float.

(** ** Data model *)

(** A game-info dictionary.  [save_games_roots] is the dictionary from a
    save directory of the game to the suffix of its backup directory, in
    insertion order; it is [None] while the key is absent.
    [save_games_root] is the key of the old sidecar format. *)
Record GameInfo := {
  install_root : str;
  game_id : Z;
  game_name : str;
  save_games_roots : option (list (str * str));
  save_games_root : option str
}.

(** A save-info dictionary, the content of a sidecar. *)
Record SaveInfo := {
  game_info : GameInfo;
  timestamp : Z;
  filename : str;
  is_undo : bool
}.

(** The fields of [Config] and of [Engine] that are set once.
    [account_ids] is a set: the list has its elements, each once, in the
    order in which the set is iterated.  Python iterates in the order of
    the hash table, an order the model does not compute: what is proved of
    an engine with several accounts is proved for every order. *)
Record Engine := {
  app_data_dir : str;
  steam_dir : str;
  account_ids : list Z;
  dry_run : bool;
  max_saves : Z;
  ignore_unchanged : bool
}.

(** What [do_backup] returns: [None], the placeholder [{}] of a dry run, or
    the new save-info. *)
Inductive backup_result :=
| NoBackup
| WouldBackup
| Backup (si : SaveInfo).

#[global] Instance GameInfo_eq_dec : EqDecision GameInfo.
Proof. solve_decision. Defined.

#[global] Instance SaveInfo_eq_dec : EqDecision SaveInfo.
Proof. solve_decision. Defined.

(** ** The file system *)

(** A file holds text, or a JSON document that [json.dump] wrote for a
    save-info.  Text stands for bytes that [json.load] rejects: a corrupted
    sidecar is a text file whose name ends in [.json]. *)
Inductive content :=
| Text (s : str)
| Json (si : SaveInfo).

(** Modification times are in nanoseconds, as [st_mtime_ns].  The time of
    a directory is the time it was made: a change of its entries does not
    touch it. *)
#[warnings="-register-all"]
Inductive node :=
| File (c : content) (mtime : Z)
| Dir (mtime : Z) (entries : list (str * node)).

Inductive exn :=
| FileNotFoundError
| FileExistsError
| IsADirectoryError
| NotADirectoryError
| SameFileError
| OSError
| JSONDecodeError
| UnicodeDecodeError
| ValueError
| KeyError
| IndexError
| TypeError
| OverflowError
| AssertionError.

#[global] Instance exn_eq_dec : EqDecision exn.
Proof. solve_decision. Defined.

(** [isinstance(e, OSError)] *)
Definition is_OSError (e : exn) : bool :=
match e with
| FileNotFoundError | FileExistsError | IsADirectoryError
| NotADirectoryError | SameFileError | OSError => true
| _ => false
end.

Inductive outcome (A : Type) :=
| Ok (a : A)
| Raise (e : exn).

Arguments Ok {A} a.
Arguments Raise {A} e.

(** Entries of a directory, in the order [os.listdir] gives them. *)
Fixpoint assoc_get {V} (k : str) (l : list (str * V)) : option V :=
match l with
| [] => None
| (k', v) :: l' => if bool_decide (k' = k) then Some v else assoc_get k l'
end.

Fixpoint assoc_set {V} (k : str) (v : V) (l : list (str * V)) : list (str * V) :=
match l with
| [] => [(k, v)]
| (k', v') :: l' =>
    if bool_decide (k' = k) then (k, v) :: l' else (k', v') :: assoc_set k v l'
end.

Definition assoc_del {V} (k : str) (l : list (str * V)) : list (str * V) :=
List.filter (fun e => negb (bool_decide (e.1 = k))) l.

(** The components of a path.  Empty components and [.] are dropped.
    Symbolic links are not modelled, and neither is [..], which stays a
    component like any other: a path with a [..] component is outside the
    model, and what is proved of the files at a path is stated for paths
    without one. *)
Definition parts (p : str) : list str :=
List.filter (fun c => negb (bool_decide (c = "") || bool_decide (c = ".")))
            (Py.split Py.slash p).

Fixpoint lookup_at (cs : list str) (n : node) : option node :=
match cs with
| [] => Some n
| c :: cs' =>
    match n with
    | Dir _ es =>
        match assoc_get c es with
        | Some m => lookup_at cs' m
        | None => None
        end
    | File _ _ => None
    end
end.

(** Replace, create or remove the entry at [cs]: [f] receives the node
    there, if any, and returns the new one, if any.  Every directory on the
    way must exist. *)
Fixpoint alter_at (cs : list str) (f : option node -> outcome (option node))
  (n : node) : outcome node :=
match cs with
| [] =>
    match f (Some n) with
    | Ok (Some n') => Ok n'
    | Ok None => Raise OSError
    | Raise e => Raise e
    end
| c :: cs' =>
    match n with
    | File _ _ => Raise NotADirectoryError
    | Dir t es =>
        match cs' with
        | [] =>
            match f (assoc_get c es) with
            | Ok (Some m) => Ok (Dir t (assoc_set c m es))
            | Ok None => Ok (Dir t (assoc_del c es))
            | Raise e => Raise e
            end
        | _ :: _ =>
            match assoc_get c es with
            | Some m =>
                match alter_at cs' f m with
                | Ok m' => Ok (Dir t (assoc_set c m' es))
                | Raise e => Raise e
                end
            | None => Raise FileNotFoundError
            end
        end
    end
end.

(** [os.makedirs]: create the directory at [cs] and the missing ones on the
    way. *)
Fixpoint makedirs_at (exist_ok : bool) (t : Z) (cs : list str) (n : node)
  : outcome node :=
match cs with
| [] =>
    match n with
    | Dir _ _ => if exist_ok then Ok n else Raise FileExistsError
    | File _ _ => Raise FileExistsError
    end
| c :: cs' =>
    match n with
    | File _ _ => Raise NotADirectoryError
    | Dir t' es =>
        match assoc_get c es with
        | Some m =>
            match makedirs_at exist_ok t cs' m with
            | Ok m' => Ok (Dir t' (assoc_set c m' es))
            | Raise e => Raise e
            end
        | None =>
            match makedirs_at true t cs' (Dir t []) with
            | Ok m' => Ok (Dir t' (assoc_set c m' es))
            | Raise e => Raise e
            end
        end
    end
end.

(** [Path.rglob(name)]: the directories below [n], [n] included and parents
    first, that have an entry called [name]; [here] is the path of [n]. *)
Fixpoint rglob_parents (name : str) (here : str) (n : node) : list str :=
match n with
| File _ _ => []
| Dir _ es =>
    (if bool_decide (is_Some (assoc_get name es)) then [here] else [])
    ++ (fix go (es : list (str * node)) : list str :=
          match es with
          | [] => []
          | (c, m) :: es' =>
              rglob_parents name (PosixPath.join2 here c) m ++ go es'
          end) es
end.

(** ** The state and the monad of effects *)

(** What the engine did to the file system, oldest event first. *)
Inductive event :=
| EvMakedirs (p : str)
| EvWrite (p : str)
| EvCopy (src dst : str)
| EvRemove (p : str)
| EvRmtree (p : str).

(** The state: the file system, the clock ([time.time()] in milliseconds,
    rounded), the engine's field [last_used_save_info], the paths at which a
    write fails with an [OSError] (a full or read-only disk), and the events
    so far. *)
Record world := {
  fs : node;
  now : Z;
  last_used_save_info : option SaveInfo;
  io_errors : list str;
  trace : list event
}.

Definition M (A : Type) : Type := world -> outcome A * world.

Definition ret {A} (a : A) : M A := fun w => (Ok a, w).

Definition bind {A B} (c : M A) (k : A -> M B) : M B :=
fun w =>
  match c w with
  | (Ok a, w') => k a w'
  | (Raise e, w') => (Raise e, w')
  end.

Definition raise {A} (e : exn) : M A := fun w => (Raise e, w).

(** [try: c  except <handles>: h]; the handler may raise again. *)
Definition try_except {A} (c : M A) (handles : exn -> bool) (h : exn -> M A)
  : M A :=
fun w =>
  match c w with
  | (Ok a, w') => (Ok a, w')
  | (Raise e, w') => if handles e then h e w' else (Raise e, w')
  end.

Notation "'do' x <- c ; k" := (bind c (fun x => k))
  (at level 10, x name, c at level 100, k at level 200).
Notation "'run' c ; k" := (bind c (fun _ => k))
  (at level 10, c at level 100, k at level 200).

Definition get_fs : M node := fun w => (Ok (fs w), w).

Definition set_fs (n : node) : M unit :=
fun w => (Ok tt, {| fs := n; now := now w;
                    last_used_save_info := last_used_save_info w;
                    io_errors := io_errors w; trace := trace w |}).

Definition log (e : event) : M unit :=
fun w => (Ok tt, {| fs := fs w; now := now w;
                    last_used_save_info := last_used_save_info w;
                    io_errors := io_errors w; trace := trace w ++ [e] |}).

Definition set_last_used (o : option SaveInfo) : M unit :=
fun w => (Ok tt, {| fs := fs w; now := now w; last_used_save_info := o;
                    io_errors := io_errors w; trace := trace w |}).

Definition lift {A} (o : outcome A) : M A := fun w => (o, w).

(** [for x in l: body(x)] *)
Fixpoint for_each {A} (l : list A) (body : A -> M unit) : M unit :=
match l with
| [] => ret tt
| x :: l' => run body x; for_each l' body
end.

(** ** [os], [shutil], [glob] and [json] *)

Module Os.

Import Py.

Definition find (p : str) (root : node) : option node := lookup_at (parts p) root.

Definition exists_ (p : str) : M bool :=
  do n <- get_fs; ret (bool_decide (is_Some (find p n))).

Definition isfile (p : str) : M bool :=
  do n <- get_fs;
  ret (match find p n with Some (File _ _) => true | _ => false end).

Definition isdir (p : str) : M bool :=
  do n <- get_fs;
  ret (match find p n with Some (Dir _ _) => true | _ => false end).

Definition listdir (p : str) : M (list str) :=
  do n <- get_fs;
  match find p n with
  | Some (Dir _ es) => ret (map fst es)
  | Some (File _ _) => raise NotADirectoryError
  | None => raise FileNotFoundError
  end.

(** A write at [p] that the disk refuses. *)
Definition check_io (p : str) : M unit :=
fun w => if bool_decide (p ∈ io_errors w) then (Raise OSError, w) else (Ok tt, w).

Definition clock_ns : M Z := fun w => (Ok (now w * 1000000), w).

Definition makedirs (p : str) (exist_ok : bool) : M unit :=
  run (if bool_decide (p = "") then raise FileNotFoundError else ret tt);
  run check_io p;
  do n <- get_fs;
  do t <- clock_ns;
  do n' <- lift (makedirs_at exist_ok t (parts p) n);
  run set_fs n';
  log (EvMakedirs p).

(** [st_mtime] of a time of [ns] nanoseconds, as CPython fills it from
    the [timespec] of the file: [sec + 1e-9 * nsec] in binary64. *)
Definition st_mtime (ns : Z) : Float.float :=
Float.add (Float.of_int (ns / 1000000000))
          (Float.mul Float.nano (Float.of_int (ns mod 1000000000))).

(** [os.path.getmtime(p)] *)
Definition getmtime (p : str) : M Float.float :=
  do n <- get_fs;
  match find p n with
  | Some (File _ t) => ret (st_mtime t)
  | Some (Dir t _) => ret (st_mtime t)
  | None => raise FileNotFoundError
  end.

(** What [os.remove] is given: a path, or by mistake an open file. *)
Inductive remove_arg :=
| Path (p : str)
| FileObject (p : str).

(** [os.remove(a)]: a [TypeError] unless [a] is a path. *)
Definition remove (a : remove_arg) : M unit :=
match a with
| FileObject _ => raise TypeError
| Path p =>
    do n <- get_fs;
    match find p n with
    | Some (File _ _) =>
        do n' <- lift (alter_at (parts p) (fun _ => Ok None) n);
        run set_fs n';
        log (EvRemove p)
    | Some (Dir _ _) => raise IsADirectoryError
    | None => raise FileNotFoundError
    end
end.

(** [with open(p) as f], for reading. *)
Definition open_read (p : str) : M content :=
  do n <- get_fs;
  match find p n with
  | Some (File c _) => ret c
  | Some (Dir _ _) => raise IsADirectoryError
  | None => raise FileNotFoundError
  end.

(** Put a file at [p], as [open(p, 'w')] and the write do: the directory of
    [p] must exist and [p] must not be a directory. *)
Definition put_file (p : str) (c : content) (t : Z) : M unit :=
  run check_io p;
  do n <- get_fs;
  do n' <- lift (alter_at (parts p)
                (fun o => match o with
                          | Some (Dir _ _) => Raise IsADirectoryError
                          | _ => Ok (Some (File c t))
                          end) n);
  set_fs n'.

(** [shutil.copy2(src, dst)]: the content and the modification time of
    [src]; into the directory [dst] when [dst] is one.  Two paths are the
    same file when they have the same components. *)
Definition copy2 (src dst : str) : M unit :=
  do d <- isdir dst;
  let dst := if d then PosixPath.join2 dst (PosixPath.basename src) else dst in
  do n <- get_fs;
  match find src n with
  | Some m =>
      if bool_decide (parts src = parts dst) then raise SameFileError
      else
        match m with
        | File c t => run put_file dst c t; log (EvCopy src dst)
        | Dir _ _ => raise IsADirectoryError
        end
  | None => raise FileNotFoundError
  end.

(** [shutil.rmtree(p, ignore_errors=True)]: removes a directory, and does
    nothing to what is no directory. *)
Definition rmtree (p : str) : M unit :=
  do n <- get_fs;
  match find p n with
  | Some (Dir _ _) =>
      match alter_at (parts p) (fun _ => Ok None) n with
      | Ok n' => run set_fs n'; log (EvRmtree p)
      | Raise _ => ret tt
      end
  | _ => ret tt
  end.

(** [fnmatch.fnmatch(name, pat)] for patterns of literal characters, [?]
    and [*]; bracket expressions are not modelled. *)
Fixpoint fnmatch (pat name : str) : bool :=
match pat with
| [] => bool_decide (name = [])
| c :: pat' =>
    if bool_decide (c = "*"%char) then
      (fix star (name : str) : bool :=
         fnmatch pat' name
         || match name with
            | [] => false
            | _ :: name' => star name'
            end) name
    else
      match name with
      | [] => false
      | d :: name' =>
          (bool_decide (c = "?"%char) || bool_decide (c = d))
          && fnmatch pat' name'
      end
end.

Definition has_magic (s : str) : bool :=
existsb (fun c => bool_decide (c ∈ "*?[")) s.

Definition ishidden (s : str) : bool := startswith s ".".

(** [glob.glob(pathname)] when only the last component of [pathname] has
    wildcards: the entries of its directory that match, in [os.listdir]
    order, and none when the directory cannot be listed. *)
Definition glob (pathname : str) : M (list str) :=
  let dirname := PosixPath.dirname pathname in
  let pattern := PosixPath.basename pathname in
  if negb (has_magic pathname) then
    do e <- exists_ pathname; ret (if e then [pathname] else [])
  else
    do names <- try_except (listdir dirname) is_OSError (fun _ => ret []);
    let names := if ishidden pattern then names
                 else List.filter (fun x => negb (ishidden x)) names in
    ret (map (PosixPath.join2 dirname) (List.filter (fnmatch pattern) names)).

(** Text mode: [\r\n] and [\r] are read as [\n]. *)
Fixpoint universal_newlines (s : str) : str :=
match s with
| [] => []
| c :: s' =>
    if bool_decide (c = CR) then
      match s' with
      | d :: _ => if bool_decide (d = LF) then universal_newlines s'
                  else LF :: universal_newlines s'
      | [] => [LF]
      end
    else c :: universal_newlines s'
end.

(** [open(p).read()].  The text of a JSON document is not modelled. *)
Definition read_text (p : str) : M str :=
  do c <- open_read p;
  match c with
  | Text s => ret (universal_newlines s)
  | Json _ => raise UnicodeDecodeError
  end.

(** [for line in f]: the lines with their line ends; [cur] is the line
    being read, last character first. *)
Fixpoint lines_from (cur s : str) : list str :=
match s with
| [] => if bool_decide (cur = []) then [] else [rev cur]
| c :: s' =>
    if bool_decide (c = LF) then rev (c :: cur) :: lines_from [] s'
    else lines_from (c :: cur) s'
end.

Definition readlines (p : str) : M (list str) :=
  do s <- read_text p; ret (lines_from [] s).

(** [json.load(j)] on the content of an open file. *)
Definition json_load (j : content) : M SaveInfo :=
match j with
| Json si => ret si
| Text _ => raise JSONDecodeError
end.

(** [with open(p, 'w') as fp: json.dump(si, fp, indent=1)] *)
Definition json_dump (si : SaveInfo) (p : str) : M unit :=
  do t <- clock_ns;
  run put_file p (Json si) t;
  log (EvWrite p).

(** [max(l)] with [gt] for [>]: the first of the largest items. *)
Definition max_ {A} (gt : A -> A -> bool) (l : list A) : M A :=
match l with
| [] => raise ValueError
| x :: l' => ret (fold_left (fun m y => if gt y m then y else m) l' x)
end.

(** [int(round(x))] *)
Definition round_ (x : Float.float) : M Z :=
match Float.rounded x with
| Some z => ret z
| None => raise (if Float.is_nan x then ValueError else OverflowError)
end.

End Os.

(** ** The parsers of Valve's key/value files *)

Import Py.

(** The pattern of [_parse_vcf]: optional space, a quoted key, space, a
    quoted value, optional space. *)
Definition kvMatch : Re.regex :=
[Re.Star Re.Space; Re.Lit dquote; Re.Group Re.Dot; Re.Lit dquote;
 Re.Plus Re.Space; Re.Lit dquote; Re.Group Re.Dot; Re.Lit dquote;
 Re.Star Re.Space].

(** The body of the loop of [_parse_vcf]. *)
Definition vcf_line (d : gmap str str) (line : str) : gmap str str :=
match Re.fullmatch kvMatch line with
| Some [k; v] => <[k := v]> d
| _ => d
end.

(** [_parse_vcf(path)]: a missing file and any other failure to read it are
    logged.  A file is read as a whole here, so that a failure leaves the
    dictionary empty; Python could fail in the middle of a file and keep the
    entries of the lines before. *)
Definition _parse_vcf (path : str) : M (gmap str str) :=
try_except
  (do lines <- Os.readlines path;
   ret (fold_left vcf_line lines ∅))
  (fun _ => true)
  (fun _ => ret ∅).

(** ** The engine *)

Definition assert (b : bool) : M unit :=
if b then ret tt else raise AssertionError.

Definition with_roots (gi : GameInfo) (roots : list (str * str)) : GameInfo :=
{| install_root := install_root gi; game_id := game_id gi;
   game_name := game_name gi; save_games_roots := Some roots;
   save_games_root := save_games_root gi |}.

(** [gi["save_games_roots"] = {gi["save_games_root"]: ""}] and
    [del gi["save_games_root"]] *)
Definition upgraded (gi : GameInfo) (root : str) : GameInfo :=
{| install_root := install_root gi; game_id := game_id gi;
   game_name := game_name gi; save_games_roots := Some [(root, "")];
   save_games_root := None |}.

Definition with_game_info (si : SaveInfo) (gi : GameInfo) : SaveInfo :=
{| game_info := gi; timestamp := timestamp si; filename := filename si;
   is_undo := is_undo si |}.

Definition _get_savesdir (self : Engine) : M str :=
  let p := PosixPath.join2 (app_data_dir self) "saves2" in
  do e <- Os.exists_ p;
  run (if negb e then Os.makedirs p false else ret tt);
  ret p.

Definition get_steam_root (self : Engine) : str := steam_dir self.

(** [_get_gamedir(game_id)]: a directory for every account of the set, in
    the order in which the set is iterated. *)
Definition _get_gamedir (self : Engine) (gid : Z) : M (list str) :=
  run assert (0 <? Z.of_nat (length (account_ids self)));
  ret (map (fun account_id =>
              PosixPath.join (get_steam_root self)
                ["userdata"; str_of_int account_id; str_of_int gid])
           (account_ids self)).

Definition _is_on_mmc (self : Engine) (gi : GameInfo) : M bool :=
  run assert (negb (bool_decide (install_root gi = "")));
  ret (startswith (install_root gi) "/run").

Definition _get_steamapps_dir (self : Engine) (gi : GameInfo)
  (is_system_dir : bool) : M str :=
  run assert (negb (bool_decide (install_root gi = "")));
  let d := if negb is_system_dir then install_root gi else get_steam_root self in
  ret (PosixPath.join2 d "steamapps").

Definition _parse_installdir (self : Engine) (gi : GameInfo) : M (option str) :=
  do app_dir <- _get_steamapps_dir self gi false;
  do vcf <- _parse_vcf (PosixPath.join2 app_dir
                          ("appmanifest_" ++ str_of_int (game_id gi) ++ ".acf"));
  ret (vcf !! ("installdir" : str)).

Definition _get_game_saves_root (self : Engine) (gi : GameInfo)
  (is_linux_game is_system_dir : bool) : M str :=
  do steamApps <- _get_steamapps_dir self gi is_system_dir;
  if is_linux_game then
    do installdir <- _parse_installdir self gi;
    match installdir with
    | Some d => ret (PosixPath.join steamApps ["common"; d])
    | None => raise TypeError
    end
  else
    ret (PosixPath.join steamApps
           ["compatdata"; str_of_int (game_id gi); "pfx"; "drive_c"; "users";
            "steamuser"]).

(** [str(Path(p))]: no empty component, no [.] and no slash at the end. *)
Definition pathlib_str (p : str) : str :=
  let body := Py.join PosixPath.sep (parts p) in
  if startswith p PosixPath.sep then PosixPath.sep ++ body
  else if bool_decide (body = "") then "." else body.

Definition _find_autoclouds (self : Engine) (gi : GameInfo)
  (is_linux_game : bool) : M (list str) :=
  do root_dir <- _get_game_saves_root self gi is_linux_game false;
  do n <- get_fs;
  ret (match Os.find root_dir n with
       | Some m => rglob_parents "steam_autocloud.vdf" (pathlib_str root_dir) m
       | None => []
       end).

(** The loop of [_find_save_root_from_autoclouds] over the entries: the
    state is [prevR] and [firstDifference]. *)
Definition scan_step (st : str * Z) (r : str) : str * Z :=
let '(prevR, firstDifference) := st in
let index := first_diff prevR r in
(r, match index with
    | Some i => if Z.of_nat i <? firstDifference then Z.of_nat i
                else firstDifference
    | None => firstDifference
    end).

Definition _find_save_root_from_autoclouds (self : Engine) (gi : GameInfo)
  (rcf : list str) (autocloud : str) : option str :=
match rcf with
| [] => None
| r0 :: _ =>
    let '(prevR, firstDifference) := fold_left scan_step rcf (r0, len r0) in
    let rPrefix := slice None (Some firstDifference) prevR in
    let dirSplit := rfind rPrefix slash in
    let autocloud :=
      if negb (dirSplit =? -1) then
        let rPrefix := slice None (Some dirSplit) rPrefix in
        let autoTail := slice (Some (- len rPrefix)) None autocloud in
        if bool_decide (autoTail = rPrefix)
        then slice None (Some (- len rPrefix)) autocloud
        else autocloud
      else autocloud in
    Some (PosixPath.normpath autocloud)
end.

Definition _rcf_is_valid (self : Engine) (root_dir : str) (rcf : list str)
  : M bool :=
  do n <- get_fs;
  ret (existsb (fun f =>
                  match Os.find (PosixPath.join2 root_dir f) n with
                  | Some (File _ _) => true
                  | _ => false
                  end) rcf).

(** [filter(lambda r: self._rcf_is_valid(r, rcf), roots)] *)
Fixpoint filter_valid (self : Engine) (rcf roots : list str) : M (list str) :=
match roots with
| [] => ret []
| r :: roots' =>
    do ok <- _rcf_is_valid self r rcf;
    do rest <- filter_valid self rcf roots';
    ret (if ok then r :: rest else rest)
end.

Definition windowsRoots : list str :=
["Documents"; "Application Data"; PosixPath.join2 "AppData" "LocalLow";
 PosixPath.join2 "Local Settings" "Application Data"].

Definition addRoots (self : Engine) (gi : GameInfo) (is_system_dir : bool)
  : M (list str) :=
  do l <- _get_game_saves_root self gi true is_system_dir;
  do r <- _get_game_saves_root self gi false is_system_dir;
  ret (l :: map (PosixPath.join2 r) windowsRoots).

Definition _search_likely_locations (self : Engine) (gi : GameInfo)
  (rcf : list str) : M (list str) :=
  do mmc <- _is_on_mmc self gi;
  do sys <- (if mmc then addRoots self gi true else ret []);
  do own <- addRoots self gi false;
  filter_valid self rcf (sys ++ own).

(** [list(dict.fromkeys(l))]: the first occurrence of every element. *)
Fixpoint dedup_first (seen l : list str) : list str :=
match l with
| [] => []
| x :: l' =>
    if bool_decide (x ∈ seen) then dedup_first seen l'
    else x :: dedup_first (x :: seen) l'
end.

Fixpoint existing_dirs (ps : list str) : M (list str) :=
match ps with
| [] => ret []
| p :: ps' =>
    do d <- Os.isdir p;
    do rest <- existing_dirs ps';
    ret (if d then p :: rest else rest)
end.

Definition _find_save_games (self : Engine) (gi : GameInfo) (rcf : list str)
  : M (list str) :=
  do dirs <- _get_gamedir self (game_id gi);
  do foundDirs <-
    existing_dirs
      (flat_map (fun d => [PosixPath.join2 d "remote";
                           PosixPath.join2 d (PosixPath.join2 "ac" "LinuxXdgDataHome")])
                dirs);
  do installdir <- _parse_installdir self gi;
  if match installdir with Some d => negb (bool_decide (d = "")) | None => false end then
    do likely <- _search_likely_locations self gi rcf;
    do autoclouds <- _find_autoclouds self gi true;
    do autoclouds <- (if (length autoclouds <? 1)%nat
                      then _find_autoclouds self gi false
                      else ret autoclouds);
    let autoRoots :=
      omap (fun f =>
              match _find_save_root_from_autoclouds self gi rcf f with
              | Some r => if bool_decide (r = "") then None else Some r
              | None => None
              end) autoclouds in
    ret (dedup_first [] (foundDirs ++ likely ++ autoRoots))
  else
    ret foundDirs.

(** The loop of [_read_rcf] over the lines of one manifest: the state is
    [rcf], [prevl] and [skipping]. *)
Definition rcf_step (st : list str * option str * bool) (l : str)
  : list str * option str * bool :=
let '(rcf, prevl, skipping) := st in
let s := strip l in
if skipping then
  (rcf, prevl, if bool_decide (s = "}") then false else skipping)
else if bool_decide (s = "{") then
  match prevl with
  | Some p =>
      if bool_decide (p = "") then (rcf, prevl, true)
      else (rcf ++ [slice None (Some (-1)) (slice (Some 1) None p)], None, true)
  | None => (rcf, prevl, true)
  end
else (rcf, Some s, skipping).

(** The body of the loop of [_read_rcf] over the manifests. *)
Definition read_one_rcf (rcf : list str) (path : str) : M (list str) :=
  do f <- Os.isfile path;
  if f then
    do s <- Os.read_text path;
    let lines := slice (Some 2) None (split LF s) in
    ret (fold_left rcf_step lines (rcf, None, false)).1.1
  else ret rcf.

Fixpoint read_all_rcf (rcf : list str) (paths : list str) : M (list str) :=
match paths with
| [] => ret rcf
| p :: paths' => do rcf' <- read_one_rcf rcf p; read_all_rcf rcf' paths'
end.

(** [enumerate(saveRoots)] into the dictionary from a root to its suffix. *)
Fixpoint roots_dict (idx : Z) (d : list (str * str)) (saveRoots : list str)
  : list (str * str) :=
match saveRoots with
| [] => d
| dir :: rest =>
    roots_dict (idx + 1)
      (assoc_set dir (if idx =? 0 then "" else "_" ++ str_of_int idx) d) rest
end.

(** [_read_rcf(game_info)]: the manifest entries or [None], and the
    game-info, which the Python code updates in place. *)
Definition _read_rcf (self : Engine) (gi : GameInfo)
  : M (option (list str) * GameInfo) :=
  do dirs <- _get_gamedir self (game_id gi);
  let paths := map (fun d => PosixPath.join2 d "remotecache.vdf") dirs in
  do rcf <- read_all_rcf [] paths;
  match save_games_roots gi with
  | None =>
      do saveRoots <- _find_save_games self gi rcf;
      if (length saveRoots <? 1)%nat then ret (None, gi)
      else
        do saveRoots <- filter_valid self rcf saveRoots;
        if (length saveRoots <? 1)%nat then ret (None, gi)
        else ret (Some rcf, with_roots gi (roots_dict 0 [] saveRoots))
  | Some _ => ret (Some rcf, gi)
  end.

Definition _get_game_roots (gi : GameInfo) : M (list (str * str)) :=
match save_games_roots gi with
| Some roots => ret roots
| None => raise KeyError
end.

Definition _copy_by_rcf (self : Engine) (rcf : list str) (src_dir dest_dir : str)
  : M unit :=
  for_each rcf (fun k =>
    let spath := PosixPath.join2 src_dir k in
    do e <- Os.exists_ spath;
    if e then
      let dpath := PosixPath.join2 dest_dir k in
      if negb (dry_run self) then
        run Os.makedirs (PosixPath.dirname dpath) true;
        Os.copy2 spath dpath
      else ret tt
    else ret tt).

Fixpoint existing_mtimes (ps : list str) : M (list Float.float) :=
match ps with
| [] => ret []
| p :: ps' =>
    do e <- Os.exists_ p;
    if e then
      do t <- Os.getmtime p;
      do rest <- existing_mtimes ps';
      ret (t :: rest)
    else existing_mtimes ps'
end.

Definition _get_directory_timestamp (self : Engine) (rcf : list str)
  (src_dir : str) : M Z :=
  do m_times <- existing_mtimes (map (PosixPath.join2 src_dir) rcf);
  do m <- Os.max_ Float.gt m_times;
  Os.round_ (Float.mul m (Float.of_int 1000)).

Fixpoint map_M {A B} (f : A -> M B) (l : list A) : M (list B) :=
match l with
| [] => ret []
| x :: l' => do y <- f x; do ys <- map_M f l'; ret (y :: ys)
end.

Definition _get_rcf_timestamp (self : Engine) (rcf : list str) (gi : GameInfo)
  : M Z :=
  do roots <- _get_game_roots gi;
  do dir_times <- map_M (_get_directory_timestamp self rcf) (map fst roots);
  Os.max_ Z.gtb dir_times.

Definition _saveinfo_to_dir (self : Engine) (si : SaveInfo) : M str :=
  do d <- _get_savesdir self;
  ret (PosixPath.join2 d (filename si)).

(** [f'{ "undo" if is_undo else "save" }_{ game_id }_{ ts }'] *)
Definition snapshot_name (undo : bool) (gid ts : Z) : str :=
(if undo then "undo" else "save") ++ "_" ++ str_of_int gid ++ "_" ++ str_of_int ts.

Definition time_ms : M Z := fun w => (Ok (now w), w).

Definition _create_savedir (self : Engine) (gi : GameInfo) (undo : bool)
  : M SaveInfo :=
  do roots <- _get_game_roots gi;
  run assert (negb (bool_decide (roots = [])));
  do ts <- time_ms;
  let si := {| game_info := gi; timestamp := ts;
               filename := snapshot_name undo (game_id gi) ts;
               is_undo := undo |} in
  do path <- _saveinfo_to_dir self si;
  run (if negb (dry_run self) then Os.json_dump si (path ++ ".json") else ret tt);
  ret si.

Definition _file_to_saveinfo (self : Engine) (name : str) : M SaveInfo :=
  do dir <- _get_savesdir self;
  let p := PosixPath.join2 dir name in
  do j <- Os.open_read p;
  try_except
    (do si <- Os.json_load j;
     let gi := game_info si in
     match save_games_roots gi with
     | Some _ => ret si
     | None =>
         match save_games_root gi with
         | Some root => ret (with_game_info si (upgraded gi root))
         | None => raise KeyError
         end
     end)
    (fun e => bool_decide (e = JSONDecodeError))
    (fun e =>
       run try_except (Os.remove (Os.FileObject p)) is_OSError (fun _ => ret tt);
       raise e).

Definition _delete_savedir (self : Engine) (name : str) : M unit :=
  do root <- _get_savesdir self;
  run assert (startswith root "/");
  let filepath := PosixPath.join2 root name ++ "*" in
  do files <- Os.glob filepath;
  for_each files (fun f =>
    try_except
      (do isf <- Os.isfile f;
       if isf then Os.remove (Os.Path f)
       else
         do isd <- Os.isdir f;
         if isd then Os.rmtree f else ret tt)
      is_OSError
      (fun _ => ret tt)).

(** [infos.sort(key=lambda i: i["timestamp"], reverse=True)]: a stable sort,
    the largest timestamp first. *)
Fixpoint insert_desc (x : SaveInfo) (l : list SaveInfo) : list SaveInfo :=
match l with
| [] => [x]
| y :: l' => if timestamp x <? timestamp y then y :: insert_desc x l' else x :: l
end.

Definition sort_desc (l : list SaveInfo) : list SaveInfo := foldr insert_desc [] l.

Definition attempt_saveinfo (self : Engine) (f : str) : M (option SaveInfo) :=
try_except
  (do si <- _file_to_saveinfo self f; ret (Some si))
  (fun _ => true)
  (fun _ => ret None).

Definition get_saveinfos (self : Engine) : M (list SaveInfo) :=
  do dir <- _get_savesdir self;
  do names <- Os.listdir dir;
  let files := List.filter (fun f => endswith f ".json") names in
  do attempts <- map_M (attempt_saveinfo self) files;
  let infos := sort_desc (omap id attempts) in
  let undos := List.filter is_undo infos in
  let saves := List.filter (fun i => negb (is_undo i)) infos in
  ret (undos ++ saves).

(** [delete_oldest(files, to_keep)] of [_cull_old_saves]; [files] is given
    with its last element first. *)
Fixpoint delete_oldest (self : Engine) (files : list SaveInfo) (to_keep : Z)
  : M unit :=
if to_keep <? Z.of_nat (length files) then
  match files with
  | [] => raise IndexError
  | todel :: files' =>
      run _delete_savedir self (filename todel);
      delete_oldest self files' to_keep
  end
else ret tt.

Definition _cull_old_saves (self : Engine) : M unit :=
  do infos <- get_saveinfos self;
  let undos := List.filter is_undo infos in
  let saves := List.filter (fun i => negb (is_undo i)) infos in
  run delete_oldest self (rev undos) 1;
  delete_oldest self (rev saves) (max_saves self).

Definition _get_newest_save (self : Engine) (gid : Z) : M (option SaveInfo) :=
  do infos <- get_saveinfos self;
  ret (List.find (fun x => bool_decide (game_id (game_info x) = gid)
                           && negb (is_undo x)) infos).

Definition _copy_all_to_saveinfo (self : Engine) (si : SaveInfo) (rcf : list str)
  : M unit :=
try_except
  (let gi := game_info si in
   do dest_basename <- _saveinfo_to_dir self si;
   do gameRoots <- _get_game_roots gi;
   for_each gameRoots (fun '(src_dir, suffix) =>
     _copy_by_rcf self rcf src_dir (dest_basename ++ suffix)))
  (fun _ => true)
  (fun e => run _delete_savedir self (filename si); raise e).

Definition _copy_all_from_saveinfo (self : Engine) (si : SaveInfo)
  (rcf : list str) : M unit :=
  let gi := game_info si in
  do mirror_basename <- _saveinfo_to_dir self si;
  do gameRoots <- _get_game_roots gi;
  for_each gameRoots (fun '(dest_dir, suffix) =>
    _copy_by_rcf self rcf (mirror_basename ++ suffix) dest_dir).

(** [not rcf] *)
Definition no_rcf (rcf : option (list str)) : bool :=
match rcf with
| Some (_ :: _) => false
| _ => true
end.

(** [do_backup(game_info, apply_last_used, dry_run)]: the result and the
    game-info as [_read_rcf] left it. *)
Definition do_backup (self : Engine) (gi : GameInfo)
  (apply_last_used dry : bool) : M (backup_result * GameInfo) :=
  do r <- _read_rcf self gi;
  let '(rcf, gi) := r in
  if no_rcf rcf then ret (NoBackup, gi)
  else
    let rcf := default [] rcf in
    do newest_save <- _get_newest_save self (game_id gi);
    do skip <-
      match newest_save with
      | Some newest =>
          if ignore_unchanged self then
            do game_timestamp <- _get_rcf_timestamp self rcf gi;
            ret (game_timestamp <? timestamp newest)
          else ret false
      | None => ret false
      end;
    if skip then ret (NoBackup, gi)
    else if negb dry then
      do saveInfo <- _create_savedir self gi false;
      run _copy_all_to_saveinfo self saveInfo rcf;
      run (if apply_last_used then set_last_used (Some saveInfo) else ret tt);
      run _cull_old_saves self;
      ret (Backup saveInfo, gi)
    else ret (WouldBackup, gi).

Definition do_restore (self : Engine) (si : SaveInfo) : M unit :=
  let gi := game_info si in
  do r <- _read_rcf self gi;
  let '(rcf, gi) := r in
  run assert (negb (no_rcf rcf));
  let rcf := default [] rcf in
  let si := with_game_info si gi in
  run (if negb (is_undo si) then
         do undoInfo <- _create_savedir self gi true;
         _copy_all_to_saveinfo self undoInfo rcf
       else ret tt);
  run _copy_all_from_saveinfo self si rcf;
  run _cull_old_saves self;
  set_last_used (Some si).

Definition do_delete (self : Engine) (si : SaveInfo) : M unit :=
  _delete_savedir self (filename si).

Definition get_last_used_save_info : M (option SaveInfo) :=
fun w => (Ok (last_used_save_info w), w).

Definition do_reuse (self : Engine) : M unit :=
  do o <- get_last_used_save_info;
  match o with
  | None => ret tt
  | Some si =>
      let gi := game_info si in
      do r <- _read_rcf self gi;
      let '(rcf, gi) := r in
      run assert (negb (no_rcf rcf));
      let rcf := default [] rcf in
      let si := with_game_info si gi in
      run _copy_all_from_saveinfo self si rcf;
      do reuse_info <- _create_savedir self gi false;
      run _copy_all_to_saveinfo self reuse_info rcf;
      run set_last_used (Some reuse_info);
      do_delete self si
  end.

(** ** The common-prefix algorithm in the words of the specification *)

Module CommonPrefix.

(** The longest common prefix of two strings and of a list of strings. *)
Fixpoint lcp2 (a b : str) : str :=
match a, b with
| c :: a', d :: b' => if bool_decide (c = d) then c :: lcp2 a' b' else []
| _, _ => []
end.

Definition longest_common_prefix (l : list str) : str :=
match l with
| [] => []
| x :: l' => fold_left lcp2 l' x
end.

(** The prefix trimmed back to its last separator, the separator left out;
    [None] when it has no separator. *)
Fixpoint trimmed (p : str) : option str :=
match p with
| [] => None
| c :: p' =>
    match trimmed p' with
    | Some t => Some (c :: t)
    | None => if bool_decide (c = slash) then Some [] else None
    end
end.

(** The marker directory without the suffix [p], when it ends with [p]. *)
Definition stripped (marker p : str) : str :=
if bool_decide (p `suffix_of` marker)
then take (length marker - length p) marker
else marker.

(** The save root before it is normalised. *)
Definition raw_save_root (rcf : list str) (marker : str) : str :=
match trimmed (longest_common_prefix rcf) with
| Some p => stripped marker p
| None => marker
end.

(** The save root as the specification describes it: the marker directory
    is returned as it is when nothing is stripped. *)
Definition described_save_root (rcf : list str) (marker : str) : str :=
match trimmed (longest_common_prefix rcf) with
| Some p =>
    if bool_decide (p `suffix_of` marker)
    then PosixPath.normpath (take (length marker - length p) marker)
    else marker
| None => marker
end.

(** No entry is a proper prefix of the entry after it or before it. *)
Fixpoint chain_free (prev : str) (l : list str) : Prop :=
match l with
| [] => True
| r :: l' =>
    ((prev `prefix_of` r \/ r `prefix_of` prev) -> prev = r) /\ chain_free r l'
end.

Definition prefix_free_neighbours (rcf : list str) : Prop :=
match rcf with
| [] => True
| r0 :: l => chain_free r0 l
end.

End CommonPrefix.

(** ** Lines of a key/value file, in the words of the specification *)

Module KeyValue.

Definition spaces (w : str) : Prop := Forall (fun c => isspace c = true) w.

(** The line is ["k" "v"] with space around and between the two quoted
    strings; [k] and [v] are not empty and do not hold a line feed. *)
Definition line_form (k v line : str) : Prop :=
exists w1 w2 w3,
  line = w1 ++ [dquote] ++ k ++ [dquote] ++ w2 ++ [dquote] ++ v ++ [dquote] ++ w3
  /\ spaces w1 /\ spaces w2 /\ w2 <> [] /\ spaces w3
  /\ k <> [] /\ v <> [] /\ (LF ∉ k) /\ (LF ∉ v).

(** A line with quotes inside the key or the value may have the form in
    several ways; the split with the longest key is the one that counts. *)
Definition reads_as (line k v : str) : Prop :=
line_form k v line
/\ forall k' v', line_form k' v' line -> (length k' <= length k)%nat.

(** The value of [k] in the lines: the one of the last line that reads as
    an entry for [k]. *)
Definition last_value (lines : list str) (k v : str) : Prop :=
exists before line after,
  lines = before ++ line :: after
  /\ reads_as line k v
  /\ forall l v', l ∈ after -> ~ reads_as l k v'.

(** The part of [kvMatch] after the key. *)
Definition after_key : Re.regex :=
[Re.Lit dquote; Re.Plus Re.Space; Re.Lit dquote; Re.Group Re.Dot; Re.Lit dquote;
 Re.Star Re.Space].

(** Counting the quotes of a line. *)
Definition quotes (s : str) : nat :=
length (List.filter (fun c => bool_decide (c = dquote)) s).

End KeyValue.

(** The declarative reading of a pattern: [matches r s gs] when [s] splits
    into pieces, one for each item of [r], and [gs] are the pieces of the
    groups. *)
Module ReSpec.

Import Re.

Definition all_in (k : cls) (w : str) : Prop := Forall (fun c => in_cls k c = true) w.

Inductive matches : regex -> str -> list str -> Prop :=
| matches_nil : matches [] [] []
| matches_lit c r s gs :
    matches r s gs -> matches (Lit c :: r) (c :: s) gs
| matches_star k r w s gs :
    all_in k w -> matches r s gs -> matches (Star k :: r) (w ++ s) gs
| matches_plus k r w s gs :
    w <> [] -> all_in k w -> matches r s gs -> matches (Plus k :: r) (w ++ s) gs
| matches_group k r w s gs :
    w <> [] -> all_in k w -> matches r s gs ->
    matches (Group k :: r) (w ++ s) (w :: gs).

End ReSpec.

(** ** The snapshot store, in the words of the specification *)

Module Store.

(** The directory of the store. *)
Definition savesdir (self : Engine) : str :=
PosixPath.join2 (app_data_dir self) "saves2".

(** The store is a directory with the entries [es]. *)
Definition store_is (self : Engine) (w : world) (t : Z) (es : list (str * node))
  : Prop :=
lookup_at (parts (savesdir self)) (fs w) = Some (Dir t es).

(** A name that can be a directory entry. *)
Definition valid_name (n : str) : Prop := n <> "" /\ n <> "." /\ slash ∉ n.

Definition valid_names (es : list (str * node)) : Prop :=
Forall valid_name (map fst es).

(** The characters of a snapshot name: letters, digits, [_] and [-]. *)
Definition name_char (c : ascii) : bool :=
let n := nat_of_ascii c in
((48 <=? n)%nat && (n <=? 57)%nat) || ((65 <=? n)%nat && (n <=? 90)%nat)
|| ((97 <=? n)%nat && (n <=? 122)%nat) || (n =? 95)%nat || (n =? 45)%nat.

Definition plain_name (n : str) : Prop :=
n <> "" /\ Forall (fun c => name_char c = true) n.

(** The tree with the node at [cs] replaced. *)
Fixpoint replace_at (cs : list str) (new : node) (root : node) : node :=
match cs with
| [] => new
| c :: cs' =>
    match root with
    | Dir t es =>
        match assoc_get c es with
        | Some m => Dir t (assoc_set c (replace_at cs' new m) es)
        | None => root
        end
    | File _ _ => root
    end
end.

(** What reading the sidecar [name] gives: the save-info of a JSON document
    that has the roots of its game, in the new or in the old format. *)
Definition load (es : list (str * node)) (name : str) : option SaveInfo :=
match assoc_get name es with
| Some (File (Json si) _) =>
    match save_games_roots (game_info si), save_games_root (game_info si) with
    | Some _, _ => Some si
    | None, Some root => Some (with_game_info si (upgraded (game_info si) root))
    | None, None => None
    end
| _ => None
end.

(** The save-infos of the store in directory order, and as [get_saveinfos]
    orders them. *)
Definition listed (es : list (str * node)) : list SaveInfo :=
omap (load es) (List.filter (fun f => endswith f ".json") (map fst es)).

Definition undos_of (infos : list SaveInfo) : list SaveInfo :=
List.filter is_undo infos.

Definition saves_of (infos : list SaveInfo) : list SaveInfo :=
List.filter (fun i => negb (is_undo i)) infos.

Definition infos_of (es : list (str * node)) : list SaveInfo :=
undos_of (sort_desc (listed es)) ++ saves_of (sort_desc (listed es)).


(** The same, as tests. *)
Definition valid_name_b (n : str) : bool :=
negb (bool_decide (n = "")) && negb (bool_decide (n = "."))
&& forallb (fun c => negb (bool_decide (c = slash))) n.

Definition valid_names_b (es : list (str * node)) : bool :=
forallb valid_name_b (map fst es).



Definition newer (a b : SaveInfo) : Prop := timestamp b <= timestamp a.

(** Newest first. *)
Definition newest_first (infos : list SaveInfo) : Prop :=
forall i j a b, (i < j)%nat -> infos !! i = Some a -> infos !! j = Some b ->
  timestamp b <= timestamp a.

(** The entries that [_delete_savedir(name)] leaves. *)
Definition without (name : str) (es : list (str * node)) : list (str * node) :=
List.filter (fun e => negb (startswith e.1 name)) es.

(** The newest regular snapshot of the game that the store lists. *)
Definition newest_save (gid : Z) (es : list (str * node)) : option SaveInfo :=
List.find (fun x => bool_decide (game_id (game_info x) = gid) && negb (is_undo x))
          (infos_of es).

(** A manifest entry that is a relative path. *)
Definition relative (k : str) : Prop := startswith k "/" = false.

(** A path without a [..] component.  The file system resolves [..] to
    the directory above, which [parts] does not: the properties of the
    files at a path are for paths that are direct. *)
Definition direct (p : str) : Prop := ".." ∉ parts p.

(** A manifest entry that names a file below the directory it is joined
    to: a relative path without a [..] component. *)
Definition inside (k : str) : Prop := relative k /\ direct k.

Definition direct_b (p : str) : bool :=
forallb (fun c => negb (bool_decide (c = ".."))) (parts p).

Definition inside_b (k : str) : bool := negb (startswith k "/") && direct_b k.

(** The save roots of the game are direct paths. *)
Definition direct_roots (gi : GameInfo) : Prop :=
forall roots, save_games_roots gi = Some roots ->
              Forall (fun r : str * str => direct r.1) roots.

(** The suffixes of the payload directories of the game have no [/]. *)
Definition flat_suffixes (gi : GameInfo) : Prop :=
forall roots, save_games_roots gi = Some roots ->
              Forall (fun r : str * str => slash ∉ r.2) roots.

(** No entry of the store has a name that begins with [name]. *)
Definition fresh (name : str) (es : list (str * node)) : Prop :=
Forall (fun n => startswith n name = false) (map fst es).

(** The path of the store is absolute, and has none of the characters
    that [glob] reads as a pattern: [Os.glob] has patterns in the last
    component of a path only. *)
Definition absolute (self : Engine) : Prop :=
startswith (savesdir self) "/" = true /\ Os.has_magic (savesdir self) = false.

(** The state apart from the file system and the events. *)
Definition same_fields (w w' : world) : Prop :=
now w' = now w /\ last_used_save_info w' = last_used_save_info w
/\ io_errors w' = io_errors w.

(** The state after the store has got the entries [es] and the events
    [evs] have happened. *)
Definition with_store (self : Engine) (w : world) (t : Z) (es : list (str * node))
  (evs : list event) : world :=
{| fs := replace_at (parts (savesdir self)) (Dir t es) (fs w);
   now := now w; last_used_save_info := last_used_save_info w;
   io_errors := io_errors w; trace := trace w ++ evs |}.

(** The state [w1] is the state [w], whose store has the entries [es],
    after writes to entries whose names begin with [name]. *)
Definition touched (self : Engine) (name : str) (w : world) (t : Z)
  (es : list (str * node)) (w1 : world) : Prop :=
exists es1 evs,
  w1 = with_store self w t es1 evs /\ valid_names es1
  /\ without name es1 = without name es.

End Store.

Module Retention.

Import Store.



(** The names that [delete_oldest(files, to_keep)] deletes. *)
Definition culled (files : list SaveInfo) (to_keep : nat) : list SaveInfo :=
drop to_keep files.


End Retention.

(** ** Change detection *)

Module Change.

(** The modification time of what is at [p], if anything is. *)
Definition mtime_of (n : node) (p : str) : option Z :=
match Os.find p n with
| Some (File _ t) => Some t
| Some (Dir t _) => Some t
| None => None
end.

(** The modification times of the manifest entries that exist below
    [root]. *)
Definition mtimes (rcf : list str) (n : node) (root : str) : list Z :=
omap (mtime_of n) (map (PosixPath.join2 root) rcf).

(** The largest of the numbers [l], if there is one. *)
Definition maximum (l : list Z) : option Z :=
match l with
| [] => None
| x :: l' => Some (fold_left Z.max l' x)
end.

(** The largest of the floats [l], the first of them, if there is one. *)
Definition latest (l : list Float.float) : option Float.float :=
match l with
| [] => None
| x :: l' => Some (fold_left (fun m y => if Float.gt y m then y else m) l' x)
end.

(** The milliseconds of [x] seconds: [x * 1000], rounded to an integer;
    none when the product is no number. *)
Definition msecs (x : Float.float) : option Z :=
Float.rounded (Float.mul x (Float.of_int 1000)).

(** The time of the last change below [root], in milliseconds: the latest
    [st_mtime] of the manifest entries that exist below [root]. *)
Definition root_change (rcf : list str) (n : node) (root : str) : option Z :=
latest (map Os.st_mtime (mtimes rcf n root)) ≫= msecs.


(** The time of the last change of the game's files, in milliseconds: the
    largest of the times of the last change below the save roots. *)
Definition last_change (roots : list str) (rcf : list str) (n : node) : option Z :=
mapM (root_change rcf n) roots ≫= maximum.


(** The validation contract: at least one manifest entry, joined to the
    root, names a regular file. *)
Definition is_file (n : node) (p : str) : bool :=
match Os.find p n with
| Some (File _ _) => true
| _ => false
end.

Definition valid_root (rcf : list str) (n : node) (root : str) : Prop :=
exists k, k ∈ rcf /\ is_file n (PosixPath.join2 root k) = true.

Definition valid_root_b (rcf : list str) (n : node) (root : str) : bool :=
existsb (fun k => is_file n (PosixPath.join2 root k)) rcf.

End Change.

(** ** The order of the writes, in the words of the specification *)

Module Events.

(** The events of making directories, of the copy phase and of culling. *)
Definition is_makedirs (e : event) : bool :=
match e with
| EvMakedirs _ => true
| _ => false
end.

Definition is_copying (e : event) : bool :=
match e with
| EvMakedirs _ | EvCopy _ _ => true
| _ => false
end.

Definition is_culling (e : event) : bool :=
match e with
| EvMakedirs _ | EvRemove _ | EvRmtree _ => true
| _ => false
end.

Definition no_event (e : event) : bool := false.

(** The path of the sidecar of a snapshot. *)
Definition sidecar_path (self : Engine) (si : SaveInfo) : str :=
PosixPath.join2 (Store.savesdir self) (filename si) ++ ".json".

(** The computation leaves the state as it found it, whatever it
    returns. *)
Definition readonly {A} (c : M A) : Prop := forall w, (c w).2 = w.

(** Every event of the computation is one of [P]. *)
Definition emits {A} (P : event -> bool) (c : M A) : Prop :=
forall w r w', c w = (r, w') ->
  exists evs, trace w' = trace w ++ evs /\ forallb P evs = true.

End Events.

(** ** Example worlds *)

Module Demo.

Definition engine : Engine :=
{| app_data_dir := "/data"; steam_dir := "/steam"; account_ids := [7];
   dry_run := false; max_saves := 50; ignore_unchanged := true |}.

Definition roots : list (str * str) := [("/steam/userdata/7/1/remote", "")].

Definition game (gid : Z) : GameInfo :=
{| install_root := "/steam"; game_id := gid; game_name := "G";
   save_games_roots := Some roots; save_games_root := None |}.

(** The game before its save roots have been looked for. *)
Definition new_game : GameInfo :=
{| install_root := "/steam"; game_id := 1; game_name := "G";
   save_games_roots := None; save_games_root := None |}.

Definition info (undo : bool) (gid ts : Z) : SaveInfo :=
{| game_info := game gid; timestamp := ts;
   filename := snapshot_name undo gid ts; is_undo := undo |}.

(** The sidecar and the payload directory of a snapshot. *)
Definition snapshot (undo : bool) (gid ts : Z) : list (str * node) :=
[(snapshot_name undo gid ts ++ ".json", File (Json (info undo gid ts)) (ts * 1000000));
 (snapshot_name undo gid ts, Dir (ts * 1000000) [("save.dat", File (Text "data") 0)])].

Definition quote : str := [dquote].
Definition tab : str := [ascii_of_nat 9].
Definition nl : str := [LF].

(** A change manifest with the one entry [save.dat]. *)
Definition remotecache : str :=
  quote ++ "1" ++ quote ++ nl ++ "{" ++ nl
  ++ tab ++ quote ++ "ChangeNumber" ++ quote ++ tab ++ tab ++ quote ++ "5" ++ quote ++ nl
  ++ tab ++ quote ++ "save.dat" ++ quote ++ nl
  ++ tab ++ "{" ++ nl
  ++ tab ++ tab ++ quote ++ "root" ++ quote ++ tab ++ tab ++ quote ++ "0" ++ quote ++ nl
  ++ tab ++ "}" ++ nl ++ "}" ++ nl.

(** The file system: the store with the entries [es], and the game 1 of
    the account 7 with the files [saves] in its [remote] directory. *)
Definition disk (es saves : list (str * node)) : node :=
Dir 0 [("data", Dir 0 [("saves2", Dir 0 es)]);
       ("steam", Dir 0 [("userdata", Dir 0 [("7", Dir 0 [("1", Dir 0
          [("remotecache.vdf", File (Text remotecache) 0);
           ("remote", Dir 0 saves)])])])])].

Definition world_of (es saves : list (str * node)) (clock : Z) : world :=
{| fs := disk es saves; now := clock; last_used_save_info := None;
   io_errors := []; trace := [] |}.

(** The state at a later time, with the events forgotten. *)
Definition later (clock : Z) (w : world) : world :=
{| fs := fs w; now := clock; last_used_save_info := last_used_save_info w;
   io_errors := io_errors w; trace := [] |}.


(** The times [from], [from + 1], ..., [n] of them. *)
Definition times (from : Z) (n : nat) : list Z :=
map (fun i => from + Z.of_nat i) (seq 0 n).

(** An engine in dry-run mode. *)
Definition dry_engine : Engine :=
{| app_data_dir := "/data"; steam_dir := "/steam"; account_ids := [7];
   dry_run := true; max_saves := 50; ignore_unchanged := true |}.


(** A store with a sidecar that is no JSON. *)
Definition broken_store : list (str * node) :=
("save_1_100.json", File (Text "{") 0) :: snapshot false 1 200
++ snapshot true 1 150.

(** A key/value file with a repeated key. *)
Definition vcf_text : str :=
  quote ++ "AppState" ++ quote ++ nl ++ "{" ++ nl
  ++ "  " ++ quote ++ "appid" ++ quote ++ "   " ++ quote ++ "10" ++ quote ++ nl
  ++ "  " ++ quote ++ "name" ++ quote ++ " " ++ quote ++ "Baba Is You" ++ quote ++ nl
  ++ "  " ++ quote ++ "appid" ++ quote ++ " " ++ quote ++ "20" ++ quote ++ " " ++ nl
  ++ "}" ++ nl.

Definition vcf_world (text : str) : world :=
{| fs := Dir 0 [("app.acf", File (Text text) 0)];
   now := 0; last_used_save_info := None; io_errors := []; trace := [] |}.

(** The game 1 with a save root that is not there any more, and a
    snapshot of it. *)
Definition stale_game : GameInfo :=
{| install_root := "/steam"; game_id := 1; game_name := "G";
   save_games_roots := Some [("/gone", "")]; save_games_root := None |}.

Definition stale_info : SaveInfo :=
{| game_info := stale_game; timestamp := 100;
   filename := snapshot_name false 1 100; is_undo := false |}.

Definition stale_store : list (str * node) :=
[(snapshot_name false 1 100 ++ ".json", File (Json stale_info) 100000000);
 (snapshot_name false 1 100, Dir 100000000 [("save.dat", File (Text "data") 0)])].

(** A save file of the game. *)
Definition save_dat (t : Z) : list (str * node) :=
[("save.dat", File (Text "data") t)].

(** The state in which the writes to the paths [ps] fail. *)
Definition failing (ps : list str) (w : world) : world :=
{| fs := fs w; now := now w; last_used_save_info := last_used_save_info w;
   io_errors := ps; trace := trace w |}.


(** The game writes its save file at the time [t], in milliseconds. *)
Definition play (t : Z) (w : world) : world :=
{| fs := Store.replace_at ["steam"; "userdata"; "7"; "1"; "remote"; "save.dat"]
           (File (Text "data") (t * 1000000)) (fs w);
   now := t; last_used_save_info := last_used_save_info w;
   io_errors := io_errors w; trace := trace w |}.

(** The game is played and backed up at each of the times [ts]: the
    snapshots made, or nothing when a backup made none. *)
Fixpoint backups (self : Engine) (ts : list Z) (w : world)
  : option (list SaveInfo) * world :=
match ts with
| [] => (Some [], w)
| t :: ts' =>
    match do_backup self (game 1) false false (play t w) with
    | (Ok (Backup si, _), w1) =>
        match backups self ts' w1 with
        | (Some l, w2) => (Some (si :: l), w2)
        | r => r
        end
    | (_, w1) => (None, w1)
    end
end.

End Demo.

(** ** The library list, the accounts and the scans *)

(** The pattern of [_parse_libs]: optional space, the quoted key [path],
    space, a quoted value, optional space. *)
Definition libMatch : Re.regex :=
[Re.Star Re.Space; Re.Lit dquote; Re.Lit "p"; Re.Lit "a"; Re.Lit "t"; Re.Lit "h";
 Re.Lit dquote; Re.Plus Re.Space; Re.Lit dquote; Re.Group Re.Dot; Re.Lit dquote;
 Re.Star Re.Space].

(** The body of the loop of [_parse_libs]. *)
Definition libs_line (d : list str) (line : str) : list str :=
match Re.fullmatch libMatch line with
| Some [v] => d ++ [v]
| _ => d
end.

(** [_parse_libs(path)]: nothing is caught here. *)
Definition _parse_libs (path : str) : M (list str) :=
  do lines <- Os.readlines path;
  ret (fold_left libs_line lines []).

(** [_get_all_library()] *)
Definition _get_all_library (self : Engine) : M (list str) :=
  let app_dir := PosixPath.join2 (get_steam_root self) "steamapps" in
  _parse_libs (PosixPath.join2 app_dir "libraryfolders.vdf").

(** [str.isnumeric] on the characters below 256: the digits, the
    superscripts 1, 2 and 3 and the fractions 1/4, 1/2 and 3/4. *)
Definition numeric_char (c : ascii) : bool :=
let n := nat_of_ascii c in
((48 <=? n)%nat && (n <=? 57)%nat) || (n =? 178)%nat || (n =? 179)%nat
|| (n =? 185)%nat || (n =? 188)%nat || (n =? 189)%nat || (n =? 190)%nat.

Definition isnumeric (s : str) : bool :=
negb (bool_decide (s = "")) && forallb numeric_char s.

Definition decimal_char (c : ascii) : bool :=
let n := nat_of_ascii c in (48 <=? n)%nat && (n <=? 57)%nat.

(** The number that the decimal digits [s] write, after [acc]. *)
Definition decimal_value (acc : Z) (s : str) : Z :=
fold_left (fun a c => 10 * a + (Z.of_nat (nat_of_ascii c) - 48)) s acc.

(** The digits of the groups of a literal with underscores: no group is
    empty and every character is a decimal digit. *)
Definition digits_of_groups (gs : list str) : option str :=
if forallb (fun g => negb (bool_decide (g = "")) && forallb decimal_char g) gs
then Some (concat gs) else None.

(** [int(s)] for a [str]: space around, a sign, decimal digits with single
    underscores between them, and at most 4300 digits. *)
Definition int_ (s : str) : M Z :=
  let t := strip s in
  let '(neg, body) :=
    match t with
    | c :: rest =>
        if bool_decide (c = "-"%char) then (true, rest)
        else if bool_decide (c = "+"%char) then (false, rest)
        else (false, t)
    | [] => (false, t)
    end in
  match digits_of_groups (split "_"%char body) with
  | Some ds =>
      if (4300 <? length ds)%nat then raise ValueError
      else ret (if neg then - decimal_value 0 ds else decimal_value 0 ds)
  | None => raise ValueError
  end.

(** [self.account_ids.add(id_num)].  The set of accounts is a list without
    duplicates; a new account is put last, which need not be its place
    when Python iterates over the set. *)
Definition add_account_id (self : Engine) (id_num : Z) : Engine :=
{| app_data_dir := app_data_dir self; steam_dir := steam_dir self;
   account_ids := if bool_decide (id_num ∈ account_ids self) then account_ids self
                  else account_ids self ++ [id_num];
   dry_run := dry_run self; max_saves := max_saves self;
   ignore_unchanged := ignore_unchanged self |}.

(** [auto_set_account_id()]: the numbers found, and the engine with them
    as accounts. *)
Definition auto_set_account_id (self : Engine) : M (list Z * Engine) :=
  do files <- Os.listdir (PosixPath.join2 (get_steam_root self) "userdata");
  do ids <- map_M (fun f =>
                     if isnumeric f && negb (bool_decide (f = "0"))
                     then do i <- int_ f; ret (Some i)
                     else ret None) files;
  let ids := omap id ids in
  ret (ids, fold_left add_account_id ids self).

(** [try_rcf(info)] of [find_supported]: the manifest, or [None] after any
    exception, and the game-info as it is afterwards. *)
Definition try_rcf (self : Engine) (info : GameInfo)
  : M (option (list str) * GameInfo) :=
try_except (_read_rcf self info) (fun _ => true) (fun _ => ret (None, info)).

(** [find_supported(game_infos)]: the game-infos whose manifest is not
    empty, as [_read_rcf] left them. *)
Fixpoint find_supported (self : Engine) (game_infos : list GameInfo)
  : M (list GameInfo) :=
match game_infos with
| [] => ret []
| info :: rest =>
    do r <- try_rcf self info;
    let '(rcf, info') := r in
    do rest' <- find_supported self rest;
    ret (if no_rcf rcf then rest' else info' :: rest')
end.

(** [find_mounted(dirs)] *)
Fixpoint find_mounted (dirs : list str) : M (list str) :=
match dirs with
| [] => ret []
| f :: rest =>
    do e <- try_except (Os.exists_ f) (fun _ => true) (fun _ => ret false);
    do rest' <- find_mounted rest;
    ret (if e then f :: rest' else rest')
end.

(** A loop with an accumulator: [for a in l: s = f(s, a)]. *)
Fixpoint fold_M {S A} (f : S -> A -> M S) (l : list A) (s : S) : M S :=
match l with
| [] => ret s
| a :: l' => do s' <- f s a; fold_M f l' s'
end.

(** The test of [find_all_game_info] on the names of a library. *)
Definition is_appmanifest (f : str) : bool :=
startswith f "appmanifest_" && endswith f ".acf".

(** The body of the inner loop of [find_all_game_info]: the state is the
    list [r] and the dictionary [rdict]. *)
Definition game_step (steam_dir app_dir : str)
  (st : list GameInfo * gmap Z GameInfo) (f : str)
  : M (list GameInfo * gmap Z GameInfo) :=
  let '(r, rdict) := st in
  do vcf <- _parse_vcf (PosixPath.join2 app_dir f);
  match vcf !! ("appid" : str), vcf !! ("name" : str) with
  | Some id_, Some name =>
      if negb (bool_decide (id_ = "")) && negb (bool_decide (name = "")) then
        do i <- int_ id_;
        let info := {| install_root := steam_dir; game_id := i; game_name := name;
                       save_games_roots := None; save_games_root := None |} in
        ret (r ++ [info], <[i := info]> rdict)
      else ret st
  | _, _ => ret st
  end.

(** The body of the outer loop: a library whose directory cannot be
    listed has no files. *)
Definition library_step (st : list GameInfo * gmap Z GameInfo) (steam_dir : str)
  : M (list GameInfo * gmap Z GameInfo) :=
  let app_dir := PosixPath.join2 steam_dir "steamapps" in
  do files <- try_except
                (do names <- Os.listdir app_dir;
                 ret (List.filter is_appmanifest names))
                (fun _ => true)
                (fun _ => ret []);
  fold_M (game_step steam_dir app_dir) files st.

(** [find_all_game_info()]: the list returned, and the dictionary that
    becomes [self.all_games]. *)
Definition find_all_game_info (self : Engine)
  : M (list GameInfo * gmap Z GameInfo) :=
  do libs <- _get_all_library self;
  fold_M library_step libs ([], ∅).

(** ** More example worlds *)

Module DemoX.

(** A file system without the store: the application's directory is
    empty. *)
Definition bare_disk (saves : list (str * node)) : node :=
Dir 0 [("data", Dir 0 []);
       ("steam", Dir 0 [("userdata", Dir 0 [("7", Dir 0 [("1", Dir 0
          [("remotecache.vdf", File (Text Demo.remotecache) 0);
           ("remote", Dir 0 saves)])])])])].

Definition bare (saves : list (str * node)) (clock : Z) : world :=
{| fs := bare_disk saves; now := clock; last_used_save_info := None;
   io_errors := []; trace := [] |}.

(** A sidecar in the old format, with the one root under
    [save_games_root]. *)
Definition old_game : GameInfo :=
{| install_root := "/steam"; game_id := 1; game_name := "G";
   save_games_roots := None;
   save_games_root := Some "/steam/userdata/7/1/remote" |}.

Definition old_info : SaveInfo :=
{| game_info := old_game; timestamp := 100;
   filename := snapshot_name false 1 100; is_undo := false |}.

Definition old_store : list (str * node) :=
[(snapshot_name false 1 100 ++ ".json", File (Json old_info) 100000000);
 (snapshot_name false 1 100, Dir 100000000 [("save.dat", File (Text "data") 0)])].

(** A manifest with the two entries [b.sav] and [slot/c.sav]. *)
Definition two_entries : str :=
  Demo.quote ++ "1" ++ Demo.quote ++ Demo.nl ++ "{" ++ Demo.nl
  ++ Demo.tab ++ Demo.quote ++ "b.sav" ++ Demo.quote ++ Demo.nl
  ++ Demo.tab ++ "{" ++ Demo.nl
  ++ Demo.tab ++ Demo.tab ++ Demo.quote ++ "size" ++ Demo.quote ++ Demo.nl
  ++ Demo.tab ++ "}" ++ Demo.nl
  ++ Demo.tab ++ Demo.quote ++ "slot/c.sav" ++ Demo.quote ++ Demo.nl
  ++ Demo.tab ++ "{" ++ Demo.nl
  ++ Demo.tab ++ "}" ++ Demo.nl ++ "}" ++ Demo.nl.

(** The game 1 of the accounts 7 and 8, each with its manifest; nothing of
    the account 9. *)
Definition shared_disk : node :=
Dir 0 [("data", Dir 0 [("saves2", Dir 0 [])]);
       ("steam", Dir 0 [("userdata", Dir 0
          [("7", Dir 0 [("1", Dir 0
             [("remotecache.vdf", File (Text Demo.remotecache) 0);
              ("remote", Dir 0 [("save.dat", File (Text "a") 0)])])]);
           ("8", Dir 0 [("1", Dir 0
             [("remotecache.vdf", File (Text two_entries) 0);
              ("remote", Dir 0 [("b.sav", File (Text "b") 0)])])])])])].

Definition shared : world :=
{| fs := shared_disk; now := 100; last_used_save_info := None;
   io_errors := []; trace := [] |}.

(** A game with a file at the top of its save root and one in a
    directory, and an empty store. *)
Definition nested_disk : node :=
Dir 0 [("data", Dir 0 [("saves2", Dir 0 [])]);
       ("steam", Dir 0 [("userdata", Dir 0 [("7", Dir 0 [("1", Dir 0
          [("remotecache.vdf", File (Text Demo.remotecache) 0);
           ("remote", Dir 0 [("save.dat", File (Text "a") 11);
                             ("slot", Dir 0 [("b.sav", File (Text "b") 12)])])])])])])].

Definition nested : world :=
{| fs := nested_disk; now := 100; last_used_save_info := None;
   io_errors := []; trace := [] |}.

(** The state with the snapshot [si] noted as the one last used. *)
Definition noted (si : SaveInfo) (w : world) : world :=
{| fs := fs w; now := now w; last_used_save_info := Some si;
   io_errors := io_errors w; trace := trace w |}.

(** A library list with two libraries, and a [userdata] directory with
    the accounts 7 and 12, a directory [0] and one that is no number. *)
Definition libraryfolders : str :=
  Demo.quote ++ "libraryfolders" ++ Demo.quote ++ Demo.nl ++ "{" ++ Demo.nl
  ++ Demo.tab ++ Demo.quote ++ "path" ++ Demo.quote ++ Demo.tab ++ Demo.tab
  ++ Demo.quote ++ "/steam" ++ Demo.quote ++ Demo.nl
  ++ Demo.tab ++ Demo.quote ++ "label" ++ Demo.quote ++ Demo.tab ++ Demo.tab
  ++ Demo.quote ++ "x" ++ Demo.quote ++ Demo.nl
  ++ Demo.tab ++ Demo.quote ++ "path" ++ Demo.quote ++ Demo.tab ++ Demo.tab
  ++ Demo.quote ++ "/run/media/sd" ++ Demo.quote ++ Demo.nl
  ++ "}" ++ Demo.nl.

Definition library_disk : node :=
Dir 0 [("steam", Dir 0
         [("steamapps", Dir 0 [("libraryfolders.vdf", File (Text libraryfolders) 0)]);
          ("userdata", Dir 0 [("7", Dir 0 []); ("0", Dir 0 []);
                              ("anonymous", Dir 0 []); ("12", Dir 0 [])])])].

Definition library : world :=
{| fs := library_disk; now := 100; last_used_save_info := None;
   io_errors := []; trace := [] |}.

(** The superscript two, which is numeric and no decimal digit, and a
    [userdata] directory with an entry of that name. *)
Definition superscript_two : str := [ascii_of_nat 178].

Definition odd_userdata : list (str * node) :=
[("7", Dir 0 []); (superscript_two, Dir 0 [])].

Definition odd_library : world :=
{| fs := Dir 0 [("steam", Dir 0 [("userdata", Dir 0 odd_userdata)])];
   now := 100; last_used_save_info := None; io_errors := []; trace := [] |}.

(** A library with the manifests of the games 1 and 20, and a file that
    is no manifest. *)
Definition appmanifest (id_ name : str) : str :=
  Demo.quote ++ "AppState" ++ Demo.quote ++ Demo.nl ++ "{" ++ Demo.nl
  ++ Demo.tab ++ Demo.quote ++ "appid" ++ Demo.quote ++ Demo.tab ++ Demo.tab
  ++ Demo.quote ++ id_ ++ Demo.quote ++ Demo.nl
  ++ Demo.tab ++ Demo.quote ++ "name" ++ Demo.quote ++ Demo.tab ++ Demo.tab
  ++ Demo.quote ++ name ++ Demo.quote ++ Demo.nl
  ++ "}" ++ Demo.nl.

Definition games_disk : node :=
Dir 0 [("steam", Dir 0
         [("steamapps", Dir 0
            [("libraryfolders.vdf", File (Text libraryfolders) 0);
             ("appmanifest_1.acf", File (Text (appmanifest "1" "G")) 0);
             ("readme.txt", File (Text "x") 0);
             ("appmanifest_20.acf", File (Text (appmanifest "20" "H")) 0)])])].

Definition games : world :=
{| fs := games_disk; now := 100; last_used_save_info := None;
   io_errors := []; trace := [] |}.

Definition accounts (ids : list Z) : Engine :=
{| app_data_dir := "/data"; steam_dir := "/steam"; account_ids := ids;
   dry_run := false; max_saves := 50; ignore_unchanged := true |}.

End DemoX.

(** ** What a computation keeps and what it copies *)

Module Frame.

(** The computation leaves the part [f] of the state as it is. *)
Definition keeps {X A} (f : world -> X) (c : M A) : Prop :=
forall w r w', c w = (r, w') -> f w' = f w.

(** A directory made, or a file copied from below [src] to below [dst]. *)
Definition copy_event (src dst : str) (e : event) : bool :=
match e with
| EvMakedirs _ => true
| EvCopy s d => startswith s src && startswith d dst
| _ => false
end.

(** A copy of the file [s] to [d], or into the directory [d]. *)
Definition copied (s d : str) (e : event) : bool :=
match e with
| EvCopy s' d' => bool_decide (s' = s) && startswith d' d
| _ => false
end.

(** The computation leaves the state [w] as it is. *)
Definition still {A} (w : world) (c : M A) : Prop :=
forall r w', c w = (r, w') -> w' = w.

(** The event is no write of a sidecar. *)
Definition no_write (e : event) : bool :=
match e with
| EvWrite _ => false
| _ => true
end.

(** In the state [w] the computation returns, and leaves the state as it
    is. *)
Definition returns_at {A} (w : world) (c : M A) : Prop :=
exists a, c w = (Ok a, w).

End Frame.

(** ** The layout of a change manifest *)

Module Manifest.

(** The entry that [_read_rcf] takes from the line before an opening
    brace: the line without the space around it and without its first and
    its last character. *)
Definition entry_of (l : str) : str :=
slice None (Some (-1)) (slice (Some 1) None (strip l)).

(** The lines of a manifest after the first two, and the entries they
    list: lines that are no opening brace, and blocks of a name line, an
    opening brace, lines that are no closing brace, and a closing brace. *)
Inductive body : list str -> list str -> Prop :=
| body_nil : body [] []
| body_line l names lines :
    strip l <> "{" -> body names lines -> body names (l :: lines)
| body_block nl ob inner cb names lines :
    strip nl <> "" -> strip nl <> "{" -> strip ob = "{" ->
    Forall (fun l => strip l <> "}") inner -> strip cb = "}" ->
    body names lines ->
    body (entry_of nl :: names) (nl :: ob :: inner ++ cb :: lines).

(** The path of the manifest of a game of an account. *)
Definition path_of (self : Engine) (account gid : Z) : str :=
PosixPath.join2
  (PosixPath.join (get_steam_root self)
     ["userdata"; str_of_int account; str_of_int gid])
  "remotecache.vdf".

(** The engine with other accounts. *)
Definition with_accounts (self : Engine) (ids : list Z) : Engine :=
{| app_data_dir := app_data_dir self; steam_dir := steam_dir self;
   account_ids := ids; dry_run := dry_run self; max_saves := max_saves self;
   ignore_unchanged := ignore_unchanged self |}.

(** No account has a manifest file for the game. *)
Definition no_manifest (self : Engine) (gid : Z) (n : node) : Prop :=
forall account, account ∈ account_ids self ->
  Change.is_file n (path_of self account gid) = false.

(** A game-info that is read again as it is, with a manifest that is not
    empty. *)
Definition steady (self : Engine) (w : world) (gi : GameInfo) : Prop :=
is_Some (save_games_roots gi)
/\ exists rcf, rcf <> [] /\ _read_rcf self gi w = (Ok (Some rcf, gi), w).

(** The suffixes of the dictionary of roots: none for the first root, an
    underscore and the index for the others. *)
Definition suffix_ok (r : str * str) : Prop :=
r.2 = "" \/ exists i, 0 < i /\ r.2 = "_" ++ str_of_int i.



End Manifest.

(** ** Files and directories in the tree *)

Module Tree.

(** There is a directory at the components [cs]. *)
Definition dir_at (cs : list str) (n : node) : bool :=
match lookup_at cs n with
| Some (Dir _ _) => true
| _ => false
end.

(** There is a regular file at the components [cs]. *)
Definition file_at (cs : list str) (n : node) : bool :=
match lookup_at cs n with
| Some (File _ _) => true
| _ => false
end.

(** Neither path is at or above the other. *)
Definition apart (a b : list str) : Prop :=
~ a `prefix_of` b /\ ~ b `prefix_of` a.

(** What [put_file] does to the node at its path. *)
Definition put (c : content) (t : Z) (o : option node) : outcome (option node) :=
match o with
| Some (Dir _ _) => Raise IsADirectoryError
| _ => Ok (Some (File c t))
end.

(** There is a directory at the path [p]. *)
Definition is_dir (n : node) (p : str) : bool := dir_at (parts p) n.

(** Every file of [n] is a file in [n'], and every directory a
    directory: nothing was removed, and nothing changed its kind. *)
Definition within (n n' : node) : Prop :=
forall cs, (file_at cs n = true -> file_at cs n' = true)
           /\ (dir_at cs n = true -> dir_at cs n' = true).

(** The computation removes nothing from the tree. *)
Definition grows {A} (c : M A) : Prop :=
forall w r w', c w = (r, w') -> within (fs w) (fs w').

End Tree.

(** ** The library list and the accounts *)

Module Libraries.

Import KeyValue.

(** The values of the lines that have the form ["path" "v"], in the order
    of the lines; the other lines give nothing. *)
Inductive path_values : list str -> list str -> Prop :=
| path_values_nil : path_values [] []
| path_values_skip line lines vs :
    (forall v, ~ line_form "path" v line) ->
    path_values lines vs -> path_values (line :: lines) vs
| path_values_take line v lines vs :
    line_form "path" v line ->
    path_values lines vs -> path_values (line :: lines) (v :: vs).

(** An entry of [userdata] and the account it stands for: the decimal
    writing of a positive number, or a name that is not numeric, or [0]. *)
Definition account_entry (name : str) (o : option Z) : Prop :=
match o with
| Some a => 0 < a /\ name = str_of_int a /\ (length name <= 4300)%nat
| None => isnumeric name = false \/ name = "0"
end.

(** The same engine but for the accounts. *)
Definition same_but_accounts (self self' : Engine) : Prop :=
app_data_dir self' = app_data_dir self /\ steam_dir self' = steam_dir self
/\ dry_run self' = dry_run self /\ max_saves self' = max_saves self
/\ ignore_unchanged self' = ignore_unchanged self.

(** A game-info as [find_all_game_info] makes it: of one of the
    libraries, with a name, and without save roots. *)
Definition scanned (libs : list str) (g : GameInfo) : Prop :=
install_root g ∈ libs /\ game_name g <> ""
/\ save_games_roots g = None /\ save_games_root g = None.

(** The dictionary has the games of the list by their ids, and for an id
    the last game of the list that has it. *)
Definition indexes (all : gmap Z GameInfo) (games : list GameInfo) : Prop :=
forall i g,
  all !! i = Some g
  <-> exists before after,
        games = before ++ g :: after /\ game_id g = i
        /\ Forall (fun g' => game_id g' <> i) after.

(** What a step of a scan may do in the state [w]: return a result that
    is good, or raise [ValueError]; the state stays as it is. *)
Definition careful {S} (good : S -> Prop) (w : world) (c : M S) : Prop :=
exists r, c w = (r, w)
          /\ match r with Ok s => good s | Raise e => e = ValueError end.

(** The list and the dictionary during the scan of the libraries
    [libs]. *)
Definition scan_ok (libs : list str) (st : list GameInfo * gmap Z GameInfo) : Prop :=
Forall (scanned libs) st.1 /\ indexes st.2 st.1.

End Libraries.

(** * Properties *)

(** ** The common-prefix algorithm *)

Module CommonPrefixFacts.

Import CommonPrefix.

Lemma lcp2_prefix_l a b : lcp2 a b `prefix_of` a.
Proof.
  revert b. induction a as [|c a IH]; intros [|d b]; simpl; try apply prefix_nil.
  case_bool_decide; [subst; apply prefix_cons, IH | apply prefix_nil].
Qed.

Lemma lcp2_prefix_r a b : lcp2 a b `prefix_of` b.
Proof.
  revert b. induction a as [|c a IH]; intros [|d b]; simpl; try apply prefix_nil.
  case_bool_decide; [subst; apply prefix_cons, IH | apply prefix_nil].
Qed.

Lemma lcp2_greatest a b p : p `prefix_of` a -> p `prefix_of` b -> p `prefix_of` lcp2 a b.
Proof.
  revert a b. induction p as [|x p IH]; intros a b Ha Hb; [apply prefix_nil|].
  destruct Ha as [ka ->], Hb as [kb ->]. simpl.
  rewrite bool_decide_eq_true_2 by done.
  apply prefix_cons, IH; eexists; reflexivity.
Qed.

Lemma lcp2_take n a b : lcp2 (take n a) b = take n (lcp2 a b).
Proof.
  revert a b. induction n as [|n IH]; intros [|c a] [|d b]; simpl; try done.
  case_bool_decide; simpl; [by rewrite IH | done].
Qed.

Lemma lcp2_as_take a b : lcp2 a b = take (length (lcp2 a b)) b.
Proof.
  revert b. induction a as [|c a IH]; intros [|d b]; simpl; try done.
  case_bool_decide; simpl; [subst; by rewrite <- IH | done].
Qed.

Lemma lcp2_same a : lcp2 a a = a.
Proof. induction a; simpl; [done|]. rewrite bool_decide_eq_true_2 by done. by f_equal. Qed.

Lemma first_diff_Some a b i :
  first_diff a b = Some i -> length (lcp2 a b) = i /\ (i < length b)%nat.
Proof.
  revert b i. induction a as [|c a IH]; intros [|d b] i; simpl; try done.
  destruct (decide (c = d)) as [->|Hne].
  - rewrite bool_decide_eq_true_2 by done.
    destruct (first_diff a b) as [j|] eqn:E; simpl; [|done].
    intros [= <-]. destruct (IH _ _ E) as [-> ?]. simpl. split; [done | lia].
  - rewrite bool_decide_eq_false_2 by done. intros [= <-]. simpl. split; [done | lia].
Qed.

Lemma first_diff_None a b :
  first_diff a b = None -> a `prefix_of` b \/ b `prefix_of` a.
Proof.
  revert b. induction a as [|c a IH]; intros [|d b]; simpl;
    try (left; apply prefix_nil); try (right; apply prefix_nil).
  destruct (decide (c = d)) as [->|Hne]; [|done].
  destruct (first_diff a b) eqn:E; simpl; [done|]. intros _.
  destruct (IH _ E); [left | right]; by apply prefix_cons.
Qed.

(** The loop keeps the prefix of the entries read so far. *)
Lemma scan_invariant l prev fd :
  chain_free prev l -> (0 <= fd <= len prev) ->
  let '(last, fd') := fold_left scan_step l (prev, fd) in
  take (Z.to_nat fd') last = fold_left lcp2 l (take (Z.to_nat fd) prev)
  /\ 0 <= fd' <= len last.
Proof.
  revert prev fd. induction l as [|r l IH]; intros prev fd Hc Hfd; simpl.
  - done.
  - destruct Hc as [Hpr Hc]. unfold len in *.
    destruct (first_diff prev r) as [i|] eqn:E.
    + destruct (first_diff_Some _ _ _ E) as [Hi Hlt].
      specialize (IH r (if Z.of_nat i <? fd then Z.of_nat i else fd) Hc).
      destruct (fold_left scan_step l _) as [last fd'].
      assert (Hb : 0 <= (if Z.of_nat i <? fd then Z.of_nat i else fd) <= Z.of_nat (length r))
        by (destruct (Z.ltb_spec (Z.of_nat i) fd); lia).
      destruct (IH Hb) as [IH1 IH2]. split; [|done].
      rewrite IH1. f_equal.
      rewrite lcp2_take, (lcp2_as_take prev r), Hi, take_take. f_equal.
      destruct (Z.ltb_spec (Z.of_nat i) fd); lia.
    + assert (prev = r) as -> by (apply Hpr, first_diff_None, E).
      specialize (IH r fd Hc Hfd).
      destruct (fold_left scan_step l _) as [last fd'].
      destruct IH as [IH1 IH2]. split; [|done].
      rewrite IH1. f_equal.
      rewrite lcp2_take, lcp2_same. done.
Qed.

Lemma scan_computes_lcp r0 l :
  prefix_free_neighbours (r0 :: l) ->
  let '(last, fd) := fold_left scan_step (r0 :: l) (r0, len r0) in
  slice None (Some fd) last = longest_common_prefix (r0 :: l).
Proof.
  intros Hc.
  assert (Hc' : chain_free r0 (r0 :: l)) by (simpl; split; [done | exact Hc]).
  pose proof (scan_invariant (r0 :: l) r0 (len r0) Hc') as H.
  destruct (fold_left scan_step (r0 :: l) (r0, len r0)) as [last fd].
  destruct H as [H1 H2]; [unfold len; lia|].
  unfold slice, bound, len in *. simpl in H1.
  rewrite Nat2Z.id, firstn_all, lcp2_same in H1. simpl. rewrite <- H1.
  replace (fd <? 0) with false by (symmetry; apply Z.ltb_ge; lia).
  rewrite drop_0, Nat.sub_0_r. f_equal. lia.
Qed.

Lemma rfind_from_trimmed p i :
  0 <= i ->
  rfind_from i p slash
  = match trimmed p with Some t => i + Z.of_nat (length t) | None => -1 end.
Proof.
  revert i. induction p as [|c p IH]; intros i Hi; simpl; [done|].
  rewrite IH by lia. destruct (trimmed p) as [t|]; simpl.
  - replace (0 <=? i + 1 + Z.of_nat (length t)) with true
      by (symmetry; apply Z.leb_le; lia). lia.
  - destruct (decide (c = slash)) as [->|Hne].
    + rewrite bool_decide_eq_true_2 by done. simpl. lia.
    + rewrite bool_decide_eq_false_2 by done. done.
Qed.

Lemma trimmed_prefix p t : trimmed p = Some t -> t `prefix_of` p.
Proof.
  revert t. induction p as [|c p IH]; intros t; simpl; [done|].
  destruct (trimmed p) as [t'|].
  - intros [= <-]. by apply prefix_cons, IH.
  - case_bool_decide; [intros [= <-]; apply prefix_nil | done].
Qed.

Lemma slice_to_take {A} (s : list A) (k : nat) :
  slice None (Some (Z.of_nat k)) s = take k s.
Proof.
  unfold slice, bound.
  replace (Z.of_nat k <? 0) with false by (symmetry; apply Z.ltb_ge; lia).
  rewrite drop_0, Nat.sub_0_r.
  destruct (Z.min_spec (Z.of_nat k) (Z.of_nat (length s))) as [[? ->]|[? ->]].
  - by rewrite Nat2Z.id.
  - rewrite Nat2Z.id, firstn_all. symmetry. apply take_ge. lia.
Qed.

(** What the two negative slices of the marker directory compute. *)
Lemma strip_by_slices (a p : str) :
  (if bool_decide (slice (Some (- len p)) None a = p)
   then slice None (Some (- len p)) a else a)
  = stripped a p.
Proof.
  unfold stripped, slice, bound, len.
  destruct p as [|x p].
  - simpl.
    replace (Z.to_nat ((- Z.of_nat 0) `min` Z.of_nat (length a))) with 0%nat by lia.
    rewrite !drop_0, !Nat.sub_0_r, firstn_all. simpl.
    case_bool_decide; [by subst | done].
  - assert (Hlen : (0 < length (x :: p))%nat) by (simpl; lia).
    generalize dependent (x :: p). clear x p. intros p' Hlen.
    replace (- Z.of_nat (length p') <? 0) with true by (symmetry; apply Z.ltb_lt; lia).
    rewrite drop_0, Nat.sub_0_r.
    destruct (decide (p' `suffix_of` a)) as [Hs|Hn].
    + rewrite (bool_decide_eq_true_2 _ Hs).
      destruct Hs as [k ->]. rewrite length_app.
      replace (Z.to_nat (Z.max 0 (- Z.of_nat (length p') + Z.of_nat (length k + length p'))))
        with (length k) by lia.
      rewrite drop_app_length, (take_ge p') by lia.
      rewrite bool_decide_eq_true_2 by done.
      f_equal. lia.
    + rewrite (bool_decide_eq_false_2 _ Hn).
      rewrite bool_decide_eq_false_2; [done|].
      intros Heq. apply Hn. rewrite <- Heq at 1.
      rewrite take_ge by (rewrite length_drop; lia).
      apply suffix_drop.
Qed.

End CommonPrefixFacts.

Section C6.

Import CommonPrefix CommonPrefixFacts.

(** C6, as amended.  For a non-empty entry list in which no entry is a
    proper prefix of a neighbour, [_find_save_root_from_autoclouds] takes the
    longest common prefix of all entries, trims it back to its last [/],
    strips it from the end of the marker directory when the marker ends with
    it, and returns the result normalised by [os.path.normpath]; the marker
    itself is normalised when nothing is stripped. *)
Theorem find_save_root_from_autoclouds_spec self gi (rcf : list str) (autocloud : str) :
  rcf <> [] ->
  prefix_free_neighbours rcf ->
  _find_save_root_from_autoclouds self gi rcf autocloud
  = Some (PosixPath.normpath (raw_save_root rcf autocloud)).
Proof.
  intros Hne Hfree. destruct rcf as [|r0 l]; [done|].
  unfold _find_save_root_from_autoclouds, raw_save_root.
  pose proof (scan_computes_lcp r0 l Hfree) as Hscan.
  destruct (fold_left scan_step (r0 :: l) (r0, len r0)) as [last fd].
  rewrite Hscan. unfold rfind. rewrite rfind_from_trimmed by lia.
  destruct (trimmed (longest_common_prefix (r0 :: l))) as [t|] eqn:Ht; [|done].
  replace (0 + Z.of_nat (length t) =? -1) with false by (symmetry; apply Z.eqb_neq; lia).
  simpl negb. cbv iota. rewrite Z.add_0_l, slice_to_take.
  assert (take (length t) (longest_common_prefix (r0 :: l)) = t) as ->
    by (destruct (trimmed_prefix _ _ Ht) as [k ->]; apply take_app_length).
  do 2 f_equal. apply strip_by_slices.
Qed.

(** The example of the specification. *)
Lemma find_save_root_from_autoclouds_example :
  prefix_free_neighbours ["a/b/save.dat"; "a/b/save2.dat"]
  /\ _find_save_root_from_autoclouds Demo.engine Demo.new_game
       ["a/b/save.dat"; "a/b/save2.dat"] "root/x/a/b" = Some "root/x".
Proof.
  assert (H : prefix_free_neighbours ["a/b/save.dat"; "a/b/save2.dat"]).
  { simpl. split; [|done]. intros [[k Hk]|[k Hk]]; discriminate Hk. }
  split; [exact H|].
  rewrite (find_save_root_from_autoclouds_spec Demo.engine Demo.new_game
             ["a/b/save.dat"; "a/b/save2.dat"] "root/x/a/b" ltac:(discriminate) H).
  vm_compute. reflexivity.
Defined.

(** C6 as stated fails: a marker directory that does not end with the
    trimmed prefix is not returned unchanged, it is normalised. *)
Lemma find_save_root_from_autoclouds_not_unchanged :
  let rcf := ["a/b/save.dat"; "a/b/save2.dat"] in
  let marker := "/home/u/../v/saves" in
  described_save_root rcf marker = marker
  /\ _find_save_root_from_autoclouds Demo.engine Demo.new_game rcf marker
     = Some "/home/v/saves"
  /\ _find_save_root_from_autoclouds Demo.engine Demo.new_game rcf marker
     <> Some (described_save_root rcf marker).
Proof. vm_compute. repeat split; discriminate. Qed.

(** The scan compares neighbours only up to the shorter of the two: when an
    entry is a proper prefix of its neighbours the prefix found is not a
    common prefix. *)
Lemma find_save_root_from_autoclouds_short_entry :
  let rcf := ["x/save1/data"; "x/save"; "x/save1/meta"] in
  longest_common_prefix rcf = "x/save"
  /\ described_save_root rcf "root/x/save1" = "root/x/save1"
  /\ _find_save_root_from_autoclouds Demo.engine Demo.new_game rcf "root/x/save1"
     = Some "root".
Proof. vm_compute. repeat split. Qed.

(** [longest_common_prefix] is what its name says. *)
Lemma fold_lcp2_prefix (l : list str) (p : str) : fold_left lcp2 l p `prefix_of` p.
Proof.
  revert p. induction l as [|z l IH]; intros p; simpl; [done|].
  etransitivity; [apply IH | apply lcp2_prefix_l].
Qed.

Lemma longest_common_prefix_is_common (l : list str) (r : str) :
  r ∈ l -> longest_common_prefix l `prefix_of` r.
Proof.
  destruct l as [|x l]; [by intros ?%elem_of_nil|]. simpl.
  revert x. induction l as [|y l IH]; intros x Hr.
  - apply list_elem_of_singleton in Hr. subst r. done.
  - simpl. apply elem_of_cons in Hr as [Hr|Hr].
    + subst r. etransitivity; [apply fold_lcp2_prefix | apply lcp2_prefix_l].
    + apply elem_of_cons in Hr as [Hr|Hr].
      * subst r. etransitivity; [apply fold_lcp2_prefix | apply lcp2_prefix_r].
      * apply (IH (lcp2 x y)). apply elem_of_cons. by right.
Qed.

Lemma longest_common_prefix_is_longest (l : list str) (p : str) :
  l <> [] -> (forall r, r ∈ l -> p `prefix_of` r) ->
  p `prefix_of` longest_common_prefix l.
Proof.
  destruct l as [|x l]; [done|]. intros _. simpl.
  revert x. induction l as [|y l IH]; intros x H; simpl.
  - apply H. by left.
  - apply IH. intros r Hr. apply elem_of_cons in Hr as [->|Hr].
    + apply lcp2_greatest; apply H; [by left | right; by left].
    + apply H. right. by right.
Qed.

End C6.

(** ** The key/value parser *)

Module ReFacts.

Import Re ReSpec.

Lemma rep_None {X} k (cont : str -> str -> option X) acc s :
  rep k cont acc s = None ->
  forall w s', s = w ++ s' -> all_in k w -> cont (rev acc ++ w) s' = None.
Proof.
  revert acc. induction s as [|c s IH]; intros acc H w s' Hs Hw; simpl in H.
  - symmetry in Hs. apply app_eq_nil in Hs as [-> ->]. by rewrite app_nil_r.
  - destruct w as [|d w]; simpl in Hs.
    + subst s'. rewrite app_nil_r.
      destruct (in_cls k c); [|done].
      by destruct (rep k cont (c :: acc) s).
    + injection Hs as Hcd Hs. subst c s. apply Forall_cons in Hw as [Hd Hw].
      rewrite Hd in H.
      destruct (rep k cont (d :: acc) (w ++ s')) eqn:E; [done|].
      specialize (IH _ E w s' eq_refl Hw). simpl in IH.
      by rewrite <- app_assoc in IH.
Qed.

Lemma rep_Some {X} k (cont : str -> str -> option X) acc s x :
  rep k cont acc s = Some x ->
  exists w s', s = w ++ s' /\ all_in k w /\ cont (rev acc ++ w) s' = Some x
    /\ forall w2 s2, s = w2 ++ s2 -> all_in k w2 -> (length w < length w2)%nat ->
         cont (rev acc ++ w2) s2 = None.
Proof.
  revert acc. induction s as [|c s IH]; intros acc H; simpl in H.
  - exists [], []. repeat split; rewrite ?app_nil_r; [constructor | done |].
    intros w2 s2 Hs _ Hl. symmetry in Hs. apply app_eq_nil in Hs as [-> ->].
    simpl in Hl. lia.
  - destruct (in_cls k c) eqn:Hc.
    + destruct (rep k cont (c :: acc) s) as [y|] eqn:E.
      * injection H as ->. destruct (IH _ E) as (w & s' & -> & Hw & Hcont & Hmax).
        exists (c :: w), s'. simpl in Hcont. rewrite <- app_assoc in Hcont.
        repeat split; [by constructor | done |].
        intros [|d w2] s2 Hs Hw2 Hl; simpl in Hl; [lia|].
        injection Hs as Hcd Hs; subst d. apply Forall_cons in Hw2 as [_ Hw2].
        specialize (Hmax w2 s2 Hs Hw2 ltac:(lia)). simpl in Hmax.
        by rewrite <- app_assoc in Hmax.
      * exists [], (c :: s).
        repeat split; rewrite ?app_nil_r; [constructor | done |].
        intros [|d w2] s2 Hs Hw2 Hl; simpl in Hl; [lia|].
        injection Hs as Hcd Hs; subst d. apply Forall_cons in Hw2 as [_ Hw2].
        pose proof (rep_None _ _ _ _ E w2 s2 Hs Hw2) as Hn. simpl in Hn.
        by rewrite <- app_assoc in Hn.
    + exists [], (c :: s).
      repeat split; rewrite ?app_nil_r; [constructor | done |].
      intros [|d w2] s2 Hs Hw2 Hl; simpl in Hl; [lia|].
      injection Hs as Hcd Hs; subst d. apply Forall_cons in Hw2 as [Hd _]. congruence.
Qed.

Lemma rep1_None {X} k (cont : str -> str -> option X) s :
  rep1 k cont s = None ->
  forall w s', s = w ++ s' -> w <> [] -> all_in k w -> cont w s' = None.
Proof.
  intros H [|c w] s' Hs Hne Hw; [done|]. subst s. simpl in H.
  apply Forall_cons in Hw as [Hc Hw]. rewrite Hc in H.
  exact (rep_None _ _ _ _ H w s' eq_refl Hw).
Qed.

Lemma rep1_Some {X} k (cont : str -> str -> option X) s x :
  rep1 k cont s = Some x ->
  exists w s', s = w ++ s' /\ w <> [] /\ all_in k w /\ cont w s' = Some x
    /\ forall w2 s2, s = w2 ++ s2 -> all_in k w2 -> (length w < length w2)%nat ->
         cont w2 s2 = None.
Proof.
  destruct s as [|c s]; simpl; [done|].
  destruct (in_cls k c) eqn:Hc; [|done]. intros H.
  destruct (rep_Some _ _ _ _ _ H) as (w & s' & -> & Hw & Hcont & Hmax).
  exists (c :: w), s'. repeat split; [done | by constructor | done |].
  intros [|d w2] s2 Hs Hw2 Hl; simpl in Hl; [lia|].
  injection Hs as Hcd Hs; subst d. apply Forall_cons in Hw2 as [_ Hw2].
  exact (Hmax w2 s2 Hs Hw2 ltac:(lia)).
Qed.

(** The matcher finds a match when there is one, and only then. *)
Lemma fullmatch_sound r s gs : fullmatch r s = Some gs -> matches r s gs.
Proof.
  revert s gs. induction r as [|it r IH]; intros s gs H; simpl in H.
  - destruct s; [|done]. injection H as <-. constructor.
  - destruct it as [c|k|k|k].
    + destruct s as [|d s]; [done|]. case_bool_decide; [subst|done].
      constructor. by apply IH.
    + destruct (rep_Some _ _ _ _ _ H) as (w & s' & -> & Hw & Hc & _).
      constructor; [done | by apply IH].
    + destruct (rep1_Some _ _ _ _ H) as (w & s' & -> & Hne & Hw & Hc & _).
      constructor; [done | done | by apply IH].
    + destruct (rep1_Some _ _ _ _ H) as (w & s' & -> & Hne & Hw & Hc & _).
      destruct (fullmatch r s') as [gs'|] eqn:E; [|done].
      injection Hc as <-. constructor; [done | done | by apply IH].
Qed.

Lemma fullmatch_complete r s gs : matches r s gs -> is_Some (fullmatch r s).
Proof.
  induction 1 as [|c r s gs _ IH|k r w s gs Hw _ IH|k r w s gs Hne Hw _ IH
                  |k r w s gs Hne Hw _ IH]; simpl.
  - by eexists.
  - by rewrite bool_decide_eq_true_2.
  - destruct (rep k _ [] (w ++ s)) eqn:E; [by eexists|].
    pose proof (rep_None _ _ _ _ E w s eq_refl Hw) as Hn. simpl in Hn.
    rewrite Hn in IH. by destruct IH.
  - destruct (rep1 k _ (w ++ s)) eqn:E; [by eexists|].
    pose proof (rep1_None _ _ _ E w s eq_refl Hne Hw) as Hn. simpl in Hn.
    rewrite Hn in IH. by destruct IH.
  - destruct (rep1 k _ (w ++ s)) eqn:E; [by eexists|].
    pose proof (rep1_None _ _ _ E w s eq_refl Hne Hw) as Hn. simpl in Hn.
    destruct IH as [gs' Hgs]. rewrite Hgs in Hn. done.
Qed.

End ReFacts.

Module KeyValueFacts.

Import Re ReSpec ReFacts KeyValue.

Lemma dquote_not_space : isspace dquote = false.
Proof. reflexivity. Qed.

Lemma all_in_Space w : all_in Space w <-> spaces w.
Proof. reflexivity. Qed.

Lemma all_in_Dot w : all_in Dot w <-> LF ∉ w.
Proof.
  unfold all_in. rewrite Forall_forall. simpl. split.
  - intros H Hin. specialize (H LF Hin). by rewrite bool_decide_eq_true_2 in H.
  - intros H c Hc. rewrite bool_decide_eq_false_2; [done|]. by intros ->.
Qed.

(** Space in front of a quote is determined by the line. *)
Lemma spaces_then_quote w w' a b :
  spaces w -> spaces w' -> w ++ dquote :: a = w' ++ dquote :: b -> w = w' /\ a = b.
Proof.
  revert w'. induction w as [|c w IH]; intros [|c' w'] Hw Hw' H; simpl in H.
  - by injection H as ->.
  - injection H as <- _. apply Forall_cons in Hw' as [Hc _].
    by rewrite dquote_not_space in Hc.
  - injection H as -> _. apply Forall_cons in Hw as [Hc _].
    by rewrite dquote_not_space in Hc.
  - injection H as -> H. apply Forall_cons in Hw as [_ Hw].
    apply Forall_cons in Hw' as [_ Hw'].
    destruct (IH _ Hw Hw' H) as [-> ->]. done.
Qed.

Lemma quote_then_spaces w w' (a b : str) :
  spaces w -> spaces w' -> a ++ dquote :: w = b ++ dquote :: w' -> a = b /\ w = w'.
Proof.
  intros Hw Hw' H. apply (f_equal (@rev ascii)) in H.
  rewrite !rev_app_distr in H. simpl in H. rewrite <- !app_assoc in H. simpl in H.
  apply spaces_then_quote in H as [H1 H2]; [|by apply Forall_rev..].
  apply rev_inj in H1, H2. done.
Qed.

Lemma line_form_matches k v line :
  line_form k v line <-> matches kvMatch line [k; v].
Proof.
  split.
  - intros (w1 & w2 & w3 & -> & H1 & H2 & Hne & H3 & Hk & Hv & Hkn & Hvn).
    apply matches_star; [done|]. simpl. apply matches_lit.
    apply matches_group; [done | by apply all_in_Dot|]. simpl. apply matches_lit.
    apply matches_plus; [done | done|]. simpl. apply matches_lit.
    apply matches_group; [done | by apply all_in_Dot|]. simpl. apply matches_lit.
    rewrite <- (app_nil_r w3). apply matches_star; [done | constructor].
  - unfold kvMatch. intros H.
    inversion H as [| | ? ? w1 s1 ? H1 M1 | |]; subst; clear H.
    inversion M1 as [| ? ? s2 ? M2 | | |]; subst; clear M1.
    inversion M2 as [| | | |? ? wk s3 ? Hk Hkd M3]; subst; clear M2.
    inversion M3 as [| ? ? s4 ? M4 | | |]; subst; clear M3.
    inversion M4 as [| | | ? ? w2 s5 ? Hne H2 M5 |]; subst; clear M4.
    inversion M5 as [| ? ? s6 ? M6 | | |]; subst; clear M5.
    inversion M6 as [| | | |? ? wv s7 ? Hv Hvd M7]; subst; clear M6.
    inversion M7 as [| ? ? s8 ? M8 | | |]; subst; clear M7.
    inversion M8 as [| | ? ? w3 s9 ? H3 M9 | |]; subst; clear M8.
    inversion M9; subst. rewrite app_nil_r.
    exists w1, w2, w3. repeat split; try done; by apply all_in_Dot.
Qed.

Lemma matches_kvMatch_groups line gs :
  matches kvMatch line gs -> exists k v, gs = [k; v].
Proof.
  unfold kvMatch. intros H.
  inversion H as [| | ? ? w1 s1 ? H1 M1 | |]; subst; clear H.
  inversion M1 as [| ? ? s2 ? M2 | | |]; subst; clear M1.
  inversion M2 as [| | | |? ? wk s3 ? Hk Hkd M3]; subst; clear M2.
  inversion M3 as [| ? ? s4 ? M4 | | |]; subst; clear M3.
  inversion M4 as [| | | ? ? w2 s5 ? Hne H2 M5 |]; subst; clear M4.
  inversion M5 as [| ? ? s6 ? M6 | | |]; subst; clear M5.
  inversion M6 as [| | | |? ? wv s7 ? Hv Hvd M7]; subst; clear M6.
  inversion M7 as [| ? ? s8 ? M8 | | |]; subst; clear M7.
  inversion M8 as [| | ? ? w3 s9 ? H3 M9 | |]; subst; clear M8.
  inversion M9; subst. by eexists _, _.
Qed.

Lemma matches_after_key w2 v w3 :
  spaces w2 -> w2 <> [] -> spaces w3 -> v <> [] -> LF ∉ v ->
  matches after_key ([dquote] ++ w2 ++ [dquote] ++ v ++ [dquote] ++ w3) [v].
Proof.
  intros H2 Hne H3 Hv Hvn. simpl. apply matches_lit.
  apply matches_plus; [done | done|]. simpl. apply matches_lit.
  apply matches_group; [done | by apply all_in_Dot|]. simpl. apply matches_lit.
  rewrite <- (app_nil_r w3). apply matches_star; [done | constructor].
Qed.

(** What the matcher returns is a reading of the line, and the one with the
    longest key. *)
Lemma fullmatch_reads line k v :
  fullmatch kvMatch line = Some [k; v] -> reads_as line k v.
Proof.
  intros H. split; [by apply line_form_matches, fullmatch_sound|].
  intros k' v' (w1 & w2 & w3 & Hline & H1 & H2 & Hne & H3 & Hk & Hv & Hkn & Hvn).
  change (fullmatch kvMatch line)
    with (rep Space (fun _ s' => fullmatch (Lit dquote :: Group Dot :: after_key) s')
            [] line) in H.
  destruct (rep_Some _ _ _ _ _ H) as (w & s' & Hl & Hw & Hc & _).
  simpl in Hc. destruct s' as [|d s']; [done|].
  case_bool_decide; [subst d|done].
  change (rep1 Dot (fun g s3 => cons g <$> fullmatch after_key s3) s' = Some [k; v]) in Hc.
  destruct (rep1_Some _ _ _ _ Hc) as (wk & s3 & -> & _ & _ & Hc2 & Hmax).
  destruct (fullmatch after_key s3) eqn:E; [|done]. injection Hc2 as -> _.
  rewrite Hl in Hline. simpl in Hline.
  apply spaces_then_quote in Hline as [_ Hrest]; [|done..].
  destruct (le_lt_dec (length k') (length k)) as [|Hlt]; [done|exfalso].
  specialize (Hmax k' _ Hrest ltac:(by apply all_in_Dot) Hlt).
  destruct (fullmatch_complete _ _ _ (matches_after_key w2 v' w3 H2 Hne H3 Hv Hvn))
    as [gs Hgs].
  simpl in Hgs, Hmax. rewrite Hgs in Hmax. done.
Qed.

Lemma reads_as_functional line k v k' v' :
  reads_as line k v -> reads_as line k' v' -> k = k' /\ v = v'.
Proof.
  intros [Hf Hmax] [Hf' Hmax'].
  pose proof (Hmax _ _ Hf') as Hle. pose proof (Hmax' _ _ Hf) as Hle'.
  destruct Hf as (w1 & w2 & w3 & -> & H1 & H2 & Hne & H3 & _).
  destruct Hf' as (w1' & w2' & w3' & Hline & H1' & H2' & Hne' & H3' & _).
  simpl in Hline.
  apply spaces_then_quote in Hline as [_ Hrest]; [|done..].
  apply app_inj_1 in Hrest as [-> Hrest]; [|lia].
  injection Hrest as Hrest.
  apply spaces_then_quote in Hrest as [_ Hrest]; [|done..].
  by apply quote_then_spaces in Hrest as [-> _].
Qed.

Lemma reads_iff line k v :
  reads_as line k v <-> fullmatch kvMatch line = Some [k; v].
Proof.
  split; [|apply fullmatch_reads].
  intros Hr. pose proof Hr as [Hf _].
  apply line_form_matches in Hf.
  destruct (fullmatch_complete _ _ _ Hf) as [gs Hgs].
  destruct (matches_kvMatch_groups _ _ (fullmatch_sound _ _ _ Hgs)) as (k2 & v2 & ->).
  destruct (reads_as_functional _ _ _ _ _ Hr (fullmatch_reads _ _ _ Hgs)) as [-> ->].
  done.
Qed.

Lemma fullmatch_kv_shape line gs :
  fullmatch kvMatch line = Some gs -> exists k v, gs = [k; v].
Proof. intros H. eapply matches_kvMatch_groups, fullmatch_sound, H. Qed.

Lemma quotes_app a b : quotes (a ++ b) = (quotes a + quotes b)%nat.
Proof. unfold quotes. by rewrite List.filter_app, length_app. Qed.

Lemma quotes_spaces w : spaces w -> quotes w = 0%nat.
Proof.
  induction 1 as [|c w Hc _ IH]; [done|]. unfold quotes in *. simpl.
  rewrite bool_decide_eq_false_2; [done|]. intros ->. by rewrite dquote_not_space in Hc.
Qed.

Lemma quotes_none w : dquote ∉ w <-> quotes w = 0%nat.
Proof.
  induction w as [|c w IH]; [split; [done | intros _; apply not_elem_of_nil]|].
  unfold quotes in *. simpl. rewrite not_elem_of_cons. case_bool_decide; simpl.
  - subst. split; [by intros [? _] | done].
  - rewrite <- IH. split; [by intros [_ ?] | by split].
Qed.

Lemma before_first_quote w w' a b :
  dquote ∉ w -> dquote ∉ w' -> w ++ dquote :: a = w' ++ dquote :: b -> w = w'.
Proof.
  revert w'. induction w as [|c w IH]; intros [|c' w'] Hw Hw' H; simpl in H.
  - done.
  - injection H as <- _. by apply not_elem_of_cons in Hw' as [? _].
  - injection H as -> _. by apply not_elem_of_cons in Hw as [? _].
  - injection H as -> H. apply not_elem_of_cons in Hw as [_ Hw].
    apply not_elem_of_cons in Hw' as [_ Hw']. f_equal. by eapply IH.
Qed.

(** A line whose key and value hold no quote reads in one way only. *)
Lemma quote_free_reads line k v :
  line_form k v line -> dquote ∉ k -> dquote ∉ v -> reads_as line k v.
Proof.
  intros Hf Hk Hv. split; [done|]. intros k' v' Hf'.
  destruct Hf as (w1 & w2 & w3 & -> & H1 & H2 & _ & H3 & _).
  destruct Hf' as (w1' & w2' & w3' & Hline & H1' & H2' & _ & H3' & _).
  pose proof (f_equal quotes Hline) as Hq.
  rewrite !quotes_app in Hq. change (quotes [dquote]) with 1%nat in Hq.
  rewrite !(quotes_spaces _ H1), !(quotes_spaces _ H2), !(quotes_spaces _ H3) in Hq.
  rewrite !(quotes_spaces _ H1'), !(quotes_spaces _ H2'), !(quotes_spaces _ H3') in Hq.
  apply quotes_none in Hk, Hv. rewrite Hk, Hv in Hq.
  assert (Hk' : dquote ∉ k') by (apply quotes_none; lia).
  simpl in Hline. apply spaces_then_quote in Hline as [_ Hrest]; [|done..].
  apply quotes_none in Hk.
  by rewrite (before_first_quote _ _ _ _ Hk Hk' Hrest).
Qed.

End KeyValueFacts.

Module ParseVcf.

Import Re ReSpec ReFacts KeyValue KeyValueFacts.

Lemma last_value_cons l ls k v :
  last_value (l :: ls) k v
  <-> last_value ls k v \/ (reads_as l k v /\ forall l' v', l' ∈ ls -> ~ reads_as l' k v').
Proof.
  split.
  - intros ([|b before] & line & after & Heq & Hr & Hlast); simpl in Heq.
    + injection Heq as <- <-. by right.
    + injection Heq as <- ->. left. by exists before, line, after.
  - intros [(before & line & after & -> & Hr & Hlast)|[Hr Hlast]].
    + by exists (l :: before), line, after.
    + by exists [], l, ls.
Qed.

(** One step of the loop. *)
Lemma vcf_line_lookup d l k v :
  vcf_line d l !! k = Some v
  <-> reads_as l k v \/ (d !! k = Some v /\ forall v', ~ reads_as l k v').
Proof.
  unfold vcf_line. destruct (fullmatch kvMatch l) as [gs|] eqn:E.
  - destruct (fullmatch_kv_shape _ _ E) as (k2 & v2 & ->).
    apply reads_iff in E. destruct (decide (k2 = k)) as [->|Hne].
    + rewrite lookup_insert_eq. split.
      * intros [= <-]. by left.
      * intros [Hr|[_ Hn]]; [|by destruct (Hn v2)].
        by destruct (reads_as_functional _ _ _ _ _ E Hr) as [_ ->].
    + rewrite lookup_insert_ne by done. split.
      * intros Hd. right. split; [done|]. intros v' Hr.
        by destruct (reads_as_functional _ _ _ _ _ E Hr).
      * intros [Hr|[Hd _]]; [|done].
        by destruct (reads_as_functional _ _ _ _ _ E Hr).
  - split.
    + intros Hd. right. split; [done|]. intros v' Hr%reads_iff. congruence.
    + intros [Hr%reads_iff|[Hd _]]; [congruence | done].
Qed.

(** The loop: the last line that reads as an entry for the key wins. *)
Lemma fold_vcf_lookup lines d k v :
  fold_left vcf_line lines d !! k = Some v
  <-> last_value lines k v
      \/ (d !! k = Some v /\ forall l v', l ∈ lines -> ~ reads_as l k v').
Proof.
  revert d. induction lines as [|l ls IH]; intros d; simpl.
  - split; [intros Hd; right; split; [done|]; by intros ? ? ?%elem_of_nil|].
    intros [([|??] & ? & ? & ? & _)|[Hd _]]; done.
  - rewrite IH, last_value_cons, vcf_line_lookup. split.
    + intros [Hl|[[Hr|[Hd Hn]] Hrest]].
      * by left; left.
      * left. right. done.
      * right. split; [done|]. intros l' v' [->|Hin]%elem_of_cons; [apply Hn | by apply Hrest].
    + intros [[Hl|[Hr Hrest]]|[Hd Hn]].
      * by left.
      * right. split; [by left | done].
      * right. split.
        -- right. split; [done|]. intros v'. apply Hn. by left.
        -- intros l' v' Hin. apply Hn. by right.
Qed.

Lemma readlines_state path w : (Os.readlines path w).2 = w.
Proof.
  unfold Os.readlines, Os.read_text, Os.open_read, bind, get_fs, ret, raise. simpl.
  destruct (Os.find path (fs w)) as [[[s|si] t|t es]|]; done.
Qed.

End ParseVcf.

Section C8.

Import Re KeyValue KeyValueFacts ParseVcf.

(** C8, as amended.  [_parse_vcf] never raises and leaves the state as it
    is.  A missing file gives the empty mapping.  For a readable text file,
    the mapping has [k -> v] exactly when the last line that reads as an entry
    for [k] reads as ["k" "v"]; a line that has no such form is ignored, and
    a line that has it in several ways (quotes inside the key or the value)
    reads with the longest key.  When [k] and [v] hold no quote the line has
    the form in that way only. *)
Theorem parse_vcf_spec (path : str) (w : world) :
  exists d : gmap str str,
    _parse_vcf path w = (Ok d, w)
    /\ (Os.find path (fs w) = None -> d = ∅)
    /\ (forall lines, Os.readlines path w = (Ok lines, w) ->
          forall k v, d !! k = Some v <-> last_value lines k v)
    /\ (forall line k v, line_form k v line -> dquote ∉ k -> dquote ∉ v ->
          reads_as line k v).
Proof.
  pose proof (readlines_state path w) as Hst.
  unfold _parse_vcf, try_except, bind, ret.
  destruct (Os.readlines path w) as [[lines|e] w'] eqn:E; simpl in Hst; subst w'.
  - exists (fold_left vcf_line lines ∅). split; [done|]. split; [|split].
    + intros Hnone. revert E.
      unfold Os.readlines, Os.read_text, Os.open_read, bind, get_fs, ret, raise.
      simpl. by rewrite Hnone.
    + intros lines' [= <-] k v. rewrite fold_vcf_lookup, lookup_empty.
      split; [intros [?|[? _]]; done | by left].
    + apply quote_free_reads.
  - exists ∅. split; [done|]. split; [done|]. split; [done|].
    apply quote_free_reads.
Qed.

(** The theorem on a manifest with a repeated key. *)
Lemma parse_vcf_example :
  exists d : gmap str str,
    _parse_vcf "/app.acf" (Demo.vcf_world Demo.vcf_text) = (Ok d, Demo.vcf_world Demo.vcf_text)
    /\ (d !! ("appid" : str) = Some ("20" : str)
        <-> last_value (Os.lines_from [] Demo.vcf_text) "appid" "20")
    /\ d !! ("appid" : str) = Some ("20" : str).
Proof.
  destruct (parse_vcf_spec "/app.acf" (Demo.vcf_world Demo.vcf_text)) as (d & Hd & _ & Hl & _).
  exists d. split; [exact Hd|]. split.
  - apply (Hl (Os.lines_from [] Demo.vcf_text)). reflexivity.
  - assert (Hrun : _parse_vcf "/app.acf" (Demo.vcf_world Demo.vcf_text)
                   = (Ok ({[ ("appid" : str) := ("20" : str);
                             ("name" : str) := ("Baba Is You" : str) ]} : gmap str str),
                      Demo.vcf_world Demo.vcf_text)) by (vm_compute; reflexivity).
    rewrite Hrun in Hd. injection Hd as <-. vm_compute. reflexivity.
Defined.

(** C8 as stated fails on a line with three quoted strings: it has the form
    ["k" "v"] for the key [a], and the parser files it under another key. *)
Lemma parse_vcf_three_strings :
  let line := Demo.quote ++ "a" ++ Demo.quote ++ " " ++ Demo.quote ++ "b" ++ Demo.quote ++ " " ++ Demo.quote ++ "c" ++ Demo.quote ++ [LF] in
  let w := Demo.vcf_world line in
  Os.readlines "/app.acf" w = (Ok [line], w)
  /\ line_form "a" ("b" ++ Demo.quote ++ " " ++ Demo.quote ++ "c") line
  /\ exists d : gmap str str,
       _parse_vcf "/app.acf" w = (Ok d, w)
       /\ d !! ("a" : str) = None
       /\ d !! ("a" ++ Demo.quote ++ " " ++ Demo.quote ++ "b") = Some ("c" : str).
Proof.
  intros line w. split; [reflexivity|]. split.
  - exists [], " ", [LF]. split; [reflexivity|].
    repeat split; try done; try (by constructor); try (by repeat constructor).
    + intros H. repeat (apply elem_of_cons in H as [H|H]; [discriminate H|]).
      by apply elem_of_nil in H.
    + vm_compute. intros H. repeat (apply elem_of_cons in H as [H|H]; [discriminate H|]).
      by apply elem_of_nil in H.
  - eexists. split; [vm_compute; reflexivity|]. split; vm_compute; reflexivity.
Qed.

End C8.

(** ** Association lists, trees and paths *)

Module AssocFacts.

Section Assoc.
Context {V : Type}.
Implicit Types (k : str) (v : V) (l : list (str * V)).

Lemma assoc_get_set_eq k v l : assoc_get k (assoc_set k v l) = Some v.
Proof.
  induction l as [|[k' v'] l IH]; simpl.
  - by rewrite bool_decide_eq_true_2.
  - case_bool_decide; simpl.
    + by rewrite bool_decide_eq_true_2.
    + by rewrite bool_decide_eq_false_2.
Qed.

Lemma assoc_get_set_ne k k' v l :
  k <> k' -> assoc_get k' (assoc_set k v l) = assoc_get k' l.
Proof.
  intros Hne. induction l as [|[k2 v2] l IH]; simpl.
  - by rewrite bool_decide_eq_false_2.
  - case_bool_decide; simpl.
    + subst k2. by rewrite !bool_decide_eq_false_2.
    + by rewrite IH.
Qed.

Lemma assoc_set_same k v l : assoc_get k l = Some v -> assoc_set k v l = l.
Proof.
  induction l as [|[k' v'] l IH]; simpl; [done|].
  case_bool_decide as Hk; [intros [= ->]; by subst | intros Hg; by rewrite IH].
Qed.

Lemma assoc_set_set k v1 v2 l :
  assoc_set k v2 (assoc_set k v1 l) = assoc_set k v2 l.
Proof.
  induction l as [|[k' v'] l IH]; simpl.
  - by rewrite bool_decide_eq_true_2.
  - case_bool_decide; simpl.
    + by rewrite bool_decide_eq_true_2.
    + by rewrite bool_decide_eq_false_2, IH.
Qed.


Lemma assoc_get_filter_None (P : str -> bool) k l :
  P k = false -> assoc_get k (List.filter (fun e => P e.1) l) = None.
Proof.
  intros HP. induction l as [|[k' v'] l IH]; simpl; [done|].
  destruct (P k') eqn:E; simpl; [|done].
  case_bool_decide; [congruence | done].
Qed.

Lemma assoc_get_In k v l : assoc_get k l = Some v -> k ∈ map fst l.
Proof.
  induction l as [|[k' v'] l IH]; simpl; [done|].
  case_bool_decide as Hk; [subst; intros _; by left | intros Hg; right; by apply IH].
Qed.

Lemma map_fst_assoc_set k v l :
  map fst (assoc_set k v l)
  = if bool_decide (k ∈ map fst l) then map fst l else map fst l ++ [k].
Proof.
  induction l as [|[k' v'] l IH]; simpl.
  - done.
  - destruct (decide (k' = k)) as [->|Hne].
    + rewrite bool_decide_eq_true_2 by done. simpl.
      rewrite bool_decide_eq_true_2; [done | by left].
    + rewrite bool_decide_eq_false_2 by done. simpl. rewrite IH.
      destruct (decide (k ∈ map fst l)) as [Hin|Hnin].
      * rewrite !bool_decide_eq_true_2; [done | by right | done].
      * rewrite !bool_decide_eq_false_2; [done | | done].
        intros [?|?]%elem_of_cons; [by subst | done].
Qed.

End Assoc.

End AssocFacts.

Module TreeFacts.

Import Store AssocFacts.

Lemma lookup_at_app cs p root :
  lookup_at (cs ++ p) root = lookup_at cs root ≫= lookup_at p.
Proof.
  revert root. induction cs as [|c cs IH]; intros root; simpl; [done|].
  destruct root as [|t es]; [done|].
  destruct (assoc_get c es); [apply IH | done].
Qed.

Lemma lookup_replace_at cs new old root :
  lookup_at cs root = Some old -> lookup_at cs (replace_at cs new root) = Some new.
Proof.
  revert root. induction cs as [|c cs IH]; intros root; simpl; [done|].
  destruct root as [|t es]; [done|].
  destruct (assoc_get c es) as [m|] eqn:E; [|done]. intros H. simpl.
  rewrite assoc_get_set_eq. by apply IH.
Qed.

Lemma replace_at_same cs sub root :
  lookup_at cs root = Some sub -> replace_at cs sub root = root.
Proof.
  revert root. induction cs as [|c cs IH]; intros root; simpl; [by intros [= ->]|].
  destruct root as [|t es]; [done|].
  destruct (assoc_get c es) as [m|] eqn:E; [|done]. intros H.
  rewrite (IH _ H). by rewrite assoc_set_same.
Qed.

Lemma replace_at_twice cs a b old root :
  lookup_at cs root = Some old ->
  replace_at cs b (replace_at cs a root) = replace_at cs b root.
Proof.
  revert root. induction cs as [|c cs IH]; intros root; simpl; [done|].
  destruct root as [|t es]; [done|].
  destruct (assoc_get c es) as [m|] eqn:E; [|done]. intros H. simpl.
  rewrite assoc_get_set_eq, assoc_set_set. by rewrite (IH _ H).
Qed.

Lemma alter_at_step c x xs f t es :
  alter_at (c :: x :: xs) f (Dir t es)
  = match assoc_get c es with
    | Some m =>
        match alter_at (x :: xs) f m with
        | Ok m' => Ok (Dir t (assoc_set c m' es))
        | Raise e => Raise e
        end
    | None => Raise FileNotFoundError
    end.
Proof. reflexivity. Qed.

(** An alteration below an existing node is an alteration of that node. *)
Lemma alter_at_under cs p f sub root :
  lookup_at cs root = Some sub -> p <> [] ->
  alter_at (cs ++ p) f root
  = match alter_at p f sub with
    | Ok sub' => Ok (replace_at cs sub' root)
    | Raise e => Raise e
    end.
Proof.
  intros Hl Hp. revert root Hl. induction cs as [|c cs IH]; intros root Hl.
  - simpl in *. injection Hl as ->. by destruct (alter_at p f sub).
  - simpl in Hl. destruct root as [|t es]; [done|].
    destruct (assoc_get c es) as [m|] eqn:E; [|done].
    change ((c :: cs) ++ p) with (c :: (cs ++ p)).
    destruct (cs ++ p) as [|x xs] eqn:Ecp.
    { apply app_eq_nil in Ecp as [_ ->]. done. }
    rewrite alter_at_step, E, (IH _ Hl).
    destruct (alter_at p f sub); [simpl; by rewrite E | done].
Qed.

Lemma makedirs_at_under ok t cs p sub root :
  lookup_at cs root = Some sub ->
  makedirs_at ok t (cs ++ p) root
  = match makedirs_at ok t p sub with
    | Ok sub' => Ok (replace_at cs sub' root)
    | Raise e => Raise e
    end.
Proof.
  revert root. induction cs as [|c cs IH]; intros root Hl.
  - simpl in *. injection Hl as ->. by destruct (makedirs_at ok t p sub).
  - simpl in Hl. destruct root as [|t' es]; [done|].
    destruct (assoc_get c es) as [m|] eqn:E; [|done].
    simpl. rewrite E, (IH _ Hl).
    by destruct (makedirs_at ok t p sub).
Qed.

End TreeFacts.

Module PathFacts.

Import Store CommonPrefix CommonPrefixFacts.

Lemma startswith_prefix s p : startswith s p = true <-> p `prefix_of` s.
Proof.
  revert s. induction p as [|c p IH]; intros s; simpl.
  - split; [intros _; apply prefix_nil | by destruct s].
  - destruct s as [|d s]; [split; [done | by intros ?%prefix_nil_inv]|].
    simpl. case_decide as Hd.
    + subst d. rewrite IH. split; [apply prefix_cons | by intros ?%prefix_cons_inv_2].
    + split; [done | by intros ?%prefix_cons_inv_1].
Qed.

Lemma startswith_app p s : startswith (p ++ s) p = true.
Proof. apply startswith_prefix. by exists s. Qed.

Lemma split_not_nil sep s : split sep s <> [].
Proof.
  destruct s as [|c s]; simpl; [done|].
  case_decide; [done|]. by destruct (split sep s).
Qed.

Lemma split_app_sep sep a b :
  split sep (a ++ sep :: b) = split sep a ++ split sep b.
Proof.
  induction a as [|c a IH]; simpl.
  - by case_decide.
  - rewrite IH. case_decide; [done|].
    pose proof (split_not_nil sep a). by destruct (split sep a).
Qed.

Lemma split_no_sep sep n : sep ∉ n -> split sep n = [n].
Proof.
  induction n as [|c n IH]; [done|]. intros [Hc Hn]%not_elem_of_cons. simpl.
  rewrite (IH Hn). case_decide; [by subst|done].
Qed.

Lemma parts_app_sep a b : parts (a ++ "/" ++ b) = parts a ++ parts b.
Proof. unfold parts. simpl. by rewrite split_app_sep, List.filter_app. Qed.

Lemma parts_valid n : valid_name n -> parts n = [n].
Proof.
  intros (Hne & Hdot & Hs). unfold parts. rewrite split_no_sep by done. simpl.
  by rewrite !bool_decide_eq_false_2.
Qed.

Lemma savesdir_shape self : exists x, savesdir self = x ++ "saves2".
Proof.
  unfold savesdir, PosixPath.join2. simpl.
  destruct (_ || _).
  - by eexists.
  - exists (app_data_dir self ++ "/"). by rewrite <- app_assoc.
Qed.

Lemma savesdir_no_slash_end self : endswith (savesdir self) "/" = false.
Proof.
  destruct (savesdir_shape self) as [x ->].
  unfold endswith. rewrite rev_app_distr. reflexivity.
Qed.

Lemma savesdir_not_empty self : savesdir self <> "".
Proof. destruct (savesdir_shape self) as [x ->]. by destruct x. Qed.

Lemma valid_name_no_lead n : valid_name n -> startswith n "/" = false.
Proof.
  intros (Hne & _ & Hs). destruct n as [|c n]; [done|]. simpl.
  case_decide as Hd; [|done].
  exfalso. apply Hs. rewrite <- Hd. by left.
Qed.

(** The path of an entry of the store. *)
Lemma join2_savesdir self n :
  startswith n "/" = false ->
  PosixPath.join2 (savesdir self) n = savesdir self ++ "/" ++ n.
Proof.
  intros Hn. unfold PosixPath.join2. change PosixPath.sep with ("/" : str).
  rewrite Hn, savesdir_no_slash_end, bool_decide_eq_false_2; [done|].
  apply savesdir_not_empty.
Qed.

Lemma parts_entry self n :
  valid_name n ->
  parts (PosixPath.join2 (savesdir self) n) = parts (savesdir self) ++ [n].
Proof.
  intros Hn. rewrite join2_savesdir by by apply valid_name_no_lead.
  by rewrite parts_app_sep, (parts_valid n).
Qed.

Lemma trimmed_app_sep a b : slash ∉ b -> trimmed (a ++ "/" ++ b) = Some a.
Proof.
  intros Hb. induction a as [|c a IH]; simpl.
  - assert (trimmed b = None) as ->; [|done].
    induction b as [|d b IHb]; [done|]. apply not_elem_of_cons in Hb as [Hd Hb].
    simpl. rewrite (IHb Hb). by rewrite bool_decide_eq_false_2.
  - simpl in IH. by rewrite IH.
Qed.

Lemma rfind_app_sep a b : slash ∉ b -> rfind (a ++ "/" ++ b) slash = len a.
Proof.
  intros Hb. unfold rfind. rewrite rfind_from_trimmed by lia.
  rewrite trimmed_app_sep by done. unfold len. lia.
Qed.

Lemma only_slashes k c : c ∈ concat (replicate k PosixPath.sep) -> c = slash.
Proof.
  induction k as [|k IH]; simpl; [by intros ?%elem_of_nil|].
  intros [->|Hin]%elem_of_cons; [done | by apply IH].
Qed.

Lemma dirname_entry self (b : str) :
  slash ∉ b -> PosixPath.dirname (savesdir self ++ "/" ++ b) = savesdir self.
Proof.
  intros Hb. unfold PosixPath.dirname. rewrite rfind_app_sep by done.
  unfold len. replace (Z.of_nat (length (savesdir self)) + 1)
    with (Z.of_nat (length (savesdir self ++ "/"))) by (rewrite length_app; simpl; lia).
  rewrite slice_to_take, (app_assoc _ "/" b), take_app_length.
  destruct (savesdir_shape self) as [x ->].
  rewrite bool_decide_eq_true_2 by (by destruct x).
  rewrite bool_decide_eq_true_2.
  - simpl. rewrite !rev_app_distr. simpl. by rewrite rev_involutive, <- !app_assoc.
  - intros Heq.
    assert (H2 : "2"%char ∈ (x ++ "saves2") ++ "/").
    { rewrite !elem_of_app. left. right. do 5 (apply elem_of_cons; right). by left. }
    rewrite Heq in H2. by apply only_slashes in H2.
Qed.

Lemma basename_entry self (b : str) :
  slash ∉ b -> PosixPath.basename (savesdir self ++ "/" ++ b) = b.
Proof.
  intros Hb. unfold PosixPath.basename. rewrite rfind_app_sep by done.
  unfold slice, bound, len.
  replace (_ <? 0) with false by (symmetry; apply Z.ltb_ge; lia).
  rewrite !length_app. simpl length.
  replace (Z.to_nat _) with (length (savesdir self ++ "/")) by (rewrite length_app; simpl; lia).
  rewrite (app_assoc _ "/" b), drop_app_length, take_ge; [done|].
  rewrite length_app. simpl. lia.
Qed.

Lemma has_magic_star (a : str) : Os.has_magic (a ++ "*") = true.
Proof.
  unfold Os.has_magic. rewrite existsb_app. apply orb_true_iff. right. reflexivity.
Qed.

Lemma plain_valid n : plain_name n -> valid_name n.
Proof.
  intros [Hne Hall]. split; [done|]. split.
  - intros ->. apply Forall_cons in Hall as [Hc _]. discriminate Hc.
  - intros Hin. rewrite Forall_forall in Hall. specialize (Hall _ Hin). discriminate Hall.
Qed.

Lemma fnmatch_star n : Os.fnmatch "*" n = true.
Proof. induction n as [|c n IH]; [done|]. simpl in *. exact IH. Qed.

(** With a plain name, the pattern [name*] matches the names that begin
    with [name]. *)
Lemma fnmatch_prefix (name n : str) :
  Forall (fun c => name_char c = true) name ->
  Os.fnmatch (name ++ "*") n = startswith n name.
Proof.
  intros Hall. revert n. induction Hall as [|c name Hc _ IH]; intros n.
  - rewrite fnmatch_star. by destruct n.
  - change ((c :: name) ++ "*") with (c :: (name ++ "*")).
    simpl. rewrite !bool_decide_eq_false_2 by (intros ->; discriminate Hc).
    destruct n as [|d n]; [done|]. rewrite IH. simpl.
    case_decide; [by rewrite bool_decide_eq_true_2 | by rewrite bool_decide_eq_false_2].
Qed.

Lemma plain_not_hidden name (rest : str) : plain_name name -> Os.ishidden (name ++ rest) = false.
Proof.
  intros [Hne Hall]. destruct name as [|c name]; [done|].
  apply Forall_cons in Hall as [Hc _]. unfold Os.ishidden. simpl.
  case_decide as Hd; [|done]. subst c. discriminate Hc.
Qed.

Lemma hidden_no_plain_prefix name n :
  plain_name name -> Os.ishidden n = true -> startswith n name = false.
Proof.
  intros [Hne Hall] Hh. destruct name as [|c name]; [done|].
  apply Forall_cons in Hall as [Hc _]. destruct n as [|d n]; [done|].
  unfold Os.ishidden in Hh. simpl in *. case_decide as Hd; [|done].
  subst d. case_decide as Hd2; [|done]. subst c. discriminate Hc.
Qed.


End PathFacts.

(** ** Running the monad *)

Module Run.

Lemma bind_ok {A B} (c : M A) (k : A -> M B) w a w1 :
  c w = (Ok a, w1) -> bind c k w = k a w1.
Proof. unfold bind. by intros ->. Qed.

Lemma bind_raise {A B} (c : M A) (k : A -> M B) w e w1 :
  c w = (Raise e, w1) -> bind c k w = (Raise e, w1).
Proof. unfold bind. by intros ->. Qed.

Lemma bind_inv {A B} (c : M A) (k : A -> M B) w r w2 :
  bind c k w = (r, w2) ->
  (exists a w1, c w = (Ok a, w1) /\ k a w1 = (r, w2))
  \/ (exists e, c w = (Raise e, w2) /\ r = Raise e).
Proof.
  unfold bind. destruct (c w) as [[a|e] w1].
  - intros H. left. by exists a, w1.
  - intros [= <- <-]. right. by exists e.
Qed.

Lemma bind_inv_ok {A B} (c : M A) (k : A -> M B) w b w2 :
  bind c k w = (Ok b, w2) ->
  exists a w1, c w = (Ok a, w1) /\ k a w1 = (Ok b, w2).
Proof. intros [H|(e & _ & [=])]%bind_inv. exact H. Qed.

Lemma for_each_cons {A} (x : A) l body :
  for_each (x :: l) body = bind (body x) (fun _ => for_each l body).
Proof. reflexivity. Qed.

End Run.

(** ** The snapshot store *)

Module StoreFacts.

Import Store AssocFacts TreeFacts PathFacts Run.

Lemma valid_name_b_spec n : valid_name_b n = true -> valid_name n.
Proof.
  unfold valid_name_b, valid_name. intros [[H1 H2]%andb_true_iff H3]%andb_true_iff.
  apply negb_true_iff, bool_decide_eq_false in H1, H2. repeat split; [done..|].
  intros Hin%list_elem_of_In. rewrite forallb_forall in H3. specialize (H3 _ Hin).
  by apply negb_true_iff, bool_decide_eq_false in H3.
Qed.

Lemma valid_names_b_spec es : valid_names_b es = true -> valid_names es.
Proof.
  unfold valid_names_b, valid_names. rewrite forallb_forall, Forall_forall.
  intros H n Hn. by apply valid_name_b_spec, H, list_elem_of_In.
Qed.


Lemma direct_b_spec p : direct_b p = true -> direct p.
Proof.
  unfold direct_b, direct. rewrite forallb_forall. intros H Hin.
  apply list_elem_of_In, H, negb_true_iff, bool_decide_eq_false in Hin. done.
Qed.

Lemma inside_b_spec k : inside_b k = true -> inside k.
Proof.
  unfold inside_b, inside, relative. intros [H1 H2]%andb_true_iff.
  apply negb_true_iff in H1. split; [done | by apply direct_b_spec].
Qed.

Lemma inside_relative rcf : Forall inside rcf -> Forall relative rcf.
Proof. rewrite !Forall_forall. intros H k Hk. by destruct (H k Hk). Qed.


Lemma find_savesdir self w t es :
  store_is self w t es -> Os.find (savesdir self) (fs w) = Some (Dir t es).
Proof. done. Qed.

Lemma get_savesdir_ok self w t es :
  store_is self w t es -> _get_savesdir self w = (Ok (savesdir self), w).
Proof.
  intros Hs. unfold _get_savesdir, Os.exists_, bind, get_fs, ret. simpl.
  fold (savesdir self). rewrite (find_savesdir _ _ _ _ Hs).
  by rewrite bool_decide_eq_true_2.
Qed.

Lemma find_entry self w t es n :
  store_is self w t es -> valid_name n ->
  Os.find (PosixPath.join2 (savesdir self) n) (fs w) = assoc_get n es.
Proof.
  intros Hs Hn. unfold Os.find. rewrite parts_entry by done.
  rewrite lookup_at_app, Hs. simpl. by destruct (assoc_get n es).
Qed.

Lemma assoc_del_absent {V} k (l : list (str * V)) :
  assoc_get k l = None -> assoc_del k l = l.
Proof.
  unfold assoc_del. induction l as [|[k' v] l IH]; simpl; [done|].
  case_bool_decide; [done|]. intros Hg. simpl. by rewrite IH.
Qed.


Lemma with_store_is self w t es t0 es0 evs :
  store_is self w t0 es0 -> store_is self (with_store self w t es evs) t es.
Proof. intros Hs. unfold store_is, with_store. simpl. by eapply lookup_replace_at. Qed.

Lemma with_store_twice self w t es es' t0 es0 evs evs' :
  store_is self w t0 es0 ->
  with_store self (with_store self w t es evs) t es' evs'
  = with_store self w t es' (evs ++ evs').
Proof.
  intros Hs. unfold with_store. simpl. f_equal.
  - by eapply replace_at_twice.
  - by rewrite app_assoc.
Qed.

Lemma with_store_same self w t es :
  store_is self w t es -> with_store self w t es [] = w.
Proof.
  intros Hs. unfold with_store. rewrite replace_at_same by done.
  rewrite app_nil_r. by destruct w.
Qed.

Lemma alter_entry self w t es n f :
  store_is self w t es -> valid_name n ->
  alter_at (parts (PosixPath.join2 (savesdir self) n)) f (fs w)
  = match f (assoc_get n es) with
    | Ok (Some m) =>
        Ok (replace_at (parts (savesdir self)) (Dir t (assoc_set n m es)) (fs w))
    | Ok None =>
        Ok (replace_at (parts (savesdir self)) (Dir t (assoc_del n es)) (fs w))
    | Raise e => Raise e
    end.
Proof.
  intros Hs Hn. rewrite parts_entry by done.
  rewrite (alter_at_under _ [n] _ (Dir t es)) by done. simpl.
  by destruct (f (assoc_get n es)) as [[m|]|e].
Qed.

Lemma isfile_entry self w t es n :
  store_is self w t es -> valid_name n ->
  Os.isfile (PosixPath.join2 (savesdir self) n) w
  = (Ok (match assoc_get n es with Some (File _ _) => true | _ => false end), w).
Proof.
  intros Hs Hn. unfold Os.isfile, bind, get_fs, ret.
  by rewrite (find_entry _ _ _ _ _ Hs Hn).
Qed.

Lemma isdir_entry self w t es n :
  store_is self w t es -> valid_name n ->
  Os.isdir (PosixPath.join2 (savesdir self) n) w
  = (Ok (match assoc_get n es with Some (Dir _ _) => true | _ => false end), w).
Proof.
  intros Hs Hn. unfold Os.isdir, bind, get_fs, ret.
  by rewrite (find_entry _ _ _ _ _ Hs Hn).
Qed.

Lemma remove_entry self w t es n c m :
  store_is self w t es -> valid_name n -> assoc_get n es = Some (File c m) ->
  Os.remove (Os.Path (PosixPath.join2 (savesdir self) n)) w
  = (Ok tt, with_store self w t (assoc_del n es)
              [EvRemove (PosixPath.join2 (savesdir self) n)]).
Proof.
  intros Hs Hn E. unfold Os.remove, bind, get_fs, lift, set_fs, log.
  rewrite (find_entry _ _ _ _ _ Hs Hn), E.
  by rewrite (alter_entry _ _ _ _ _ _ Hs Hn).
Qed.

Lemma rmtree_entry self w t es n m sub :
  store_is self w t es -> valid_name n ->
  assoc_get n es = Some (Dir m sub) ->
  Os.rmtree (PosixPath.join2 (savesdir self) n) w
  = (Ok tt, with_store self w t (assoc_del n es)
              [EvRmtree (PosixPath.join2 (savesdir self) n)]).
Proof.
  intros Hs Hn E. unfold Os.rmtree, bind, get_fs, set_fs, log.
  rewrite (find_entry _ _ _ _ _ Hs Hn), E.
  by rewrite (alter_entry _ _ _ _ _ _ Hs Hn).
Qed.

(** Deleting one entry, as the body of the loop of [_delete_savedir] does. *)
Lemma delete_entry self w t es n :
  store_is self w t es -> valid_name n ->
  exists evs,
    try_except
      (do isf <- Os.isfile (PosixPath.join2 (savesdir self) n);
       if isf then Os.remove (Os.Path (PosixPath.join2 (savesdir self) n))
       else do isd <- Os.isdir (PosixPath.join2 (savesdir self) n);
            if isd then Os.rmtree (PosixPath.join2 (savesdir self) n) else ret tt)
      is_OSError (fun _ => ret tt) w
    = (Ok tt, with_store self w t (assoc_del n es) evs).
Proof.
  intros Hs Hn. unfold try_except.
  rewrite (bind_ok _ _ _ _ _ (isfile_entry _ _ _ _ _ Hs Hn)).
  destruct (assoc_get n es) as [[c m|m sub]|] eqn:E.
  - rewrite (remove_entry _ _ _ _ _ _ _ Hs Hn E). by eexists.
  - rewrite (bind_ok _ _ _ _ _ (isdir_entry _ _ _ _ _ Hs Hn)), E.
    rewrite (rmtree_entry _ _ _ _ _ _ _ Hs Hn E). by eexists.
  - rewrite (bind_ok _ _ _ _ _ (isdir_entry _ _ _ _ _ Hs Hn)), E.
    exists []. rewrite (assoc_del_absent _ _ E). by rewrite with_store_same.
Qed.

Lemma fold_del_filter {V} (ns : list str) (es : list (str * V)) :
  fold_left (fun es n => assoc_del n es) ns es
  = List.filter (fun e => negb (bool_decide (e.1 ∈ ns))) es.
Proof.
  revert es. induction ns as [|n ns IH]; intros es; simpl.
  - induction es as [|e es IHes]; simpl; [done|]. by rewrite <- IHes at 1.
  - rewrite IH. unfold assoc_del. induction es as [|e es IHes]; simpl; [done|].
    destruct (decide (e.1 = n)) as [Heq|Hne].
    + rewrite bool_decide_eq_true_2 by done. simpl.
      rewrite (bool_decide_eq_true_2 (e.1 ∈ n :: ns)) by (rewrite Heq; by left).
      simpl. apply IHes.
    + rewrite bool_decide_eq_false_2 by done. simpl. rewrite IHes.
      destruct (decide (e.1 ∈ ns)) as [Hin|Hnin].
      * rewrite !bool_decide_eq_true_2; [done | by right | done].
      * rewrite !bool_decide_eq_false_2; [done | | done].
        intros [?|?]%elem_of_cons; done.
Qed.

Lemma without_as_filter name (es : list (str * node)) :
  List.filter
    (fun e => negb (bool_decide
                      (e.1 ∈ List.filter (fun n => startswith n name) (map fst es))))
    es
  = without name es.
Proof.
  unfold without. apply List.filter_ext_in. intros e He. f_equal.
  destruct (startswith e.1 name) eqn:E.
  - apply bool_decide_eq_true_2. apply list_elem_of_In, filter_In. split; [|done].
    apply in_map_iff. by exists e.
  - apply bool_decide_eq_false_2. intros Hin%list_elem_of_In%filter_In. destruct Hin. congruence.
Qed.

(** The loop of [_delete_savedir]. *)
Lemma delete_entries self ns w t es :
  store_is self w t es -> Forall valid_name ns ->
  exists evs,
    for_each (map (PosixPath.join2 (savesdir self)) ns)
      (fun f =>
         try_except
           (do isf <- Os.isfile f;
            if isf then Os.remove (Os.Path f)
            else do isd <- Os.isdir f; if isd then Os.rmtree f else ret tt)
           is_OSError (fun _ => ret tt)) w
    = (Ok tt, with_store self w t (fold_left (fun es n => assoc_del n es) ns es) evs).
Proof.
  intros Hs Hns. revert w es Hs. induction Hns as [|n ns Hn _ IH]; intros w es Hs.
  - exists []. simpl. unfold ret. by rewrite with_store_same.
  - rewrite map_cons, for_each_cons.
    destruct (delete_entry _ _ _ _ _ Hs Hn) as [evs Hd].
    rewrite (bind_ok _ _ _ _ _ Hd).
    destruct (IH _ (assoc_del n es) (with_store_is _ _ _ _ _ _ evs Hs)) as [evs' ->].
    exists (evs ++ evs'). by rewrite (with_store_twice _ _ _ _ _ _ _ _ _ Hs).
Qed.

Lemma listdir_store self w t es :
  store_is self w t es -> Os.listdir (savesdir self) w = (Ok (map fst es), w).
Proof.
  intros Hs. unfold Os.listdir, bind, get_fs, ret.
  by rewrite (find_savesdir _ _ _ _ Hs).
Qed.

(** What the pattern of [_delete_savedir] matches. *)
Lemma glob_store self w t es name :
  store_is self w t es -> plain_name name ->
  Os.glob (PosixPath.join2 (savesdir self) name ++ "*") w
  = (Ok (map (PosixPath.join2 (savesdir self))
           (List.filter (fun n => startswith n name) (map fst es))), w).
Proof.
  intros Hs Hp. pose proof (plain_valid _ Hp) as Hv.
  assert (Hslash : slash ∉ name ++ "*").
  { destruct Hv as (_ & _ & Hns). rewrite elem_of_app. intros [?|Hin]; [done|].
    apply list_elem_of_singleton in Hin. discriminate Hin. }
  unfold Os.glob. rewrite join2_savesdir by by apply valid_name_no_lead.
  rewrite <- !app_assoc. rewrite (has_magic_star (savesdir self ++ "/" ++ name)) || idtac.
  replace (Os.has_magic (savesdir self ++ "/" ++ name ++ "*")) with true
    by (symmetry; rewrite !app_assoc; apply has_magic_star).
  change (negb true) with false. cbv iota.
  rewrite dirname_entry, basename_entry by done.
  erewrite bind_ok;
    [|unfold try_except; rewrite (listdir_store _ _ _ _ Hs); reflexivity].
  unfold ret. rewrite plain_not_hidden by done.
  do 3 f_equal. induction (map fst es) as [|n ns IH]; simpl; [done|].
  destruct (Os.ishidden n) eqn:Eh; simpl.
  - rewrite (hidden_no_plain_prefix _ _ Hp Eh). apply IH.
  - rewrite fnmatch_prefix by apply Hp. destruct (startswith n name); [by rewrite IH | done].
Qed.

(** [_delete_savedir(name)] removes the entries of the store whose names
    begin with [name], and nothing else. *)
Lemma delete_savedir_spec self w t es name :
  store_is self w t es -> absolute self -> valid_names es -> plain_name name ->
  exists evs,
    _delete_savedir self name w
    = (Ok tt, with_store self w t (without name es) evs).
Proof.
  intros Hs Habs Hv Hp. unfold _delete_savedir.
  rewrite (bind_ok _ _ _ _ _ (get_savesdir_ok _ _ _ _ Hs)).
  unfold assert at 1. rewrite (proj1 Habs). unfold bind at 1, ret at 1.
  rewrite (bind_ok _ _ _ _ _ (glob_store _ _ _ _ _ Hs Hp)).
  assert (Hns : Forall valid_name (List.filter (fun n => startswith n name) (map fst es))).
  { apply Forall_forall. intros n Hin%list_elem_of_In%filter_In. destruct Hin as [Hin _].
    unfold valid_names in Hv. rewrite Forall_forall in Hv. apply Hv. by apply list_elem_of_In. }
  destruct (delete_entries _ _ _ _ _ Hs Hns) as [evs ->].
  exists evs. by rewrite fold_del_filter, without_as_filter.
Qed.

Lemma open_read_entry self w t es n :
  store_is self w t es -> valid_name n ->
  Os.open_read (PosixPath.join2 (savesdir self) n) w
  = (match assoc_get n es with
     | Some (File c _) => Ok c
     | Some (Dir _ _) => Raise IsADirectoryError
     | None => Raise FileNotFoundError
     end, w).
Proof.
  intros Hs Hn. unfold Os.open_read, bind, get_fs, ret, raise.
  rewrite (find_entry _ _ _ _ _ Hs Hn).
  by destruct (assoc_get n es) as [[c m|m sub]|].
Qed.

(** Reading one sidecar changes nothing, whatever the file holds: on text
    that is no JSON the removal is given the open file and raises a
    [TypeError], which is no [OSError]. *)
Lemma file_to_saveinfo_spec self w t es n :
  store_is self w t es -> valid_name n ->
  _file_to_saveinfo self n w
  = (match assoc_get n es with
     | Some (File (Json si) _) =>
         match load es n with
         | Some si' => Ok si'
         | None => Raise KeyError
         end
     | Some (File (Text _) _) => Raise TypeError
     | Some (Dir _ _) => Raise IsADirectoryError
     | None => Raise FileNotFoundError
     end, w).
Proof.
  intros Hs Hn. unfold _file_to_saveinfo, load.
  rewrite (bind_ok _ _ _ _ _ (get_savesdir_ok _ _ _ _ Hs)).
  unfold bind at 1. rewrite (open_read_entry _ _ _ _ _ Hs Hn).
  destruct (assoc_get n es) as [[[s|si] m|m sub]|]; try done.
  unfold try_except, Os.json_load, bind, ret, raise.
  destruct (save_games_roots (game_info si)); [done|].
  by destruct (save_games_root (game_info si)).
Qed.

Lemma attempt_saveinfo_spec self w t es n :
  store_is self w t es -> valid_name n ->
  attempt_saveinfo self n w = (Ok (load es n), w).
Proof.
  intros Hs Hn. unfold attempt_saveinfo, try_except, bind at 1.
  rewrite (file_to_saveinfo_spec _ _ _ _ _ Hs Hn). unfold load.
  destruct (assoc_get n es) as [[[s|si] m|m sub]|]; try done.
  destruct (save_games_roots (game_info si)); [done|].
  by destruct (save_games_root (game_info si)).
Qed.

Lemma map_M_pure {A B} (f : A -> M B) (g : A -> B) l w :
  (forall x, x ∈ l -> f x w = (Ok (g x), w)) -> map_M f l w = (Ok (map g l), w).
Proof.
  induction l as [|x l IH]; intros H; simpl; [done|].
  rewrite (bind_ok _ _ _ _ _ (H x ltac:(by left))).
  rewrite (bind_ok _ _ _ _ _ (IH (fun y Hy => H y ltac:(by right)))). done.
Qed.

Lemma omap_id_map {A B} (g : A -> option B) l : omap id (map g l) = omap g l.
Proof.
  induction l as [|x l IH]; [done|].
  change (omap id (map g (x :: l))) with (from_option (fun y => y :: omap id (map g l)) (omap id (map g l)) (g x)).
  change (omap g (x :: l)) with (from_option (fun y => y :: omap g l) (omap g l) (g x)).
  by rewrite IH.
Qed.

(** [get_saveinfos] reads the store and leaves the state as it is. *)
Lemma get_saveinfos_spec self w t es :
  store_is self w t es -> valid_names es ->
  get_saveinfos self w = (Ok (infos_of es), w).
Proof.
  intros Hs Hv. unfold get_saveinfos.
  rewrite (bind_ok _ _ _ _ _ (get_savesdir_ok _ _ _ _ Hs)).
  rewrite (bind_ok _ _ _ _ _ (listdir_store _ _ _ _ Hs)).
  erewrite bind_ok; [|apply (map_M_pure _ (load es))].
  - unfold ret, infos_of, listed, undos_of, saves_of. by rewrite omap_id_map.
  - intros n Hin%list_elem_of_In%filter_In. destruct Hin as [Hin _].
    apply (attempt_saveinfo_spec _ _ _ _ _ Hs).
    unfold valid_names in Hv. rewrite Forall_forall in Hv. apply Hv.
    by apply list_elem_of_In.
Qed.

End StoreFacts.

(** ** Code that only reads *)

Module ReadOnly.

Import Run Events.

Lemma readonly_run {A} (c : M A) w r w' : readonly c -> c w = (r, w') -> w' = w.
Proof. intros H E. specialize (H w). by rewrite E in H. Qed.

Lemma readonly_ret {A} (a : A) : readonly (ret a).
Proof. by intros w. Qed.

Lemma readonly_raise {A} e : readonly (@raise A e).
Proof. by intros w. Qed.

Lemma readonly_lift {A} (o : outcome A) : readonly (lift o).
Proof. by intros w. Qed.

Lemma readonly_get_fs : readonly get_fs.
Proof. by intros w. Qed.

Lemma readonly_bind {A B} (c : M A) (k : A -> M B) :
  readonly c -> (forall a, readonly (k a)) -> readonly (bind c k).
Proof.
  intros Hc Hk w. unfold bind. specialize (Hc w).
  destruct (c w) as [[a|e] w1]; simpl in *; subst; [apply Hk | done].
Qed.

Lemma readonly_try {A} (c : M A) handles h :
  readonly c -> (forall e, readonly (h e)) -> readonly (try_except c handles h).
Proof.
  intros Hc Hh w. unfold try_except. specialize (Hc w).
  destruct (c w) as [[a|e] w1]; simpl in *; subst; [done|].
  destruct (handles e); [apply Hh | done].
Qed.

Lemma readonly_assert b : readonly (assert b).
Proof. destruct b; [apply readonly_ret | apply readonly_raise]. Qed.

Lemma readonly_check_io p : readonly (Os.check_io p).
Proof. intros w. unfold Os.check_io. by destruct (bool_decide _). Qed.

Lemma readonly_clock_ns : readonly Os.clock_ns.
Proof. by intros w. Qed.

Lemma readonly_time_ms : readonly time_ms.
Proof. by intros w. Qed.

Lemma readonly_get_last_used : readonly get_last_used_save_info.
Proof. by intros w. Qed.

Create HintDb readonly.

(** One step of a proof that a computation only reads. *)
Ltac readonly_step :=
  match goal with
  | |- readonly (bind _ _) => apply readonly_bind; [|intros ?]
  | |- readonly (try_except _ _ _) => apply readonly_try; [|intros ?]
  | |- readonly (ret _) => apply readonly_ret
  | |- readonly (raise _) => apply readonly_raise
  | |- readonly (lift _) => apply readonly_lift
  | |- readonly get_fs => apply readonly_get_fs
  | |- readonly (assert _) => apply readonly_assert
  | |- readonly (match ?x with _ => _ end) => destruct x
  | |- readonly (let '(_, _) := ?x in _) => destruct x
  | |- readonly _ => assumption
  end.

Ltac readonly := repeat readonly_step; eauto with readonly.

Lemma readonly_exists p : readonly (Os.exists_ p).
Proof. unfold Os.exists_. readonly. Qed.

Lemma readonly_isfile p : readonly (Os.isfile p).
Proof. unfold Os.isfile. readonly. Qed.

Lemma readonly_isdir p : readonly (Os.isdir p).
Proof. unfold Os.isdir. readonly. Qed.

Lemma readonly_listdir p : readonly (Os.listdir p).
Proof. unfold Os.listdir. readonly. Qed.

Lemma readonly_getmtime p : readonly (Os.getmtime p).
Proof. unfold Os.getmtime. readonly. Qed.

Lemma readonly_open_read p : readonly (Os.open_read p).
Proof. unfold Os.open_read. readonly. Qed.

#[export] Hint Resolve readonly_exists readonly_isfile readonly_isdir
  readonly_listdir readonly_getmtime readonly_open_read readonly_time_ms
  readonly_get_last_used readonly_check_io readonly_clock_ns : readonly.

Lemma readonly_read_text p : readonly (Os.read_text p).
Proof. unfold Os.read_text. readonly. Qed.

#[export] Hint Resolve readonly_read_text : readonly.

Lemma readonly_readlines p : readonly (Os.readlines p).
Proof. unfold Os.readlines. readonly. Qed.

Lemma readonly_json_load j : readonly (Os.json_load j).
Proof. unfold Os.json_load. readonly. Qed.

Lemma readonly_max {A} (gt : A -> A -> bool) l : readonly (Os.max_ gt l).
Proof. unfold Os.max_. readonly. Qed.

Lemma readonly_round x : readonly (Os.round_ x).
Proof. unfold Os.round_. readonly. Qed.

Lemma readonly_glob p : readonly (Os.glob p).
Proof. unfold Os.glob. readonly. Qed.

#[export] Hint Resolve readonly_readlines readonly_json_load readonly_max
  readonly_round readonly_glob : readonly.

Lemma readonly_parse_vcf p : readonly (_parse_vcf p).
Proof. unfold _parse_vcf. readonly. Qed.

Lemma readonly_get_gamedir self gid : readonly (_get_gamedir self gid).
Proof. unfold _get_gamedir. readonly. Qed.

Lemma readonly_is_on_mmc self gi : readonly (_is_on_mmc self gi).
Proof. unfold _is_on_mmc. readonly. Qed.

Lemma readonly_get_steamapps_dir self gi b : readonly (_get_steamapps_dir self gi b).
Proof. unfold _get_steamapps_dir. readonly. Qed.

#[export] Hint Resolve readonly_parse_vcf readonly_get_gamedir readonly_is_on_mmc
  readonly_get_steamapps_dir : readonly.

Lemma readonly_parse_installdir self gi : readonly (_parse_installdir self gi).
Proof. unfold _parse_installdir. readonly. Qed.

#[export] Hint Resolve readonly_parse_installdir : readonly.

Lemma readonly_get_game_saves_root self gi l s :
  readonly (_get_game_saves_root self gi l s).
Proof. unfold _get_game_saves_root. readonly. Qed.

#[export] Hint Resolve readonly_get_game_saves_root : readonly.

Lemma readonly_find_autoclouds self gi l : readonly (_find_autoclouds self gi l).
Proof. unfold _find_autoclouds. readonly. Qed.

Lemma readonly_rcf_is_valid self root rcf : readonly (_rcf_is_valid self root rcf).
Proof. unfold _rcf_is_valid. readonly. Qed.

#[export] Hint Resolve readonly_find_autoclouds readonly_rcf_is_valid : readonly.

Lemma readonly_filter_valid self rcf roots : readonly (filter_valid self rcf roots).
Proof. induction roots as [|r roots IH]; simpl; readonly. Qed.

Lemma readonly_addRoots self gi s : readonly (addRoots self gi s).
Proof. unfold addRoots. readonly. Qed.

#[export] Hint Resolve readonly_filter_valid readonly_addRoots : readonly.

Lemma readonly_search_likely_locations self gi rcf :
  readonly (_search_likely_locations self gi rcf).
Proof. unfold _search_likely_locations. readonly. Qed.

Lemma readonly_existing_dirs ps : readonly (existing_dirs ps).
Proof. induction ps as [|p ps IH]; simpl; readonly. Qed.

#[export] Hint Resolve readonly_search_likely_locations readonly_existing_dirs
  : readonly.

Lemma readonly_find_save_games self gi rcf : readonly (_find_save_games self gi rcf).
Proof. unfold _find_save_games. readonly. Qed.

Lemma readonly_read_one_rcf rcf p : readonly (read_one_rcf rcf p).
Proof. unfold read_one_rcf. readonly. Qed.

#[export] Hint Resolve readonly_find_save_games readonly_read_one_rcf : readonly.

Lemma readonly_read_all_rcf rcf ps : readonly (read_all_rcf rcf ps).
Proof. revert rcf. induction ps as [|p ps IH]; intros rcf; simpl; readonly. Qed.

#[export] Hint Resolve readonly_read_all_rcf : readonly.

Lemma readonly_read_rcf self gi : readonly (_read_rcf self gi).
Proof. unfold _read_rcf. readonly. Qed.

Lemma readonly_get_game_roots gi : readonly (_get_game_roots gi).
Proof. unfold _get_game_roots. readonly. Qed.

Lemma readonly_existing_mtimes ps : readonly (existing_mtimes ps).
Proof. induction ps as [|p ps IH]; simpl; readonly. Qed.

#[export] Hint Resolve readonly_read_rcf readonly_get_game_roots
  readonly_existing_mtimes : readonly.

Lemma readonly_get_directory_timestamp self rcf d :
  readonly (_get_directory_timestamp self rcf d).
Proof. unfold _get_directory_timestamp. readonly. Qed.

#[export] Hint Resolve readonly_get_directory_timestamp : readonly.

Lemma readonly_map_M {A B} (f : A -> M B) l :
  (forall a, readonly (f a)) -> readonly (map_M f l).
Proof. intros Hf. induction l as [|x l IH]; simpl; readonly. Qed.

Lemma readonly_get_rcf_timestamp self rcf gi :
  readonly (_get_rcf_timestamp self rcf gi).
Proof.
  unfold _get_rcf_timestamp. readonly. apply readonly_map_M. intros ?. readonly.
Qed.

#[export] Hint Resolve readonly_get_rcf_timestamp : readonly.

End ReadOnly.

(** ** The events of a computation *)

Module EventFacts.

Import Store Events Run ReadOnly.

Lemma emits_mono {A} (P Q : event -> bool) (c : M A) :
  (forall e, P e = true -> Q e = true) -> emits P c -> emits Q c.
Proof.
  intros HPQ Hc w r w' Hrun. destruct (Hc w r w' Hrun) as (evs & Ht & Hev).
  exists evs. split; [done|]. rewrite forallb_forall in *. auto.
Qed.

Lemma emits_readonly {A} P (c : M A) : readonly c -> emits P c.
Proof.
  intros Hc w r w' Hrun. apply readonly_run in Hrun as ->; [|done].
  exists []. by rewrite app_nil_r.
Qed.

Lemma emits_ret {A} P (a : A) : emits P (ret a).
Proof. apply emits_readonly, readonly_ret. Qed.

Lemma emits_raise {A} P e : emits P (@raise A e).
Proof. apply emits_readonly, readonly_raise. Qed.

Lemma emits_bind {A B} P (c : M A) (k : A -> M B) :
  emits P c -> (forall a, emits P (k a)) -> emits P (bind c k).
Proof.
  intros Hc Hk w r w' [(a & w1 & H1 & H2)|(e & H1 & ->)]%bind_inv.
  - destruct (Hc _ _ _ H1) as (evs1 & Ht1 & Hev1).
    destruct (Hk a _ _ _ H2) as (evs2 & Ht2 & Hev2).
    exists (evs1 ++ evs2). rewrite Ht2, Ht1, app_assoc. split; [done|].
    by rewrite forallb_app, Hev1, Hev2.
  - by eapply Hc.
Qed.

Lemma emits_try {A} P (c : M A) handles h :
  emits P c -> (forall e, emits P (h e)) -> emits P (try_except c handles h).
Proof.
  intros Hc Hh w r w'. unfold try_except.
  destruct (c w) as [[a|e] w1] eqn:E.
  - intros [= <- <-]. by eapply Hc.
  - destruct (Hc _ _ _ E) as (evs1 & Ht1 & Hev1).
    destruct (handles e).
    + intros H2. destruct (Hh e _ _ _ H2) as (evs2 & Ht2 & Hev2).
      exists (evs1 ++ evs2). rewrite Ht2, Ht1, app_assoc. split; [done|].
      by rewrite forallb_app, Hev1, Hev2.
    + intros [= <- <-]. by exists evs1.
Qed.

Lemma emits_log P e : P e = true -> emits P (log e).
Proof.
  intros He w r w' [= <- <-]. exists [e]. simpl. by rewrite He.
Qed.

Lemma emits_set_fs P n : emits P (set_fs n).
Proof. intros w r w' [= <- <-]. exists []. simpl. by rewrite app_nil_r. Qed.

Lemma emits_set_last_used P o : emits P (set_last_used o).
Proof. intros w r w' [= <- <-]. exists []. simpl. by rewrite app_nil_r. Qed.

Lemma emits_for_each {A} P (l : list A) body :
  (forall a, emits P (body a)) -> emits P (for_each l body).
Proof.
  intros Hb. induction l as [|x l IH]; [apply emits_ret|].
  rewrite for_each_cons. apply emits_bind; [apply Hb | by intros _].
Qed.

Lemma emits_map_M {A B} P (f : A -> M B) l :
  (forall a, emits P (f a)) -> emits P (map_M f l).
Proof.
  intros Hf. induction l as [|x l IH]; [apply emits_ret|]. simpl.
  apply emits_bind; [apply Hf|]. intros y. apply emits_bind; [apply IH|].
  intros ys. apply emits_ret.
Qed.

Create HintDb emits.

(** One step of a proof about the events of a computation. *)
Ltac emits_step :=
  match goal with
  | |- emits _ (bind _ _) => apply emits_bind; [|intros ?]
  | |- emits _ (try_except _ _ _) => apply emits_try; [|intros ?]
  | |- emits _ (ret _) => apply emits_ret
  | |- emits _ (raise _) => apply emits_raise
  | |- emits _ (set_fs _) => apply emits_set_fs
  | |- emits _ (set_last_used _) => apply emits_set_last_used
  | |- emits _ (log _) => apply emits_log; reflexivity
  | |- emits _ (for_each _ _) => apply emits_for_each; intros ?
  | |- emits _ (map_M _ _) => apply emits_map_M; intros ?
  | |- emits _ (match ?x with _ => _ end) => destruct x
  | |- emits _ (let '(_, _) := ?x in _) => destruct x
  | |- emits _ _ => assumption
  | |- emits _ _ => apply emits_readonly; solve [auto with readonly | readonly]
  end.

Ltac emits := repeat emits_step; eauto with emits.

Lemma emits_makedirs P p ok :
  P (EvMakedirs p) = true -> emits P (Os.makedirs p ok).
Proof.
  intros HP. unfold Os.makedirs. emits. by apply emits_log.
Qed.

Lemma emits_put_file P p c t : emits P (Os.put_file p c t).
Proof.
  unfold Os.put_file. emits.
Qed.

Lemma emits_get_savesdir self : emits is_makedirs (_get_savesdir self).
Proof.
  unfold _get_savesdir. emits. by apply emits_makedirs.
Qed.

#[export] Hint Resolve emits_get_savesdir emits_put_file : emits.

Lemma emits_copy2 src dst : emits is_copying (Os.copy2 src dst).
Proof. unfold Os.copy2. emits. Qed.

Lemma emits_remove a : emits is_culling (Os.remove a).
Proof.
  unfold Os.remove. emits.
Qed.

Lemma emits_rmtree p : emits is_culling (Os.rmtree p).
Proof. unfold Os.rmtree. emits. Qed.

#[export] Hint Resolve emits_copy2 emits_remove emits_rmtree : emits.

Lemma emits_copy_by_rcf self rcf src dst :
  emits is_copying (_copy_by_rcf self rcf src dst).
Proof. unfold _copy_by_rcf. emits. by apply emits_makedirs. Qed.

Lemma emits_file_to_saveinfo self name :
  emits is_makedirs (_file_to_saveinfo self name).
Proof.
  unfold _file_to_saveinfo, Os.remove. emits.
Qed.

#[export] Hint Resolve emits_copy_by_rcf emits_file_to_saveinfo : emits.

Lemma emits_get_saveinfos self : emits is_makedirs (get_saveinfos self).
Proof. unfold get_saveinfos, attempt_saveinfo. emits. Qed.

#[export] Hint Resolve emits_get_saveinfos : emits.

Lemma emits_get_newest_save self gid : emits is_makedirs (_get_newest_save self gid).
Proof. unfold _get_newest_save. emits. Qed.

Lemma is_makedirs_culling e : is_makedirs e = true -> is_culling e = true.
Proof. by destruct e. Qed.

Lemma is_makedirs_copying e : is_makedirs e = true -> is_copying e = true.
Proof. by destruct e. Qed.

Lemma emits_delete_savedir self name : emits is_culling (_delete_savedir self name).
Proof.
  unfold _delete_savedir. emits.
  eapply emits_mono, emits_get_savesdir. apply is_makedirs_culling.
Qed.

#[export] Hint Resolve emits_get_newest_save emits_delete_savedir : emits.

Lemma emits_delete_oldest self files keep :
  emits is_culling (delete_oldest self files keep).
Proof.
  induction files as [|d files IH]; simpl; emits.
Qed.

#[export] Hint Resolve emits_delete_oldest : emits.

Lemma emits_cull_old_saves self : emits is_culling (_cull_old_saves self).
Proof.
  unfold _cull_old_saves. emits.
  eapply emits_mono, emits_get_saveinfos. apply is_makedirs_culling.
Qed.

End EventFacts.

(** ** Deleting a snapshot *)

Module NameFacts.

Import Store.

Lemma name_char_digit k : (k < 10)%nat -> name_char (digit k) = true.
Proof. intros H. do 10 (destruct k as [|k]; [reflexivity|]). lia. Qed.

Lemma digits_fuel_plain fuel n acc :
  Forall (fun c => name_char c = true) acc ->
  Forall (fun c => name_char c = true) (digits_fuel fuel n acc).
Proof.
  revert n acc. induction fuel as [|fuel IH]; intros n acc Hacc; simpl; [done|].
  assert (Hd : name_char (digit (N.to_nat (n mod 10))) = true).
  { apply name_char_digit. pose proof (N.mod_lt n 10 ltac:(done)). lia. }
  destruct (n <? 10)%N; [by constructor | apply IH; by constructor].
Qed.

Lemma digits_fuel_not_nil fuel n acc : digits_fuel (S fuel) n acc <> [].
Proof.
  revert n acc. induction fuel as [|fuel IH]; intros n acc; simpl.
  - by destruct (n <? 10)%N.
  - destruct (n <? 10)%N; [done|]. apply IH.
Qed.

Lemma str_of_int_plain z : Forall (fun c => name_char c = true) (str_of_int z).
Proof.
  unfold str_of_int, str_of_N.
  destruct (z <? 0); [constructor; [done|]|]; by apply digits_fuel_plain.
Qed.

(** The names that [_create_savedir] gives are plain. *)
Lemma snapshot_name_plain undo gid ts : plain_name (snapshot_name undo gid ts).
Proof.
  unfold snapshot_name. split; [by destruct undo|].
  rewrite !Forall_app. repeat split; try apply str_of_int_plain.
  - destruct undo; by repeat constructor.
  - by repeat constructor.
  - by repeat constructor.
Qed.

End NameFacts.

Section C10.

Import Store StoreFacts.



End C10.

(** ** Listing the snapshots *)

Module SortFacts.

Import Store.

Lemma insert_desc_perm x l : Permutation (insert_desc x l) (x :: l).
Proof.
  induction l as [|y l IH]; simpl; [done|].
  destruct (timestamp x <? timestamp y); [|done].
  rewrite IH. apply perm_swap.
Qed.

Lemma sort_desc_perm l : Permutation (sort_desc l) l.
Proof.
  induction l as [|x l IH]; simpl; [done|].
  unfold sort_desc in *. simpl. rewrite insert_desc_perm. by constructor.
Qed.

Lemma insert_desc_sorted x l :
  StronglySorted newer l -> StronglySorted newer (insert_desc x l).
Proof.
  induction 1 as [|y l Hs IH Hy]; simpl; [by repeat constructor|].
  destruct (Z.ltb_spec (timestamp x) (timestamp y)).
  - constructor; [done|]. rewrite insert_desc_perm. constructor; [unfold newer; lia | done].
  - constructor; [by constructor|]. constructor; [done|].
    eapply Forall_impl; [exact Hy|]. unfold newer. intros z Hz. simpl in *. lia.
Qed.

Lemma sort_desc_sorted l : StronglySorted newer (sort_desc l).
Proof.
  induction l as [|x l IH]; [constructor|]. by apply insert_desc_sorted.
Qed.

Lemma filter_sorted (P : SaveInfo -> bool) l :
  StronglySorted newer l -> StronglySorted newer (List.filter P l).
Proof.
  induction 1 as [|y l Hs IH Hy]; simpl; [constructor|].
  destruct (P y); [|done]. constructor; [done|].
  apply Forall_forall. intros z Hz%list_elem_of_In%filter_In. destruct Hz as [Hz _].
  rewrite Forall_forall in Hy. by apply Hy, list_elem_of_In.
Qed.

Lemma sorted_newest_first l : StronglySorted newer l -> newest_first l.
Proof.
  induction 1 as [|y l Hs IH Hy]; intros i j a b Hij Ha Hb; [done|].
  destruct j as [|j]; [lia|]. simpl in Hb. destruct i as [|i]; simpl in Ha.
  - injection Ha as <-. rewrite Forall_forall in Hy.
    by apply Hy, (list_elem_of_lookup_2 _ j).
  - apply (IH i j); [lia | done | done].
Qed.




End SortFacts.

Section C3.

Import Store StoreFacts SortFacts.

Lemma filter_idem {A} (P : A -> bool) l :
  List.filter P (List.filter P l) = List.filter P l.
Proof.
  induction l as [|x l IH]; simpl; [done|].
  destruct (P x) eqn:E; simpl; rewrite ?E; by rewrite IH.
Qed.

Lemma filter_disjoint {A} (P Q : A -> bool) l :
  (forall x, P x = true -> Q x = false) -> List.filter Q (List.filter P l) = [].
Proof.
  intros H. induction l as [|x l IH]; simpl; [done|].
  destruct (P x) eqn:E; simpl; [by rewrite (H _ E)|done].
Qed.

Lemma undos_of_infos_of es : undos_of (infos_of es) = undos_of (sort_desc (listed es)).
Proof.
  unfold infos_of, undos_of, saves_of. rewrite List.filter_app, filter_idem.
  rewrite filter_disjoint; [by rewrite app_nil_r|]. intros x. by destruct (is_undo x).
Qed.

Lemma saves_of_infos_of es : saves_of (infos_of es) = saves_of (sort_desc (listed es)).
Proof.
  unfold infos_of, undos_of, saves_of. rewrite List.filter_app, filter_idem.
  rewrite filter_disjoint; [done|]. intros x. by destruct (is_undo x).
Qed.

(** The list is the undo snapshots, newest first, then the others, newest
    first; a sidecar that cannot be read is left out of it. *)
Lemma infos_of_order es :
  newest_first (undos_of (infos_of es)) /\ newest_first (saves_of (infos_of es))
  /\ (forall si, si ∈ infos_of es <-> si ∈ listed es)
  /\ infos_of es = undos_of (infos_of es) ++ saves_of (infos_of es).
Proof.
  rewrite undos_of_infos_of, saves_of_infos_of. split; [|split; [|split]].
  - apply sorted_newest_first, filter_sorted, sort_desc_sorted.
  - apply sorted_newest_first, filter_sorted, sort_desc_sorted.
  - intros si. unfold infos_of, undos_of, saves_of.
    rewrite elem_of_app, !list_elem_of_In, !filter_In.
    rewrite <- !list_elem_of_In, !sort_desc_perm.
    destruct (is_undo si); simpl; intuition congruence.
  - done.
Qed.

(** C3.  On a store whose entries have names, [get_saveinfos] succeeds and
    returns the undo snapshots, newest first, followed by the regular ones,
    newest first; a sidecar that is no JSON is left out of the list.  But
    nothing is deleted: the state after the call is the state before it.
    Reading such a sidecar raises [TypeError], the one of [os.remove] given
    an open file, which the handler does not expect, and the sidecar is in
    the store as before. *)
Theorem get_saveinfos_keeps_corrupt_sidecars self w t es :
  store_is self w t es -> valid_names es ->
  exists infos,
    get_saveinfos self w = (Ok infos, w)
    /\ infos = undos_of infos ++ saves_of infos
    /\ newest_first (undos_of infos) /\ newest_first (saves_of infos)
    /\ (forall si, si ∈ infos <-> si ∈ listed es)
    /\ forall name text tm,
         assoc_get name es = Some (File (Text text) tm) ->
         load es name = None
         /\ _file_to_saveinfo self name w = (Raise TypeError, w)
         /\ Os.find (PosixPath.join2 (savesdir self) name) (fs w)
            = Some (File (Text text) tm).
Proof.
  intros Hs Hv. exists (infos_of es).
  split; [by apply (get_saveinfos_spec self w t es)|].
  destruct (infos_of_order es) as (Hu & Hr & Hin & Happ).
  split; [done|]. split; [done|]. split; [done|]. split; [done|].
  intros name text tm Hget.
  assert (valid_name name) as Hn.
  { unfold valid_names in Hv. rewrite Forall_forall in Hv. apply Hv.
    by eapply AssocFacts.assoc_get_In. }
  split; [unfold load; by rewrite Hget|].
  split.
  - by rewrite (file_to_saveinfo_spec _ _ _ _ _ Hs Hn), Hget.
  - by rewrite (find_entry _ _ _ _ _ Hs Hn).
Qed.

(** The theorem on a store with the sidecar [save_1_100.json] that holds
    the text [{]. *)
Lemma get_saveinfos_keeps_broken_sidecar :
  let w := Demo.world_of Demo.broken_store [] 0 in
  get_saveinfos Demo.engine w
  = (Ok [Demo.info true 1 150; Demo.info false 1 200], w)
  /\ Os.find "/data/saves2/save_1_100.json" (fs w) = Some (File (Text "{") 0)
  /\ _file_to_saveinfo Demo.engine "save_1_100.json" w = (Raise TypeError, w).
Proof.
  intros w.
  destruct (get_saveinfos_keeps_corrupt_sidecars Demo.engine w 0 Demo.broken_store)
    as (infos & Hrun & _ & _ & _ & _ & Hcorrupt).
  - reflexivity.
  - apply valid_names_b_spec. vm_compute. reflexivity.
  - destruct (Hcorrupt "save_1_100.json" "{" 0 eq_refl) as (_ & Hraise & Hfind).
    split; [vm_compute; reflexivity|]. split; [exact Hfind | exact Hraise].
Defined.

End C3.

(** ** Retention *)

Module RetentionFacts.

Import Store Retention StoreFacts AssocFacts PathFacts SortFacts Run.

















End RetentionFacts.

Section C5.

Import Store Retention StoreFacts AssocFacts PathFacts SortFacts Run RetentionFacts.













(** Culling is the last step of every backup that makes a snapshot and,
    but for the note of the snapshot last used, of every restore. *)
Lemma do_backup_culls self gi (apply_last_used : bool) w si gi' w' :
  do_backup self gi apply_last_used false w = (Ok (Backup si, gi'), w') ->
  exists w0, _cull_old_saves self w0 = (Ok tt, w').
Proof.
  unfold do_backup. intros ([rcf gi1] & w1 & _ & H)%bind_inv_ok.
  destruct (no_rcf rcf); [done|].
  apply bind_inv_ok in H as (newest & w2 & _ & H).
  apply bind_inv_ok in H as (skip & w3 & _ & H).
  destruct skip; [done|]. simpl negb in H. cbv iota in H.
  apply bind_inv_ok in H as (saveInfo & w4 & _ & H).
  apply bind_inv_ok in H as (? & w5 & _ & H).
  apply bind_inv_ok in H as (? & w6 & _ & H).
  apply bind_inv_ok in H as ([] & w7 & Hcull & H).
  injection H as _ _ <-. by exists w6.
Qed.

Lemma do_restore_culls self si w w' :
  do_restore self si w = (Ok tt, w') ->
  exists w0 w1 o,
    _cull_old_saves self w0 = (Ok tt, w1) /\ set_last_used o w1 = (Ok tt, w').
Proof.
  unfold do_restore. intros ([rcf gi1] & w1 & _ & H)%bind_inv_ok.
  apply bind_inv_ok in H as (? & w2 & _ & H).
  apply bind_inv_ok in H as (? & w3 & _ & H).
  apply bind_inv_ok in H as (? & w4 & _ & H).
  apply bind_inv_ok in H as ([] & w5 & Hcull & H).
  by exists w4, w5, (Some (with_game_info si gi1)).
Qed.

(** The game is played and backed up 55 times with [max_saves = 50]: every
    backup makes a snapshot, and the 50 newest are listed afterwards. *)
Lemma backups_55_keep_50 :
  exists made w' listed,
    Demo.backups Demo.engine (Demo.times 1001 55)
      (Demo.world_of [] (Demo.save_dat 0) 1000) = (Some made, w')
    /\ map timestamp made = Demo.times 1001 55
    /\ get_saveinfos Demo.engine w' = (Ok listed, w')
    /\ map timestamp listed = rev (Demo.times 1006 50)
    /\ forallb (fun i => negb (is_undo i)) listed = true.
Proof.
  eexists. eexists. eexists. split; [vm_compute; reflexivity|].
  split; [vm_compute; reflexivity|]. split; [vm_compute; reflexivity|].
  split; vm_compute; reflexivity.
Qed.


(** Three restores of a snapshot, each of which makes an undo snapshot:
    the newest undo snapshot is the only one listed afterwards. *)
Lemma restores_3_keep_1_undo :
  let w0 := Demo.world_of (Demo.snapshot false 1 100) (Demo.save_dat 150000000) 200 in
  exists w1 w2 w3 listed,
    do_restore Demo.engine (Demo.info false 1 100) w0 = (Ok tt, w1)
    /\ do_restore Demo.engine (Demo.info false 1 100) (Demo.later 300 w1) = (Ok tt, w2)
    /\ do_restore Demo.engine (Demo.info false 1 100) (Demo.later 400 w2) = (Ok tt, w3)
    /\ get_saveinfos Demo.engine w3 = (Ok listed, w3)
    /\ map filename listed = ["undo_1_400"; "save_1_100"].
Proof.
  intros w0. eexists. eexists. eexists. eexists.
  split; [vm_compute; reflexivity|]. split; [vm_compute; reflexivity|].
  split; [vm_compute; reflexivity|]. split; vm_compute; reflexivity.
Qed.

End C5.

(** ** Change detection *)

Module ChangeFacts.

Import Store Change StoreFacts Run ReadOnly.

Lemma exists_spec p w :
  Os.exists_ p w = (Ok (bool_decide (is_Some (Os.find p (fs w)))), w).
Proof. reflexivity. Qed.








Lemma root_change_populated rcf n root z :
  root_change rcf n root = Some z -> mtimes rcf n root <> [].
Proof. unfold root_change. by destruct (mtimes rcf n root). Qed.




(** With the save roots in the game-info, [_read_rcf] gives the manifest
    and leaves the game-info as it is. *)
Lemma read_rcf_cached self gi roots w r w' :
  save_games_roots gi = Some roots ->
  _read_rcf self gi w = (r, w') ->
  w' = w /\ forall o gi', r = Ok (o, gi') -> gi' = gi /\ is_Some o.
Proof.
  intros Hroots Hrun. split; [by eapply readonly_run, Hrun; apply readonly_read_rcf|].
  intros o gi' ->. unfold _read_rcf in Hrun. rewrite Hroots in Hrun.
  apply bind_inv_ok in Hrun as (dirs & w1 & _ & Hrun).
  apply bind_inv_ok in Hrun as (rcf & w2 & _ & Hrun).
  injection Hrun as <- <- _. by split.
Qed.

End ChangeFacts.

Section C9.

Import Store Change StoreFacts ChangeFacts Run.



End C9.

(** ** The validation of save roots *)

Module ValidationFacts.

Import Store Change AssocFacts StoreFacts ChangeFacts Run ReadOnly.

Lemma valid_root_b_spec rcf n root :
  valid_root_b rcf n root = true <-> valid_root rcf n root.
Proof.
  unfold valid_root_b, valid_root. rewrite existsb_exists.
  split; intros (k & Hk & H); exists k; split; try done; by apply list_elem_of_In.
Qed.

Lemma rcf_is_valid_spec self root rcf w :
  _rcf_is_valid self root rcf w = (Ok (valid_root_b rcf (fs w) root), w).
Proof. reflexivity. Qed.

Lemma filter_valid_spec self rcf roots w :
  filter_valid self rcf roots w
  = (Ok (List.filter (valid_root_b rcf (fs w)) roots), w).
Proof.
  induction roots as [|r roots IH]; [done|].
  simpl. unfold bind at 1. rewrite rcf_is_valid_spec.
  unfold bind. rewrite IH. unfold ret. by destruct (valid_root_b rcf (fs w) r).
Qed.

(** The keys of the dictionary that [_read_rcf] builds are the roots it was
    built from. *)
Lemma roots_dict_keys idx d l root :
  root ∈ map fst (roots_dict idx d l) -> root ∈ map fst d \/ root ∈ l.
Proof.
  revert idx d. induction l as [|x l IH]; intros idx d; simpl; [by left|].
  intros [H|H]%IH; [|right; by right].
  rewrite map_fst_assoc_set in H. case_bool_decide; [by left|].
  apply elem_of_app in H as [H|H]; [by left|].
  apply list_elem_of_singleton in H as ->. right. by left.
Qed.

Lemma assoc_set_not_nil {V} k (v : V) l : assoc_set k v l <> [].
Proof. destruct l as [|[k' v'] l]; simpl; [done|]. by case_bool_decide. Qed.

Lemma roots_dict_not_nil idx d l : d <> [] \/ l <> [] -> roots_dict idx d l <> [].
Proof.
  revert idx d. induction l as [|x l IH]; intros idx d; simpl.
  - by intros [H|H].
  - intros _. apply IH. left. apply assoc_set_not_nil.
Qed.

End ValidationFacts.

Section C7.

Import Store Change StoreFacts ChangeFacts ValidationFacts Run ReadOnly.

(** C7, as amended.  [_read_rcf] validates save roots only when it finds
    them.  For a game-info that has its save roots, it reads the manifest
    and returns it with the game-info as it is, whatever is at the roots:
    the result is never "unsupported".  For a game-info without save roots,
    a manifest is returned only together with a non-empty dictionary of
    roots, each of which has a manifest entry that names a regular file. *)
Theorem read_rcf_validates_new_roots_only self gi w :
  (forall roots r w',
     save_games_roots gi = Some roots ->
     _read_rcf self gi w = (r, w') ->
     w' = w /\ forall o gi', r = Ok (o, gi') -> gi' = gi /\ is_Some o)
  /\ (forall rcf gi' w',
        save_games_roots gi = None ->
        _read_rcf self gi w = (Ok (Some rcf, gi'), w') ->
        w' = w
        /\ exists roots,
             save_games_roots gi' = Some roots /\ roots <> []
             /\ forall root, root ∈ map fst roots -> valid_root rcf (fs w) root).
Proof.
  split.
  - intros roots r w' Hroots Hrun. by eapply read_rcf_cached.
  - intros rcf gi' w' Hnone Hrun.
    split; [by eapply readonly_run, Hrun; apply readonly_read_rcf|].
    unfold _read_rcf in Hrun. rewrite Hnone in Hrun.
    apply bind_inv_ok in Hrun as (dirs & w1 & H1 & Hrun).
    apply readonly_run in H1 as ->; [|apply readonly_get_gamedir].
    apply bind_inv_ok in Hrun as (rcf0 & w2 & H2 & Hrun).
    apply readonly_run in H2 as ->; [|apply readonly_read_all_rcf].
    apply bind_inv_ok in Hrun as (found & w3 & H3 & Hrun).
    apply readonly_run in H3 as ->; [|apply readonly_find_save_games].
    destruct (length found <? 1)%nat; [done|].
    apply bind_inv_ok in Hrun as (kept & w4 & H4 & Hrun).
    rewrite filter_valid_spec in H4. injection H4 as <- <-.
    destruct (length _ <? 1)%nat eqn:Hlen; [done|].
    injection Hrun as <- <- <-. eexists. split; [reflexivity|]. split.
    + apply roots_dict_not_nil. right. intros E. by rewrite E in Hlen.
    + intros root [H|H]%roots_dict_keys; [by apply elem_of_nil in H|].
      apply list_elem_of_In, filter_In in H as [_ H].
      by apply valid_root_b_spec.
Qed.

(** The theorem on the example game before its roots are known: the
    [remote] directory of the account is found and is valid. *)
Lemma read_rcf_validates_new_roots_only_example :
  let w := Demo.world_of [] (Demo.save_dat 50000000) 200 in
  exists roots,
    (_read_rcf Demo.engine Demo.new_game w).1
    = Ok (Some ["save.dat"], with_roots Demo.new_game roots)
    /\ forall root, root ∈ map fst roots -> valid_root ["save.dat"] (fs w) root.
Proof.
  intros w.
  destruct (read_rcf_validates_new_roots_only Demo.engine Demo.new_game w) as [_ H].
  destruct (H ["save.dat"] (with_roots Demo.new_game Demo.roots) w)
    as (_ & roots & Hr & _ & Hv).
  - reflexivity.
  - vm_compute. reflexivity.
  - exists roots. injection Hr as <-. split; [vm_compute; reflexivity | exact Hv].
Defined.

(** C7 fails for a game-info whose save root is gone: [_read_rcf] returns
    the manifest although the root is not valid, and [do_restore] then
    copies the snapshot to that root, which it creates. *)
Lemma read_rcf_keeps_stale_root :
  let w := Demo.world_of Demo.stale_store (Demo.save_dat 50000000) 200 in
  save_games_roots Demo.stale_game = Some [("/gone", "")]
  /\ _read_rcf Demo.engine Demo.stale_game w
     = (Ok (Some ["save.dat"], Demo.stale_game), w)
  /\ _rcf_is_valid Demo.engine "/gone" ["save.dat"] w = (Ok false, w)
  /\ Os.find "/gone" (fs w) = None
  /\ exists w',
       do_restore Demo.engine Demo.stale_info w = (Ok tt, w')
       /\ Os.find "/gone/save.dat" (fs w') = Some (File (Text "data") 0).
Proof.
  intros w. split; [reflexivity|]. split; [vm_compute; reflexivity|].
  split; [vm_compute; reflexivity|]. split; [vm_compute; reflexivity|].
  eexists. split; [vm_compute; reflexivity|]. vm_compute. reflexivity.
Defined.

End C7.

(** ** Skipping a backup *)

Module TimestampFacts.

Import Store Change StoreFacts ChangeFacts Run ReadOnly.




(** The time stamps of Python for a file written 4.5 ms and one written
    1700000000.001499999 s after the epoch. *)
Lemma msecs_near_half :
  msecs (Os.st_mtime 4500000) = Some 5
  /\ msecs (Os.st_mtime 1700000000001499999) = Some 1700000000002.
Proof. split; vm_compute; reflexivity. Qed.

End TimestampFacts.

Section C4.

Import Store Change StoreFacts ChangeFacts TimestampFacts Run ReadOnly.



(** A file written 4.5 ms after the epoch has the time stamp 5, as in
    Python, and is not older than a snapshot of the time 5: the backup is
    made. *)
Lemma do_backup_at_half_millisecond :
  let w := Demo.world_of (Demo.snapshot false 1 5) (Demo.save_dat 4500000) 100 in
  last_change (map fst Demo.roots) ["save.dat"] (fs w) = Some 5
  /\ exists si w',
       do_backup Demo.engine (Demo.game 1) false false w
       = (Ok (Backup si, Demo.game 1), w').
Proof.
  intros w. split; [vm_compute; reflexivity|].
  eexists. eexists. vm_compute. reflexivity.
Qed.


End C4.

(** ** Paths below an entry of the store *)

Module BelowFacts.

Import Store CommonPrefix CommonPrefixFacts AssocFacts TreeFacts PathFacts.

(** A string has no [/], or a last one. *)
Lemma last_slash (s : str) :
  slash ∉ s \/ exists a b : str, s = a ++ "/" ++ b /\ slash ∉ b.
Proof.
  induction s as [|c s IH]; [left; apply not_elem_of_nil|].
  destruct IH as [Hs|(a & b & -> & Hb)].
  - destruct (decide (c = slash)) as [->|Hc].
    + right. exists "", s. by split.
    + left. by apply not_elem_of_cons.
  - right. exists (c :: a), b. by split.
Qed.

Lemma parts_nil : parts "" = [].
Proof. reflexivity. Qed.

Lemma parts_app_slash a : parts (a ++ "/") = parts a.
Proof.
  change (a ++ "/") with (a ++ "/" ++ ""). by rewrite parts_app_sep, parts_nil, app_nil_r.
Qed.

Lemma parts_lstrip_slash r :
  parts (rev (PosixPath.lstrip_slash r)) = parts (rev r).
Proof.
  induction r as [|c r IH]; [done|]. simpl PosixPath.lstrip_slash.
  case_bool_decide as Hc; [|done]. subst c.
  rewrite IH. simpl rev. by rewrite parts_app_slash.
Qed.

(** The directory of a path has the components before the last [/]. *)
Lemma parts_dirname_sep a (b : str) :
  slash ∉ b -> parts (PosixPath.dirname (a ++ "/" ++ b)) = parts a.
Proof.
  intros Hb. unfold PosixPath.dirname. rewrite rfind_app_sep by done.
  unfold len. replace (Z.of_nat (length a) + 1)
    with (Z.of_nat (length (a ++ "/"))) by (rewrite length_app; simpl; lia).
  rewrite slice_to_take, (app_assoc _ "/" b), take_app_length.
  destruct (_ && _).
  - by rewrite parts_lstrip_slash, rev_involutive, parts_app_slash.
  - apply parts_app_slash.
Qed.

Lemma parts_dirname_below dest (k : str) :
  exists q, parts (PosixPath.dirname (dest ++ "/" ++ k)) = parts dest ++ q.
Proof.
  destruct (last_slash k) as [Hk|(k1 & k2 & -> & Hk)].
  - exists []. by rewrite parts_dirname_sep, app_nil_r.
  - exists (parts k1).
    replace (dest ++ "/" ++ k1 ++ "/" ++ k2) with ((dest ++ "/" ++ k1) ++ "/" ++ k2)
      by by rewrite <- !app_assoc.
    by rewrite parts_dirname_sep, parts_app_sep.
Qed.

Lemma startswith_nil_r s : startswith s "" = true.
Proof. by destruct s. Qed.

Lemma endswith_app_sep a : endswith (a ++ "/") "/" = true.
Proof.
  unfold endswith. rewrite rev_app_distr. simpl. apply startswith_nil_r.
Qed.

Lemma endswith_slash a : endswith a "/" = true -> exists a', a = a' ++ "/".
Proof.
  unfold endswith. intros H. destruct (rev a) as [|c r] eqn:E; [done|].
  simpl in H. case_decide as Hc; [|done]. subst c.
  exists (rev r). by rewrite <- (rev_involutive a), E.
Qed.

Lemma parts_join2 a b :
  relative b -> parts (PosixPath.join2 a b) = parts a ++ parts b.
Proof.
  intros Hb. unfold PosixPath.join2. change PosixPath.sep with ("/" : str).
  rewrite Hb. case_bool_decide as Ha.
  - subst a. by rewrite parts_nil.
  - simpl orb. destruct (endswith a "/") eqn:E.
    + apply endswith_slash in E as [a' ->].
      by rewrite <- app_assoc, parts_app_sep, parts_app_slash.
    + apply parts_app_sep.
Qed.

Lemma basename_sep a (b : str) : slash ∉ b -> PosixPath.basename (a ++ "/" ++ b) = b.
Proof.
  intros Hb. unfold PosixPath.basename. rewrite rfind_app_sep by done.
  unfold slice, bound, len.
  replace (_ <? 0) with false by (symmetry; apply Z.ltb_ge; lia).
  rewrite Z.min_l by (rewrite !length_app; simpl; lia).
  replace (Z.to_nat (Z.of_nat (length a) + 1)) with (length (a ++ "/"))
    by (rewrite length_app; simpl; lia).
  rewrite (app_assoc _ "/" b), drop_app_length.
  apply take_ge. rewrite !length_app. simpl. lia.
Qed.

Lemma rfind_none (b : str) : slash ∉ b -> rfind b slash = -1.
Proof.
  intros Hb. unfold rfind. generalize 0.
  induction b as [|c b IH]; intros i; [done|].
  apply not_elem_of_cons in Hb as [Hc Hb]. simpl. rewrite (IH Hb).
  simpl. by case_decide.
Qed.

Lemma basename_relative p : relative (PosixPath.basename p).
Proof.
  unfold relative. destruct (last_slash p) as [Hp|(a & b & -> & Hb)].
  - unfold PosixPath.basename. rewrite rfind_none by done.
    unfold slice, bound. change (-1 + 1 <? 0) with false. cbv iota.
    rewrite Z.min_l by lia. change (Z.to_nat (-1 + 1)) with 0%nat.
    rewrite drop_0, take_ge by lia.
    destruct p as [|c p]; [done|]. apply not_elem_of_cons in Hp as [Hc _].
    simpl. by case_decide.
  - rewrite basename_sep by done.
    destruct b as [|c b]; [done|]. apply not_elem_of_cons in Hb as [Hc _].
    simpl. by case_decide.
Qed.

End BelowFacts.

(** ** Writes below an entry of the store *)

Module CopyFacts.

Import Store AssocFacts TreeFacts PathFacts BelowFacts StoreFacts Run ReadOnly.

Lemma without_assoc_set nm c m es :
  startswith c nm = true -> without nm (assoc_set c m es) = without nm es.
Proof.
  intros Hc. unfold without. induction es as [|[k v] es IH]; simpl.
  - by rewrite Hc.
  - case_bool_decide as Hk; simpl.
    + subst k. by rewrite Hc.
    + by rewrite IH.
Qed.

Lemma valid_names_assoc_set c m es :
  valid_name c -> valid_names es -> valid_names (assoc_set c m es).
Proof.
  unfold valid_names. intros Hc Hes. rewrite map_fst_assoc_set.
  case_bool_decide; [done|]. apply Forall_app. split; [done|]. by constructor.
Qed.

Section Touched.

Variables (self : Engine) (nm : str).

Lemma touched_refl w t es :
  store_is self w t es -> valid_names es -> touched self nm w t es w.
Proof.
  intros Hs Hv. exists es, []. by rewrite with_store_same.
Qed.

Lemma touched_step w t es w1 :
  store_is self w t es -> touched self nm w t es w1 ->
  exists es1, store_is self w1 t es1 /\ valid_names es1
              /\ forall w2, touched self nm w1 t es1 w2 -> touched self nm w t es w2.
Proof.
  intros Hs (es1 & evs & -> & Hv & Hw). exists es1.
  split; [by eapply with_store_is|]. split; [done|].
  intros w2 (es2 & evs2 & -> & Hv2 & Hw2). exists es2, (evs ++ evs2).
  split; [by eapply with_store_twice|]. split; [done | congruence].
Qed.

Lemma touched_set w t es c m evs :
  store_is self w t es -> valid_names es -> valid_name c ->
  startswith c nm = true ->
  touched self nm w t es (with_store self w t (assoc_set c m es) evs).
Proof.
  intros Hs Hv Hc Hnm. exists (assoc_set c m es), evs. split; [done|].
  split; [by apply valid_names_assoc_set | by apply without_assoc_set].
Qed.

Lemma touched_log w t es w1 e :
  touched self nm w t es w1 ->
  touched self nm w t es
    {| fs := fs w1; now := now w1; last_used_save_info := last_used_save_info w1;
       io_errors := io_errors w1; trace := trace w1 ++ [e] |}.
Proof.
  intros (es1 & evs & -> & Hv & Hw). exists es1, (evs ++ [e]).
  split; [|done]. unfold with_store. simpl. by rewrite app_assoc.
Qed.

Lemma below_alter w t es c q f n' :
  store_is self w t es ->
  (forall o, f o <> Ok None) ->
  alter_at (parts (savesdir self) ++ c :: q) f (fs w) = Ok n' ->
  exists m, n' = replace_at (parts (savesdir self)) (Dir t (assoc_set c m es)) (fs w).
Proof.
  intros Hs Hf. rewrite (alter_at_under _ _ _ _ _ Hs) by done.
  destruct q as [|x xs].
  - simpl. specialize (Hf (assoc_get c es)).
    destruct (f (assoc_get c es)) as [[m|]|e]; [|done|done].
    intros [= <-]. by exists m.
  - rewrite alter_at_step. destruct (assoc_get c es) as [m0|]; [|done].
    destruct (alter_at (x :: xs) f m0) as [m'|e]; [|done].
    intros [= <-]. by exists m'.
Qed.

Lemma below_makedirs w t es ok t' c q n' :
  store_is self w t es ->
  makedirs_at ok t' (parts (savesdir self) ++ c :: q) (fs w) = Ok n' ->
  exists m, n' = replace_at (parts (savesdir self)) (Dir t (assoc_set c m es)) (fs w).
Proof.
  intros Hs. rewrite (makedirs_at_under _ _ _ _ _ _ Hs). simpl.
  destruct (assoc_get c es) as [m0|].
  - destruct (makedirs_at ok t' q m0) as [m'|e]; [|done].
    intros [= <-]. by exists m'.
  - destruct (makedirs_at true t' q (Dir t' [])) as [m'|e]; [|done].
    intros [= <-]. by exists m'.
Qed.

Lemma makedirs_touched w t es p ok c q r w1 :
  store_is self w t es -> valid_names es -> valid_name c ->
  startswith c nm = true ->
  parts p = parts (savesdir self) ++ c :: q ->
  Os.makedirs p ok w = (r, w1) ->
  touched self nm w t es w1.
Proof.
  intros Hs Hv Hc Hnm Hp.
  unfold Os.makedirs, bind, Os.check_io, get_fs, Os.clock_ns, lift, set_fs, log.
  destruct (bool_decide (p = "")); [intros [= _ <-]; by apply touched_refl|].
  unfold ret. destruct (bool_decide (p ∈ io_errors w));
    [intros [= _ <-]; by apply touched_refl|].
  rewrite Hp.
  destruct (makedirs_at _ _ _ _) as [n'|e] eqn:E;
    [|intros [= _ <-]; by apply touched_refl].
  apply (below_makedirs _ _ _ _ _ _ _ _ Hs) in E as [m ->]. simpl.
  intros [= _ <-]. by apply (touched_set w t es c m [EvMakedirs p]).
Qed.

Lemma put_file_touched w t es p content t' c q r w1 :
  store_is self w t es -> valid_names es -> valid_name c ->
  startswith c nm = true ->
  parts p = parts (savesdir self) ++ c :: q ->
  Os.put_file p content t' w = (r, w1) ->
  touched self nm w t es w1.
Proof.
  intros Hs Hv Hc Hnm Hp.
  unfold Os.put_file, bind, Os.check_io, get_fs, lift, set_fs.
  destruct (bool_decide (p ∈ io_errors w));
    [intros [= _ <-]; by apply touched_refl|].
  rewrite Hp.
  destruct (alter_at _ _ _) as [n'|e] eqn:E;
    [|intros [= _ <-]; by apply touched_refl].
  apply (below_alter _ _ _ _ _ _ _ Hs) in E as [m ->].
  2:{ intros [[? ?|? ?]|]; done. }
  intros [= _ <-].
  pose proof (touched_set w t es c m [] Hs Hv Hc Hnm) as H.
  unfold with_store in H. by rewrite app_nil_r in H.
Qed.

Lemma copy2_touched w t es src dst c q r w1 :
  store_is self w t es -> valid_names es -> valid_name c ->
  startswith c nm = true ->
  parts dst = parts (savesdir self) ++ c :: q ->
  Os.copy2 src dst w = (r, w1) ->
  touched self nm w t es w1.
Proof.
  intros Hs Hv Hc Hnm Hp. unfold Os.copy2.
  intros [(d & w0 & Hd & Hrun)|(e & Hd & ->)]%bind_inv.
  2:{ apply readonly_run in Hd as ->; [by apply touched_refl | apply readonly_isdir]. }
  apply readonly_run in Hd as ->; [|apply readonly_isdir].
  set (dst' := if d then PosixPath.join2 dst (PosixPath.basename src) else dst) in Hrun.
  assert (exists q', parts dst' = parts (savesdir self) ++ c :: q') as [q' Hp'].
  { unfold dst'. destruct d; [|by exists q].
    rewrite parts_join2 by apply basename_relative. rewrite Hp, <- app_assoc.
    by eexists. }
  unfold bind at 1, get_fs at 1 in Hrun.
  destruct (Os.find src (fs w)) as [m|];
    [|injection Hrun as _ <-; by apply touched_refl].
  destruct (bool_decide (parts src = parts dst'));
    [injection Hrun as _ <-; by apply touched_refl|].
  destruct m as [content t'|? ?];
    [|injection Hrun as _ <-; by apply touched_refl].
  apply bind_inv in Hrun as [(? & w2 & Hput & Hlog)|(e & Hput & ->)].
  - injection Hlog as _ <-. apply touched_log. by eapply put_file_touched.
  - by eapply put_file_touched.
Qed.

Lemma json_dump_touched w t es si p c q r w1 :
  store_is self w t es -> valid_names es -> valid_name c ->
  startswith c nm = true ->
  parts p = parts (savesdir self) ++ c :: q ->
  Os.json_dump si p w = (r, w1) ->
  touched self nm w t es w1.
Proof.
  intros Hs Hv Hc Hnm Hp. unfold Os.json_dump.
  unfold bind at 1, Os.clock_ns at 1.
  intros [(? & w2 & Hput & Hlog)|(e & Hput & ->)]%bind_inv.
  - injection Hlog as _ Hw. subst w1. apply touched_log. by eapply put_file_touched.
  - by eapply put_file_touched.
Qed.

(** The path of a payload directory and the paths below it. *)
Lemma join2_below c (k : str) :
  valid_name c -> relative k ->
  PosixPath.join2 (savesdir self ++ "/" ++ c) k = (savesdir self ++ "/" ++ c) ++ "/" ++ k.
Proof.
  intros (Hne & _ & Hsl) Hk. unfold PosixPath.join2.
  change PosixPath.sep with ("/" : str). rewrite Hk.
  rewrite bool_decide_eq_false_2 by (by destruct (savesdir self)).
  destruct (endswith _ "/") eqn:E; [|done]. exfalso.
  apply endswith_slash in E as [a' E].
  destruct (rev c) as [|x r] eqn:Er.
  { apply (f_equal (@rev ascii)) in Er. rewrite rev_involutive in Er. done. }
  assert (c = rev r ++ [x]) as Hc.
  { by rewrite <- (rev_involutive c), Er. }
  rewrite Hc in E, Hsl.
  change ("/" ++ rev r ++ [x]) with (("/" ++ rev r) ++ [x]) in E.
  rewrite app_assoc in E. apply app_inj_tail in E as [_ ->].
  apply Hsl, elem_of_app. right. by left.
Qed.

Lemma parts_below c :
  valid_name c -> parts (savesdir self ++ "/" ++ c) = parts (savesdir self) ++ [c].
Proof. intros Hc. by rewrite parts_app_sep, (parts_valid c). Qed.

Lemma copy_by_rcf_touched rcf src c w t es r w1 :
  store_is self w t es -> valid_names es -> valid_name c ->
  startswith c nm = true ->
  Forall relative rcf ->
  _copy_by_rcf self rcf src (savesdir self ++ "/" ++ c) w = (r, w1) ->
  touched self nm w t es w1.
Proof.
  intros Hs Hv Hc Hnm Hrel. revert w es r Hs Hv.
  unfold _copy_by_rcf.
  induction Hrel as [|k rcf Hk Hrel IH]; intros w es r Hs Hv.
  { intros [= _ <-]. by apply touched_refl. }
  rewrite for_each_cons.
  assert (forall r0 w0,
            (do e <- Os.exists_ (PosixPath.join2 src k);
             if e then
               if negb (dry_run self) then
                 run Os.makedirs
                       (PosixPath.dirname
                          (PosixPath.join2 (savesdir self ++ "/" ++ c) k)) true;
                 Os.copy2 (PosixPath.join2 src k)
                   (PosixPath.join2 (savesdir self ++ "/" ++ c) k)
               else ret tt
             else ret tt) w = (r0, w0) ->
            touched self nm w t es w0) as Hbody.
  { intros r0 w0 [(e & w' & He & Hrun)|(e & He & ->)]%bind_inv.
    2:{ apply readonly_run in He as ->; [by apply touched_refl | apply readonly_exists]. }
    apply readonly_run in He as ->; [|apply readonly_exists].
    destruct e; [|injection Hrun as _ <-; by apply touched_refl].
    destruct (negb (dry_run self)); [|injection Hrun as _ <-; by apply touched_refl].
    rewrite (join2_below c k Hc Hk) in Hrun.
    destruct (parts_dirname_below (savesdir self ++ "/" ++ c) k) as [q Hq].
    assert (parts (PosixPath.dirname ((savesdir self ++ "/" ++ c) ++ "/" ++ k))
            = parts (savesdir self) ++ c :: q) as Hq'.
    { rewrite Hq, (parts_below c Hc). by rewrite <- app_assoc. }
    clear Hq. rename Hq' into Hq.
    apply bind_inv in Hrun as [(? & w' & Hmk & Hcp)|(e & Hmk & ->)].
    2:{ exact (makedirs_touched w t es _ _ c q _ _ Hs Hv Hc Hnm Hq Hmk). }
    pose proof (makedirs_touched w t es _ _ c q _ _ Hs Hv Hc Hnm Hq Hmk) as Hmk'.
    destruct (touched_step _ _ _ _ Hs Hmk') as (es1 & Hs1 & Hv1 & Hback).
    apply Hback.
    refine (copy2_touched w' t es1 _ _ c (parts k) _ _ Hs1 Hv1 Hc Hnm _ Hcp).
    rewrite parts_app_sep, (parts_below c Hc). by rewrite <- app_assoc. }
  intros [(? & w' & Hfirst & Hrest)|(e & Hfirst & ->)]%bind_inv.
  2:{ by eapply Hbody. }
  apply Hbody in Hfirst.
  destruct (touched_step _ _ _ _ Hs Hfirst) as (es1 & Hs1 & Hv1 & Hback).
  apply Hback. by eapply IH.
Qed.

Lemma saveinfo_to_dir_spec si w t es :
  store_is self w t es -> plain_name (filename si) ->
  _saveinfo_to_dir self si w = (Ok (savesdir self ++ "/" ++ filename si), w).
Proof.
  intros Hs Hp. unfold _saveinfo_to_dir.
  rewrite (bind_ok _ _ _ _ _ (get_savesdir_ok _ _ _ _ Hs)). unfold ret.
  by rewrite join2_savesdir by by apply valid_name_no_lead, plain_valid.
Qed.

(** A plain name followed by a suffix without [/] is a name. *)
Lemma valid_name_suffix (n sfx : str) :
  plain_name n -> slash ∉ sfx -> valid_name (n ++ sfx).
Proof.
  intros Hp Hsfx. pose proof (plain_valid _ Hp) as (Hne & Hdot & Hsl).
  destruct Hp as [_ Hchars]. repeat split.
  - by destruct n.
  - destruct n as [|x n]; [done|]. apply Forall_cons in Hchars as [Hx _].
    intros [= -> _]. done.
  - intros [H|H]%elem_of_app; done.
Qed.

End Touched.

(** The copies of the roots of a game, one payload directory per root. *)
Lemma copy_roots_touched self (roots : list (str * str)) rcf name w t es r w1 :
  store_is self w t es -> valid_names es -> plain_name name ->
  Forall (fun r : str * str => slash ∉ r.2) roots ->
  Forall relative rcf ->
  for_each roots (fun '(src_dir, suffix) =>
    _copy_by_rcf self rcf src_dir ((savesdir self ++ "/" ++ name) ++ suffix)) w
  = (r, w1) ->
  touched self name w t es w1.
Proof.
  intros Hs Hv Hp Hsfx Hrel. revert w es r Hs Hv.
  induction Hsfx as [|[src sfx] roots Hsl Hsfx IH]; intros w es r Hs Hv.
  { intros [= _ <-]. by apply touched_refl. }
  rewrite for_each_cons. simpl in Hsl.
  assert (forall r0 w0,
            _copy_by_rcf self rcf src ((savesdir self ++ "/" ++ name) ++ sfx) w
            = (r0, w0) -> touched self name w t es w0) as Hbody.
  { intros r0 w0 Hrun.
    replace ((savesdir self ++ "/" ++ name) ++ sfx)
      with (savesdir self ++ "/" ++ (name ++ sfx)) in Hrun
      by by rewrite <- !app_assoc.
    eapply copy_by_rcf_touched; [done | done | by apply valid_name_suffix
                                | apply startswith_app | done | exact Hrun]. }
  intros [(? & w' & Hfirst & Hrest)|(e & Hfirst & ->)]%bind_inv.
  2:{ by eapply Hbody. }
  apply Hbody in Hfirst.
  destruct (touched_step _ _ _ _ _ _ Hs Hfirst) as (es1 & Hs1 & Hv1 & Hback).
  apply Hback. by eapply IH.
Qed.


End CopyFacts.

(** ** A copy phase that fails *)

Section C2.

Import Store AssocFacts TreeFacts PathFacts BelowFacts StoreFacts CopyFacts Run ReadOnly.


Lemma without_fresh name es : fresh name es -> without name es = es.
Proof.
  unfold fresh, without. induction es as [|[k v] es IH]; [done|]. simpl.
  intros [Hk Hes]%Forall_cons. simpl in Hk. rewrite Hk. simpl. by rewrite IH.
Qed.

(** The state after a copy phase that fails. *)
Lemma copy_failure_leaves_store self si rcf w t es e w' :
  absolute self ->
  store_is self w t es ->
  valid_names es ->
  plain_name (filename si) ->
  flat_suffixes (game_info si) ->
  Forall relative rcf ->
  _copy_all_to_saveinfo self si rcf w = (Raise e, w') ->
  (exists evs, w' = with_store self w t (without (filename si) es) evs)
  /\ store_is self w' t (without (filename si) es).
Proof.
  intros Habs Hs Hv Hp Hflat Hrel Hrun.
  assert (exists evs, w' = with_store self w t (without (filename si) es) evs)
    as [evs ->].
  { unfold _copy_all_to_saveinfo, try_except in Hrun.
    destruct (bind _ _ w) as [[[]|e0] w1] eqn:Ebody; [done|].
    assert (touched self (filename si) w t es w1) as Ht.
    { rewrite (bind_ok _ _ _ _ _ (saveinfo_to_dir_spec _ _ _ _ _ Hs Hp)) in Ebody.
      unfold _get_game_roots in Ebody.
      destruct (save_games_roots (game_info si)) as [roots|] eqn:Eroots.
      - unfold bind at 1, ret at 1 in Ebody.
        eapply copy_roots_touched; [done | done | done | by apply Hflat | done
                                   | exact Ebody].
      - injection Ebody as _ <-. by apply touched_refl. }
    destruct Ht as (es1 & evs1 & -> & Hv1 & Hw1).
    pose proof (with_store_is self w t es1 t es evs1 Hs) as Hs1.
    destruct (delete_savedir_spec self _ t es1 (filename si) Hs1 Habs Hv1 Hp)
      as [evs2 Hdel].
    rewrite (bind_ok _ _ _ _ _ Hdel) in Hrun. injection Hrun as _ <-.
    exists (evs1 ++ evs2). rewrite Hw1. by eapply with_store_twice. }
  split; [by exists evs | by eapply with_store_is].
Qed.




(** [_create_savedir] writes to the sidecar of the new snapshot only. *)
Lemma create_savedir_touched self gi undo w t es r w1 :
  store_is self w t es -> valid_names es ->
  _create_savedir self gi undo w = (r, w1) ->
  touched self (snapshot_name undo (game_id gi) (now w)) w t es w1
  /\ forall si, r = Ok si ->
       filename si = snapshot_name undo (game_id gi) (now w) /\ game_info si = gi.
Proof.
  intros Hs Hv. set (name := snapshot_name undo (game_id gi) (now w)).
  assert (Hp : plain_name name) by apply NameFacts.snapshot_name_plain.
  assert (Hjson : valid_name (name ++ ".json")).
  { apply valid_name_suffix; [done|].
    intros H. repeat (apply elem_of_cons in H as [H|H]; [discriminate H|]).
    by apply elem_of_nil in H. }
  unfold _create_savedir.
  intros [(roots & w2 & H1 & H)|(e & H1 & ->)]%bind_inv.
  2:{ apply readonly_run in H1 as ->; [|apply readonly_get_game_roots].
      split; [by apply touched_refl | done]. }
  apply readonly_run in H1 as ->; [|apply readonly_get_game_roots].
  apply bind_inv in H as [(? & w2 & H1 & H)|(e & H1 & ->)].
  2:{ apply readonly_run in H1 as ->; [|apply readonly_assert].
      split; [by apply touched_refl | done]. }
  apply readonly_run in H1 as ->; [|apply readonly_assert].
  unfold bind at 1, time_ms at 1 in H.
  erewrite bind_ok in H; [|by apply (saveinfo_to_dir_spec self _ w t es)].
  simpl filename in H. fold name in H.
  assert (forall r0 w0,
            (if negb (dry_run self)
             then Os.json_dump
                    {| game_info := gi; timestamp := now w; filename := name;
                       is_undo := undo |}
                    ((savesdir self ++ "/" ++ name) ++ ".json")
             else ret tt) w = (r0, w0) ->
            touched self name w t es w0) as Hdump.
  { intros r0 w0. destruct (negb (dry_run self)).
    - apply (json_dump_touched self name w t es _ _ (name ++ ".json") []);
        try done; [apply startswith_app|].
      rewrite <- !app_assoc. rewrite parts_app_sep. f_equal. by apply parts_valid.
    - intros [= _ <-]. by apply touched_refl. }
  apply bind_inv in H as [(? & w2 & H1 & H)|(e & H1 & ->)].
  - injection H as <- <-. split; [by eapply Hdump | by intros si [= <-]].
  - split; [by eapply Hdump | done].
Qed.

(** A snapshot that [_create_savedir] starts in a store without entries of
    its name, and whose copy phase fails, leaves the file system as it
    was. *)
Lemma failed_snapshot_leaves_no_trace self gi undo rcf w t es si w1 e w' :
  absolute self -> store_is self w t es -> valid_names es ->
  fresh (snapshot_name undo (game_id gi) (now w)) es ->
  flat_suffixes gi -> Forall relative rcf ->
  _create_savedir self gi undo w = (Ok si, w1) ->
  _copy_all_to_saveinfo self si rcf w1 = (Raise e, w') ->
  fs w' = fs w /\ same_fields w w'.
Proof.
  intros Habs Hs Hv Hfresh Hflat Hrel Hcreate Hcopy.
  destruct (create_savedir_touched _ _ _ _ _ _ _ _ Hs Hv Hcreate) as [Ht Hsi].
  destruct (Hsi si eq_refl) as [Hname Hgi].
  destruct Ht as (es1 & evs1 & -> & Hv1 & Hw1).
  pose proof (with_store_is self w t es1 t es evs1 Hs) as Hs1.
  assert (plain_name (filename si)) as Hp.
  { rewrite Hname. apply NameFacts.snapshot_name_plain. }
  rewrite <- Hgi in Hflat.
  destruct (proj1 (copy_failure_leaves_store self si rcf _ t es1 e w'
                     Habs Hs1 Hv1 Hp Hflat Hrel Hcopy)) as [evs2 ->].
  rewrite Hname, Hw1, (without_fresh _ _ Hfresh).
  unfold with_store. simpl. split; [|done].
  rewrite (replace_at_twice _ _ _ _ _ Hs). by apply replace_at_same.
Qed.

(** A backup and a restore whose copies the disk refuses: the exception is
    the result, and the store is as it was. *)
Lemma do_backup_failure_example :
  let w := Demo.failing ["/data/saves2/save_1_100/save.dat"]
             (Demo.world_of [] (Demo.save_dat 50000000) 100) in
  exists w',
    do_backup Demo.engine (Demo.game 1) false false w = (Raise OSError, w')
    /\ fs w' = fs w.
Proof. intros w. eexists. split; vm_compute; reflexivity. Qed.

Lemma do_restore_failure_example :
  let w := Demo.failing ["/data/saves2/undo_1_200/save.dat"]
             (Demo.world_of (Demo.snapshot false 1 100) (Demo.save_dat 150000000) 200) in
  exists w',
    do_restore Demo.engine (Demo.info false 1 100) w = (Raise OSError, w')
    /\ fs w' = fs w.
Proof. intros w. eexists. split; vm_compute; reflexivity. Qed.

End C2.

(** ** The order of the writes *)

Module OrderFacts.

Import Store Events StoreFacts Run ReadOnly EventFacts.

Lemma get_savesdir_value self w d w1 :
  _get_savesdir self w = (Ok d, w1) -> d = savesdir self.
Proof.
  unfold _get_savesdir. fold (savesdir self).
  intros (e & w2 & _ & H)%bind_inv_ok.
  apply bind_inv_ok in H as (? & w3 & _ & H). by injection H as <- _.
Qed.

Lemma emits_nothing {A} (c : M A) w r w' :
  emits no_event c -> c w = (r, w') -> trace w' = trace w.
Proof.
  intros Hc Hrun. destruct (Hc _ _ _ Hrun) as ([|e evs] & -> & Hev); [|done].
  by rewrite app_nil_r.
Qed.

(** [_create_savedir] makes the directory of the store if it has to and
    then writes the sidecar. *)
Lemma create_savedir_events self gi undo w si w1 :
  dry_run self = false ->
  _create_savedir self gi undo w = (Ok si, w1) ->
  exists pre,
    trace w1 = trace w ++ pre ++ [EvWrite (sidecar_path self si)]
    /\ forallb is_makedirs pre = true.
Proof.
  intros Hdry. unfold _create_savedir. rewrite Hdry. simpl negb. cbv iota.
  intros (roots & w2 & H1 & H)%bind_inv_ok.
  apply readonly_run in H1 as ->; [|apply readonly_get_game_roots].
  apply bind_inv_ok in H as (? & w2 & H1 & H).
  apply readonly_run in H1 as ->; [|apply readonly_assert].
  apply bind_inv_ok in H as (ts & w2 & H1 & H).
  injection H1 as <- <-.
  apply bind_inv_ok in H as (path & w2 & H1 & H).
  unfold _saveinfo_to_dir in H1.
  apply bind_inv_ok in H1 as (d & w3 & Hd & H1).
  pose proof (get_savesdir_value _ _ _ _ Hd) as ->.
  destruct (emits_get_savesdir self _ _ _ Hd) as (pre & Hpre & Hmk).
  injection H1 as <- <-.
  apply bind_inv_ok in H as (? & w4 & H1 & H). injection H as <- <-.
  unfold Os.json_dump in H1.
  apply bind_inv_ok in H1 as (t & w5 & Ht & H1). injection Ht as <- <-.
  apply bind_inv_ok in H1 as (? & w5 & Hput & H1).
  apply (emits_nothing _ _ _ _ (emits_put_file no_event _ _ _)) in Hput.
  injection H1 as H1. subst w4. exists pre. split; [|done]. simpl.
  by rewrite Hput, Hpre, <- app_assoc.
Qed.

(** A copy phase that succeeds makes directories and copies files. *)
Lemma copy_all_events self si rcf w w1 :
  _copy_all_to_saveinfo self si rcf w = (Ok tt, w1) ->
  exists evs, trace w1 = trace w ++ evs /\ forallb is_copying evs = true.
Proof.
  unfold _copy_all_to_saveinfo, try_except.
  destruct (bind _ _ w) as [[[]|e] w2] eqn:E.
  - intros [= <-]. revert E. generalize w (Ok tt : outcome unit) w2.
    change (emits is_copying
              (do dest_basename <- _saveinfo_to_dir self si;
               do gameRoots <- _get_game_roots (game_info si);
               for_each gameRoots (fun '(src_dir, suffix) =>
                 _copy_by_rcf self rcf src_dir (dest_basename ++ suffix)))).
    unfold _saveinfo_to_dir. emits.
    eapply emits_mono, emits_get_savesdir. apply is_makedirs_copying.
  - intros H. apply bind_inv in H as [(? & ? & _ & [=])|(? & _ & [=])].
Qed.

End OrderFacts.

Section C1.

Import Store Events StoreFacts Run ReadOnly EventFacts OrderFacts.

(** C1, as amended.  In every run of [do_backup] that makes a snapshot,
    with an engine that is not in dry-run mode, the sidecar of the snapshot
    is written once, and before any file is copied: the events of the run
    are directories made, the write of the sidecar, the directories and
    copies of the copy phase, and the removals of culling, in this order. *)
Theorem do_backup_writes_sidecar_first self gi (apply_last_used : bool) w si gi' w' :
  dry_run self = false ->
  do_backup self gi apply_last_used false w = (Ok (Backup si, gi'), w') ->
  exists pre copies culls,
    trace w' = trace w ++ pre ++ [EvWrite (sidecar_path self si)] ++ copies ++ culls
    /\ forallb is_makedirs pre = true
    /\ forallb is_copying copies = true
    /\ forallb is_culling culls = true.
Proof.
  intros Hdry. unfold do_backup.
  intros ([rcf gi1] & w1 & H1 & H)%bind_inv_ok.
  apply readonly_run in H1 as ->; [|apply readonly_read_rcf].
  destruct (no_rcf rcf); [done|].
  apply bind_inv_ok in H as (newest & w1 & Hnewest & H).
  destruct (emits_get_newest_save _ _ _ _ _ Hnewest) as (evs1 & Ht1 & Hev1).
  apply bind_inv_ok in H as (skip & w2 & Hskip & H).
  assert (w2 = w1) as ->.
  { destruct newest as [n|]; [|by injection Hskip as _ <-].
    destruct (ignore_unchanged self); [|by injection Hskip as _ <-].
    apply bind_inv_ok in Hskip as (g & w3 & Hg & Hskip).
    apply readonly_run in Hg as ->; [|apply readonly_get_rcf_timestamp].
    by injection Hskip as _ <-. }
  destruct skip; [done|]. simpl negb in H. cbv iota in H.
  apply bind_inv_ok in H as (saveInfo & w3 & Hcreate & H).
  destruct (create_savedir_events _ _ _ _ _ _ Hdry Hcreate) as (pre & Ht3 & Hpre).
  apply bind_inv_ok in H as ([] & w4 & Hcopy & H).
  destruct (copy_all_events _ _ _ _ _ Hcopy) as (copies & Ht4 & Hcopies).
  apply bind_inv_ok in H as (? & w5 & Hset & H).
  assert (trace w5 = trace w4) as Ht5.
  { destruct apply_last_used; by injection Hset as _ <-. }
  apply bind_inv_ok in H as (? & w6 & Hcull & H).
  destruct (emits_cull_old_saves _ _ _ _ Hcull) as (culls & Ht6 & Hculls).
  injection H as <- <- <-.
  exists (evs1 ++ pre), copies, culls.
  rewrite Ht6, Ht5, Ht4, Ht3, Ht1, forallb_app, Hev1, Hpre.
  repeat split; try done. by rewrite <- !app_assoc.
Qed.

(** The theorem on a backup of the example game. *)
Lemma do_backup_writes_sidecar_first_example :
  let w := Demo.world_of [] (Demo.save_dat 50000000) 100 in
  exists w' pre copies culls,
    do_backup Demo.engine (Demo.game 1) false false w
    = (Ok (Backup (Demo.info false 1 100), Demo.game 1), w')
    /\ trace w'
       = pre ++ [EvWrite "/data/saves2/save_1_100.json"] ++ copies ++ culls
    /\ forallb is_makedirs pre = true
    /\ forallb is_copying copies = true
    /\ forallb is_culling culls = true.
Proof.
  intros w. set (w' := (do_backup Demo.engine (Demo.game 1) false false w).2).
  assert (do_backup Demo.engine (Demo.game 1) false false w
          = (Ok (Backup (Demo.info false 1 100), Demo.game 1), w')) as Hrun.
  { vm_compute. reflexivity. }
  destruct (do_backup_writes_sidecar_first Demo.engine (Demo.game 1) false w
              (Demo.info false 1 100) (Demo.game 1) w' eq_refl Hrun)
    as (pre & copies & culls & Ht & H).
  exists w', pre, copies, culls. split; [exact Hrun|]. split; [exact Ht | exact H].
Defined.

(** C1 fails on the example game: [_create_savedir], the first step of the
    backup, leaves the sidecar in the store when no payload directory has
    been made, and in the run of [do_backup] the write of the sidecar comes
    before the copy of the file. *)
Lemma sidecar_written_before_copy :
  let w := Demo.world_of [] (Demo.save_dat 50000000) 100 in
  let si := Demo.info false 1 100 in
  exists w1 w',
    _create_savedir Demo.engine (Demo.game 1) false w = (Ok si, w1)
    /\ Os.find "/data/saves2/save_1_100.json" (fs w1)
       = Some (File (Json si) 100000000)
    /\ Os.find "/data/saves2/save_1_100" (fs w1) = None
    /\ do_backup Demo.engine (Demo.game 1) false false w
       = (Ok (Backup si, Demo.game 1), w')
    /\ trace w'
       = [EvWrite "/data/saves2/save_1_100.json";
          EvMakedirs "/data/saves2/save_1_100";
          EvCopy "/steam/userdata/7/1/remote/save.dat"
                 "/data/saves2/save_1_100/save.dat"].
Proof.
  intros w si. eexists. eexists.
  split; [vm_compute; reflexivity|]. split; [vm_compute; reflexivity|].
  split; [vm_compute; reflexivity|]. split; vm_compute; reflexivity.
Defined.

End C1.

(** ** The directory of the store and the sidecars *)

Module FirstUseFacts.

Import Store AssocFacts TreeFacts PathFacts BelowFacts StoreFacts CopyFacts Run ReadOnly.

Lemma makedirs_at_lookup ok t cs n n' :
  makedirs_at ok t cs n = Ok n' ->
  exists t' es, lookup_at cs n' = Some (Dir t' es).
Proof.
  revert ok n n'. induction cs as [|c cs IH]; intros ok n n'; simpl.
  - destruct n as [|t' es]; [done|]. destruct ok; [|done]. intros [= <-]. by eexists _, _.
  - destruct n as [|t' es]; [done|].
    destruct (assoc_get c es) as [m|].
    + destruct (makedirs_at ok t cs m) as [m'|] eqn:E; [|done]. intros [= <-].
      simpl. rewrite assoc_get_set_eq. by eapply IH.
    + destruct (makedirs_at true t cs (Dir t [])) as [m'|] eqn:E; [|done].
      intros [= <-]. simpl. rewrite assoc_get_set_eq. by eapply IH.
Qed.

(** A directory that [os.makedirs] has to make is empty. *)
Lemma makedirs_at_fresh ok t cs n n' :
  lookup_at cs n = None ->
  makedirs_at ok t cs n = Ok n' ->
  lookup_at cs n' = Some (Dir t []).
Proof.
  revert ok n n'. induction cs as [|c cs IH]; intros ok n n'; simpl; [done|].
  destruct n as [|t' es]; [done|].
  destruct (assoc_get c es) as [m|].
  - intros Hnone. destruct (makedirs_at ok t cs m) as [m'|] eqn:E; [|done].
    intros [= <-]. simpl. rewrite assoc_get_set_eq. by eapply IH.
  - intros _. destruct (makedirs_at true t cs (Dir t [])) as [m'|] eqn:E; [|done].
    intros [= <-]. simpl. rewrite assoc_get_set_eq.
    destruct cs as [|c' cs'].
    + simpl in E. by injection E as <-.
    + apply (IH true (Dir t [])); [done | exact E].
Qed.

(** What [_get_savesdir] does when the directory is not there. *)
Lemma get_savesdir_missing self w r w1 :
  Os.find (savesdir self) (fs w) = None ->
  _get_savesdir self w = (r, w1) ->
  (r = Ok (savesdir self)
   /\ store_is self w1 (now w * 1000000) []
   /\ trace w1 = trace w ++ [EvMakedirs (savesdir self)]
   /\ same_fields w w1)
  \/ (exists e, r = Raise e /\ w1 = w).
Proof.
  intros Hnone. unfold _get_savesdir. fold (savesdir self).
  rewrite (bind_ok _ _ _ _ _ (eq_refl : Os.exists_ (savesdir self) w = (Ok _, w))).
  rewrite Hnone. rewrite bool_decide_eq_false_2 by (by intros [? ?]).
  simpl negb. cbv iota.
  intros [(? & w2 & Hmk & Hret)|(e & Hmk & ->)]%bind_inv.
  - injection Hret as <- <-. left. split; [done|].
    revert Hmk. unfold Os.makedirs, bind, Os.check_io, get_fs, Os.clock_ns, lift, set_fs, log.
    destruct (bool_decide (savesdir self = "")); [done|]. unfold ret.
    destruct (bool_decide (_ ∈ io_errors w)); [done|].
    destruct (makedirs_at _ _ _ _) as [n'|e] eqn:E; [|done].
    intros [= Hw]. subst w2. simpl. split; [|done].
    unfold store_is. simpl. by eapply makedirs_at_fresh.
  - right. exists e. split; [done|].
    revert Hmk. unfold Os.makedirs, bind, Os.check_io, get_fs, Os.clock_ns, lift, set_fs, log.
    destruct (bool_decide (savesdir self = "")); [by intros [= _ <-]|]. unfold ret.
    destruct (bool_decide (_ ∈ io_errors w)); [by intros [= _ <-]|].
    destruct (makedirs_at _ _ _ _) as [n'|e'] eqn:E; [done|]. by intros [= _ <-].
Qed.

Lemma get_savesdir_present self w :
  is_Some (Os.find (savesdir self) (fs w)) ->
  _get_savesdir self w = (Ok (savesdir self), w).
Proof.
  intros H. unfold _get_savesdir, Os.exists_, bind, get_fs, ret. simpl.
  fold (savesdir self). by rewrite bool_decide_eq_true_2.
Qed.

(** Listing after the directory of the store has been found or made. *)
Lemma get_saveinfos_after self w w1 t es :
  _get_savesdir self w = (Ok (savesdir self), w1) ->
  store_is self w1 t es -> valid_names es ->
  get_saveinfos self w = (Ok (infos_of es), w1).
Proof.
  intros Hget Hs Hv. pose proof (get_saveinfos_spec self w1 t es Hs Hv) as H.
  unfold get_saveinfos in *.
  rewrite (bind_ok _ _ _ _ _ (get_savesdir_ok _ _ _ _ Hs)) in H.
  by rewrite (bind_ok _ _ _ _ _ Hget).
Qed.

Lemma endswith_app (a b : str) : endswith (a ++ b) b = true.
Proof.
  unfold endswith. rewrite rev_app_distr. apply startswith_app.
Qed.

Lemma json_name_valid name : plain_name name -> valid_name (name ++ ".json").
Proof.
  intros Hp. apply valid_name_suffix; [done|].
  intros H. repeat (apply elem_of_cons in H as [H|H]; [discriminate H|]).
  by apply elem_of_nil in H.
Qed.

(** The state after [_create_savedir] has written a sidecar. *)
Lemma create_savedir_exact self gi undo w t es si w1 :
  store_is self w t es -> valid_names es -> dry_run self = false ->
  _create_savedir self gi undo w = (Ok si, w1) ->
  let name := snapshot_name undo (game_id gi) (now w) in
  si = {| game_info := gi; timestamp := now w; filename := name; is_undo := undo |}
  /\ is_Some (save_games_roots gi)
  /\ w1 = with_store self w t
            (assoc_set (name ++ ".json") (File (Json si) (now w * 1000000)) es)
            [EvWrite (savesdir self ++ "/" ++ name ++ ".json")].
Proof.
  intros Hs Hv Hdry Hrun name.
  assert (Hp : plain_name name) by apply NameFacts.snapshot_name_plain.
  pose proof (json_name_valid _ Hp) as Hjson.
  unfold _create_savedir in Hrun. rewrite Hdry in Hrun. simpl negb in Hrun. cbv iota in Hrun.
  apply bind_inv_ok in Hrun as (roots & w2 & H1 & H).
  assert (save_games_roots gi = Some roots /\ w2 = w) as [Hroots ->].
  { unfold _get_game_roots in H1. destruct (save_games_roots gi); [|done].
    by injection H1 as <- <-. }
  apply bind_inv_ok in H as (? & w2 & H1' & H).
  apply readonly_run in H1' as ->; [|apply readonly_assert].
  unfold bind at 1, time_ms at 1 in H.
  erewrite bind_ok in H; [|by apply (saveinfo_to_dir_spec self _ w t es)].
  simpl filename in H. fold name in H.
  apply bind_inv_ok in H as (? & w2 & Hdump & H). injection H as <- <-.
  split; [done|]. split; [by rewrite Hroots|].
  unfold Os.json_dump, bind at 1, Os.clock_ns at 1 in Hdump.
  apply bind_inv_ok in Hdump as (? & w3 & Hput & Hlog).
  injection Hlog as Hw2. subst w2.
  revert Hput. unfold Os.put_file, bind, Os.check_io, get_fs, lift, set_fs.
  destruct (bool_decide (_ ∈ io_errors w)); [done|].
  replace ((savesdir self ++ "/" ++ name) ++ ".json")
    with (PosixPath.join2 (savesdir self) (name ++ ".json")).
  2:{ rewrite join2_savesdir by by apply valid_name_no_lead.
      by rewrite <- !app_assoc. }
  rewrite (alter_entry _ _ _ _ _ _ Hs Hjson).
  destruct (assoc_get (name ++ ".json") es) as [[c m|m sub]|]; [|done|];
    intros [= Hw3]; subst w3; unfold with_store; simpl;
    rewrite ?join2_savesdir by (by apply valid_name_no_lead); by rewrite <- ?app_assoc.
Qed.

End FirstUseFacts.

Section StoreExtras.

Import Store AssocFacts TreeFacts PathFacts BelowFacts StoreFacts CopyFacts Run ReadOnly
  FirstUseFacts.

(** X1.  [_get_savesdir] returns the path [saves2] in the application's
    directory, and that path exists afterwards.  When nothing was there it
    has made an empty directory and nothing else; when something was there
    it has changed nothing.  A second call returns the same path and changes
    nothing. *)
Theorem get_savesdir_makes_store_once self w d w1 :
  _get_savesdir self w = (Ok d, w1) ->
  d = PosixPath.join2 (app_data_dir self) "saves2"
  /\ is_Some (Os.find d (fs w1))
  /\ (Os.find d (fs w) = None ->
      store_is self w1 (now w * 1000000) []
      /\ trace w1 = trace w ++ [EvMakedirs d] /\ same_fields w w1)
  /\ (is_Some (Os.find d (fs w)) -> w1 = w)
  /\ _get_savesdir self w1 = (Ok d, w1).
Proof.
  intros Hrun. fold (savesdir self).
  destruct (Os.find (savesdir self) (fs w)) as [n|] eqn:E.
  - rewrite get_savesdir_present in Hrun by (by rewrite E). injection Hrun as <- <-.
    split; [done|]. split; [by rewrite E|]. split; [by rewrite E|].
    split; [done|]. apply get_savesdir_present. by rewrite E.
  - destruct (get_savesdir_missing _ _ _ _ E Hrun)
      as [(Hr & Hst & Htr & Hsame)|(e & [=] & _)].
    injection Hr as ->. split; [done|].
    assert (is_Some (Os.find (savesdir self) (fs w1))) as Hsome.
    { unfold Os.find. unfold store_is in Hst. by rewrite Hst. }
    split; [done|]. split; [by rewrite E|]. split; [by rewrite E; intros [? [=]]|].
    by apply get_savesdir_present.
Qed.

(** The theorem on an application directory without a store. *)
Lemma get_savesdir_makes_store_once_example :
  let w := DemoX.bare [] 100 in
  exists w1,
    _get_savesdir Demo.engine w = (Ok "/data/saves2", w1)
    /\ store_is Demo.engine w1 100000000 []
    /\ _get_savesdir Demo.engine w1 = (Ok "/data/saves2", w1).
Proof.
  intros w. set (w1 := (_get_savesdir Demo.engine w).2).
  assert (_get_savesdir Demo.engine w = (Ok "/data/saves2", w1)) as Hrun
    by (vm_compute; reflexivity).
  destruct (get_savesdir_makes_store_once Demo.engine w _ w1 Hrun)
    as (_ & _ & Hnew & _ & Hagain).
  exists w1. split; [exact Hrun|]. split; [|exact Hagain].
  apply Hnew. vm_compute. reflexivity.
Defined.

(** X2.  When the directory of the store is not there, [get_saveinfos]
    makes it and returns the empty list, or fails to make it and raises the
    exception of [os.makedirs] with the state as it was. *)
Theorem get_saveinfos_first_use self w r w' :
  Os.find (PosixPath.join2 (app_data_dir self) "saves2") (fs w) = None ->
  get_saveinfos self w = (r, w') ->
  (r = Ok []
   /\ store_is self w' (now w * 1000000) []
   /\ trace w' = trace w ++ [EvMakedirs (PosixPath.join2 (app_data_dir self) "saves2")])
  \/ (exists e, r = Raise e /\ w' = w).
Proof.
  fold (savesdir self). intros Hnone Hrun.
  destruct (_get_savesdir self w) as [r1 w1] eqn:Hget.
  destruct (get_savesdir_missing _ _ _ _ Hnone Hget)
    as [(-> & Hst & Htr & _)|(e & -> & ->)].
  - left. rewrite (get_saveinfos_after self w w1 _ [] Hget Hst) in Hrun by constructor.
    by injection Hrun as <- <-.
  - right. exists e. unfold get_saveinfos in Hrun.
    rewrite (bind_raise _ _ _ _ _ Hget) in Hrun. by injection Hrun as <- <-.
Qed.

Lemma get_saveinfos_first_use_example :
  let w := DemoX.bare [] 100 in
  exists w',
    get_saveinfos Demo.engine w = (Ok [], w')
    /\ store_is Demo.engine w' 100000000 [].
Proof.
  intros w. set (w' := (get_saveinfos Demo.engine w).2).
  assert (get_saveinfos Demo.engine w = (Ok [], w')) as Hrun by (vm_compute; reflexivity).
  destruct (get_saveinfos_first_use Demo.engine w _ w' eq_refl Hrun)
    as [(_ & Hst & _)|(e & [=] & _)].
  exists w'. split; [exact Hrun | exact Hst].
Defined.

(** X3.  A sidecar that [_create_savedir] has written reads back: in a
    store whose entries have names, with the engine not in dry-run mode, the
    save-info returned has the game-info given, the clock as time stamp and
    the name [save_<game>_<time>] or [undo_<game>_<time>]; reading the
    sidecar [<name>.json] gives this save-info again, and [get_saveinfos]
    lists it. *)
Theorem created_sidecar_reads_back self gi undo w t es si w1 :
  store_is self w t es -> valid_names es -> dry_run self = false ->
  _create_savedir self gi undo w = (Ok si, w1) ->
  si = {| game_info := gi; timestamp := now w;
          filename := snapshot_name undo (game_id gi) (now w); is_undo := undo |}
  /\ _file_to_saveinfo self (filename si ++ ".json") w1 = (Ok si, w1)
  /\ exists infos, get_saveinfos self w1 = (Ok infos, w1) /\ si ∈ infos.
Proof.
  intros Hs Hv Hdry Hrun.
  destruct (create_savedir_exact _ _ _ _ _ _ _ _ Hs Hv Hdry Hrun) as (Hsi & Hroots & Hw).
  set (name := snapshot_name undo (game_id gi) (now w)) in *.
  assert (Hp : plain_name name) by apply NameFacts.snapshot_name_plain.
  pose proof (json_name_valid _ Hp) as Hjson.
  set (es1 := assoc_set (name ++ ".json") (File (Json si) (now w * 1000000)) es) in *.
  assert (store_is self w1 t es1) as Hs1 by (rewrite Hw; by eapply with_store_is).
  assert (valid_names es1) as Hv1 by by apply valid_names_assoc_set.
  assert (load es1 (name ++ ".json") = Some si) as Hload.
  { assert (game_info si = gi) as Hgi by by rewrite Hsi.
    unfold load, es1. rewrite assoc_get_set_eq, Hgi.
    by destruct Hroots as [roots ->]. }
  split; [done|]. split.
  - assert (filename si = name) as -> by by rewrite Hsi.
    rewrite (file_to_saveinfo_spec _ _ _ _ _ Hs1 Hjson). unfold es1 at 1.
    by rewrite assoc_get_set_eq, Hload.
  - exists (infos_of es1). split; [by apply (get_saveinfos_spec self w1 t es1)|].
    apply (proj1 (proj2 (proj2 (infos_of_order es1)))).
    unfold listed. apply list_elem_of_omap. exists (name ++ ".json"). split; [|done].
    apply list_elem_of_In, filter_In. split; [|apply endswith_app].
    apply list_elem_of_In. unfold es1. rewrite map_fst_assoc_set.
    case_bool_decide; [done|]. apply elem_of_app. right. by left.
Qed.

Lemma created_sidecar_reads_back_example :
  let w := Demo.world_of (Demo.snapshot false 1 100) [] 200 in
  exists w1,
    _create_savedir Demo.engine (Demo.game 1) true w = (Ok (Demo.info true 1 200), w1)
    /\ _file_to_saveinfo Demo.engine "undo_1_200.json" w1
       = (Ok (Demo.info true 1 200), w1).
Proof.
  intros w. set (w1 := (_create_savedir Demo.engine (Demo.game 1) true w).2).
  assert (_create_savedir Demo.engine (Demo.game 1) true w
          = (Ok (Demo.info true 1 200), w1)) as Hrun by (vm_compute; reflexivity).
  destruct (created_sidecar_reads_back Demo.engine (Demo.game 1) true w 0
              (Demo.snapshot false 1 100) (Demo.info true 1 200) w1)
    as (_ & Hread & _).
  - reflexivity.
  - apply valid_names_b_spec. vm_compute. reflexivity.
  - reflexivity.
  - exact Hrun.
  - exists w1. split; [exact Hrun | exact Hread].
Defined.

(** X4.  A sidecar in the old format, with [save_games_root] and without
    [save_games_roots], is read as a save-info whose game-info has the one
    root with the empty suffix and no [save_games_root]; a sidecar whose
    game-info has neither key is not read, and [KeyError] is raised.  The
    file is not rewritten in either case: the state stays as it is. *)
Theorem old_format_sidecar_is_upgraded self w t es name si mtime :
  store_is self w t es -> valid_names es ->
  assoc_get name es = Some (File (Json si) mtime) ->
  save_games_roots (game_info si) = None ->
  (forall root,
     save_games_root (game_info si) = Some root ->
     _file_to_saveinfo self name w
     = (Ok {| game_info :=
                {| install_root := install_root (game_info si);
                   game_id := game_id (game_info si);
                   game_name := game_name (game_info si);
                   save_games_roots := Some [(root, "")];
                   save_games_root := None |};
              timestamp := timestamp si; filename := filename si;
              is_undo := is_undo si |}, w))
  /\ (save_games_root (game_info si) = None ->
      _file_to_saveinfo self name w = (Raise KeyError, w)).
Proof.
  intros Hs Hv Hget Hnone.
  assert (valid_name name) as Hn.
  { unfold valid_names in Hv. rewrite Forall_forall in Hv. apply Hv.
    by eapply assoc_get_In. }
  rewrite (file_to_saveinfo_spec _ _ _ _ _ Hs Hn), Hget. unfold load.
  rewrite Hget, Hnone. split.
  - by intros root ->.
  - by intros ->.
Qed.

Lemma old_format_sidecar_is_upgraded_example :
  let w := Demo.world_of DemoX.old_store [] 200 in
  _file_to_saveinfo Demo.engine "save_1_100.json" w = (Ok (Demo.info false 1 100), w)
  /\ Os.find "/data/saves2/save_1_100.json" (fs w)
     = Some (File (Json DemoX.old_info) 100000000).
Proof.
  intros w. split; [|reflexivity].
  refine (proj1 (old_format_sidecar_is_upgraded Demo.engine w 0 DemoX.old_store
                   "save_1_100.json" DemoX.old_info 100000000 _ _ _ _) _ _).
  - reflexivity.
  - apply valid_names_b_spec. vm_compute. reflexivity.
  - reflexivity.
  - reflexivity.
  - reflexivity.
Defined.

End StoreExtras.

(** ** What the engine keeps and what it never writes *)

Module FrameFacts.

Import Store Events Frame PathFacts BelowFacts StoreFacts Run ReadOnly EventFacts
  FirstUseFacts.

Lemma keeps_readonly {X A} (f : world -> X) (c : M A) : readonly c -> keeps f c.
Proof. intros Hc w r w' Hrun. by apply readonly_run in Hrun as ->. Qed.

Lemma keeps_bind {X A B} (f : world -> X) (c : M A) (k : A -> M B) :
  keeps f c -> (forall a, keeps f (k a)) -> keeps f (bind c k).
Proof.
  intros Hc Hk w r w' [(a & w1 & H1 & H2)|(e & H1 & ->)]%bind_inv.
  - rewrite (Hk _ _ _ _ H2). by eapply Hc.
  - by eapply Hc.
Qed.

Lemma keeps_try {X A} (f : world -> X) (c : M A) handles h :
  keeps f c -> (forall e, keeps f (h e)) -> keeps f (try_except c handles h).
Proof.
  intros Hc Hh w r w'. unfold try_except.
  destruct (c w) as [[a|e] w1] eqn:E.
  - intros [= <- <-]. by eapply Hc.
  - destruct (handles e).
    + intros H2. rewrite (Hh _ _ _ _ H2). by eapply Hc.
    + intros [= <- <-]. by eapply Hc.
Qed.

Lemma keeps_for_each {X A} (f : world -> X) (l : list A) body :
  (forall a, keeps f (body a)) -> keeps f (for_each l body).
Proof.
  intros Hb. induction l as [|x l IH]; [apply keeps_readonly, readonly_ret|].
  rewrite for_each_cons. apply keeps_bind; [apply Hb | by intros _].
Qed.

Lemma keeps_map_M {X A B} (f : world -> X) (g : A -> M B) l :
  (forall a, keeps f (g a)) -> keeps f (map_M g l).
Proof.
  intros Hg. induction l as [|x l IH]; [apply keeps_readonly, readonly_ret|]. simpl.
  apply keeps_bind; [apply Hg|]. intros y. apply keeps_bind; [apply IH|].
  intros ys. apply keeps_readonly, readonly_ret.
Qed.

Lemma keeps_last_used_set_fs n : keeps last_used_save_info (set_fs n).
Proof. by intros w r w' [= <- <-]. Qed.

Lemma keeps_last_used_log e : keeps last_used_save_info (log e).
Proof. by intros w r w' [= <- <-]. Qed.

Create HintDb keeps.

(** One step of a proof that a computation keeps a part of the state. *)
Ltac keeps_step :=
  match goal with
  | |- keeps _ (bind _ _) => apply keeps_bind; [|intros ?]
  | |- keeps _ (try_except _ _ _) => apply keeps_try; [|intros ?]
  | |- keeps _ (set_fs _) => apply keeps_last_used_set_fs
  | |- keeps _ (log _) => apply keeps_last_used_log
  | |- keeps _ (for_each _ _) => apply keeps_for_each; intros ?
  | |- keeps _ (map_M _ _) => apply keeps_map_M; intros ?
  | |- keeps _ (match ?x with _ => _ end) => destruct x
  | |- keeps _ (let '(_, _) := ?x in _) => destruct x
  | |- keeps _ _ => assumption
  | |- keeps _ _ => apply keeps_readonly; solve [auto with readonly | readonly]
  end.

Ltac keeps := repeat keeps_step; eauto with keeps.

Lemma keeps_makedirs p ok : keeps last_used_save_info (Os.makedirs p ok).
Proof. unfold Os.makedirs. keeps. Qed.

Lemma keeps_put_file p c t : keeps last_used_save_info (Os.put_file p c t).
Proof. unfold Os.put_file. keeps. Qed.

#[export] Hint Resolve keeps_makedirs keeps_put_file : keeps.

Lemma keeps_copy2 src dst : keeps last_used_save_info (Os.copy2 src dst).
Proof. unfold Os.copy2. keeps. Qed.

Lemma keeps_remove a : keeps last_used_save_info (Os.remove a).
Proof. unfold Os.remove. keeps. Qed.

Lemma keeps_rmtree p : keeps last_used_save_info (Os.rmtree p).
Proof. unfold Os.rmtree. keeps. Qed.

Lemma keeps_get_savesdir self : keeps last_used_save_info (_get_savesdir self).
Proof. unfold _get_savesdir. keeps. Qed.

#[export] Hint Resolve keeps_copy2 keeps_remove keeps_rmtree keeps_get_savesdir : keeps.

Lemma keeps_json_dump si p : keeps last_used_save_info (Os.json_dump si p).
Proof. unfold Os.json_dump. keeps. Qed.

Lemma keeps_file_to_saveinfo self n : keeps last_used_save_info (_file_to_saveinfo self n).
Proof. unfold _file_to_saveinfo, Os.remove. keeps. Qed.

#[export] Hint Resolve keeps_json_dump keeps_file_to_saveinfo : keeps.

Lemma keeps_get_saveinfos self : keeps last_used_save_info (get_saveinfos self).
Proof. unfold get_saveinfos, attempt_saveinfo. keeps. Qed.

Lemma keeps_delete_savedir self n : keeps last_used_save_info (_delete_savedir self n).
Proof. unfold _delete_savedir. keeps. Qed.

#[export] Hint Resolve keeps_get_saveinfos keeps_delete_savedir : keeps.

Lemma keeps_delete_oldest self files k :
  keeps last_used_save_info (delete_oldest self files k).
Proof. induction files as [|d files IH]; simpl; keeps. Qed.

#[export] Hint Resolve keeps_delete_oldest : keeps.

Lemma keeps_cull_old_saves self : keeps last_used_save_info (_cull_old_saves self).
Proof. unfold _cull_old_saves. keeps. Qed.

Lemma keeps_get_newest_save self gid :
  keeps last_used_save_info (_get_newest_save self gid).
Proof. unfold _get_newest_save. keeps. Qed.

Lemma keeps_create_savedir self gi undo :
  keeps last_used_save_info (_create_savedir self gi undo).
Proof. unfold _create_savedir, _saveinfo_to_dir. keeps. Qed.

Lemma keeps_copy_by_rcf self rcf src dst :
  keeps last_used_save_info (_copy_by_rcf self rcf src dst).
Proof. unfold _copy_by_rcf. keeps. Qed.

#[export] Hint Resolve keeps_cull_old_saves keeps_get_newest_save
  keeps_create_savedir keeps_copy_by_rcf : keeps.

Lemma keeps_copy_all_to self si rcf :
  keeps last_used_save_info (_copy_all_to_saveinfo self si rcf).
Proof. unfold _copy_all_to_saveinfo, _saveinfo_to_dir. keeps. Qed.

Lemma keeps_copy_all_from self si rcf :
  keeps last_used_save_info (_copy_all_from_saveinfo self si rcf).
Proof. unfold _copy_all_from_saveinfo, _saveinfo_to_dir. keeps. Qed.

#[export] Hint Resolve keeps_copy_all_to keeps_copy_all_from : keeps.

End FrameFacts.

Section LastUsed.

Import Store Events Frame StoreFacts Run ReadOnly EventFacts FrameFacts.

(** X5.  The note of the snapshot last used.  A backup that makes a
    snapshot notes it when it is asked to, and otherwise leaves the note as
    it is; a backup that makes none, a dry run and a failed backup that was
    not asked to note leave it as it is.  A restore that succeeds notes the
    snapshot restored, with the game-info as [_read_rcf] left it; a restore
    that fails leaves the note as it is. *)
Theorem last_used_is_noted_on_success self :
  (forall gi (a : bool) w r w',
     do_backup self gi a false w = (r, w') ->
     match r with
     | Ok (Backup si, _) =>
         last_used_save_info w' = if a then Some si else last_used_save_info w
     | Ok _ => last_used_save_info w' = last_used_save_info w
     | Raise _ => a = false -> last_used_save_info w' = last_used_save_info w
     end)
  /\ (forall gi (a : bool) w r w',
        do_backup self gi a true w = (r, w') ->
        last_used_save_info w' = last_used_save_info w)
  /\ (forall si w r w',
        do_restore self si w = (r, w') ->
        match r with
        | Ok _ =>
            exists rcf gi',
              _read_rcf self (game_info si) w = (Ok (rcf, gi'), w)
              /\ last_used_save_info w' = Some (with_game_info si gi')
        | Raise _ => last_used_save_info w' = last_used_save_info w
        end).
Proof.
  split; [|split].
  - intros gi a w r w'. unfold do_backup.
    intros [([rcf gi1] & w1 & H1 & H)|(e & H1 & ->)]%bind_inv.
    2:{ intros _. by apply readonly_run in H1 as ->; [|apply readonly_read_rcf]. }
    apply readonly_run in H1 as ->; [|apply readonly_read_rcf].
    destruct (no_rcf rcf); [by injection H as <- <-|].
    apply bind_inv in H as [(newest & w1 & H1 & H)|(e & H1 & ->)].
    2:{ intros _. by eapply keeps_get_newest_save. }
    apply keeps_get_newest_save in H1.
    apply bind_inv in H as [(skip & w2 & H2 & H)|(e & H2 & ->)].
    2:{ intros _. rewrite <- H1. revert H2. apply keeps_readonly.
        destruct newest; [|apply readonly_ret].
        destruct (ignore_unchanged self); readonly. }
    assert (last_used_save_info w2 = last_used_save_info w) as H2'.
    { rewrite <- H1. revert H2. apply keeps_readonly.
      destruct newest; [|apply readonly_ret].
      destruct (ignore_unchanged self); readonly. }
    destruct skip; [by injection H as <- <-|]. simpl negb in H. cbv iota in H.
    apply bind_inv in H as [(si & w3 & H3 & H)|(e & H3 & ->)].
    2:{ intros _. rewrite <- H2'. by eapply keeps_create_savedir. }
    apply keeps_create_savedir in H3.
    apply bind_inv in H as [(? & w4 & H4 & H)|(e & H4 & ->)].
    2:{ intros _. rewrite <- H2', <- H3. by eapply keeps_copy_all_to. }
    apply keeps_copy_all_to in H4.
    apply bind_inv in H as [(? & w5 & H5 & H)|(e & H5 & ->)].
    2:{ destruct a; by injection H5. }
    assert (last_used_save_info w5
            = if a then Some si else last_used_save_info w) as H5'.
    { destruct a; injection H5 as _ <-; [done|]. congruence. }
    apply bind_inv in H as [(? & w6 & H6 & H)|(e & H6 & ->)].
    + injection H as <- <-. apply keeps_cull_old_saves in H6. congruence.
    + intros ->. apply keeps_cull_old_saves in H6. congruence.
  - intros gi a w r w'. unfold do_backup.
    intros [([rcf gi1] & w1 & H1 & H)|(e & H1 & ->)]%bind_inv.
    2:{ by apply readonly_run in H1 as ->; [|apply readonly_read_rcf]. }
    apply readonly_run in H1 as ->; [|apply readonly_read_rcf].
    destruct (no_rcf rcf); [by injection H as _ <-|].
    apply bind_inv in H as [(newest & w1 & H1 & H)|(e & H1 & ->)].
    2:{ by eapply keeps_get_newest_save. }
    apply keeps_get_newest_save in H1.
    assert (forall r2 w2,
              match newest with
              | Some newest0 =>
                  if ignore_unchanged self
                  then do game_timestamp <- _get_rcf_timestamp self (default [] rcf) gi1;
                       ret (game_timestamp <? timestamp newest0)
                  else ret false
              | None => ret false
              end w1 = (r2, w2) -> w2 = w1) as Hskip.
    { intros r2 w2. apply readonly_run.
      destruct newest; [|apply readonly_ret].
      destruct (ignore_unchanged self); readonly. }
    apply bind_inv in H as [(skip & w2 & H2 & H)|(e & H2 & ->)].
    2:{ apply Hskip in H2 as ->. done. }
    apply Hskip in H2 as ->.
    destruct skip; by injection H as _ <-.
  - intros si w r w'. unfold do_restore.
    intros [([rcf gi1] & w1 & H1 & H)|(e & H1 & ->)]%bind_inv.
    2:{ by apply readonly_run in H1 as ->; [|apply readonly_read_rcf]. }
    pose proof (readonly_run _ _ _ _ (readonly_read_rcf _ _) H1) as ->.
    apply bind_inv in H as [(? & w1 & H2 & H)|(e & H2 & ->)].
    2:{ by apply readonly_run in H2 as ->; [|apply readonly_assert]. }
    apply readonly_run in H2 as ->; [|apply readonly_assert].
    apply bind_inv in H as [(? & w2 & H2 & H)|(e & H2 & ->)].
    2:{ revert H2. apply keeps_bind || idtac.
        destruct (negb (is_undo (with_game_info si gi1))); [|by intros [=]].
        apply keeps_bind; [apply keeps_create_savedir|].
        intros ?. apply keeps_copy_all_to. }
    assert (last_used_save_info w2 = last_used_save_info w) as H2'.
    { revert H2. destruct (negb (is_undo (with_game_info si gi1)));
        [|by intros [= _ <-]].
      apply keeps_bind; [apply keeps_create_savedir|].
      intros ?. apply keeps_copy_all_to. }
    apply bind_inv in H as [(? & w3 & H3 & H)|(e & H3 & ->)].
    2:{ rewrite <- H2'. by eapply keeps_copy_all_from. }
    apply bind_inv in H as [(? & w4 & H4 & H)|(e & H4 & ->)].
    2:{ rewrite <- H2', <- (keeps_copy_all_from _ _ _ _ _ _ H3).
        by eapply keeps_cull_old_saves. }
    injection H as <- <-. exists rcf, gi1. by split.
Qed.

End LastUsed.

(** ** Dry runs and the order of a restore *)

Module DryFacts.

Import Store Events Frame PathFacts BelowFacts StoreFacts Run ReadOnly EventFacts
  FirstUseFacts OrderFacts.

Lemma still_readonly {A} w (c : M A) : readonly c -> still w c.
Proof. intros Hc r w' Hrun. by eapply readonly_run. Qed.

Lemma still_bind {A B} w (c : M A) (k : A -> M B) :
  still w c -> (forall a, still w (k a)) -> still w (bind c k).
Proof.
  intros Hc Hk r w' [(a & w1 & H1 & H2)|(e & H1 & ->)]%bind_inv.
  - apply Hc in H1 as ->. by eapply Hk.
  - by eapply Hc.
Qed.

Lemma still_try {A} w (c : M A) handles h :
  still w c -> (forall e, still w (h e)) -> still w (try_except c handles h).
Proof.
  intros Hc Hh r w'. unfold try_except.
  destruct (c w) as [[a|e] w1] eqn:E.
  - intros [= <- <-]. by eapply Hc.
  - apply Hc in E as ->. destruct (handles e); [apply Hh | by intros [= _ <-]].
Qed.

Lemma still_map_M {A B} w (f : A -> M B) l :
  (forall a, still w (f a)) -> still w (map_M f l).
Proof.
  intros Hf. induction l as [|x l IH]; [apply still_readonly, readonly_ret|]. simpl.
  apply still_bind; [apply Hf|]. intros y. apply still_bind; [apply IH|].
  intros ys. apply still_readonly, readonly_ret.
Qed.

Lemma still_get_savesdir self w :
  is_Some (Os.find (savesdir self) (fs w)) -> still w (_get_savesdir self).
Proof. intros H r w'. rewrite get_savesdir_present by done. by intros [= _ <-]. Qed.

(** With the directory of the store in place, listing changes nothing. *)
Lemma still_get_saveinfos self w :
  is_Some (Os.find (savesdir self) (fs w)) -> still w (get_saveinfos self).
Proof.
  intros H. unfold get_saveinfos.
  apply still_bind; [by apply still_get_savesdir|]. intros dir.
  apply still_bind; [apply still_readonly, readonly_listdir|]. intros names.
  apply still_bind; [|intros ?; apply still_readonly, readonly_ret].
  apply still_map_M. intros f. unfold attempt_saveinfo.
  apply still_try; [|intros ?; apply still_readonly, readonly_ret].
  apply still_bind; [|intros ?; apply still_readonly, readonly_ret].
  unfold _file_to_saveinfo.
  apply still_bind; [by apply still_get_savesdir|]. intros d.
  apply still_readonly. unfold Os.remove. readonly.
Qed.

Lemma is_makedirs_no_write e : is_makedirs e = true -> no_write e = true.
Proof. by destruct e. Qed.

Lemma is_copying_no_write e : is_copying e = true -> no_write e = true.
Proof. by destruct e. Qed.

Lemma is_culling_no_write e : is_culling e = true -> no_write e = true.
Proof. by destruct e. Qed.

Lemma emits_saveinfo_to_dir self si : emits is_makedirs (_saveinfo_to_dir self si).
Proof. unfold _saveinfo_to_dir. emits. Qed.

(** In dry-run mode [_create_savedir] writes no sidecar and [_copy_by_rcf]
    copies nothing. *)
Lemma emits_create_savedir_dry self gi undo :
  dry_run self = true -> emits is_makedirs (_create_savedir self gi undo).
Proof.
  intros Hdry. unfold _create_savedir. rewrite Hdry. simpl negb. cbv iota.
  emits. apply emits_saveinfo_to_dir.
Qed.

Lemma readonly_copy_by_rcf_dry self rcf src dst :
  dry_run self = true -> readonly (_copy_by_rcf self rcf src dst).
Proof.
  intros Hdry. unfold _copy_by_rcf. rewrite Hdry. simpl negb. cbv iota.
  induction rcf as [|k rcf IH]; [apply readonly_ret|].
  rewrite for_each_cons. readonly.
Qed.

Lemma emits_copy_all_to_dry self si rcf :
  dry_run self = true -> emits is_culling (_copy_all_to_saveinfo self si rcf).
Proof.
  intros Hdry. unfold _copy_all_to_saveinfo. emits.
  - apply (emits_mono is_makedirs); [apply is_makedirs_culling | apply emits_saveinfo_to_dir].
  - apply emits_readonly. by apply readonly_copy_by_rcf_dry.
Qed.

Lemma emits_copy_all_from_dry self si rcf :
  dry_run self = true -> emits is_culling (_copy_all_from_saveinfo self si rcf).
Proof.
  intros Hdry. unfold _copy_all_from_saveinfo. emits.
  - apply (emits_mono is_makedirs); [apply is_makedirs_culling | apply emits_saveinfo_to_dir].
  - apply emits_readonly. by apply readonly_copy_by_rcf_dry.
Qed.

Lemma emits_copy_all_from self si rcf :
  emits is_copying (_copy_all_from_saveinfo self si rcf).
Proof.
  unfold _copy_all_from_saveinfo. emits.
  apply (emits_mono is_makedirs); [apply is_makedirs_copying | apply emits_saveinfo_to_dir].
Qed.

End DryFacts.

Section DryRuns.

Import Store Events Frame PathFacts BelowFacts StoreFacts Run ReadOnly EventFacts
  FirstUseFacts OrderFacts DryFacts.

(** X6.  A backup called with [dry_run=True] makes no snapshot: it never
    returns a save-info, its only events are directories made (the directory
    of the store, when it is missing), and with that directory in place it
    leaves the whole state as it is. *)
Theorem do_backup_dry_call_writes_nothing self gi (a : bool) w r w' :
  do_backup self gi a true w = (r, w') ->
  (exists evs, trace w' = trace w ++ evs /\ forallb is_makedirs evs = true)
  /\ (forall si gi', r <> Ok (Backup si, gi'))
  /\ (is_Some (Os.find (PosixPath.join2 (app_data_dir self) "saves2") (fs w)) ->
      w' = w).
Proof.
  intros Hrun. split; [|split].
  - revert w r w' Hrun. change (emits is_makedirs (do_backup self gi a true)).
    unfold do_backup. simpl negb. cbv iota. emits.
  - intros si gi'. revert Hrun. unfold do_backup.
    intros [([rcf gi1] & w1 & H1 & H)|(e & H1 & ->)]%bind_inv; [|done].
    destruct (no_rcf rcf); [by injection H as <- _|].
    apply bind_inv in H as [(newest & w2 & H2 & H)|(e & H2 & ->)]; [|done].
    apply bind_inv in H as [(skip & w3 & H3 & H)|(e & H3 & ->)]; [|done].
    destruct skip; by injection H as <- _.
  - intros Hstore. revert r w' Hrun. change (still w (do_backup self gi a true)).
    unfold do_backup.
    apply still_bind; [apply still_readonly, readonly_read_rcf|]. intros [rcf gi1].
    destruct (no_rcf rcf); [apply still_readonly, readonly_ret|].
    apply still_bind.
    { unfold _get_newest_save. apply still_bind; [by apply still_get_saveinfos|].
      intros ?. apply still_readonly, readonly_ret. }
    intros newest. apply still_bind.
    { apply still_readonly. destruct newest; [|apply readonly_ret].
      destruct (ignore_unchanged self); readonly. }
    intros skip. destruct skip; apply still_readonly, readonly_ret.
Qed.

Lemma do_backup_dry_call_writes_nothing_example :
  let w := Demo.world_of [] (Demo.save_dat 50000000) 100 in
  exists r w',
    do_backup Demo.engine (Demo.game 1) false true w = (r, w')
    /\ r = Ok (WouldBackup, Demo.game 1) /\ w' = w.
Proof.
  intros w.
  destruct (do_backup Demo.engine (Demo.game 1) false true w) as [r w'] eqn:Hrun.
  destruct (do_backup_dry_call_writes_nothing _ _ _ _ _ _ Hrun) as (_ & _ & Hstill).
  exists r, w'. split; [reflexivity|]. split.
  - vm_compute in Hrun. by injection Hrun as <- _.
  - apply Hstill. vm_compute. by eexists.
Defined.

(** X7.  With the engine's [dry_run] flag set, neither a backup nor a
    restore writes a sidecar or copies a file: their only events are
    directories made and the removals of culling and cleaning up. *)
Theorem engine_dry_run_writes_nothing self :
  dry_run self = true ->
  (forall gi (a d : bool), emits is_culling (do_backup self gi a d))
  /\ (forall si, emits is_culling (do_restore self si)).
Proof.
  intros Hdry. split.
  - intros gi a d. unfold do_backup. emits.
    + eapply emits_mono, emits_get_newest_save. apply is_makedirs_culling.
    + eapply emits_mono, emits_create_savedir_dry; [apply is_makedirs_culling | done].
    + by apply emits_copy_all_to_dry.
    + apply emits_cull_old_saves.
  - intros si. unfold do_restore. emits.
    + eapply emits_mono, emits_create_savedir_dry; [apply is_makedirs_culling | done].
    + by apply emits_copy_all_to_dry.
    + by apply emits_copy_all_from_dry.
    + apply emits_cull_old_saves.
Qed.

Lemma engine_dry_run_writes_nothing_example :
  let w := Demo.world_of (Demo.snapshot false 1 100) (Demo.save_dat 150000000) 200 in
  exists r w' evs,
    do_backup Demo.dry_engine (Demo.game 1) false false w = (r, w')
    /\ trace w' = trace w ++ evs /\ forallb is_culling evs = true.
Proof.
  intros w.
  destruct (do_backup Demo.dry_engine (Demo.game 1) false false w) as [r w'] eqn:Hrun.
  destruct (proj1 (engine_dry_run_writes_nothing Demo.dry_engine eq_refl)
              (Demo.game 1) false false w r w' Hrun) as (evs & Ht & Hev).
  by exists r, w', evs.
Defined.

(** X8.  Restoring an undo snapshot makes no undo snapshot of its own: no
    sidecar is written. *)
Theorem restore_of_undo_writes_no_sidecar self si :
  is_undo si = true -> emits no_write (do_restore self si).
Proof.
  intros Hundo. unfold do_restore.
  apply emits_bind; [apply emits_readonly, readonly_read_rcf|]. intros [rcf gi].
  simpl is_undo. rewrite Hundo. simpl negb. cbv iota. emits.
  - apply (emits_mono is_copying); [apply is_copying_no_write | apply emits_copy_all_from].
  - apply (emits_mono is_culling); [apply is_culling_no_write | apply emits_cull_old_saves].
Qed.

Lemma restore_of_undo_writes_no_sidecar_example :
  let w := Demo.world_of (Demo.snapshot true 1 100) (Demo.save_dat 150000000) 200 in
  exists w' evs,
    do_restore Demo.engine (Demo.info true 1 100) w = (Ok tt, w')
    /\ trace w' = trace w ++ evs /\ forallb no_write evs = true.
Proof.
  intros w. set (w' := (do_restore Demo.engine (Demo.info true 1 100) w).2).
  assert (do_restore Demo.engine (Demo.info true 1 100) w = (Ok tt, w')) as Hrun
    by (vm_compute; reflexivity).
  destruct (restore_of_undo_writes_no_sidecar Demo.engine (Demo.info true 1 100)
              eq_refl w (Ok tt) w' Hrun) as (evs & Ht & Hev).
  exists w', evs. split; [exact Hrun|]. split; [exact Ht | exact Hev].
Defined.

End DryRuns.

Module RestoreOrderFacts.

Import Store Events Frame PathFacts BelowFacts StoreFacts Run ReadOnly EventFacts
  FirstUseFacts OrderFacts DryFacts.

Lemma startswith_refl s : startswith s s = true.
Proof. by apply startswith_prefix. Qed.

Lemma startswith_trans a b c :
  startswith b a = true -> startswith c b = true -> startswith c a = true.
Proof. rewrite !startswith_prefix. intros H1 H2. by etransitivity. Qed.

Lemma startswith_join2 a b : relative b -> startswith (PosixPath.join2 a b) a = true.
Proof.
  intros Hb. unfold PosixPath.join2. change PosixPath.sep with ("/" : str).
  rewrite Hb. destruct (_ || _); apply startswith_app.
Qed.

Lemma copy_event_mono s d s' d' e :
  startswith s' s = true -> startswith d' d = true ->
  copy_event s' d' e = true -> copy_event s d e = true.
Proof.
  intros Hs Hd. destruct e as [| |x y| |]; simpl; try done.
  intros [H1 H2]%andb_true_iff. apply andb_true_iff.
  split; by eapply startswith_trans.
Qed.

Lemma emits_copy2_between src dst : emits (copy_event src dst) (Os.copy2 src dst).
Proof.
  unfold Os.copy2. apply emits_bind; [apply emits_readonly, readonly_isdir|].
  intros d. apply emits_bind; [apply emits_readonly, readonly_get_fs|]. intros n.
  destruct (Os.find src n) as [m|]; [|apply emits_raise].
  destruct (bool_decide _); [apply emits_raise|].
  destruct m as [c t|? ?]; [|apply emits_raise].
  apply emits_bind; [apply emits_put_file|]. intros _.
  apply emits_log. simpl. rewrite startswith_refl. simpl.
  destruct d; [|apply startswith_refl].
  apply startswith_join2, basename_relative.
Qed.

Lemma emits_copy_by_rcf_between self rcf src dst :
  Forall relative rcf ->
  emits (copy_event src dst) (_copy_by_rcf self rcf src dst).
Proof.
  intros Hrel. unfold _copy_by_rcf.
  induction Hrel as [|k rcf Hk Hrel IH]; [apply emits_ret|].
  rewrite for_each_cons. apply emits_bind; [|by intros _].
  apply emits_bind; [apply emits_readonly, readonly_exists|]. intros e.
  destruct e; [|apply emits_ret].
  destruct (negb (dry_run self)); [|apply emits_ret].
  apply emits_bind; [by apply emits_makedirs|]. intros _.
  eapply emits_mono, emits_copy2_between.
  intros ev. apply copy_event_mono; by apply startswith_join2.
Qed.

Lemma create_savedir_name self gi undo w si w1 :
  _create_savedir self gi undo w = (Ok si, w1) ->
  filename si = snapshot_name undo (game_id gi) (now w)
  /\ is_undo si = undo /\ game_info si = gi.
Proof.
  unfold _create_savedir.
  intros (roots & w2 & H1 & H)%bind_inv_ok.
  apply readonly_run in H1 as ->; [|apply readonly_get_game_roots].
  apply bind_inv_ok in H as (? & w2 & H1 & H).
  apply readonly_run in H1 as ->; [|apply readonly_assert].
  apply bind_inv_ok in H as (ts & w2 & H1 & H). injection H1 as <- <-.
  apply bind_inv_ok in H as (path & w2 & _ & H).
  apply bind_inv_ok in H as (? & w3 & _ & H). by injection H as <- _.
Qed.

(** The copies of a copy phase that succeeds go below the directory of the
    snapshot. *)
Lemma copy_all_to_between self si rcf w w1 :
  Forall relative rcf ->
  _copy_all_to_saveinfo self si rcf w = (Ok tt, w1) ->
  exists evs,
    trace w1 = trace w ++ evs
    /\ forallb (copy_event "" (PosixPath.join2 (savesdir self) (filename si))) evs = true.
Proof.
  intros Hrel. unfold _copy_all_to_saveinfo, try_except.
  destruct (bind _ _ w) as [[[]|e] w2] eqn:E.
  2:{ intros H. apply bind_inv in H as [(? & ? & _ & [=])|(? & _ & [=])]. }
  intros [= <-]. revert E. generalize w (Ok tt : outcome unit) w2.
  change (emits (copy_event "" (PosixPath.join2 (savesdir self) (filename si)))
            (do dest_basename <- _saveinfo_to_dir self si;
             do gameRoots <- _get_game_roots (game_info si);
             for_each gameRoots (fun '(src_dir, suffix) =>
               _copy_by_rcf self rcf src_dir (dest_basename ++ suffix)))).
  clear w w2. intros w r w2 [(dest & w1 & H1 & H)|(e & H1 & ->)]%bind_inv.
  2:{ destruct (emits_saveinfo_to_dir _ _ _ _ _ H1) as (evs & Ht & Hev).
      exists evs. split; [done|]. rewrite forallb_forall in *.
      intros ev Hin. specialize (Hev ev Hin). by destruct ev. }
  destruct (emits_saveinfo_to_dir _ _ _ _ _ H1) as (evs1 & Ht1 & Hev1).
  assert (dest = PosixPath.join2 (savesdir self) (filename si)) as ->.
  { unfold _saveinfo_to_dir in H1.
    apply bind_inv_ok in H1 as (d & w3 & Hd & H1).
    apply get_savesdir_value in Hd as ->. by injection H1 as <- _. }
  assert (emits (copy_event "" (PosixPath.join2 (savesdir self) (filename si)))
            (do gameRoots <- _get_game_roots (game_info si);
             for_each gameRoots (fun '(src_dir, suffix) =>
               _copy_by_rcf self rcf src_dir
                 (PosixPath.join2 (savesdir self) (filename si) ++ suffix)))) as Hrest.
  { apply emits_bind; [apply emits_readonly, readonly_get_game_roots|]. intros roots.
    apply emits_for_each. intros [src sfx].
    eapply emits_mono, emits_copy_by_rcf_between; [|done].
    intros ev. apply copy_event_mono; [by destruct src | apply startswith_app]. }
  destruct (Hrest _ _ _ H) as (evs2 & Ht2 & Hev2).
  exists (evs1 ++ evs2). rewrite Ht2, Ht1, app_assoc. split; [done|].
  rewrite forallb_app, Hev2, andb_true_r. rewrite forallb_forall in *.
  intros ev Hin. specialize (Hev1 ev Hin). by destruct ev.
Qed.

(** The copies of a restore come from below the directory of the
    snapshot. *)
Lemma emits_copy_all_from_between self si rcf :
  Forall relative rcf ->
  emits (copy_event (PosixPath.join2 (savesdir self) (filename si)) "")
    (_copy_all_from_saveinfo self si rcf).
Proof.
  intros Hrel. unfold _copy_all_from_saveinfo.
  intros w r w2 [(dest & w1 & H1 & H)|(e & H1 & ->)]%bind_inv.
  2:{ destruct (emits_saveinfo_to_dir _ _ _ _ _ H1) as (evs & Ht & Hev).
      exists evs. split; [done|]. rewrite forallb_forall in *.
      intros ev Hin. specialize (Hev ev Hin). by destruct ev. }
  destruct (emits_saveinfo_to_dir _ _ _ _ _ H1) as (evs1 & Ht1 & Hev1).
  assert (dest = PosixPath.join2 (savesdir self) (filename si)) as ->.
  { unfold _saveinfo_to_dir in H1.
    apply bind_inv_ok in H1 as (d & w3 & Hd & H1).
    apply get_savesdir_value in Hd as ->. by injection H1 as <- _. }
  assert (emits (copy_event (PosixPath.join2 (savesdir self) (filename si)) "")
            (do gameRoots <- _get_game_roots (game_info si);
             for_each gameRoots (fun '(dest_dir, suffix) =>
               _copy_by_rcf self rcf
                 (PosixPath.join2 (savesdir self) (filename si) ++ suffix) dest_dir)))
    as Hrest.
  { apply emits_bind; [apply emits_readonly, readonly_get_game_roots|]. intros roots.
    apply emits_for_each. intros [dst sfx].
    eapply emits_mono, emits_copy_by_rcf_between; [|done].
    intros ev. apply copy_event_mono; [apply startswith_app | by destruct dst]. }
  destruct (Hrest _ _ _ H) as (evs2 & Ht2 & Hev2).
  exists (evs1 ++ evs2). rewrite Ht2, Ht1, app_assoc. split; [done|].
  rewrite forallb_app, Hev2, andb_true_r. rewrite forallb_forall in *.
  intros ev Hin. specialize (Hev1 ev Hin). by destruct ev.
Qed.

End RestoreOrderFacts.

(** ** Reading the change manifest *)

Module ManifestFacts.

Import Store Change Manifest StoreFacts ChangeFacts Run ReadOnly.

(** Lines that are no opening brace add no entry. *)
Lemma rcf_step_line rcf p l :
  strip l <> "{" -> rcf_step (rcf, p, false) l = (rcf, Some (strip l), false).
Proof. intros H. unfold rcf_step. by rewrite bool_decide_eq_false_2. Qed.

Lemma rcf_step_open rcf p l :
  strip l = "{" -> p <> "" ->
  rcf_step (rcf, Some p, false) l
  = (rcf ++ [slice None (Some (-1)) (slice (Some 1) None p)], None, true).
Proof.
  intros H Hp. unfold rcf_step. rewrite H. simpl bool_decide. cbv iota.
  by rewrite bool_decide_eq_false_2.
Qed.

Lemma rcf_step_inner rcf p inner :
  Forall (fun l => strip l <> "}") inner ->
  fold_left rcf_step inner (rcf, p, true) = (rcf, p, true).
Proof.
  induction 1 as [|l inner Hl _ IH]; [done|]. simpl.
  by rewrite bool_decide_eq_false_2.
Qed.

Lemma rcf_step_close rcf p l :
  strip l = "}" -> rcf_step (rcf, p, true) l = (rcf, p, false).
Proof. intros H. unfold rcf_step. by rewrite H. Qed.

Lemma fold_rcf_step_body names lines :
  body names lines ->
  forall rcf p, exists p',
    fold_left rcf_step lines (rcf, p, false) = (rcf ++ names, p', false).
Proof.
  induction 1 as [|l names lines Hl _ IH
                  |nl ob inner cb names lines Hne Hnl Hob Hinner Hcb _ IH];
    intros rcf p.
  - exists p. by rewrite app_nil_r.
  - cbn [fold_left]. rewrite rcf_step_line by done. apply IH.
  - cbn [fold_left]. rewrite rcf_step_line by done.
    rewrite rcf_step_open by done. rewrite fold_left_app, rcf_step_inner by done.
    cbn [fold_left]. rewrite rcf_step_close by done.
    destruct (IH (rcf ++ [entry_of nl]) None) as [p' Hp']. exists p'.
    unfold entry_of in *. etrans; [exact Hp'|]. by rewrite <- app_assoc.
Qed.

Lemma slice_from_2 {A} (a b : A) l : slice (Some 2) None (a :: b :: l) = l.
Proof.
  unfold slice, bound. simpl length.
  replace (2 <? 0) with false by done. cbv iota.
  rewrite Z.min_l by lia. change (Z.to_nat 2) with 2%nat. simpl drop.
  apply take_ge. lia.
Qed.

(** The entries of the manifest at [path] after the entries [acc]. *)
Lemma read_one_rcf_file acc path w text mtime l1 l2 lines names :
  Os.find path (fs w) = Some (File (Text text) mtime) ->
  split LF (Os.universal_newlines text) = l1 :: l2 :: lines ->
  body names lines ->
  read_one_rcf acc path w = (Ok (acc ++ names), w).
Proof.
  intros Hfind Hsplit Hbody. unfold read_one_rcf.
  assert (Os.isfile path w = (Ok true, w)) as Hf.
  { unfold Os.isfile, bind, get_fs, ret. by rewrite Hfind. }
  assert (Os.read_text path w = (Ok (Os.universal_newlines text), w)) as Hr.
  { unfold Os.read_text, Os.open_read, bind, get_fs, ret. by rewrite Hfind. }
  rewrite (bind_ok _ _ _ _ _ Hf), (bind_ok _ _ _ _ _ Hr), Hsplit, slice_from_2.
  destruct (fold_rcf_step_body _ _ Hbody acc None) as [p' Hp']. unfold ret.
  by rewrite Hp'.
Qed.

Lemma read_one_rcf_missing acc path w :
  is_file (fs w) path = false -> read_one_rcf acc path w = (Ok acc, w).
Proof.
  intros H. unfold read_one_rcf, Os.isfile, bind, get_fs, ret. unfold is_file in H.
  by rewrite H.
Qed.

(** The entries of a manifest are added to the ones before. *)
Lemma fold_rcf_step_app acc lines rcf p s :
  fold_left rcf_step lines (acc ++ rcf, p, s)
  = let '(r, p', s') := fold_left rcf_step lines (rcf, p, s) in (acc ++ r, p', s').
Proof.
  revert rcf p s. induction lines as [|l lines IH]; intros rcf p s; [done|].
  cbn [fold_left].
  assert (rcf_step (acc ++ rcf, p, s) l
          = let '(r, p', s') := rcf_step (rcf, p, s) l in (acc ++ r, p', s')) as ->.
  { unfold rcf_step. destruct s; [done|]. case_bool_decide; [|done].
    destruct p as [q|]; [|done]. case_bool_decide; [done|]. by rewrite <- app_assoc. }
  destruct (rcf_step (rcf, p, s) l) as [[r p'] s']. apply IH.
Qed.

Lemma read_one_rcf_app acc path w :
  read_one_rcf acc path w
  = match read_one_rcf [] path w with
    | (Ok r, w') => (Ok (acc ++ r), w')
    | (Raise e, w') => (Raise e, w')
    end.
Proof.
  unfold read_one_rcf, bind. destruct (Os.isfile path w) as [[[]|e] w1]; try done.
  - destruct (Os.read_text path w1) as [[s|e] w2]; [|done]. unfold ret.
    pose proof (fold_rcf_step_app acc (slice (Some 2) None (split LF s)) [] None false) as H.
    rewrite app_nil_r in H. rewrite H.
    by destruct (fold_left rcf_step _ ([], None, false)) as [[r p'] s'].
  - unfold ret. by rewrite app_nil_r.
Qed.

Lemma read_all_rcf_app acc paths w :
  read_all_rcf acc paths w
  = match read_all_rcf [] paths w with
    | (Ok r, w') => (Ok (acc ++ r), w')
    | (Raise e, w') => (Raise e, w')
    end.
Proof.
  revert acc w. induction paths as [|p paths IH]; intros acc w; simpl.
  - unfold ret. by rewrite app_nil_r.
  - unfold bind. rewrite read_one_rcf_app.
    destruct (read_one_rcf [] p w) as [[r|e] w1]; [|done].
    rewrite (IH (acc ++ r)), (IH ([] ++ r)). simpl.
    destruct (read_all_rcf [] paths w1) as [[r'|e] w2]; [|done].
    by rewrite app_assoc.
Qed.

Lemma read_all_rcf_paths_app ps1 ps2 w r1 r2 :
  read_all_rcf [] ps1 w = (Ok r1, w) ->
  read_all_rcf [] ps2 w = (Ok r2, w) ->
  read_all_rcf [] (ps1 ++ ps2) w = (Ok (r1 ++ r2), w).
Proof.
  revert r1. generalize (@nil str) at 1 3 as acc.
  induction ps1 as [|p ps1 IH]; intros acc r1 H1 H2; simpl in *.
  - injection H1 as <-. by rewrite read_all_rcf_app, H2.
  - unfold bind in *. destruct (read_one_rcf acc p w) as [[r|e] w1] eqn:E; [|done].
    pose proof (readonly_run _ _ _ _ (readonly_read_one_rcf _ _) E) as ->.
    by apply IH.
Qed.

Lemma read_all_rcf_cons p ps w r :
  read_all_rcf [] (p :: ps) w = (Ok r, w) ->
  exists rp rs,
    read_one_rcf [] p w = (Ok rp, w) /\ read_all_rcf [] ps w = (Ok rs, w)
    /\ r = rp ++ rs.
Proof.
  simpl. intros (rp & w1 & Hp & H)%bind_inv_ok.
  pose proof (readonly_run _ _ _ _ (readonly_read_one_rcf _ _) Hp) as ->.
  rewrite read_all_rcf_app in H.
  destruct (read_all_rcf [] ps w) as [[rs|e] w2] eqn:E; [|done].
  injection H as <- <-. by exists rp, rs.
Qed.

Lemma read_all_rcf_cons_ok p ps w rp rs :
  read_one_rcf [] p w = (Ok rp, w) -> read_all_rcf [] ps w = (Ok rs, w) ->
  read_all_rcf [] (p :: ps) w = (Ok (rp ++ rs), w).
Proof.
  intros Hp Hs. simpl. rewrite (bind_ok _ _ _ _ _ Hp).
  by rewrite read_all_rcf_app, Hs.
Qed.

(** The manifests read in another order: the same entries, in another
    order. *)
Lemma read_all_rcf_perm ps ps' w r :
  ps ≡ₚ ps' ->
  read_all_rcf [] ps w = (Ok r, w) ->
  exists r', read_all_rcf [] ps' w = (Ok r', w) /\ r' ≡ₚ r.
Proof.
  intros Hperm. revert r.
  induction Hperm as [|p ps ps' _ IH|p q ps|ps ps' ps'' _ IH1 _ IH2]; intros r H.
  - by exists r.
  - apply read_all_rcf_cons in H as (rp & rs & Hp & Hs & ->).
    destruct (IH _ Hs) as (rs' & Hs' & Hperm').
    exists (rp ++ rs'). split; [by apply read_all_rcf_cons_ok|].
    by rewrite Hperm'.
  - apply read_all_rcf_cons in H as (rq & r1 & Hq & H & ->).
    apply read_all_rcf_cons in H as (rp & rs & Hp & Hs & ->).
    exists (rp ++ rq ++ rs). split.
    + apply read_all_rcf_cons_ok; [done|]. by apply read_all_rcf_cons_ok.
    + rewrite !app_assoc. apply Permutation_app_tail, Permutation_app_comm.
  - destruct (IH1 _ H) as (r1 & H1 & P1). destruct (IH2 _ H1) as (r2 & H2 & P2).
    exists r2. split; [done|]. by rewrite P2.
Qed.

Lemma read_all_rcf_missing paths w :
  Forall (fun p => is_file (fs w) p = false) paths ->
  read_all_rcf [] paths w = (Ok [], w).
Proof.
  induction 1 as [|p paths Hp _ IH]; [done|]. simpl.
  by rewrite (bind_ok _ _ _ _ _ (read_one_rcf_missing _ _ _ Hp)).
Qed.

Lemma get_gamedir_ok self gid w :
  account_ids self <> [] ->
  _get_gamedir self gid w
  = (Ok (map (fun a => PosixPath.join (get_steam_root self)
                         ["userdata"; str_of_int a; str_of_int gid])
             (account_ids self)), w).
Proof. intros H. unfold _get_gamedir. by destruct (account_ids self). Qed.

Lemma get_gamedir_none self gid w :
  account_ids self = [] -> _get_gamedir self gid w = (Raise AssertionError, w).
Proof. intros H. unfold _get_gamedir. by rewrite H. Qed.

Lemma manifest_paths self gid ids :
  map (fun d => PosixPath.join2 d "remotecache.vdf")
    (map (fun a => PosixPath.join (get_steam_root self)
                     ["userdata"; str_of_int a; str_of_int gid]) ids)
  = map (fun a => path_of self a gid) ids.
Proof. by rewrite map_map. Qed.

(** The paths of the manifests that [_read_rcf] reads. *)
Lemma read_rcf_cached_run self gi roots w :
  save_games_roots gi = Some roots -> account_ids self <> [] ->
  _read_rcf self gi w
  = match read_all_rcf [] (map (fun a => path_of self a (game_id gi)) (account_ids self)) w with
    | (Ok rcf, w') => (Ok (Some rcf, gi), w')
    | (Raise e, w') => (Raise e, w')
    end.
Proof.
  intros Hroots Hne. unfold _read_rcf.
  rewrite (bind_ok _ _ _ _ _ (get_gamedir_ok self (game_id gi) w Hne)).
  rewrite manifest_paths, Hroots. unfold bind.
  by destruct (read_all_rcf _ _ w) as [[rcf|e] w'].
Qed.

Lemma filter_valid_nil n roots : List.filter (valid_root_b [] n) roots = [].
Proof. by induction roots. Qed.

(** What a successful [_read_rcf] has done. *)
Lemma read_rcf_inv self gi w o gi' w' :
  _read_rcf self gi w = (Ok (o, gi'), w') ->
  w' = w /\ account_ids self <> []
  /\ exists rcf,
       read_all_rcf [] (map (fun a => path_of self a (game_id gi)) (account_ids self)) w
       = (Ok rcf, w)
       /\ ((gi' = gi /\ (o = None \/ o = Some rcf /\ is_Some (save_games_roots gi)))
           \/ (save_games_roots gi = None /\ o = Some rcf
               /\ exists found,
                    List.filter (valid_root_b rcf (fs w)) found <> []
                    /\ gi' = with_roots gi
                               (roots_dict 0 []
                                  (List.filter (valid_root_b rcf (fs w)) found)))).
Proof.
  intros Hrun.
  split; [by eapply readonly_run, Hrun; apply readonly_read_rcf|].
  destruct (decide (account_ids self = [])) as [He|Hne].
  { unfold _read_rcf in Hrun.
    apply bind_inv_ok in Hrun as (dirs & w1 & H1 & _).
    by rewrite (get_gamedir_none _ _ _ He) in H1. }
  split; [done|]. unfold _read_rcf in Hrun.
  rewrite (bind_ok _ _ _ _ _ (get_gamedir_ok self (game_id gi) w Hne)) in Hrun.
  rewrite manifest_paths in Hrun.
  apply bind_inv_ok in Hrun as (rcf & w2 & H2 & Hrun).
  pose proof (readonly_run _ _ _ _ (readonly_read_all_rcf _ _) H2) as ->.
  exists rcf. split; [done|].
  destruct (save_games_roots gi) as [roots|] eqn:Hroots.
  { injection Hrun as <- <- _. left. split; [done|]. right. by split. }
  apply bind_inv_ok in Hrun as (found & w3 & H3 & Hrun).
  apply readonly_run in H3 as ->; [|apply ReadOnly.readonly_find_save_games].
  destruct (length found <? 1)%nat.
  { injection Hrun as <- <- _. left. split; [done|]. by left. }
  apply bind_inv_ok in Hrun as (kept & w4 & H4 & Hrun).
  rewrite ValidationFacts.filter_valid_spec in H4. injection H4 as <- <-.
  destruct (length _ <? 1)%nat eqn:Hlen.
  { injection Hrun as <- <- _. left. split; [done|]. by left. }
  injection Hrun as <- <- _. right. split; [done|]. split; [done|].
  exists found. split; [|done]. intros E. by rewrite E in Hlen.
Qed.

(** A game-info that [_read_rcf] returned with a manifest is returned with
    the same manifest when it is read again. *)
Lemma read_rcf_again self gi w rcf gi' w' :
  _read_rcf self gi w = (Ok (Some rcf, gi'), w') ->
  is_Some (save_games_roots gi') /\ game_id gi' = game_id gi
  /\ _read_rcf self gi' w = (Ok (Some rcf, gi'), w).
Proof.
  intros (-> & Hne & rcf0 & Hall & H)%read_rcf_inv.
  destruct H as [(-> & [?|([= <-] & [roots Hroots])])
                |(Hnone & [= <-] & found & _ & ->)]; [done| |].
  - split; [by exists roots|]. split; [done|].
    by rewrite (read_rcf_cached_run self gi roots w Hroots Hne), Hall.
  - split; [by eexists|]. split; [done|].
    set (gi' := with_roots gi _).
    assert (save_games_roots gi' = Some (roots_dict 0 []
              (List.filter (valid_root_b rcf (fs w)) found))) as Hroots by done.
    rewrite (read_rcf_cached_run self gi' _ w Hroots Hne).
    change (game_id gi') with (game_id gi). by rewrite Hall.
Qed.

(** Without a manifest file, [_read_rcf] returns no entry and leaves the
    game-info as it is. *)
Lemma read_rcf_no_manifest self gi w r w' :
  no_manifest self (game_id gi) (fs w) ->
  _read_rcf self gi w = (r, w') ->
  w' = w /\ ((exists e, r = Raise e) \/ exists o, r = Ok (o, gi) /\ no_rcf o = true).
Proof.
  intros Hno Hrun.
  split; [by eapply readonly_run, Hrun; apply readonly_read_rcf|].
  destruct r as [[o gi']|e]; [|left; by exists e]. right.
  apply read_rcf_inv in Hrun as (-> & Hne & rcf & Hall & H).
  rewrite read_all_rcf_missing in Hall.
  2:{ apply Forall_forall. intros p (a & -> & Ha)%list_elem_of_fmap. by apply Hno. }
  injection Hall as <-.
  destruct H as [(-> & [->|[-> _]])|(_ & _ & found & Hf & _)].
  - by exists None.
  - by exists (Some []).
  - by rewrite filter_valid_nil in Hf.
Qed.

(** With the roots known and a manifest file missing for every account,
    [_read_rcf] returns the empty manifest. *)
Lemma read_rcf_cached_no_manifest self gi roots w :
  save_games_roots gi = Some roots -> account_ids self <> [] ->
  no_manifest self (game_id gi) (fs w) ->
  _read_rcf self gi w = (Ok (Some [], gi), w).
Proof.
  intros Hroots Hne Hno. rewrite (read_rcf_cached_run self gi roots w Hroots Hne).
  rewrite read_all_rcf_missing; [done|].
  apply Forall_forall. intros p (a & -> & Ha)%list_elem_of_fmap. by apply Hno.
Qed.

Lemma read_rcf_no_account self gi w :
  account_ids self = [] -> _read_rcf self gi w = (Raise AssertionError, w).
Proof.
  intros H. unfold _read_rcf, bind. by rewrite (get_gamedir_none _ _ _ H).
Qed.

End ManifestFacts.

Section Manifests.

Import Store Change Manifest ManifestFacts Run ReadOnly.

(** X10. For an engine with one account and a game-info with known roots,
    [_read_rcf] on a manifest file whose lines after the first two are laid
    out in blocks (a name line, an opening brace, lines that are no closing
    brace, a closing brace, with lines between the blocks that are no opening
    brace) returns the entries of the name lines in order, each the
    stripped name line without its first and its last character, and leaves
    the game-info and the state as they are. *)
Theorem read_rcf_reads_manifest_blocks self gi roots a w text mtime l1 l2 lines names :
  account_ids self = [a] ->
  save_games_roots gi = Some roots ->
  Os.find (path_of self a (game_id gi)) (fs w) = Some (File (Text text) mtime) ->
  split LF (Os.universal_newlines text) = l1 :: l2 :: lines ->
  body names lines ->
  _read_rcf self gi w = (Ok (Some names, gi), w).
Proof.
  intros Ha Hroots Hfind Hsplit Hbody.
  rewrite (read_rcf_cached_run self gi roots w Hroots) by by rewrite Ha.
  rewrite Ha. simpl map. simpl read_all_rcf.
  by rewrite (bind_ok _ _ _ _ _
    (read_one_rcf_file [] _ w text mtime l1 l2 lines names Hfind Hsplit Hbody)).
Qed.

(** The theorem on the manifest of the account 8, which has two
    entries. *)
Lemma read_rcf_reads_manifest_blocks_example :
  _read_rcf (DemoX.accounts [8]) (Demo.game 1) DemoX.shared
  = (Ok (Some ["b.sav"; "slot/c.sav"], Demo.game 1), DemoX.shared).
Proof.
  eapply (read_rcf_reads_manifest_blocks (DemoX.accounts [8]) (Demo.game 1)
            Demo.roots 8 DemoX.shared DemoX.two_entries 0).
  - reflexivity.
  - reflexivity.
  - reflexivity.
  - vm_compute. reflexivity.
  - apply (body_block (Demo.tab ++ Demo.quote ++ "b.sav" ++ Demo.quote)
             (Demo.tab ++ "{")
             [Demo.tab ++ Demo.tab ++ Demo.quote ++ "size" ++ Demo.quote]
             (Demo.tab ++ "}") ["slot/c.sav"]); try done.
    { by repeat constructor. }
    apply (body_block (Demo.tab ++ Demo.quote ++ "slot/c.sav" ++ Demo.quote)
             (Demo.tab ++ "{") [] (Demo.tab ++ "}") []); try done.
    apply body_line; [done|]. apply body_line; [done|]. apply body_nil.
Defined.

(** X11. With the save roots known, the manifest that [_read_rcf] returns
    for a set of accounts has the entries of every account: when the
    accounts are those of two sets that have no account in common, it is
    the manifest for the one set and the manifest for the other, joined, up
    to the order of the entries.  This holds for every order in which the
    accounts are taken, as the order in which Python iterates over a set
    is not fixed; an entry that two accounts list is there twice. *)
Theorem read_rcf_joins_accounts self gi roots ids ids1 ids2 w r1 r2 :
  save_games_roots gi = Some roots ->
  NoDup (ids1 ++ ids2) ->
  ids ≡ₚ ids1 ++ ids2 ->
  _read_rcf (with_accounts self ids1) gi w = (Ok (Some r1, gi), w) ->
  _read_rcf (with_accounts self ids2) gi w = (Ok (Some r2, gi), w) ->
  exists r,
    _read_rcf (with_accounts self ids) gi w = (Ok (Some r, gi), w)
    /\ r ≡ₚ r1 ++ r2.
Proof.
  intros Hroots _ Hperm H1 H2.
  apply read_rcf_inv in H1 as (_ & Hne1 & rcf1 & Hall1 & H1).
  apply read_rcf_inv in H2 as (_ & Hne2 & rcf2 & Hall2 & H2).
  assert (rcf1 = r1) as ->.
  { destruct H1 as [(_ & [?|[[= ->] _]])|(Hn & _)]; [done|done|]. by rewrite Hroots in Hn. }
  assert (rcf2 = r2) as ->.
  { destruct H2 as [(_ & [?|[[= ->] _]])|(Hn & _)]; [done|done|]. by rewrite Hroots in Hn. }
  simpl in Hne1, Hall1, Hall2.
  unfold path_of, get_steam_root in *. simpl steam_dir in *.
  pose proof (read_all_rcf_paths_app _ _ _ _ _ Hall1 Hall2) as Hall.
  rewrite <- map_app in Hall.
  destruct (read_all_rcf_perm _
              (map (fun a => path_of (with_accounts self ids) a (game_id gi)) ids)
              _ _ (Permutation_map _ (Permutation_sym Hperm)) Hall)
    as (r & Hr & Hpr).
  exists r. split; [|done].
  rewrite (read_rcf_cached_run _ gi roots w Hroots).
  2:{ simpl. intros ->. apply Permutation_nil in Hperm.
      by destruct ids1. }
  simpl account_ids. by rewrite Hr.
Qed.

(** The theorem on the accounts 7 and 8, taken in the order 8, 7. *)
Lemma read_rcf_joins_accounts_example :
  exists r,
    _read_rcf (DemoX.accounts [8; 7]) (Demo.game 1) DemoX.shared
    = (Ok (Some r, Demo.game 1), DemoX.shared)
    /\ r ≡ₚ ["save.dat"; "b.sav"; "slot/c.sav"].
Proof.
  apply (read_rcf_joins_accounts (DemoX.accounts []) (Demo.game 1) Demo.roots
           [8; 7] [7] [8] DemoX.shared ["save.dat"] ["b.sav"; "slot/c.sav"]).
  - reflexivity.
  - apply NoDup_cons. split; [|apply NoDup_singleton].
    intros H. apply list_elem_of_singleton in H. discriminate H.
  - apply Permutation_swap.
  - vm_compute. reflexivity.
  - vm_compute. reflexivity.
Defined.

(** X12. When no account of the engine has a manifest file for the game,
    [do_backup] changes nothing: the state is as before, and the call
    either raises or returns "no backup" with the game-info as it was
    given.  With an account and with the save roots known it returns
    "no backup". *)
Theorem do_backup_without_manifest_is_noop self gi a d w :
  no_manifest self (game_id gi) (fs w) ->
  (forall r w', do_backup self gi a d w = (r, w') ->
     w' = w /\ (r = Ok (NoBackup, gi) \/ exists e, r = Raise e))
  /\ (forall roots,
        save_games_roots gi = Some roots -> account_ids self <> [] ->
        do_backup self gi a d w = (Ok (NoBackup, gi), w)).
Proof.
  intros Hno. split.
  - intros r w' Hrun. unfold do_backup in Hrun.
    apply bind_inv in Hrun as [([o gi1] & w1 & H1 & Hrun)|(e & H1 & ->)].
    + destruct (read_rcf_no_manifest _ _ _ _ _ Hno H1)
        as (-> & [(e & [=])|(o' & [= <- <-] & Ho)]).
      rewrite Ho in Hrun. injection Hrun as <- <-. split; [done|by left].
    + destruct (read_rcf_no_manifest _ _ _ _ _ Hno H1) as (-> & _).
      split; [done|]. right. by exists e.
  - intros roots Hroots Hne. unfold do_backup.
    by rewrite (bind_ok _ _ _ _ _
      (read_rcf_cached_no_manifest self gi roots w Hroots Hne Hno)).
Qed.

(** The theorem on the account 9, which has no directory. *)
Lemma do_backup_without_manifest_is_noop_example :
  do_backup (DemoX.accounts [9]) (Demo.game 1) true false DemoX.shared
  = (Ok (NoBackup, Demo.game 1), DemoX.shared).
Proof.
  refine (proj2 (do_backup_without_manifest_is_noop (DemoX.accounts [9])
                   (Demo.game 1) true false DemoX.shared _) Demo.roots _ _).
  - intros account Ha. apply list_elem_of_singleton in Ha as ->. reflexivity.
  - reflexivity.
  - discriminate.
Defined.

(** X13. When no account of the engine has a manifest file for the game
    of a snapshot, [do_restore] restores nothing: it raises, and the state
    is as before (no undo snapshot is made and no file is copied).  With
    an account and with the save roots known the exception is
    [AssertionError]. *)
Theorem do_restore_without_manifest_restores_nothing self si w :
  no_manifest self (game_id (game_info si)) (fs w) ->
  (forall r w', do_restore self si w = (r, w') -> w' = w /\ exists e, r = Raise e)
  /\ (forall roots,
        save_games_roots (game_info si) = Some roots -> account_ids self <> [] ->
        do_restore self si w = (Raise AssertionError, w)).
Proof.
  intros Hno. split.
  - intros r w' Hrun. unfold do_restore in Hrun.
    apply bind_inv in Hrun as [([o gi1] & w1 & H1 & Hrun)|(e & H1 & ->)].
    + destruct (read_rcf_no_manifest _ _ _ _ _ Hno H1)
        as (-> & [(e & [=])|(o' & [= -> ->] & Ho)]).
      rewrite Ho in Hrun. injection Hrun as <- <-. split; [done|by eexists].
    + destruct (read_rcf_no_manifest _ _ _ _ _ Hno H1) as (-> & _).
      split; [done|]. by exists e.
  - intros roots Hroots Hne. unfold do_restore.
    by rewrite (bind_ok _ _ _ _ _
      (read_rcf_cached_no_manifest self _ roots w Hroots Hne Hno)).
Qed.

(** The theorem on a snapshot of the game and the account 9. *)
Lemma do_restore_without_manifest_restores_nothing_example :
  do_restore (DemoX.accounts [9]) (Demo.info false 1 50) DemoX.shared
  = (Raise AssertionError, DemoX.shared).
Proof.
  refine (proj2 (do_restore_without_manifest_restores_nothing (DemoX.accounts [9])
                   (Demo.info false 1 50) DemoX.shared _) Demo.roots _ _).
  - intros account Ha. apply list_elem_of_singleton in Ha as ->. reflexivity.
  - reflexivity.
  - discriminate.
Defined.

End Manifests.

(** ** The games that are supported *)

Module SupportFacts.

Import Store Change Manifest AssocFacts StoreFacts ChangeFacts ValidationFacts
  ManifestFacts Run ReadOnly.

Lemma try_rcf_run self gi w :
  try_rcf self gi w
  = match _read_rcf self gi w with
    | (Ok r, _) => (Ok r, w)
    | (Raise _, _) => (Ok (None, gi), w)
    end.
Proof.
  unfold try_rcf, try_except.
  destruct (_read_rcf self gi w) as [[r|e] w1] eqn:E;
    by apply readonly_run in E as ->; [|apply readonly_read_rcf].
Qed.

(** [find_supported] never raises and changes nothing. *)
Lemma find_supported_total self gis w :
  exists l, find_supported self gis w = (Ok l, w).
Proof.
  induction gis as [|gi gis [l IH]]; [by exists []|]. simpl.
  unfold bind at 1. rewrite try_rcf_run.
  destruct (_read_rcf self gi w) as [[[o gi1]|e] w1]; unfold bind; rewrite IH;
    by eexists.
Qed.

Lemma find_supported_steady self l w :
  Forall (steady self w) l -> find_supported self l w = (Ok l, w).
Proof.
  induction 1 as [|gi l (_ & rcf & Hne & Hgi) _ IH]; [done|]. simpl.
  unfold bind at 1. rewrite try_rcf_run, Hgi. unfold bind. rewrite IH.
  by destruct rcf.
Qed.

Lemma find_supported_cons self gi gis w :
  find_supported self (gi :: gis) w
  = match _read_rcf self gi w, find_supported self gis w with
    | (Ok (Some (k :: rcf), gi'), _), (Ok l, _) => (Ok (gi' :: l), w)
    | _, (Ok l, _) => (Ok l, w)
    | _, (Raise e, w') => (Raise e, w')
    end.
Proof.
  simpl. unfold bind at 1. rewrite try_rcf_run.
  destruct (find_supported_total self gis w) as [l Hl].
  destruct (_read_rcf self gi w) as [[[[[|k rcf]|] gi1]|e] w1];
    unfold bind; by rewrite Hl.
Qed.

Lemma Forall_assoc_set (P : str * str -> Prop) k v l :
  P (k, v) -> Forall P l -> Forall P (assoc_set k v l).
Proof.
  intros Hk. induction 1 as [|[k' v'] l Hx Hl IH]; simpl.
  - by constructor.
  - case_bool_decide; by constructor.
Qed.

Lemma NoDup_assoc_set {V} k (v : V) l :
  NoDup (map fst l) -> NoDup (map fst (assoc_set k v l)).
Proof.
  intros H. rewrite map_fst_assoc_set. case_bool_decide; [done|].
  apply NoDup_app. split; [done|]. split; [|apply NoDup_singleton].
  intros x Hx ->%list_elem_of_singleton. done.
Qed.

Lemma roots_dict_suffixes idx d l :
  0 <= idx -> Forall suffix_ok d -> Forall suffix_ok (roots_dict idx d l).
Proof.
  revert idx d. induction l as [|x l IH]; intros idx d Hidx Hd; simpl; [done|].
  apply IH; [lia|]. apply Forall_assoc_set; [|done].
  destruct (idx =? 0) eqn:E; [by left|]. right. exists idx. split; [lia|done].
Qed.

Lemma roots_dict_NoDup idx d l :
  NoDup (map fst d) -> NoDup (map fst (roots_dict idx d l)).
Proof.
  revert idx d. induction l as [|x l IH]; intros idx d Hd; simpl; [done|].
  by apply IH, NoDup_assoc_set.
Qed.

Lemma name_char_slash : name_char slash = false.
Proof. reflexivity. Qed.

Lemma suffix_ok_flat r : suffix_ok r -> slash ∉ r.2.
Proof.
  intros [->|(i & _ & ->)]; [by intros ?%elem_of_nil|].
  intros [[=]|H]%elem_of_cons.
  pose proof (NameFacts.str_of_int_plain i) as Hp.
  rewrite Forall_forall in Hp. specialize (Hp _ H). by rewrite name_char_slash in Hp.
Qed.

End SupportFacts.

Section Support.

Import Store Change Manifest ManifestFacts SupportFacts Run ReadOnly.

(** X14. An engine without an account does nothing: [do_backup] and
    [do_restore] raise [AssertionError] with the state as it was, and
    [find_supported] returns the empty list for any list of games. *)
Theorem engine_without_accounts_does_nothing self w :
  account_ids self = [] ->
  (forall gi a d, do_backup self gi a d w = (Raise AssertionError, w))
  /\ (forall si, do_restore self si w = (Raise AssertionError, w))
  /\ (forall gis, find_supported self gis w = (Ok [], w)).
Proof.
  intros H. repeat split.
  - intros gi a d. unfold do_backup, bind. by rewrite (read_rcf_no_account _ _ _ H).
  - intros si. unfold do_restore, bind. by rewrite (read_rcf_no_account _ _ _ H).
  - intros gis. induction gis as [|gi gis IH]; [done|].
    by rewrite find_supported_cons, (read_rcf_no_account _ _ _ H), IH.
Qed.

(** The theorem on the example engine without its account. *)
Lemma engine_without_accounts_does_nothing_example :
  do_backup (DemoX.accounts []) (Demo.game 1) true false DemoX.shared
  = (Raise AssertionError, DemoX.shared)
  /\ find_supported (DemoX.accounts []) [Demo.game 1; Demo.new_game] DemoX.shared
     = (Ok [], DemoX.shared).
Proof.
  destruct (engine_without_accounts_does_nothing (DemoX.accounts []) DemoX.shared eq_refl)
    as (Hb & _ & Hf).
  split; [apply Hb | apply Hf].
Defined.

(** X15. [find_supported] never raises and leaves the state as it is.  The
    game-infos it returns are in the order of the games given (their ids
    are a sub-list of the given ids), each has its save roots and is read
    again by [_read_rcf] as it is with a manifest that is not empty, every
    game that [_read_rcf] reads with a manifest that is not empty is among
    them, and [find_supported] on the returned list returns that list. *)
Theorem find_supported_returns_readable_games self gis w :
  exists l,
    find_supported self gis w = (Ok l, w)
    /\ sublist (map game_id l) (map game_id gis)
    /\ Forall (fun gi' =>
                 is_Some (save_games_roots gi')
                 /\ exists rcf, rcf <> []
                      /\ _read_rcf self gi' w = (Ok (Some rcf, gi'), w)) l
    /\ (forall gi rcf gi' w',
          gi ∈ gis -> rcf <> [] ->
          _read_rcf self gi w = (Ok (Some rcf, gi'), w') -> gi' ∈ l)
    /\ find_supported self l w = (Ok l, w).
Proof.
  assert (exists l,
    find_supported self gis w = (Ok l, w)
    /\ sublist (map game_id l) (map game_id gis)
    /\ Forall (steady self w) l
    /\ (forall gi rcf gi' w',
          gi ∈ gis -> rcf <> [] ->
          _read_rcf self gi w = (Ok (Some rcf, gi'), w') -> gi' ∈ l)) as (l & H1 & H2 & H3 & H4).
  2:{ exists l. repeat split; try done. by apply find_supported_steady. }
  induction gis as [|gi gis (l & IH1 & IH2 & IH3 & IH4)].
  { exists []. repeat split; try done. intros ? ? ? ? H. by apply elem_of_nil in H. }
  rewrite find_supported_cons, IH1.
  destruct (_read_rcf self gi w) as [[[[[|k rcf]|] gi1]|e] w1] eqn:E.
  1,3,4: exists l; split; [done|]; split; [by apply sublist_cons|]; split; [done|];
    intros gi0 rcf0 gi0' w0 [->|Hin]%elem_of_cons Hne Hrun;
    [rewrite E in Hrun; by simplify_eq | by eapply IH4].
  destruct (read_rcf_again _ _ _ _ _ _ E) as (Hsome & Hid & Hagain).
  exists (gi1 :: l). split; [done|]. split.
  { simpl. rewrite Hid. by apply sublist_skip. }
  split.
  { constructor; [|done]. split; [done|]. by exists (k :: rcf). }
  intros gi0 rcf0 gi0' w0 [->|Hin]%elem_of_cons Hne Hrun.
  - rewrite E in Hrun. injection Hrun as _ <- _. by left.
  - right. by eapply IH4.
Qed.

(** X16. When [_read_rcf] finds the save roots of a game-info that had
    none, the game-info it returns differs from the given one in the
    dictionary of roots only; in that dictionary no root is listed twice,
    and every suffix is empty or an underscore followed by a positive
    number in decimal, so that no suffix has a [/]. *)
Theorem read_rcf_new_roots_are_flat self gi w rcf gi' w' :
  save_games_roots gi = None ->
  _read_rcf self gi w = (Ok (Some rcf, gi'), w') ->
  exists roots,
    gi' = with_roots gi roots
    /\ NoDup (map fst roots)
    /\ Forall (fun r : str * str =>
                 r.2 = "" \/ exists i, 0 < i /\ r.2 = "_" ++ str_of_int i) roots
    /\ flat_suffixes gi'.
Proof.
  intros Hnone (-> & _ & rcf0 & _ & H)%read_rcf_inv.
  destruct H as [(-> & [?|(_ & [roots Hr])])|(_ & _ & found & _ & ->)];
    [done|by rewrite Hnone in Hr|].
  eexists. split; [reflexivity|]. split.
  { apply roots_dict_NoDup. constructor. }
  assert (Forall suffix_ok (roots_dict 0 [] (List.filter (valid_root_b rcf0 (fs w)) found)))
    as Hs by by apply roots_dict_suffixes.
  split; [exact Hs|].
  intros roots [= <-]. eapply Forall_impl; [exact Hs|]. apply suffix_ok_flat.
Qed.

(** The theorem on the example game before its roots are known. *)
Lemma read_rcf_new_roots_are_flat_example :
  exists roots,
    (Demo.game 1) = with_roots Demo.new_game roots
    /\ NoDup (map fst roots)
    /\ Forall (fun r : str * str =>
                 r.2 = "" \/ exists i, 0 < i /\ r.2 = "_" ++ str_of_int i) roots
    /\ flat_suffixes (Demo.game 1).
Proof.
  apply (read_rcf_new_roots_are_flat Demo.engine Demo.new_game
           (Demo.world_of [] [("save.dat", File (Text "data") 0)] 100)
           ["save.dat"] (Demo.game 1)
           (Demo.world_of [] [("save.dat", File (Text "data") 0)] 100)).
  - reflexivity.
  - vm_compute. reflexivity.
Defined.

End Support.

Module TimestampCases.

Import Change ChangeFacts Run.


End TimestampCases.

Section Timestamps.

Import Store Change ChangeFacts TimestampFacts TimestampCases Run ReadOnly.


End Timestamps.

(** ** What a copy leaves in the tree *)

Module TreeFrame.

Import Store Tree AssocFacts TreeFacts.

Lemma assoc_get_del_ne {V} k k' (l : list (str * V)) :
  k' <> k -> assoc_get k' (assoc_del k l) = assoc_get k' l.
Proof.
  intros Hne. unfold assoc_del. induction l as [|[x v] l IH]; [done|]. simpl.
  destruct (decide (x = k)) as [->|Hx].
  - rewrite bool_decide_eq_true_2 by done. simpl.
    rewrite bool_decide_eq_false_2 by done. apply IH.
  - rewrite (bool_decide_eq_false_2 (x = k)) by done. simpl.
    case_bool_decide; [done | apply IH].
Qed.

Lemma prefix_cons_inv_eq (c c' : str) cs cs' :
  (c :: cs) `prefix_of` (c' :: cs') -> c = c' /\ cs `prefix_of` cs'.
Proof. intros [k [= -> ->]]. split; [done|]. by exists k. Qed.

Lemma apart_cons c cs cs' : apart (c :: cs) (c :: cs') -> apart cs cs'.
Proof.
  intros [H1 H2]. split; intros H; [apply H1|apply H2]; by apply prefix_cons.
Qed.

Lemma apart_nil_r cs : ~ apart cs [].
Proof. intros [_ H]. apply H, prefix_nil. Qed.

Lemma apart_nil_l cs : ~ apart [] cs.
Proof. intros [H _]. apply H, prefix_nil. Qed.

Lemma prefix_comparable (a b l : list str) :
  a `prefix_of` l -> b `prefix_of` l -> a `prefix_of` b \/ b `prefix_of` a.
Proof.
  revert b l. induction a as [|x a IH]; intros b l Ha Hb; [left; apply prefix_nil|].
  destruct b as [|y b]; [right; apply prefix_nil|].
  destruct l as [|z l]; [by apply prefix_nil_not in Ha|].
  apply prefix_cons_inv_eq in Ha as [-> Ha]. apply prefix_cons_inv_eq in Hb as [-> Hb].
  destruct (IH _ _ Ha Hb); [left|right]; by apply prefix_cons.
Qed.

Lemma apart_app_r cs d y : apart cs d -> apart cs (d ++ y).
Proof.
  intros [H1 H2]. split.
  - intros H. destruct (prefix_comparable cs d (d ++ y) H (prefix_app_r d d y (reflexivity d)));
      [by apply H1 | by apply H2].
  - intros H. apply H2. etrans; [|exact H]. by apply prefix_app_r.
Qed.

Lemma apart_sym a b : apart a b -> apart b a.
Proof. intros [H1 H2]. by split. Qed.

Lemma apart_app s d x y : apart s d -> apart (s ++ x) (d ++ y).
Proof. intros H. by apply apart_app_r, apart_sym, apart_app_r, apart_sym. Qed.

(** *** An alteration *)

Lemma lookup_alter_apart cs f n n' cs' :
  alter_at cs f n = Ok n' -> apart cs' cs -> lookup_at cs' n' = lookup_at cs' n.
Proof.
  revert n n' cs'. induction cs as [|c cs IH]; intros n n' cs' Halt Hap.
  { by apply apart_nil_r in Hap. }
  destruct n as [|t es]; [done|].
  destruct cs' as [|c' cs']; [by apply apart_nil_l in Hap|].
  destruct (decide (c' = c)) as [->|Hne].
  - apply apart_cons in Hap. destruct cs as [|x xs]; [by apply apart_nil_r in Hap|].
    rewrite alter_at_step in Halt.
    destruct (assoc_get c es) as [m|] eqn:E; [|done].
    destruct (alter_at (x :: xs) f m) as [m'|e] eqn:Em; [|done].
    injection Halt as <-. simpl. rewrite assoc_get_set_eq, E. by eapply IH.
  - assert (exists es', n' = Dir t es' /\ assoc_get c' es' = assoc_get c' es)
      as (es' & -> & Hes).
    { destruct cs as [|x xs].
      - simpl in Halt. destruct (f (assoc_get c es)) as [[m|]|e]; [| |done];
          injection Halt as <-; eexists; split; try done.
        + by apply assoc_get_set_ne.
        + by apply assoc_get_del_ne.
      - rewrite alter_at_step in Halt.
        destruct (assoc_get c es) as [m|]; [|done].
        destruct (alter_at (x :: xs) f m) as [m'|e]; [|done].
        injection Halt as <-. eexists. split; [done|]. by apply assoc_get_set_ne. }
    simpl. by rewrite Hes.
Qed.

(** A file that is written is there afterwards, and there was no directory
    in its place. *)
Lemma lookup_put cs c t n n' :
  alter_at cs (put c t) n = Ok n' ->
  dir_at cs n = false /\ lookup_at cs n' = Some (File c t).
Proof.
  revert n n'. induction cs as [|x cs IH]; intros n n' Halt.
  { simpl in Halt. destruct n; [|done]. injection Halt as <-. by split. }
  destruct n as [|t' es]; [done|].
  destruct cs as [|y ys].
  - simpl in Halt. unfold dir_at. simpl.
    destruct (assoc_get x es) as [[|]|] eqn:E; try done;
      injection Halt as <-; simpl; by rewrite assoc_get_set_eq.
  - rewrite alter_at_step in Halt.
    destruct (assoc_get x es) as [m|] eqn:E; [|done].
    destruct (alter_at (y :: ys) (put c t) m) as [m'|e] eqn:Em; [|done].
    injection Halt as <-. destruct (IH _ _ Em) as [Hd Hl].
    unfold dir_at in *. simpl lookup_at at 1. rewrite E. split; [exact Hd|].
    simpl. by rewrite assoc_get_set_eq.
Qed.

(** The other files stay as they are. *)
Lemma lookup_put_other cs c t n n' cs' c1 t1 :
  alter_at cs (put c t) n = Ok n' ->
  lookup_at cs' n = Some (File c1 t1) -> cs' <> cs ->
  lookup_at cs' n' = Some (File c1 t1).
Proof.
  revert n n' cs'. induction cs as [|x cs IH]; intros n n' cs' Halt Hl Hne.
  { simpl in Halt. destruct n; [|done]. by destruct cs'. }
  destruct n as [|t' es]; [done|].
  destruct cs' as [|x' cs']; [done|].
  simpl in Hl. destruct (assoc_get x' es) as [m0|] eqn:E0; [|done].
  destruct (decide (x' = x)) as [->|Hx].
  - destruct cs as [|y ys].
    + simpl in Halt. rewrite E0 in Halt.
      destruct m0; [|done]. destruct cs'; [done|done].
    + rewrite alter_at_step, E0 in Halt.
      destruct (alter_at (y :: ys) (put c t) m0) as [m'|e] eqn:Em; [|done].
      injection Halt as <-. simpl. rewrite assoc_get_set_eq.
      eapply IH; [exact Em|exact Hl|]. intros ->. done.
  - assert (exists es', n' = Dir t' es' /\ assoc_get x' es' = assoc_get x' es)
      as (es' & -> & Hes).
    { destruct cs as [|y ys].
      - simpl in Halt. destruct (put c t (assoc_get x es)) as [[m|]|e] eqn:Ep; [| |done].
        + injection Halt as <-. eexists. split; [done|]. by apply assoc_get_set_ne.
        + by destruct (assoc_get x es) as [[|]|].
      - rewrite alter_at_step in Halt.
        destruct (assoc_get x es) as [m|]; [|done].
        destruct (alter_at (y :: ys) (put c t) m) as [m'|e]; [|done].
        injection Halt as <-. eexists. split; [done|]. by apply assoc_get_set_ne. }
    simpl. by rewrite Hes, E0.
Qed.

(** A write makes no directory and removes none. *)
Lemma dir_at_put cs c t n n' cs' :
  alter_at cs (put c t) n = Ok n' -> dir_at cs' n' = dir_at cs' n.
Proof.
  revert n n' cs'. induction cs as [|x cs IH]; intros n n' cs' Halt.
  { simpl in Halt. destruct n; [|done]. injection Halt as <-. by destruct cs'. }
  destruct n as [|t' es]; [done|].
  destruct cs' as [|x' cs'].
  { unfold dir_at. simpl.
    destruct cs as [|y ys].
    - simpl in Halt. destruct (put c t (assoc_get x es)) as [[m|]|e]; [| |done];
        by injection Halt as <-.
    - rewrite alter_at_step in Halt.
      destruct (assoc_get x es) as [m|]; [|done].
      destruct (alter_at (y :: ys) (put c t) m) as [m'|e]; [|done].
      by injection Halt as <-. }
  destruct (decide (x' = x)) as [->|Hx].
  - destruct cs as [|y ys].
    + simpl in Halt. unfold dir_at. simpl.
      destruct (assoc_get x es) as [[|]|] eqn:E; try done;
        injection Halt as <-; simpl; rewrite assoc_get_set_eq; by destruct cs'.
    + rewrite alter_at_step in Halt.
      destruct (assoc_get x es) as [m|] eqn:E; [|done].
      destruct (alter_at (y :: ys) (put c t) m) as [m'|e] eqn:Em; [|done].
      injection Halt as <-. unfold dir_at. simpl. rewrite assoc_get_set_eq, E.
      apply (IH _ _ cs' Em).
  - assert (exists es', n' = Dir t' es' /\ assoc_get x' es' = assoc_get x' es)
      as (es' & -> & Hes).
    { destruct cs as [|y ys].
      - simpl in Halt. destruct (put c t (assoc_get x es)) as [[m|]|e] eqn:Ep; [| |done].
        + injection Halt as <-. eexists. split; [done|]. by apply assoc_get_set_ne.
        + by destruct (assoc_get x es) as [[|]|].
      - rewrite alter_at_step in Halt.
        destruct (assoc_get x es) as [m|]; [|done].
        destruct (alter_at (y :: ys) (put c t) m) as [m'|e]; [|done].
        injection Halt as <-. eexists. split; [done|]. by apply assoc_get_set_ne. }
    unfold dir_at. simpl. by rewrite Hes.
Qed.

(** *** Directories made *)

Lemma makedirs_at_Dir ok t cs n n' :
  makedirs_at ok t cs n = Ok n' -> exists t' es es', n = Dir t' es /\ n' = Dir t' es'.
Proof.
  destruct cs as [|c cs]; simpl.
  - destruct n as [|t' es]; [done|]. destruct ok; [|done]. intros [= <-]. by eexists _, _, _.
  - destruct n as [|t' es]; [done|].
    destruct (assoc_get c es).
    + destruct (makedirs_at ok t cs n); [|done]. intros [= <-]. by eexists _, _, _.
    + destruct (makedirs_at true t cs (Dir t [])); [|done]. intros [= <-]. by eexists _, _, _.
Qed.

Lemma makedirs_at_step ok t c cs t' es n' :
  makedirs_at ok t (c :: cs) (Dir t' es) = Ok n' ->
  exists m m',
    n' = Dir t' (assoc_set c m' es)
    /\ ((assoc_get c es = Some m /\ makedirs_at ok t cs m = Ok m')
        \/ (assoc_get c es = None /\ m = Dir t [] /\ makedirs_at true t cs m = Ok m')).
Proof.
  simpl. destruct (assoc_get c es) as [m|] eqn:E.
  - destruct (makedirs_at ok t cs m) as [m'|] eqn:Em; [|done]. intros [= <-].
    exists m, m'. split; [done|]. left. by split.
  - destruct (makedirs_at true t cs (Dir t [])) as [m'|] eqn:Em; [|done]. intros [= <-].
    exists (Dir t []), m'. split; [done|]. right. by split.
Qed.

(** Making directories leaves the files as they are. *)
Lemma lookup_makedirs_file ok t cs n n' cs' c1 t1 :
  makedirs_at ok t cs n = Ok n' ->
  lookup_at cs' n = Some (File c1 t1) -> lookup_at cs' n' = Some (File c1 t1).
Proof.
  revert ok n n' cs'. induction cs as [|c cs IH]; intros ok n n' cs' Hmk Hl.
  { simpl in Hmk. destruct n; [done|]. destruct ok; [|done]. by injection Hmk as <-. }
  destruct n as [|t' es]; [done|].
  apply makedirs_at_step in Hmk as (m & m' & -> & Hm).
  destruct cs' as [|c' cs']; [done|]. simpl in Hl |- *.
  destruct (decide (c' = c)) as [->|Hne].
  - rewrite assoc_get_set_eq.
    destruct Hm as [[E Hm]|(E & _ & Hm)]; rewrite E in Hl; [|done].
    by eapply IH.
  - by rewrite assoc_get_set_ne.
Qed.

(** It leaves what is apart from the path as it is. *)
Lemma lookup_makedirs_apart ok t cs n n' cs' :
  makedirs_at ok t cs n = Ok n' -> apart cs' cs -> lookup_at cs' n' = lookup_at cs' n.
Proof.
  revert ok n n' cs'. induction cs as [|c cs IH]; intros ok n n' cs' Hmk Hap.
  { by apply apart_nil_r in Hap. }
  destruct n as [|t' es]; [done|].
  apply makedirs_at_step in Hmk as (m & m' & -> & Hm).
  destruct cs' as [|c' cs']; [by apply apart_nil_l in Hap|]. simpl.
  destruct (decide (c' = c)) as [->|Hne].
  - apply apart_cons in Hap. rewrite assoc_get_set_eq.
    destruct Hm as [[E Hm]|(E & -> & Hm)]; rewrite E.
    + by eapply IH.
    + rewrite (IH _ _ _ _ Hm Hap). destruct cs'; [by apply apart_nil_l in Hap|done].
  - by rewrite assoc_get_set_ne.
Qed.

(** The directories afterwards were there before, or are on the path. *)
Lemma dir_at_makedirs ok t cs n n' cs' :
  makedirs_at ok t cs n = Ok n' -> dir_at cs' n' = true ->
  dir_at cs' n = true \/ cs' `prefix_of` cs.
Proof.
  revert ok n n' cs'. induction cs as [|c cs IH]; intros ok n n' cs' Hmk Hd.
  { simpl in Hmk. destruct n; [done|]. destruct ok; [|done]. injection Hmk as <-. by left. }
  destruct n as [|t' es]; [done|].
  apply makedirs_at_step in Hmk as (m & m' & -> & Hm).
  destruct cs' as [|c' cs']; [by left|]. unfold dir_at in *. simpl in Hd |- *.
  destruct (decide (c' = c)) as [->|Hne].
  - rewrite assoc_get_set_eq in Hd.
    destruct Hm as [[E Hm]|(E & -> & Hm)]; rewrite E.
    + destruct (IH _ _ _ cs' Hm Hd) as [H|H]; [by left|right; by apply prefix_cons].
    + right. apply prefix_cons.
      destruct (IH _ _ _ cs' Hm Hd) as [H|H]; [|done].
      destruct cs'; [apply prefix_nil|done].
  - rewrite assoc_get_set_ne in Hd by done. by left.
Qed.

(** The directories before are there afterwards. *)
Lemma dir_at_makedirs_keeps ok t cs n n' cs' :
  makedirs_at ok t cs n = Ok n' -> dir_at cs' n = true -> dir_at cs' n' = true.
Proof.
  revert ok n n' cs'. induction cs as [|c cs IH]; intros ok n n' cs' Hmk Hd.
  { simpl in Hmk. destruct n; [done|]. destruct ok; [|done]. by injection Hmk as <-. }
  destruct n as [|t' es]; [done|].
  apply makedirs_at_step in Hmk as (m & m' & -> & Hm).
  destruct cs' as [|c' cs']; [done|]. unfold dir_at in *. simpl in Hd |- *.
  destruct (decide (c' = c)) as [->|Hne].
  - rewrite assoc_get_set_eq.
    destruct Hm as [[E Hm]|(E & -> & Hm)]; rewrite E in Hd; [|done].
    by eapply IH.
  - by rewrite assoc_get_set_ne.
Qed.

(** The directory made is there. *)
Lemma dir_at_made ok t cs n n' :
  makedirs_at ok t cs n = Ok n' -> dir_at cs n' = true.
Proof.
  revert ok n n'. induction cs as [|c cs IH]; intros ok n n' Hmk.
  { apply makedirs_at_Dir in Hmk as (? & ? & ? & _ & ->). done. }
  destruct n as [|t' es]; [done|].
  apply makedirs_at_step in Hmk as (m & m' & -> & Hm).
  unfold dir_at. simpl. rewrite assoc_get_set_eq.
  destruct Hm as [[_ Hm]|(_ & _ & Hm)]; by apply IH in Hm.
Qed.

End TreeFrame.

Module CopyPaths.

Import Store Tree PathFacts BelowFacts.

Lemma dirname_no_slash (k : str) : slash ∉ k -> PosixPath.dirname k = "".
Proof.
  intros Hk. unfold PosixPath.dirname. rewrite (rfind_none k Hk).
  unfold slice, bound. change (-1 + 1) with 0. change (0 <? 0) with false.
  cbv iota. rewrite Z.min_l by lia. by simpl.
Qed.

Lemma basename_no_slash (k : str) : slash ∉ k -> PosixPath.basename k = k.
Proof.
  intros Hk. unfold PosixPath.basename. rewrite (rfind_none k Hk).
  unfold slice, bound. change (-1 + 1) with 0. change (0 <? 0) with false.
  cbv iota. rewrite Z.min_l by lia. simpl. apply take_ge. lia.
Qed.

Lemma relative_no_slash (b : str) : slash ∉ b -> relative b.
Proof.
  intros Hb. unfold relative. destruct b as [|c b]; [done|]. simpl.
  case_decide as Hd; [|done]. exfalso. apply Hb. rewrite <- Hd. by left.
Qed.

(** The path that [os.path.join] makes of [a] and a relative [b]. *)
Lemma join2_cases a b :
  relative b ->
  (a = "" /\ PosixPath.join2 a b = b)
  \/ exists a', parts a' = parts a /\ PosixPath.join2 a b = a' ++ "/" ++ b.
Proof.
  intros Hb. unfold PosixPath.join2. change PosixPath.sep with ("/" : str).
  rewrite Hb. case_bool_decide as Ha; [left; by subst|]. simpl orb.
  destruct (endswith a "/") eqn:E.
  - apply endswith_slash in E as [a' ->]. right. exists a'.
    split; [by rewrite parts_app_slash | by rewrite <- app_assoc].
  - right. by exists a.
Qed.

(** The directory and the last component of an entry below [dst]. *)
Lemma entry_split dst k :
  relative k ->
  exists q b,
    (slash ∉ b)
    /\ parts (PosixPath.dirname (PosixPath.join2 dst k)) = parts dst ++ q
    /\ parts k = q ++ parts b
    /\ forall src, PosixPath.basename (PosixPath.join2 src k) = b.
Proof.
  intros Hk. destruct (last_slash k) as [Hs|(k1 & k2 & -> & Hs)].
  - exists [], k. split; [done|]. split; [|split; [done|]].
    + destruct (join2_cases dst k Hk) as [[-> ->]|(a' & Ha & ->)].
      * by rewrite dirname_no_slash.
      * by rewrite parts_dirname_sep, app_nil_r.
    + intros src. destruct (join2_cases src k Hk) as [[-> ->]|(a' & Ha & ->)].
      * by apply basename_no_slash.
      * by apply basename_sep.
  - exists (parts k1), k2. split; [done|]. split; [|split].
    + destruct (join2_cases dst _ Hk) as [[-> ->]|(a' & Ha & ->)].
      * by rewrite parts_dirname_sep.
      * replace (a' ++ "/" ++ k1 ++ "/" ++ k2) with ((a' ++ "/" ++ k1) ++ "/" ++ k2)
          by by rewrite <- !app_assoc.
        by rewrite parts_dirname_sep, parts_app_sep, Ha.
    + by rewrite parts_app_sep.
    + intros src. destruct (join2_cases src _ Hk) as [[-> ->]|(a' & Ha & ->)].
      * by apply basename_sep.
      * replace (a' ++ "/" ++ k1 ++ "/" ++ k2) with ((a' ++ "/" ++ k1) ++ "/" ++ k2)
          by by rewrite <- !app_assoc.
        by apply basename_sep.
Qed.

End CopyPaths.

Module CopySteps.

Import Store Tree TreeFacts TreeFrame PathFacts BelowFacts CopyPaths Run ReadOnly.

Lemma makedirs_ok p ok w u w1 :
  Os.makedirs p ok w = (Ok u, w1) ->
  makedirs_at ok (now w * 1000000) (parts p) (fs w) = Ok (fs w1).
Proof.
  unfold Os.makedirs, bind, Os.check_io, get_fs, Os.clock_ns, lift, set_fs, log, ret, raise.
  destruct (bool_decide (p = "")); [done|].
  destruct (bool_decide (p ∈ io_errors w)); [done|].
  destruct (makedirs_at _ _ _ _) as [n'|e]; [|done]. by intros [= _ <-].
Qed.

Lemma makedirs_fs p ok w r w1 :
  Os.makedirs p ok w = (r, w1) ->
  fs w1 = fs w
  \/ makedirs_at ok (now w * 1000000) (parts p) (fs w) = Ok (fs w1).
Proof.
  destruct r as [[]|e]; [right; by eapply makedirs_ok|]. left. revert H.
  unfold Os.makedirs, bind, Os.check_io, get_fs, Os.clock_ns, lift, set_fs, log, ret, raise.
  destruct (bool_decide (p = "")); [by intros [= _ <-]|].
  destruct (bool_decide (p ∈ io_errors w)); [by intros [= _ <-]|].
  destruct (makedirs_at _ _ _ _) as [n'|e']; [done|]. by intros [= _ <-].
Qed.

Lemma put_file_fs p c t w r w1 :
  Os.put_file p c t w = (r, w1) ->
  match r with
  | Ok _ => alter_at (parts p) (put c t) (fs w) = Ok (fs w1)
  | Raise _ => w1 = w
  end.
Proof.
  unfold Os.put_file, bind, Os.check_io, get_fs, lift, set_fs.
  destruct (bool_decide (p ∈ io_errors w)); [by intros [= <- <-]|].
  fold (put c t). destruct (alter_at _ _ _) as [n'|e]; by intros [= <- <-].
Qed.

(** What [shutil.copy2] has done when it returns. *)
Lemma copy2_ok src dst w u w1 :
  Os.copy2 src dst w = (Ok u, w1) ->
  exists c m,
    lookup_at (parts src) (fs w) = Some (File c m)
    /\ alter_at (parts (if dir_at (parts dst) (fs w)
                        then PosixPath.join2 dst (PosixPath.basename src) else dst))
         (put c m) (fs w) = Ok (fs w1).
Proof.
  unfold Os.copy2. unfold bind at 1, Os.isdir at 1, bind at 1, get_fs at 1, ret at 1.
  unfold Os.find, dir_at.
  set (dst' := if match lookup_at (parts dst) (fs w) with
                  | Some (Dir _ _) => true | _ => false end
               then PosixPath.join2 dst (PosixPath.basename src) else dst).
  unfold bind at 1, get_fs at 1.
  destruct (lookup_at (parts src) (fs w)) as [[c m|]|] eqn:Es; [| |done].
  2:{ by case_bool_decide. }
  case_bool_decide; [done|].
  unfold bind at 1. destruct (Os.put_file dst' c m w) as [[[]|e] w2] eqn:Ep; [|done].
  apply put_file_fs in Ep. unfold log. intros [= _ <-]. exists c, m. by split.
Qed.

Lemma copy2_fs src dst w r w1 :
  Os.copy2 src dst w = (r, w1) ->
  fs w1 = fs w \/ exists cs c m, alter_at cs (put c m) (fs w) = Ok (fs w1).
Proof.
  destruct r as [u|e].
  { intros (c & m & _ & H)%copy2_ok. right. by eexists _, _, _. }
  left. revert H.
  unfold Os.copy2. unfold bind at 1, Os.isdir at 1, bind at 1, get_fs at 1, ret at 1.
  unfold bind at 1, get_fs at 1.
  destruct (Os.find src (fs w)) as [[c m|]|]; [| |by intros [= _ <-]].
  2:{ case_bool_decide; by intros [= _ <-]. }
  case_bool_decide; [by intros [= _ <-]|].
  unfold bind at 1. destruct (Os.put_file _ c m w) as [[[]|e'] w2] eqn:Ep; [done|].
  apply put_file_fs in Ep. subst w2. by intros [= _ <-].
Qed.

End CopySteps.

Module CopyLoop.

Import Store Tree TreeFacts TreeFrame PathFacts BelowFacts CopyPaths CopySteps Run ReadOnly.

Section Loop.

Variables (self : Engine) (src dst : str).

Hypothesis Hwet : dry_run self = false.
Hypothesis Hapart : apart (parts src) (parts dst).

(** The body of the loop of [_copy_by_rcf]. *)
Lemma copy_by_rcf_cons k rcf w :
  _copy_by_rcf self (k :: rcf) src dst w
  = match Os.exists_ (PosixPath.join2 src k) w with
    | (Ok true, w0) =>
        match Os.makedirs (PosixPath.dirname (PosixPath.join2 dst k)) true w0 with
        | (Ok _, w1) =>
            match Os.copy2 (PosixPath.join2 src k) (PosixPath.join2 dst k) w1 with
            | (Ok _, w2) => _copy_by_rcf self rcf src dst w2
            | (Raise e, w2) => (Raise e, w2)
            end
        | (Raise e, w1) => (Raise e, w1)
        end
    | (Ok false, w0) => _copy_by_rcf self rcf src dst w0
    | (Raise e, w0) => (Raise e, w0)
    end.
Proof.
  unfold _copy_by_rcf. rewrite for_each_cons. rewrite Hwet. simpl negb. cbv iota.
  unfold bind. destruct (Os.exists_ _ w) as [[[]|e] w0]; try done.
  destruct (Os.makedirs _ true w0) as [[u|e] w1]; [|done].
  by destruct (Os.copy2 _ _ w1) as [[u'|e] w2].
Qed.

Lemma exists_run p w :
  Os.exists_ p w = (Ok (bool_decide (is_Some (lookup_at (parts p) (fs w)))), w).
Proof. reflexivity. Qed.

(** One entry that is copied: the directory of the destination is made,
    and the file is put at the destination. *)
Lemma copy_step k w u w1 u' w2 :
  relative k ->
  is_Some (lookup_at (parts src ++ parts k) (fs w)) ->
  (file_at (parts src ++ parts k) (fs w) = true ->
   dir_at (parts dst ++ parts k) (fs w) = false) ->
  Os.makedirs (PosixPath.dirname (PosixPath.join2 dst k)) true w = (Ok u, w1) ->
  Os.copy2 (PosixPath.join2 src k) (PosixPath.join2 dst k) w1 = (Ok u', w2) ->
  exists c m q q' t,
    lookup_at (parts src ++ parts k) (fs w) = Some (File c m)
    /\ parts k = q ++ q' /\ q' <> []
    /\ makedirs_at true t (parts dst ++ q) (fs w) = Ok (fs w1)
    /\ alter_at (parts dst ++ parts k) (put c m) (fs w1) = Ok (fs w2).
Proof.
  intros Hk Hsome Hnd Hmk Hcp.
  destruct (entry_split dst k Hk) as (q & b & Hb & Hq & Hpk & Hbase).
  apply makedirs_ok in Hmk. rewrite Hq in Hmk.
  apply copy2_ok in Hcp as (c & m & Hsrc & Hput).
  rewrite !(parts_join2 _ k Hk) in Hsrc.
  assert (lookup_at (parts src ++ parts k) (fs w) = Some (File c m)) as Hsrc0.
  { rewrite <- Hsrc. symmetry. eapply lookup_makedirs_apart; [exact Hmk|].
    by apply apart_app. }
  assert (dir_at (parts dst ++ parts k) (fs w) = false) as Hnd0.
  { apply Hnd. unfold file_at. by rewrite Hsrc0. }
  rewrite Hbase in Hput. rewrite (parts_join2 dst k Hk) in Hput.
  destruct (dir_at (parts dst ++ parts k) (fs w1)) eqn:Hd1.
  { exfalso. destruct (dir_at_makedirs _ _ _ _ _ _ Hmk Hd1) as [H|H].
    { by rewrite Hnd0 in H. }
    apply prefix_app_inv in H. rewrite Hpk in H.
    assert (parts b = []) as Hpb.
    { destruct H as [x Hx]. rewrite <- app_assoc in Hx.
      rewrite <- (app_nil_r q) in Hx at 1. apply app_inv_head in Hx.
      symmetry in Hx. by apply app_eq_nil in Hx as [? _]. }
    rewrite (parts_join2 _ b (relative_no_slash b Hb)), (parts_join2 dst k Hk) in Hput.
    rewrite Hpb, app_nil_r in Hput.
    apply lookup_put in Hput as [Hput _]. by rewrite Hd1 in Hput. }
  rewrite (parts_join2 dst k Hk) in Hput.
  exists c, m, q, (parts b), (now w * 1000000). repeat split; try done.
  intros Hpb. rewrite Hpk, Hpb, app_nil_r in Hd1.
  by rewrite (dir_at_made _ _ _ _ _ Hmk) in Hd1.
Qed.

Variable n0 : node.

(** The loop: what is apart from the destination stays, every entry that
    exists at the source is a file and is at the destination afterwards,
    and the files of the destination that are those of the source stay. *)
Lemma copy_loop rcf :
  Forall relative rcf ->
  forall w w',
    (forall k, k ∈ rcf ->
       lookup_at (parts src ++ parts k) (fs w) = lookup_at (parts src ++ parts k) n0) ->
    (forall k, k ∈ rcf -> file_at (parts src ++ parts k) n0 = true ->
       dir_at (parts dst ++ parts k) (fs w) = false) ->
    _copy_by_rcf self rcf src dst w = (Ok tt, w') ->
    (forall cs, apart cs (parts dst) -> lookup_at cs (fs w') = lookup_at cs (fs w))
    /\ (forall k n, k ∈ rcf -> lookup_at (parts src ++ parts k) n0 = Some n ->
          exists c m, n = File c m
                      /\ lookup_at (parts dst ++ parts k) (fs w') = Some (File c m))
    /\ (forall q c m,
          lookup_at (parts src ++ q) n0 = Some (File c m) ->
          lookup_at (parts dst ++ q) (fs w) = Some (File c m) ->
          lookup_at (parts dst ++ q) (fs w') = Some (File c m)).
Proof.
  induction 1 as [|k rcf Hk Hrel IH]; intros w w' HA HB Hrun.
  { injection Hrun as <-. repeat split; try done.
    intros k n Hin. by apply elem_of_nil in Hin. }
  rewrite copy_by_rcf_cons, exists_run in Hrun.
  rewrite (parts_join2 _ k Hk) in Hrun.
  assert (forall k', k' ∈ rcf -> k' ∈ k :: rcf) as Hin' by (intros; by right).
  case_bool_decide as Hex.
  2:{ destruct (IH w w') as (C1 & C2 & C3); try done.
      { intros k' Hin. by apply HA, Hin'. }
      { intros k' Hin Hf. by apply HB; [apply Hin'|]. }
      repeat split; try done.
      intros k' n [->|Hin]%elem_of_cons Hn; [|by apply C2].
      rewrite <- HA in Hn by by left. rewrite Hn in Hex. by destruct Hex. }
  destruct (Os.makedirs _ true w) as [[u|e] w1] eqn:Hmk; [|done].
  destruct (Os.copy2 _ _ w1) as [[u'|e] w2] eqn:Hcp; [|done].
  destruct (copy_step k w u w1 u' w2 Hk Hex) as (c & m & q & q' & t & Hs & Hpk & Hq' & Hm & Hp);
    try done.
  { intros Hf. apply HB; [by left|]. unfold file_at in *. rewrite <- HA; [done|by left]. }
  assert (forall cs, apart cs (parts dst) -> lookup_at cs (fs w2) = lookup_at cs (fs w))
    as Hframe.
  { intros cs Hcs. rewrite (lookup_alter_apart _ _ _ _ cs Hp) by by apply apart_app_r.
    apply (lookup_makedirs_apart _ _ _ _ _ cs Hm). by apply apart_app_r. }
  assert (forall y, apart (parts src ++ y) (parts dst)) as Hsrc_apart.
  { intros y. rewrite <- (app_nil_r (parts dst)). by apply apart_app. }
  destruct (IH w2 w') as (C1 & C2 & C3); try done.
  { intros k' Hin. rewrite Hframe by done. by apply HA, Hin'. }
  { intros k' Hin Hf. rewrite (dir_at_put _ _ _ _ _ (parts dst ++ parts k') Hp).
    destruct (dir_at (parts dst ++ parts k') (fs w1)) eqn:Hd; [|done]. exfalso.
    destruct (dir_at_makedirs _ _ _ _ _ _ Hm Hd) as [H|H].
    { rewrite HB in H; [done|by right|done]. }
    apply prefix_app_inv in H. destruct H as [r Hr].
    rewrite HA in Hs by by left. rewrite Hpk, Hr, <- !app_assoc, app_assoc in Hs.
    rewrite lookup_at_app in Hs. unfold file_at in Hf.
    destruct (lookup_at (parts src ++ parts k') n0) as [[|]|]; try done.
    simpl in Hs. destruct (r ++ q') eqn:E; [|done].
    by apply app_eq_nil in E as [_ ?]. }
  assert (forall q0 c0 m0,
            lookup_at (parts src ++ q0) n0 = Some (File c0 m0) ->
            lookup_at (parts dst ++ q0) (fs w) = Some (File c0 m0) ->
            lookup_at (parts dst ++ q0) (fs w2) = Some (File c0 m0)) as Hkeep.
  { intros q0 c0 m0 Hs0 Hd0.
    destruct (decide (q0 = parts k)) as [->|Hne].
    - rewrite HA in Hs by by left. rewrite Hs in Hs0. injection Hs0 as <- <-.
      by apply lookup_put in Hp as [_ ?].
    - eapply lookup_put_other; [exact Hp| |by intros ?%app_inv_head].
      by eapply lookup_makedirs_file. }
  split; [|split].
  - intros cs Hcs. rewrite C1 by done. by apply Hframe.
  - intros k' n [->|Hin]%elem_of_cons Hn; [|by apply C2].
    rewrite HA in Hs by by left. rewrite Hs in Hn. injection Hn as <-.
    exists c, m. split; [done|]. apply C3; [done|].
    by apply lookup_put in Hp as [_ ?].
  - intros q0 c0 m0 Hs0 Hd0. apply C3; [done|]. by apply Hkeep.
Qed.

End Loop.

(** Below a destination that is not there, nothing is a directory. *)
Lemma fresh_destination dst rcf n :
  Forall relative rcf -> lookup_at (parts dst) n = None ->
  forall k, k ∈ rcf -> is_dir n (PosixPath.join2 dst k) = false.
Proof.
  intros Hrel Hnone k Hk. rewrite Forall_forall in Hrel.
  unfold is_dir, dir_at. rewrite (parts_join2 dst k (Hrel k Hk)), lookup_at_app.
  by rewrite Hnone.
Qed.

End CopyLoop.

Module GrowFacts.

Import Store Events Tree TreeFacts TreeFrame CopySteps Run ReadOnly.

Lemma within_refl n : within n n.
Proof. by intros cs. Qed.

Lemma within_trans a b c : within a b -> within b c -> within a c.
Proof.
  intros H1 H2 cs. destruct (H1 cs) as [F1 D1], (H2 cs) as [F2 D2].
  split; intros H; [by apply F2, F1 | by apply D2, D1].
Qed.

Lemma within_makedirs ok t cs n n' : makedirs_at ok t cs n = Ok n' -> within n n'.
Proof.
  intros H cs'. split.
  - unfold file_at. destruct (lookup_at cs' n) as [[c m|]|] eqn:E; try done.
    by rewrite (lookup_makedirs_file _ _ _ _ _ _ _ _ H E).
  - intros Hd. by eapply dir_at_makedirs_keeps.
Qed.

Lemma within_put cs c t n n' : alter_at cs (put c t) n = Ok n' -> within n n'.
Proof.
  intros H cs'. split.
  - unfold file_at. destruct (lookup_at cs' n) as [[c1 m1|]|] eqn:E; try done.
    intros _. destruct (decide (cs' = cs)) as [->|Hne].
    + apply lookup_put in H as [_ ->]. done.
    + by rewrite (lookup_put_other _ _ _ _ _ _ _ _ H E Hne).
  - by rewrite (dir_at_put _ _ _ _ _ cs' H).
Qed.

Lemma grows_readonly {A} (c : M A) : readonly c -> grows c.
Proof. intros H w r w' ->%(readonly_run _ _ _ _ H). apply within_refl. Qed.

Lemma grows_bind {A B} (c : M A) (k : A -> M B) :
  grows c -> (forall a, grows (k a)) -> grows (bind c k).
Proof.
  intros Hc Hk w r w' [(a & w1 & H1 & H2)|(e & H1 & ->)]%bind_inv.
  - eapply within_trans; [by eapply Hc | by eapply Hk].
  - by eapply Hc.
Qed.

Lemma grows_for_each {A} (l : list A) body :
  (forall a, grows (body a)) -> grows (for_each l body).
Proof.
  intros Hb. induction l as [|x l IH]; [apply grows_readonly, readonly_ret|].
  rewrite for_each_cons. apply grows_bind; [apply Hb | by intros _].
Qed.

Lemma grows_makedirs p ok : grows (Os.makedirs p ok).
Proof.
  intros w r w' [->|H]%makedirs_fs; [apply within_refl | by eapply within_makedirs].
Qed.

Lemma grows_copy2 src dst : grows (Os.copy2 src dst).
Proof.
  intros w r w' [->|(cs & c & m & H)]%copy2_fs;
    [apply within_refl | by eapply within_put].
Qed.

Lemma grows_get_savesdir self : grows (_get_savesdir self).
Proof.
  unfold _get_savesdir. apply grows_bind; [apply grows_readonly, readonly_exists|].
  intros e. apply grows_bind; [|intros _; apply grows_readonly, readonly_ret].
  destruct (negb e); [apply grows_makedirs | apply grows_readonly, readonly_ret].
Qed.

Lemma grows_copy_by_rcf self rcf src dst : grows (_copy_by_rcf self rcf src dst).
Proof.
  unfold _copy_by_rcf. apply grows_for_each. intros k.
  apply grows_bind; [apply grows_readonly, readonly_exists|].
  intros [|]; [|apply grows_readonly, readonly_ret].
  destruct (negb (dry_run self)); [|apply grows_readonly, readonly_ret].
  apply grows_bind; [apply grows_makedirs | intros _; apply grows_copy2].
Qed.

Lemma grows_copy_all_from self si rcf : grows (_copy_all_from_saveinfo self si rcf).
Proof.
  unfold _copy_all_from_saveinfo, _saveinfo_to_dir.
  apply grows_bind.
  { apply grows_bind; [apply grows_get_savesdir|].
    intros d. apply grows_readonly, readonly_ret. }
  intros mirror. apply grows_bind; [apply grows_readonly, readonly_get_game_roots|].
  intros roots. apply grows_for_each. intros [d sfx]. apply grows_copy_by_rcf.
Qed.

End GrowFacts.

Section Copies.

Import Store Change Tree TreeFacts TreeFrame BelowFacts CopyLoop GrowFacts Run ReadOnly.

(** X18. What a copy by the manifest leaves.  The engine is not in dry-run
    mode, the entries are relative paths, no entry and neither of the two
    directories has a [..] component, neither of the two directories is at
    or above the other, and no entry that is a file at the source is a
    directory at the destination.  When [_copy_by_rcf] returns, every
    entry that exists at the source is a regular file, and the destination
    has a file of that name with the same content and the same
    modification time; whatever is at a path without [..] that is neither
    below nor above the destination directory, the source included, is as
    it was. *)
Theorem copy_by_rcf_copies_every_file self rcf src dst w w' :
  dry_run self = false ->
  Forall inside rcf ->
  direct src -> direct dst ->
  apart (parts src) (parts dst) ->
  (forall k, k ∈ rcf ->
     is_file (fs w) (PosixPath.join2 src k) = true ->
     is_dir (fs w) (PosixPath.join2 dst k) = false) ->
  _copy_by_rcf self rcf src dst w = (Ok tt, w') ->
  (forall k n, k ∈ rcf ->
     Os.find (PosixPath.join2 src k) (fs w) = Some n ->
     exists c m, n = File c m
                 /\ Os.find (PosixPath.join2 dst k) (fs w') = Some (File c m))
  /\ (forall p, direct p -> apart (parts p) (parts dst) ->
                 Os.find p (fs w') = Os.find p (fs w)).
Proof.
  intros Hwet Hin _ _ Hapart Hnd Hrun.
  pose proof (StoreFacts.inside_relative _ Hin) as Hrel.
  destruct (copy_loop self src dst Hwet Hapart (fs w) rcf Hrel w w') as (C1 & C2 & _);
    try done.
  - intros k Hk Hf. specialize (Hnd k Hk). unfold is_file, is_dir, Os.find in Hnd.
    rewrite Forall_forall in Hrel.
    rewrite !(parts_join2 _ k (Hrel k Hk)) in Hnd. by apply Hnd.
  - split.
    + intros k n Hk Hn. rewrite Forall_forall in Hrel. unfold Os.find in *.
      rewrite (parts_join2 src k (Hrel k Hk)) in Hn.
      rewrite (parts_join2 dst k (Hrel k Hk)). by apply C2.
    + intros p _ Hp. by apply C1.
Qed.

(** The theorem on a save root with a file and a file in a directory, and
    an entry of the manifest that does not exist. *)
Lemma copy_by_rcf_copies_every_file_example :
  let rcf := ["save.dat"; "gone.dat"; "slot/b.sav"] in
  let src := "/steam/userdata/7/1/remote" in
  let dst := "/data/saves2/save_1_100" in
  exists w',
    _copy_by_rcf Demo.engine rcf src dst DemoX.nested = (Ok tt, w')
    /\ Os.find "/data/saves2/save_1_100/save.dat" (fs w') = Some (File (Text "a") 11)
    /\ Os.find "/data/saves2/save_1_100/slot/b.sav" (fs w') = Some (File (Text "b") 12)
    /\ Os.find "/steam/userdata/7/1" (fs w') = Os.find "/steam/userdata/7/1" DemoX.nested_disk.
Proof.
  intros rcf src dst.
  destruct (_copy_by_rcf Demo.engine rcf src dst DemoX.nested) as [r w'] eqn:Hrun.
  assert (r = Ok tt) as ->.
  { pose proof (f_equal fst Hrun) as Hr. vm_compute in Hr. by symmetry. }
  exists w'. split; [reflexivity|].
  assert (apart (parts src) (parts dst)) as Hap.
  { split; intros [x Hx]; vm_compute in Hx; discriminate. }
  assert (Forall inside rcf) as Hin.
  { repeat constructor; apply StoreFacts.inside_b_spec; vm_compute; reflexivity. }
  pose proof (StoreFacts.inside_relative _ Hin) as Hrel.
  assert (lookup_at (parts dst) (fs DemoX.nested) = None) as Hfresh.
  { vm_compute. reflexivity. }
  destruct (copy_by_rcf_copies_every_file Demo.engine rcf src dst DemoX.nested w'
              eq_refl Hin (StoreFacts.direct_b_spec src eq_refl)
              (StoreFacts.direct_b_spec dst eq_refl) Hap
              (fun k Hk _ => fresh_destination dst rcf _ Hrel Hfresh k Hk) Hrun)
    as [Hcopied Hframe].
  split; [|split].
  - destruct (Hcopied "save.dat" (File (Text "a") 11)) as (c & m & Heq & H).
    { left. }
    { vm_compute. reflexivity. }
    injection Heq as <- <-. exact H.
  - destruct (Hcopied "slot/b.sav" (File (Text "b") 12)) as (c & m & Heq & H).
    { right. right. left. }
    { vm_compute. reflexivity. }
    injection Heq as <- <-. exact H.
  - apply Hframe; [by apply StoreFacts.direct_b_spec|].
    split; intros [x Hx]; vm_compute in Hx; discriminate.
Defined.

(** X19. Copying removes nothing.  Whether it returns or raises,
    [_copy_by_rcf] leaves every regular file a regular file and every
    directory a directory, anywhere in the tree, and so does
    [_copy_all_from_saveinfo]: a restore overwrites files of the game, and
    deletes none. *)
Theorem copying_removes_nothing self rcf :
  (forall src dst w r w',
     _copy_by_rcf self rcf src dst w = (r, w') -> within (fs w) (fs w'))
  /\ (forall si w r w',
        _copy_all_from_saveinfo self si rcf w = (r, w') -> within (fs w) (fs w')).
Proof.
  split.
  - intros src dst. apply grows_copy_by_rcf.
  - intros si. apply grows_copy_all_from.
Qed.

End Copies.

Section RoundTrip.

Import Store Change Tree TreeFacts TreeFrame BelowFacts CopyLoop GrowFacts Run ReadOnly.

(** X24. A copy there and a copy back.  The engine is not in dry-run mode,
    the manifest entries are relative, no entry and neither of the two
    directories has a [..] component, the directory of the game and the
    directory of the snapshot are neither at nor above one another, and the
    directory of the snapshot is not there at first.  The files of the game
    are copied to the snapshot; later, with the snapshot as the copy left
    it and whatever has become of the game's files (no entry of the snapshot
    being a directory of the game), they are copied back.  Then every
    manifest entry that was a file of the game at the time of the first
    copy is a file of the game again, with the content and the modification
    time it had then. *)
Theorem copy_there_and_back self rcf game snap w w1 w2 w3 :
  dry_run self = false ->
  Forall inside rcf ->
  direct game -> direct snap ->
  apart (parts game) (parts snap) ->
  Os.find snap (fs w) = None ->
  _copy_by_rcf self rcf game snap w = (Ok tt, w1) ->
  Forall (fun k => Os.find (PosixPath.join2 snap k) (fs w2)
                   = Os.find (PosixPath.join2 snap k) (fs w1)) rcf ->
  Forall (fun k => is_file (fs w2) (PosixPath.join2 snap k) = true ->
                   is_dir (fs w2) (PosixPath.join2 game k) = false) rcf ->
  _copy_by_rcf self rcf snap game w2 = (Ok tt, w3) ->
  forall k c m,
    k ∈ rcf ->
    Os.find (PosixPath.join2 game k) (fs w) = Some (File c m) ->
    Os.find (PosixPath.join2 game k) (fs w3) = Some (File c m).
Proof.
  intros Hwet Hin _ _ Hapart Hfresh Hthere Hkept Hfree Hback k c m Hk Hfile.
  pose proof (StoreFacts.inside_relative _ Hin) as Hrel.
  pose proof Hrel as Hrel'. rewrite Forall_forall in Hrel'.
  destruct (copy_loop self game snap Hwet Hapart (fs w) rcf Hrel w w1) as (_ & C2 & _);
    try done.
  { intros k' Hk' _. pose proof (fresh_destination snap rcf (fs w) Hrel Hfresh k' Hk') as H.
    unfold is_dir in H. by rewrite (parts_join2 snap k' (Hrel' k' Hk')) in H. }
  unfold Os.find in Hfile. rewrite (parts_join2 game k (Hrel' k Hk)) in Hfile.
  destruct (C2 k _ Hk Hfile) as (c' & m' & [= <- <-] & Hsnap).
  destruct (copy_loop self snap game Hwet (apart_sym _ _ Hapart) (fs w2) rcf Hrel w2 w3)
    as (_ & D2 & _); try done.
  { intros k' Hk' Hf. rewrite Forall_forall in Hfree. specialize (Hfree k' Hk').
    unfold is_file, is_dir, Os.find in Hfree.
    rewrite !(parts_join2 _ k' (Hrel' k' Hk')) in Hfree. by apply Hfree. }
  rewrite Forall_forall in Hkept. specialize (Hkept k Hk). unfold Os.find in Hkept |- *.
  rewrite (parts_join2 snap k (Hrel' k Hk)) in Hkept.
  rewrite (parts_join2 game k (Hrel' k Hk)).
  rewrite <- Hkept in Hsnap.
  by destruct (D2 k _ Hk Hsnap) as (c' & m' & [= <- <-] & Hgame).
Qed.

(** The theorem on a game whose file [save.dat] is overwritten between the
    two copies. *)
Lemma copy_there_and_back_example :
  let rcf := ["save.dat"; "slot/b.sav"] in
  let game := "/steam/userdata/7/1/remote" in
  let snap := "/data/saves2/save_1_100" in
  exists w1 w2 w3,
    _copy_by_rcf Demo.engine rcf game snap DemoX.nested = (Ok tt, w1)
    /\ Os.put_file "/steam/userdata/7/1/remote/save.dat" (Text "z") 20 w1 = (Ok tt, w2)
    /\ _copy_by_rcf Demo.engine rcf snap game w2 = (Ok tt, w3)
    /\ Os.find "/steam/userdata/7/1/remote/save.dat" (fs w2) = Some (File (Text "z") 20)
    /\ Os.find "/steam/userdata/7/1/remote/save.dat" (fs w3) = Some (File (Text "a") 11).
Proof.
  intros rcf game snap.
  destruct (_copy_by_rcf Demo.engine rcf game snap DemoX.nested) as [r1 w1] eqn:H1.
  assert (r1 = Ok tt) as ->.
  { pose proof (f_equal fst H1) as Hr. vm_compute in Hr. by symmetry. }
  assert (w1 = (_copy_by_rcf Demo.engine rcf game snap DemoX.nested).2) as Hw1
    by by rewrite H1.
  destruct (Os.put_file "/steam/userdata/7/1/remote/save.dat" (Text "z") 20 w1)
    as [r2 w2] eqn:H2.
  assert (r2 = Ok tt) as ->.
  { pose proof (f_equal fst H2) as Hr. rewrite Hw1 in Hr. vm_compute in Hr. by symmetry. }
  assert (w2 = (Os.put_file "/steam/userdata/7/1/remote/save.dat" (Text "z") 20 w1).2)
    as Hw2 by by rewrite H2.
  destruct (_copy_by_rcf Demo.engine rcf snap game w2) as [r3 w3] eqn:H3.
  assert (r3 = Ok tt) as ->.
  { pose proof (f_equal fst H3) as Hr. rewrite Hw2, Hw1 in Hr. vm_compute in Hr.
    by symmetry. }
  exists w1, w2, w3. split; [reflexivity|]. split; [exact H2|]. split; [exact H3|].
  split.
  { rewrite Hw2, Hw1. vm_compute. reflexivity. }
  refine (copy_there_and_back Demo.engine rcf game snap DemoX.nested w1 w2 w3
            eq_refl _ (StoreFacts.direct_b_spec game eq_refl)
            (StoreFacts.direct_b_spec snap eq_refl) _ _ H1 _ _ H3
            "save.dat" (Text "a") 11 _ _).
  - repeat constructor; apply StoreFacts.inside_b_spec; vm_compute; reflexivity.
  - split; intros [x Hx]; vm_compute in Hx; discriminate.
  - vm_compute. reflexivity.
  - rewrite Hw2, Hw1. repeat constructor; vm_compute; reflexivity.
  - rewrite Hw2, Hw1. repeat constructor; vm_compute; reflexivity.
  - left.
  - vm_compute. reflexivity.
Defined.

End RoundTrip.

(** ** The undo snapshot of a restore *)

Module UndoFacts.

Import Store Events Frame Tree PathFacts BelowFacts StoreFacts Run ReadOnly EventFacts
  FirstUseFacts OrderFacts DryFacts RestoreOrderFacts CopySteps GrowFacts ChangeFacts.

Lemma exists_within n n' p :
  within n n' -> is_Some (Os.find p n) -> is_Some (Os.find p n').
Proof.
  intros H [m Hm]. unfold Os.find in *. destruct (H (parts p)) as [Hf Hd].
  unfold file_at, dir_at in *. rewrite Hm in Hf, Hd.
  destruct m.
  - specialize (Hf eq_refl). destruct (lookup_at (parts p) n'); [by eexists|done].
  - specialize (Hd eq_refl). destruct (lookup_at (parts p) n'); [by eexists|done].
Qed.

Lemma trace_put_file p c t w r w1 :
  Os.put_file p c t w = (r, w1) -> trace w1 = trace w.
Proof.
  intros H. destruct (emits_put_file (fun _ => false) p c t _ _ _ H) as (evs & -> & Hev).
  destruct evs; [by rewrite app_nil_r|done].
Qed.

(** A copy that returns has written its event. *)
Lemma copy2_event src dst w w1 :
  Os.copy2 src dst w = (Ok tt, w1) ->
  exists d, trace w1 = trace w ++ [EvCopy src d] /\ startswith d dst = true.
Proof.
  unfold Os.copy2. intros (d & w2 & Hd & H)%bind_inv_ok.
  apply readonly_run in Hd as ->; [|apply readonly_isdir].
  apply bind_inv_ok in H as (n & w2 & Hn & H).
  apply readonly_run in Hn as ->; [|apply readonly_get_fs].
  destruct (Os.find src n) as [m|]; [|done].
  destruct (bool_decide _); [done|].
  destruct m as [c t|]; [|done].
  apply bind_inv_ok in H as ([] & w2 & Hp & H).
  apply trace_put_file in Hp. unfold log in H. injection H as <-.
  exists (if d then PosixPath.join2 dst (PosixPath.basename src) else dst).
  split; [simpl; by rewrite Hp|].
  destruct d; [apply startswith_join2, basename_relative | apply startswith_refl].
Qed.

Lemma grows_copy_entry self src dst k :
  grows (do e <- Os.exists_ (PosixPath.join2 src k);
         if e then
           if negb (dry_run self) then
             run Os.makedirs (PosixPath.dirname (PosixPath.join2 dst k)) true;
             Os.copy2 (PosixPath.join2 src k) (PosixPath.join2 dst k)
           else ret tt
         else ret tt).
Proof.
  apply grows_bind; [apply grows_readonly, readonly_exists|].
  intros [|]; [|apply grows_readonly, readonly_ret].
  destruct (negb (dry_run self)); [|apply grows_readonly, readonly_ret].
  apply grows_bind; [apply grows_makedirs | intros _; apply grows_copy2].
Qed.

(** A copy by the manifest that returns has copied every entry that was
    there when it began. *)
Lemma copy_by_rcf_copied self src dst rcf w w1 :
  dry_run self = false ->
  _copy_by_rcf self rcf src dst w = (Ok tt, w1) ->
  exists evs,
    trace w1 = trace w ++ evs
    /\ forall k, k ∈ rcf -> is_Some (Os.find (PosixPath.join2 src k) (fs w)) ->
         existsb (copied (PosixPath.join2 src k) (PosixPath.join2 dst k)) evs = true.
Proof.
  intros Hwet. revert w. induction rcf as [|k0 rcf IH]; intros w.
  { intros [= <-]. exists []. split; [by rewrite app_nil_r|].
    intros k Hk. by apply elem_of_nil in Hk. }
  unfold _copy_by_rcf. rewrite for_each_cons. fold (_copy_by_rcf self rcf src dst).
  intros ([] & wa & Hstep & Hrest)%bind_inv_ok.
  destruct (IH _ Hrest) as (evs2 & Ht2 & Hc2).
  pose proof (grows_copy_entry self src dst k0 _ _ _ Hstep) as Hin.
  assert (exists evs1,
             trace wa = trace w ++ evs1
             /\ (is_Some (Os.find (PosixPath.join2 src k0) (fs w)) ->
                 existsb (copied (PosixPath.join2 src k0) (PosixPath.join2 dst k0)) evs1
                 = true)) as (evs1 & Ht1 & Hc1).
  { rewrite (bind_ok _ _ _ _ _ (exists_spec _ w)) in Hstep.
    case_bool_decide as Hex.
    - rewrite Hwet in Hstep. simpl negb in Hstep. cbv iota in Hstep.
      apply bind_inv_ok in Hstep as (u & wb & Hmk & Hcp).
      destruct (emits_makedirs (fun _ => true) _ _ eq_refl _ _ _ Hmk) as (evm & Htm & _).
      destruct (copy2_event _ _ _ _ Hcp) as (d & Htc & Hd).
      exists (evm ++ [EvCopy (PosixPath.join2 src k0) d]).
      split; [by rewrite Htc, Htm, app_assoc|].
      intros _. rewrite existsb_app. simpl.
      rewrite bool_decide_eq_true_2 by done. rewrite Hd. apply orb_true_r.
    - injection Hstep as <-. exists []. split; [by rewrite app_nil_r|done]. }
  exists (evs1 ++ evs2). split; [by rewrite Ht2, Ht1, app_assoc|].
  intros k Hk Hex. rewrite existsb_app. apply orb_true_iff.
  apply elem_of_cons in Hk as [->|Hk]; [left; by apply Hc1|right].
  apply Hc2; [done|]. by eapply exists_within.
Qed.

Lemma copy_roots_copied self rcf dest (roots : list (str * str)) w w1 :
  dry_run self = false ->
  for_each roots (fun '(src_dir, suffix) =>
    _copy_by_rcf self rcf src_dir (dest ++ suffix)) w = (Ok tt, w1) ->
  exists evs,
    trace w1 = trace w ++ evs
    /\ forall root sfx k,
         (root, sfx) ∈ roots -> k ∈ rcf ->
         is_Some (Os.find (PosixPath.join2 root k) (fs w)) ->
         existsb (copied (PosixPath.join2 root k) (PosixPath.join2 (dest ++ sfx) k)) evs
         = true.
Proof.
  intros Hwet. revert w. induction roots as [|[r0 s0] roots IH]; intros w.
  { intros [= <-]. exists []. split; [by rewrite app_nil_r|].
    intros root sfx k Hr. by apply elem_of_nil in Hr. }
  rewrite for_each_cons. intros ([] & wa & Hstep & Hrest)%bind_inv_ok.
  destruct (IH _ Hrest) as (evs2 & Ht2 & Hc2).
  destruct (copy_by_rcf_copied _ _ _ _ _ _ Hwet Hstep) as (evs1 & Ht1 & Hc1).
  pose proof (grows_copy_by_rcf _ _ _ _ _ _ _ Hstep) as Hin.
  exists (evs1 ++ evs2). split; [by rewrite Ht2, Ht1, app_assoc|].
  intros root sfx k Hr Hk Hex. rewrite existsb_app. apply orb_true_iff.
  apply elem_of_cons in Hr as [[= -> ->]|Hr]; [left; by apply Hc1|right].
  apply (Hc2 _ _ _ Hr Hk). by eapply exists_within.
Qed.

Lemma grows_saveinfo_to_dir self si : grows (_saveinfo_to_dir self si).
Proof.
  unfold _saveinfo_to_dir. apply grows_bind; [apply grows_get_savesdir|].
  intros d. apply grows_readonly, readonly_ret.
Qed.

(** The copy phase of a snapshot that returns has copied every manifest
    entry that was below a root of the game when it began. *)
Lemma copy_all_to_copied self si rcf roots w w1 :
  dry_run self = false ->
  save_games_roots (game_info si) = Some roots ->
  _copy_all_to_saveinfo self si rcf w = (Ok tt, w1) ->
  exists evs,
    trace w1 = trace w ++ evs
    /\ forall root sfx k,
         (root, sfx) ∈ roots -> k ∈ rcf ->
         is_Some (Os.find (PosixPath.join2 root k) (fs w)) ->
         existsb (copied (PosixPath.join2 root k)
                    (PosixPath.join2
                       (PosixPath.join2 (savesdir self) (filename si) ++ sfx) k)) evs
         = true.
Proof.
  intros Hwet Hroots. unfold _copy_all_to_saveinfo, try_except.
  destruct (bind _ _ w) as [[[]|e] w2] eqn:E.
  2:{ intros H. apply bind_inv in H as [(? & ? & _ & [=])|(? & _ & [=])]. }
  intros [= <-].
  apply bind_inv_ok in E as (dest & wa & Hdir & E).
  destruct (emits_saveinfo_to_dir _ _ _ _ _ Hdir) as (evs1 & Ht1 & _).
  pose proof (grows_saveinfo_to_dir _ _ _ _ _ Hdir) as Hin.
  assert (dest = PosixPath.join2 (savesdir self) (filename si)) as ->.
  { unfold _saveinfo_to_dir in Hdir.
    apply bind_inv_ok in Hdir as (d & w3 & Hd & Hdir).
    apply get_savesdir_value in Hd as ->. by injection Hdir as <- _. }
  unfold _get_game_roots in E. rewrite Hroots in E.
  unfold bind at 1, ret at 1 in E.
  destruct (copy_roots_copied _ _ _ _ _ _ Hwet E) as (evs2 & Ht2 & Hc2).
  exists (evs1 ++ evs2). split; [by rewrite Ht2, Ht1, app_assoc|].
  intros root sfx k Hr Hk Hex. rewrite existsb_app. apply orb_true_iff. right.
  apply (Hc2 _ _ _ Hr Hk). by eapply exists_within.
Qed.

Lemma grows_json_dump si p : grows (Os.json_dump si p).
Proof.
  unfold Os.json_dump. apply grows_bind; [apply grows_readonly, readonly_clock_ns|].
  intros t. apply grows_bind.
  - intros w r w' H. apply put_file_fs in H. destruct r as [u|e].
    + by eapply within_put.
    + subst w'. apply within_refl.
  - intros _ w r w' [= _ <-]. apply within_refl.
Qed.

Lemma grows_create_savedir self gi undo : grows (_create_savedir self gi undo).
Proof.
  unfold _create_savedir.
  apply grows_bind; [apply grows_readonly, readonly_get_game_roots|]. intros roots.
  apply grows_bind; [apply grows_readonly, readonly_assert|]. intros _.
  apply grows_bind; [apply grows_readonly, readonly_time_ms|]. intros ts.
  apply grows_bind; [apply grows_saveinfo_to_dir|]. intros path.
  apply grows_bind; [|intros _; apply grows_readonly, readonly_ret].
  destruct (negb (dry_run self)); [apply grows_json_dump|].
  apply grows_readonly, readonly_ret.
Qed.

End UndoFacts.

Section RestoreOrder.

Import Store Events Frame Tree PathFacts BelowFacts StoreFacts Run ReadOnly EventFacts
  FirstUseFacts OrderFacts DryFacts RestoreOrderFacts GrowFacts UndoFacts.

(** X9.  A restore of a regular snapshot saves the game's files in an undo
    snapshot before it overwrites them.  With the engine not in dry-run
    mode, manifest entries that are relative paths without [..] and save
    roots without [..], the events of a restore that succeeds are, in this
    order: directories made, the
    write of the sidecar of the undo snapshot [undo_<game>_<time>], copies
    to below the directory of the undo snapshot, copies from below the
    directory of the snapshot restored, and the removals of culling.  Among
    the copies to the undo snapshot there is, for every root of the game
    and every manifest entry that is there below the root when the restore
    begins, the copy of that file to the entry of the same name in the
    directory that the undo snapshot has for the root. *)
Theorem do_restore_saves_undo_first self si w rcf gi' w' :
  dry_run self = false ->
  is_undo si = false ->
  _read_rcf self (game_info si) w = (Ok (Some rcf, gi'), w) ->
  Forall inside rcf ->
  direct_roots gi' ->
  do_restore self si w = (Ok tt, w') ->
  exists undo pre to_undo from_snapshot culls,
    filename undo = snapshot_name true (game_id gi') (now w)
    /\ trace w' = trace w ++ pre ++ [EvWrite (sidecar_path self undo)]
                  ++ to_undo ++ from_snapshot ++ culls
    /\ forallb is_makedirs pre = true
    /\ forallb (copy_event "" (PosixPath.join2 (savesdir self) (filename undo)))
         to_undo = true
    /\ forallb (copy_event (PosixPath.join2 (savesdir self) (filename si)) "")
         from_snapshot = true
    /\ forallb is_culling culls = true
    /\ (forall roots root sfx k,
          save_games_roots gi' = Some roots -> (root, sfx) ∈ roots -> k ∈ rcf ->
          is_Some (Os.find (PosixPath.join2 root k) (fs w)) ->
          existsb (copied (PosixPath.join2 root k)
                     (PosixPath.join2
                        (PosixPath.join2 (savesdir self) (filename undo) ++ sfx) k))
            to_undo = true).
Proof.
  intros Hdry Hreg Hrcf Hin _. pose proof (inside_relative _ Hin) as Hrel.
  unfold do_restore.
  rewrite (bind_ok _ _ _ _ _ Hrcf).
  intros (? & w1 & H1 & H)%bind_inv_ok.
  apply readonly_run in H1 as ->; [|apply readonly_assert].
  simpl is_undo in H. rewrite Hreg in H. simpl negb in H. cbv iota in H.
  apply bind_inv_ok in H as (? & w2 & Hundo & H).
  apply bind_inv_ok in Hundo as (undo & w1 & Hcreate & Hcopy).
  destruct (create_savedir_events _ _ _ _ _ _ Hdry Hcreate) as (pre & Ht1 & Hpre).
  destruct (create_savedir_name _ _ _ _ _ _ Hcreate) as (Hname & _ & Hgi).
  pose proof (grows_create_savedir _ _ _ _ _ _ Hcreate) as Hgrown.
  destruct x0. destruct (copy_all_to_between _ _ _ _ _ Hrel Hcopy) as (A & Ht2 & HA).
  apply bind_inv_ok in H as (? & w3 & Hfrom & H).
  destruct (emits_copy_all_from_between self (with_game_info si gi') rcf Hrel _ _ _ Hfrom)
    as (B & Ht3 & HB).
  apply bind_inv_ok in H as (? & w4 & Hcull & H).
  destruct (emits_cull_old_saves _ _ _ _ Hcull) as (culls & Ht4 & Hculls).
  injection H as <-.
  exists undo, pre, A, B, culls. split; [done|]. simpl.
  rewrite Ht4, Ht3, Ht2, Ht1. repeat split; try done; [by rewrite <- !app_assoc|].
  intros roots root sfx k Hroots Hr Hk Hex.
  rewrite <- Hgi in Hroots.
  destruct (copy_all_to_copied _ _ _ _ _ _ Hdry Hroots Hcopy) as (A' & Ht2' & HA').
  rewrite Ht2 in Ht2'. apply app_inv_head in Ht2'. subst A'.
  apply (HA' _ _ _ Hr Hk). by eapply exists_within.
Qed.

(** The theorem on a restore of the example game: the file [save.dat] of
    the game is copied to the undo snapshot, and then overwritten. *)
Lemma do_restore_saves_undo_first_example :
  let w := Demo.world_of (Demo.snapshot false 1 100) (Demo.save_dat 150000000) 200 in
  exists w',
    do_restore Demo.engine (Demo.info false 1 100) w = (Ok tt, w')
    /\ trace w'
       = [EvWrite "/data/saves2/undo_1_200.json";
          EvMakedirs "/data/saves2/undo_1_200";
          EvCopy "/steam/userdata/7/1/remote/save.dat" "/data/saves2/undo_1_200/save.dat";
          EvMakedirs "/steam/userdata/7/1/remote";
          EvCopy "/data/saves2/save_1_100/save.dat" "/steam/userdata/7/1/remote/save.dat"].
Proof.
  intros w. set (w' := (do_restore Demo.engine (Demo.info false 1 100) w).2).
  assert (do_restore Demo.engine (Demo.info false 1 100) w = (Ok tt, w')) as Hrun
    by (vm_compute; reflexivity).
  destruct (do_restore_saves_undo_first Demo.engine (Demo.info false 1 100) w
              ["save.dat"] (Demo.game 1) w') as (undo & pre & A & B & culls & _).
  - reflexivity.
  - reflexivity.
  - vm_compute. reflexivity.
  - repeat constructor; apply inside_b_spec; vm_compute; reflexivity.
  - intros roots [= <-]. constructor; [|constructor].
    apply direct_b_spec. vm_compute. reflexivity.
  - exact Hrun.
  - exists w'. split; [exact Hrun|]. vm_compute. reflexivity.
Defined.

End RestoreOrder.

(** ** Using a snapshot again *)

Module ClockFacts.

Import Store Events Frame Run ReadOnly FrameFacts.

Lemma keeps_now_set_fs n : keeps now (set_fs n).
Proof. by intros w r w' [= <- <-]. Qed.

Lemma keeps_now_log e : keeps now (log e).
Proof. by intros w r w' [= <- <-]. Qed.

Lemma keeps_now_makedirs p ok : keeps now (Os.makedirs p ok).
Proof.
  unfold Os.makedirs.
  apply keeps_bind; [destruct (bool_decide _); apply keeps_readonly; readonly|]. intros _.
  apply keeps_bind; [apply keeps_readonly, readonly_check_io|]. intros _.
  apply keeps_bind; [apply keeps_readonly; readonly|]. intros n.
  apply keeps_bind; [apply keeps_readonly, readonly_clock_ns|]. intros t.
  apply keeps_bind; [apply keeps_readonly; unfold lift; by intros w|]. intros n'.
  apply keeps_bind; [apply keeps_now_set_fs|]. intros _. apply keeps_now_log.
Qed.

Lemma keeps_now_put_file p c t : keeps now (Os.put_file p c t).
Proof.
  unfold Os.put_file.
  apply keeps_bind; [apply keeps_readonly, readonly_check_io|]. intros _.
  apply keeps_bind; [apply keeps_readonly; readonly|]. intros n.
  apply keeps_bind; [apply keeps_readonly; unfold lift; by intros w|]. intros n'.
  apply keeps_now_set_fs.
Qed.

Lemma keeps_now_copy2 src dst : keeps now (Os.copy2 src dst).
Proof.
  unfold Os.copy2.
  apply keeps_bind; [apply keeps_readonly, readonly_isdir|]. intros d.
  apply keeps_bind; [apply keeps_readonly; readonly|]. intros n.
  destruct (Os.find src n) as [m|]; [|apply keeps_readonly, readonly_raise].
  destruct (bool_decide _); [apply keeps_readonly, readonly_raise|].
  destruct m; [|apply keeps_readonly, readonly_raise].
  apply keeps_bind; [apply keeps_now_put_file|]. intros _. apply keeps_now_log.
Qed.

Lemma keeps_now_get_savesdir self : keeps now (_get_savesdir self).
Proof.
  unfold _get_savesdir.
  apply keeps_bind; [apply keeps_readonly, readonly_exists|]. intros e.
  apply keeps_bind; [|intros _; apply keeps_readonly, readonly_ret].
  destruct (negb e); [apply keeps_now_makedirs | apply keeps_readonly, readonly_ret].
Qed.

Lemma keeps_now_copy_by_rcf self rcf src dst : keeps now (_copy_by_rcf self rcf src dst).
Proof.
  unfold _copy_by_rcf. apply keeps_for_each. intros k.
  apply keeps_bind; [apply keeps_readonly, readonly_exists|].
  intros [|]; [|apply keeps_readonly, readonly_ret].
  destruct (negb (dry_run self)); [|apply keeps_readonly, readonly_ret].
  apply keeps_bind; [apply keeps_now_makedirs | intros _; apply keeps_now_copy2].
Qed.

Lemma keeps_now_copy_all_from self si rcf :
  keeps now (_copy_all_from_saveinfo self si rcf).
Proof.
  unfold _copy_all_from_saveinfo, _saveinfo_to_dir.
  apply keeps_bind.
  { apply keeps_bind; [apply keeps_now_get_savesdir|].
    intros d. apply keeps_readonly, readonly_ret. }
  intros mirror. apply keeps_bind; [apply keeps_readonly, readonly_get_game_roots|].
  intros roots. apply keeps_for_each. intros [d sfx]. apply keeps_now_copy_by_rcf.
Qed.

End ClockFacts.

Section Reuse.

Import Store Events Frame PathFacts BelowFacts StoreFacts Run ReadOnly EventFacts
  FirstUseFacts OrderFacts DryFacts RestoreOrderFacts FrameFacts ClockFacts.

(** X20. Using the snapshot last used again.  With nothing noted,
    [do_reuse] returns at once and leaves the state as it is.  With a
    snapshot noted, the engine not in dry-run mode and relative manifest
    entries, the events of a [do_reuse] that succeeds are, in this order:
    copies from below the directory of the snapshot noted (and
    directories made), the write of the sidecar of a new regular snapshot
    [save_<game>_<time>], copies to below the directory of the new snapshot,
    and removals; afterwards the new snapshot is the one noted.  No
    snapshot is culled in between. *)
Theorem do_reuse_makes_new_snapshot self w :
  (last_used_save_info w = None -> do_reuse self w = (Ok tt, w))
  /\ (forall si rcf gi' w',
        last_used_save_info w = Some si ->
        dry_run self = false ->
        _read_rcf self (game_info si) w = (Ok (Some rcf, gi'), w) ->
        Forall relative rcf ->
        do_reuse self w = (Ok tt, w') ->
        exists new from_old pre to_new removals,
          new = {| game_info := gi'; timestamp := now w;
                   filename := snapshot_name false (game_id gi') (now w);
                   is_undo := false |}
          /\ last_used_save_info w' = Some new
          /\ trace w' = trace w ++ from_old ++ pre ++ [EvWrite (sidecar_path self new)]
                        ++ to_new ++ removals
          /\ forallb (copy_event (PosixPath.join2 (savesdir self) (filename si)) "")
               from_old = true
          /\ forallb is_makedirs pre = true
          /\ forallb (copy_event "" (PosixPath.join2 (savesdir self) (filename new)))
               to_new = true
          /\ forallb is_culling removals = true).
Proof.
  split.
  { intros Hnone. unfold do_reuse, bind, get_last_used_save_info. by rewrite Hnone. }
  intros si rcf gi' w' Hsome Hwet Hrcf Hrel. unfold do_reuse.
  unfold bind at 1, get_last_used_save_info. rewrite Hsome.
  rewrite (bind_ok _ _ _ _ _ Hrcf).
  intros (? & w1 & H1 & H)%bind_inv_ok.
  apply readonly_run in H1 as ->; [|apply readonly_assert].
  apply bind_inv_ok in H as (? & w2 & Hfrom & H).
  destruct (emits_copy_all_from_between self (with_game_info si gi') rcf Hrel _ _ _ Hfrom)
    as (A & Ht1 & HA).
  pose proof (keeps_now_copy_all_from _ _ _ _ _ _ Hfrom) as Hnow.
  apply bind_inv_ok in H as (new & w3 & Hcreate & H).
  destruct (create_savedir_events _ _ _ _ _ _ Hwet Hcreate) as (pre & Ht2 & Hpre).
  assert (new = {| game_info := gi'; timestamp := now w;
                   filename := snapshot_name false (game_id gi') (now w);
                   is_undo := false |}) as Hnew.
  { revert Hcreate. unfold _create_savedir.
    intros (roots & w4 & H1 & Hc)%bind_inv_ok.
    apply readonly_run in H1 as ->; [|apply readonly_get_game_roots].
    apply bind_inv_ok in Hc as (? & w4 & H1 & Hc).
    apply readonly_run in H1 as ->; [|apply readonly_assert].
    apply bind_inv_ok in Hc as (ts & w4 & H1 & Hc). injection H1 as <- <-.
    apply bind_inv_ok in Hc as (path & w4 & _ & Hc).
    apply bind_inv_ok in Hc as (? & w5 & _ & Hc). injection Hc as <- _.
    by rewrite Hnow. }
  apply bind_inv_ok in H as ([] & w4 & Hto & H).
  destruct (copy_all_to_between _ _ _ _ _ Hrel Hto) as (B & Ht3 & HB).
  apply bind_inv_ok in H as (? & w5 & Hset & H). injection Hset as Hw5. subst w5.
  destruct (emits_delete_savedir _ _ _ _ _ H) as (D & Ht4 & HD).
  pose proof (keeps_delete_savedir _ _ _ _ _ H) as Hlast.
  exists new, A, pre, B, D. split; [exact Hnew|]. split; [exact Hlast|].
  simpl in Ht4. rewrite Ht4, Ht3, Ht2, Ht1.
  repeat split; try done. by rewrite <- !app_assoc.
Qed.

(** The theorem on a store with the snapshot [save_1_100], noted, at the
    time 200. *)
Lemma do_reuse_makes_new_snapshot_example :
  let w := DemoX.noted (Demo.info false 1 100)
             (Demo.world_of (Demo.snapshot false 1 100) (Demo.save_dat 150000000) 200) in
  exists w',
    do_reuse Demo.engine w = (Ok tt, w')
    /\ last_used_save_info w' = Some (Demo.info false 1 200)
    /\ trace w'
       = [EvMakedirs "/steam/userdata/7/1/remote";
          EvCopy "/data/saves2/save_1_100/save.dat" "/steam/userdata/7/1/remote/save.dat";
          EvWrite "/data/saves2/save_1_200.json";
          EvMakedirs "/data/saves2/save_1_200";
          EvCopy "/steam/userdata/7/1/remote/save.dat" "/data/saves2/save_1_200/save.dat";
          EvRemove "/data/saves2/save_1_100.json";
          EvRmtree "/data/saves2/save_1_100"].
Proof.
  intros w. set (w' := (do_reuse Demo.engine w).2).
  assert (do_reuse Demo.engine w = (Ok tt, w')) as Hrun by (vm_compute; reflexivity).
  destruct (proj2 (do_reuse_makes_new_snapshot Demo.engine w)
              (Demo.info false 1 100) ["save.dat"] (Demo.game 1) w')
    as (new & A & pre & B & D & Hnew & Hlast & _).
  - reflexivity.
  - reflexivity.
  - vm_compute. reflexivity.
  - repeat constructor.
  - exact Hrun.
  - exists w'. split; [exact Hrun|]. split.
    + rewrite Hlast, Hnew. reflexivity.
    + vm_compute. reflexivity.
Defined.

End Reuse.

(** ** The library list *)

Module LibFacts.

Import Re ReSpec ReFacts KeyValue KeyValueFacts Libraries.

Lemma lib_form_matches v line :
  line_form "path" v line <-> matches libMatch line [v].
Proof.
  split.
  - intros (w1 & w2 & w3 & -> & H1 & H2 & Hne & H3 & _ & Hv & _ & Hvn).
    apply matches_star; [done|]. simpl. do 6 apply matches_lit.
    apply matches_plus; [done | done|]. simpl. apply matches_lit.
    apply matches_group; [done | by apply all_in_Dot|]. simpl. apply matches_lit.
    rewrite <- (app_nil_r w3). apply matches_star; [done | constructor].
  - unfold libMatch. intros H.
    inversion H as [| | ? ? w1 s1 ? H1 M1 | |]; subst; clear H.
    inversion M1 as [| ? ? s2 ? M2 | | |]; subst; clear M1.
    inversion M2 as [| ? ? s3 ? M3 | | |]; subst; clear M2.
    inversion M3 as [| ? ? s4 ? M4 | | |]; subst; clear M3.
    inversion M4 as [| ? ? s5 ? M5 | | |]; subst; clear M4.
    inversion M5 as [| ? ? s6 ? M6 | | |]; subst; clear M5.
    inversion M6 as [| ? ? s7 ? M7 | | |]; subst; clear M6.
    inversion M7 as [| | | ? ? w2 s8 ? Hne H2 M8 |]; subst; clear M7.
    inversion M8 as [| ? ? s9 ? M9 | | |]; subst; clear M8.
    inversion M9 as [| | | |? ? wv s10 ? Hv Hvd M10]; subst; clear M9.
    inversion M10 as [| ? ? s11 ? M11 | | |]; subst; clear M10.
    inversion M11 as [| | ? ? w3 s12 ? H3 M12 | |]; subst; clear M11.
    inversion M12; subst. rewrite app_nil_r.
    exists w1, w2, w3. repeat split; try done; try by apply all_in_Dot.
    intros Hin. repeat (apply elem_of_cons in Hin as [[=]|Hin]).
    by apply elem_of_nil in Hin.
Qed.

Lemma matches_libMatch_groups line gs :
  matches libMatch line gs -> exists v, gs = [v].
Proof.
  unfold libMatch. intros H.
  inversion H as [| | ? ? w1 s1 ? H1 M1 | |]; subst; clear H.
  inversion M1 as [| ? ? s2 ? M2 | | |]; subst; clear M1.
  inversion M2 as [| ? ? s3 ? M3 | | |]; subst; clear M2.
  inversion M3 as [| ? ? s4 ? M4 | | |]; subst; clear M3.
  inversion M4 as [| ? ? s5 ? M5 | | |]; subst; clear M4.
  inversion M5 as [| ? ? s6 ? M6 | | |]; subst; clear M5.
  inversion M6 as [| ? ? s7 ? M7 | | |]; subst; clear M6.
  inversion M7 as [| | | ? ? w2 s8 ? Hne H2 M8 |]; subst; clear M7.
  inversion M8 as [| ? ? s9 ? M9 | | |]; subst; clear M8.
  inversion M9 as [| | | |? ? wv s10 ? Hv Hvd M10]; subst; clear M9.
  inversion M10 as [| ? ? s11 ? M11 | | |]; subst; clear M10.
  inversion M11 as [| | ? ? w3 s12 ? H3 M12 | |]; subst; clear M11.
  inversion M12; subst. by eexists.
Qed.

(** The key of a line fixes its value. *)
Lemma line_form_value k v v' line :
  line_form k v line -> line_form k v' line -> v = v'.
Proof.
  intros (w1 & w2 & w3 & -> & H1 & H2 & _ & H3 & _)
         (w1' & w2' & w3' & Hline & H1' & H2' & _ & H3' & _).
  simpl in Hline. apply spaces_then_quote in Hline as [_ Hrest]; [|done..].
  apply app_inv_head in Hrest. injection Hrest as Hrest.
  apply spaces_then_quote in Hrest as [_ Hrest]; [|done..].
  by apply quote_then_spaces in Hrest as [-> _].
Qed.

Lemma libs_line_take d v line :
  line_form "path" v line -> libs_line d line = d ++ [v].
Proof.
  intros Hf. unfold libs_line. pose proof Hf as Hm. apply lib_form_matches in Hm.
  destruct (fullmatch_complete _ _ _ Hm) as [gs Hgs]. rewrite Hgs.
  pose proof (fullmatch_sound _ _ _ Hgs) as Hs.
  destruct (matches_libMatch_groups _ _ Hs) as [v' ->].
  apply lib_form_matches in Hs. by rewrite (line_form_value _ _ _ _ Hf Hs).
Qed.

Lemma libs_line_cases d line :
  (exists v, line_form "path" v line /\ libs_line d line = d ++ [v])
  \/ ((forall v, ~ line_form "path" v line) /\ libs_line d line = d).
Proof.
  unfold libs_line. destruct (fullmatch libMatch line) as [gs|] eqn:E.
  - pose proof (fullmatch_sound _ _ _ E) as Hs.
    destruct (matches_libMatch_groups _ _ Hs) as [v ->].
    left. exists v. split; [by apply lib_form_matches | done].
  - right. split; [|done]. intros v Hf. apply lib_form_matches in Hf.
    destruct (fullmatch_complete _ _ _ Hf) as [gs Hgs]. by rewrite E in Hgs.
Qed.

Lemma libs_line_skip d line :
  (forall v, ~ line_form "path" v line) -> libs_line d line = d.
Proof.
  intros Hno. destruct (libs_line_cases d line) as [(v & Hf & _)|[_ H]]; [|done].
  by destruct (Hno v).
Qed.

Lemma fold_libs_line lines vs d :
  path_values lines vs -> fold_left libs_line lines d = d ++ vs.
Proof.
  intros H. revert d. induction H as [|line lines vs Hno _ IH|line v lines vs Hf _ IH];
    intros d; simpl.
  - by rewrite app_nil_r.
  - rewrite libs_line_skip by done. apply IH.
  - rewrite (libs_line_take d v line Hf), IH. by rewrite <- app_assoc.
Qed.

Lemma path_values_total lines : path_values lines (fold_left libs_line lines []).
Proof.
  assert (forall d, exists vs, fold_left libs_line lines d = d ++ vs /\ path_values lines vs)
    as H.
  { induction lines as [|line lines IH]; intros d.
    - exists []. split; [by rewrite app_nil_r | constructor].
    - simpl. destruct (libs_line_cases d line) as [(v & Hf & ->)|[Hno ->]].
      + destruct (IH (d ++ [v])) as (vs & -> & Hvs). exists (v :: vs).
        split; [by rewrite <- app_assoc | by constructor].
      + destruct (IH d) as (vs & -> & Hvs). exists vs. split; [done | by constructor]. }
  destruct (H []) as (vs & -> & Hvs). done.
Qed.

Lemma path_values_functional lines vs vs' :
  path_values lines vs -> path_values lines vs' -> vs = vs'.
Proof.
  intros H1 H2. apply (fold_libs_line _ _ []) in H1, H2. simpl in *. congruence.
Qed.

End LibFacts.

Section LibraryList.

Import Re KeyValue KeyValueFacts Libraries LibFacts Run ReadOnly.

(** X21. [_parse_libs] leaves the state as it is.  Unlike [_parse_vcf] it
    catches nothing: a file that is missing raises [FileNotFoundError].  For
    a readable text file it returns exactly the values [v] of the lines of
    the form ["path" "v"] (space around and between the two quoted strings),
    in the order of the lines and with repetitions; a line has at most one
    such value, and every other line is skipped. *)
Theorem parse_libs_lists_paths path w :
  (Os.find path (fs w) = None ->
   _parse_libs path w = (Raise FileNotFoundError, w))
  /\ (forall text mtime vs,
        Os.find path (fs w) = Some (File (Text text) mtime) ->
        _parse_libs path w = (Ok vs, w)
        <-> path_values (Os.lines_from [] (Os.universal_newlines text)) vs)
  /\ (forall line v v',
        line_form "path" v line -> line_form "path" v' line -> v = v').
Proof.
  split; [|split].
  - intros Hnone. unfold _parse_libs, Os.readlines, Os.read_text, Os.open_read.
    unfold bind, get_fs. by rewrite Hnone.
  - intros text mtime vs Hfile.
    assert (_parse_libs path w
            = (Ok (fold_left libs_line
                     (Os.lines_from [] (Os.universal_newlines text)) []), w)) as ->.
    { unfold _parse_libs, Os.readlines, Os.read_text, Os.open_read.
      unfold bind, get_fs. by rewrite Hfile. }
    split.
    + intros [= <-]. apply path_values_total.
    + intros H. by rewrite (fold_libs_line _ _ [] H).
  - intros line v v'. apply line_form_value.
Qed.

(** The library list of the example, which has two libraries and a line
    with another key. *)
Lemma parse_libs_lists_paths_example :
  _get_all_library Demo.engine DemoX.library
  = (Ok ["/steam"; "/run/media/sd"], DemoX.library)
  /\ path_values (Os.lines_from [] (Os.universal_newlines DemoX.libraryfolders))
       ["/steam"; "/run/media/sd"].
Proof.
  assert (_parse_libs "/steam/steamapps/libraryfolders.vdf" DemoX.library
          = (Ok ["/steam"; "/run/media/sd"], DemoX.library)) as Hrun
    by (vm_compute; reflexivity).
  split; [exact Hrun|].
  apply (proj1 (proj1 (proj2 (parse_libs_lists_paths
                 "/steam/steamapps/libraryfolders.vdf" DemoX.library))
               DemoX.libraryfolders 0 ["/steam"; "/run/media/sd"] eq_refl)).
  exact Hrun.
Defined.

End LibraryList.

(** ** The accounts *)

Module IntFacts.

Import Libraries Run ReadOnly PathFacts.

Lemma numeric_char_props c :
  numeric_char c = true ->
  isspace c = false /\ c <> "-"%char /\ c <> "+"%char /\ c <> "_"%char.
Proof.
  destruct c as [[] [] [] [] [] [] [] []]; intros H; try discriminate H;
    repeat split; discriminate.
Qed.

Lemma decimal_numeric c : decimal_char c = true -> numeric_char c = true.
Proof. destruct c as [[] [] [] [] [] [] [] []]; intros H; try discriminate H; reflexivity. Qed.

Lemma decimal_char_digit k : (k < 10)%nat -> decimal_char (digit k) = true.
Proof. intros H. do 10 (destruct k as [|k]; [reflexivity|]). lia. Qed.

Lemma value_digit k : (k < 10)%nat -> Z.of_nat (nat_of_ascii (digit k)) - 48 = Z.of_nat k.
Proof. intros H. do 10 (destruct k as [|k]; [reflexivity|]). lia. Qed.

Lemma digits_fuel_decimal fuel n acc :
  Forall (fun c => decimal_char c = true) acc ->
  Forall (fun c => decimal_char c = true) (digits_fuel fuel n acc).
Proof.
  revert n acc. induction fuel as [|fuel IH]; intros n acc Hacc; simpl; [done|].
  assert (Hd : decimal_char (digit (N.to_nat (n mod 10))) = true).
  { apply decimal_char_digit. pose proof (N.mod_lt n 10 ltac:(done)). lia. }
  destruct (n <? 10)%N; [by constructor | apply IH; by constructor].
Qed.

(** The digits that [str] writes are read back as the number. *)
Lemma decimal_value_digits fuel n acc :
  (n < 2 ^ N.of_nat fuel)%N ->
  decimal_value 0 (digits_fuel fuel n acc) = decimal_value (Z.of_N n) acc.
Proof.
  revert n acc. induction fuel as [|fuel IH]; intros n acc Hn.
  { change (N.of_nat 0) with 0%N in Hn. rewrite N.pow_0_r in Hn.
    assert (n = 0%N) as -> by lia. done. }
  simpl digits_fuel.
  assert (n mod 10 < 10)%N as Hm by (by apply N.mod_lt).
  assert (decimal_value (Z.of_N (n / 10)) (digit (N.to_nat (n mod 10)) :: acc)
          = decimal_value (Z.of_N n) acc) as Hstep.
  { unfold decimal_value. simpl. f_equal. rewrite value_digit by lia.
    rewrite (N.div_mod n 10) at 3 by done. lia. }
  destruct (n <? 10)%N eqn:E.
  - apply N.ltb_lt in E. rewrite <- Hstep.
    rewrite (N.div_small n 10) by done. done.
  - apply N.ltb_ge in E. rewrite IH; [done|].
    rewrite Nat2N.inj_succ, N.pow_succ_r' in Hn.
    apply N.Div0.div_lt_upper_bound. lia.
Qed.

Lemma decimal_value_str_of_N n : decimal_value 0 (str_of_N n) = Z.of_N n.
Proof.
  unfold str_of_N. rewrite decimal_value_digits; [done|].
  destruct n as [|p]; [done|].
  rewrite Nat2N.inj_succ, N2Nat.id. apply N.log2_spec. lia.
Qed.

Lemma strip_no_space s : Forall (fun c => isspace c = false) s -> strip s = s.
Proof.
  intros H. assert (forall t, Forall (fun c => isspace c = false) t -> lstrip t = t) as Hl.
  { intros t Ht. destruct Ht as [|c t Hc _]; [done|]. simpl. by rewrite Hc. }
  unfold strip, rstrip. rewrite (Hl s H), Hl by by apply Forall_rev.
  apply rev_involutive.
Qed.

(** [int] of a numeric name: the number that decimal digits write, and
    [ValueError] when a character is no decimal digit. *)
Lemma int_numeric s w :
  isnumeric s = true ->
  int_ s w = (if forallb decimal_char s && (length s <=? 4300)%nat
              then Ok (decimal_value 0 s) else Raise ValueError, w).
Proof.
  unfold isnumeric. intros [Hne Hnum]%andb_true_iff.
  apply negb_true_iff, bool_decide_eq_false in Hne.
  rewrite forallb_forall in Hnum.
  assert (Forall (fun c => numeric_char c = true) s) as Hall.
  { apply Forall_forall. intros c Hc. by apply Hnum, list_elem_of_In. }
  unfold int_. rewrite strip_no_space.
  2:{ eapply Forall_impl; [exact Hall|]. intros c Hc. by apply numeric_char_props. }
  destruct s as [|c s]; [done|].
  apply Forall_cons in Hall as [Hc Hs].
  destruct (numeric_char_props c Hc) as (_ & Hm & Hp & _).
  rewrite !bool_decide_eq_false_2 by done.
  rewrite split_no_sep.
  2:{ intros Hin. assert (Forall (fun x => numeric_char x = true) (c :: s)) as Hall
        by by constructor.
      rewrite Forall_forall in Hall. specialize (Hall _ Hin).
      by apply numeric_char_props in Hall as (_ & _ & _ & ?). }
  unfold digits_of_groups. cbn [forallb]. rewrite bool_decide_eq_false_2 by done.
  cbn [negb andb]. rewrite andb_true_r.
  destruct (decimal_char c && forallb decimal_char s) eqn:Ed; [|done].
  cbn [concat]. rewrite app_nil_r. cbn [andb].
  destruct (length (c :: s) <=? 4300)%nat eqn:El.
  - apply Nat.leb_le in El. by rewrite (proj2 (Nat.ltb_ge _ _)) by lia.
  - apply Nat.leb_gt in El. by rewrite (proj2 (Nat.ltb_lt _ _)) by lia.
Qed.

(** The name that [str] gives a positive number is numeric, is not [0],
    and is read back as the number. *)
Lemma str_of_int_numeric a :
  0 < a ->
  isnumeric (str_of_int a) = true /\ str_of_int a <> "0"
  /\ forallb decimal_char (str_of_int a) = true
  /\ decimal_value 0 (str_of_int a) = a.
Proof.
  intros Ha. unfold str_of_int. rewrite (proj2 (Z.ltb_ge _ _)) by lia.
  assert (Forall (fun c => decimal_char c = true) (str_of_N (Z.to_N a))) as Hd
    by by apply digits_fuel_decimal.
  assert (decimal_value 0 (str_of_N (Z.to_N a)) = a) as Hv
    by (rewrite decimal_value_str_of_N; lia).
  split; [|split; [|split]]; try done.
  - unfold isnumeric. apply andb_true_iff. split.
    + apply negb_true_iff, bool_decide_eq_false. apply NameFacts.digits_fuel_not_nil.
    + apply forallb_forall. intros c Hc%list_elem_of_In. apply decimal_numeric.
      rewrite Forall_forall in Hd. by apply Hd.
  - intros E. rewrite E in Hv. vm_compute in Hv. lia.
  - apply forallb_forall. intros c Hc%list_elem_of_In.
    rewrite Forall_forall in Hd. by apply Hd.
Qed.

End IntFacts.

Module AccountFacts.

Import Libraries IntFacts Run ReadOnly.

(** What the loop of [auto_set_account_id] makes of one entry. *)
Lemma entry_cases (f : str) w :
  (if isnumeric f && negb (bool_decide (f = "0"))
   then do i <- int_ f; ret (Some i)
   else ret None) w
  = (if isnumeric f && negb (bool_decide (f = "0"))
     then if forallb decimal_char f && (length f <=? 4300)%nat
          then Ok (Some (decimal_value 0 f)) else Raise ValueError
     else Ok None, w).
Proof.
  destruct (isnumeric f) eqn:En; [|done].
  destruct (negb _); [|done]. cbn [andb]. unfold bind. rewrite (int_numeric f w En).
  by destruct (_ && _).
Qed.

Lemma entries_read names expected w :
  Forall2 account_entry names expected ->
  map_M (fun f => if isnumeric f && negb (bool_decide (f = "0"))
                  then do i <- int_ f; ret (Some i)
                  else ret None) names w
  = (Ok expected, w).
Proof.
  induction 1 as [|name o names expected Hentry _ IH]; [done|].
  simpl map_M.
  assert ((if isnumeric name && negb (bool_decide (name = "0"))
           then do i <- int_ name; ret (Some i)
           else ret None) w = (Ok o, w)) as Hhead.
  { rewrite entry_cases. destruct o as [a|]; simpl in Hentry.
    - destruct Hentry as (Ha & -> & Hlen).
      destruct (str_of_int_numeric a Ha) as (Hn & H0 & Hd & Hv).
      rewrite Hn, Hd, Hv. rewrite bool_decide_eq_false_2 by done.
      by rewrite (proj2 (Nat.leb_le _ _) Hlen).
    - destruct Hentry as [->| ->]; [done|]. by rewrite andb_false_r. }
  by rewrite (bind_ok _ _ _ _ _ Hhead), (bind_ok _ _ _ _ _ IH).
Qed.

Lemma entries_reject names name w :
  name ∈ names -> isnumeric name = true -> forallb decimal_char name = false ->
  map_M (fun f => if isnumeric f && negb (bool_decide (f = "0"))
                  then do i <- int_ f; ret (Some i)
                  else ret None) names w
  = (Raise ValueError, w).
Proof.
  intros Hin Hn Hd. induction names as [|f names IH]; [by apply elem_of_nil in Hin|].
  simpl map_M.
  destruct ((if isnumeric f && negb (bool_decide (f = "0"))
             then do i <- int_ f; ret (Some i)
             else ret None) w) as [r w1] eqn:Hhead.
  pose proof Hhead as Hrun. rewrite entry_cases in Hhead.
  destruct (decide (f = name)) as [->|Hne].
  - rewrite Hn, Hd in Hhead. rewrite bool_decide_eq_false_2 in Hhead by (by intros ->).
    injection Hhead as <- <-. by rewrite (bind_raise _ _ _ _ _ Hrun).
  - apply elem_of_cons in Hin as [->|Hin]; [done|]. specialize (IH Hin).
    assert (w1 = w /\ (r = Raise ValueError \/ exists o, r = Ok o)) as [-> [->|[o ->]]].
    { destruct (isnumeric f && _); [destruct (_ && _)|]; injection Hhead as <- <-;
        split; try done; try (right; by eexists); by left. }
    + by rewrite (bind_raise _ _ _ _ _ Hrun).
    + rewrite (bind_ok _ _ _ _ _ Hrun). by rewrite (bind_raise _ _ _ _ _ IH).
Qed.

Lemma listdir_dir p w t es :
  Os.find p (fs w) = Some (Dir t es) -> Os.listdir p w = (Ok (map fst es), w).
Proof. intros H. unfold Os.listdir, bind, get_fs. by rewrite H. Qed.

Lemma add_account_id_spec self a :
  same_but_accounts self (add_account_id self a)
  /\ (forall b, b ∈ account_ids (add_account_id self a) <-> b ∈ account_ids self \/ b = a)
  /\ (NoDup (account_ids self) -> NoDup (account_ids (add_account_id self a))).
Proof.
  split; [done|]. unfold add_account_id. simpl. case_bool_decide as Hin.
  - split; [|done]. intros b. split; [by left|]. by intros [?| ->].
  - split.
    + intros b. rewrite elem_of_app, list_elem_of_singleton. done.
    + intros Hnd. apply NoDup_app. split; [done|]. split; [|apply NoDup_singleton].
      by intros x Hx ->%list_elem_of_singleton.
Qed.

Lemma fold_add_account_id ids self :
  same_but_accounts self (fold_left add_account_id ids self)
  /\ (forall b, b ∈ account_ids (fold_left add_account_id ids self)
                <-> b ∈ account_ids self \/ b ∈ ids)
  /\ (NoDup (account_ids self) -> NoDup (account_ids (fold_left add_account_id ids self))).
Proof.
  revert self. induction ids as [|a ids IH]; intros self.
  { split; [done|]. split; [|done]. intros b. split; [by left|].
    intros [?|?%elem_of_nil]; done. }
  simpl. destruct (IH (add_account_id self a)) as (Hs & Hm & Hnd).
  destruct (add_account_id_spec self a) as (Hs1 & Hm1 & Hnd1).
  split; [|split].
  - destruct Hs as (? & ? & ? & ? & ?), Hs1 as (? & ? & ? & ? & ?).
    repeat split; congruence.
  - intros b. rewrite Hm, Hm1, elem_of_cons. tauto.
  - intros H. by apply Hnd, Hnd1.
Qed.

End AccountFacts.

Section Accounts.

Import Libraries IntFacts AccountFacts Run ReadOnly.

(** X22. The accounts are read back from the names that [str] gives them.
    When every entry of [userdata] is the decimal writing of a positive
    number (of at most 4300 digits), or is not numeric, or is [0],
    [auto_set_account_id] leaves the state as it is and returns the numbers
    in the order of the entries; the engine afterwards has the accounts it
    had and these numbers, none of them twice if none was twice before, and
    is the same otherwise. *)
Theorem auto_set_account_id_reads_accounts self w t es expected :
  Os.find (PosixPath.join2 (get_steam_root self) "userdata") (fs w) = Some (Dir t es) ->
  Forall2 account_entry (map fst es) expected ->
  exists self',
    auto_set_account_id self w = (Ok (omap id expected, self'), w)
    /\ same_but_accounts self self'
    /\ (forall a, a ∈ account_ids self' <-> a ∈ account_ids self \/ a ∈ omap id expected)
    /\ (NoDup (account_ids self) -> NoDup (account_ids self')).
Proof.
  intros Hdir Hentries.
  exists (fold_left add_account_id (omap id expected) self). split.
  - unfold auto_set_account_id.
    rewrite (bind_ok _ _ _ _ _ (listdir_dir _ _ _ _ Hdir)).
    by rewrite (bind_ok _ _ _ _ _ (entries_read _ _ w Hentries)).
  - apply fold_add_account_id.
Qed.

(** The theorem on the accounts 7 and 12, beside a directory [0] and one
    that is no number. *)
Lemma auto_set_account_id_reads_accounts_example :
  exists self',
    auto_set_account_id (DemoX.accounts [7]) DemoX.library = (Ok ([7; 12], self'), DemoX.library)
    /\ account_ids self' = [7; 12].
Proof.
  destruct (auto_set_account_id_reads_accounts (DemoX.accounts [7]) DemoX.library 0
              [("7", Dir 0 []); ("0", Dir 0 []); ("anonymous", Dir 0 []); ("12", Dir 0 [])]
              [Some 7; None; None; Some 12])
    as (self' & Hrun & _).
  - vm_compute. reflexivity.
  - constructor; [split; [lia|split; [reflexivity|simpl; lia]]|].
    constructor; [by right|]. constructor; [by left|].
    constructor; [split; [lia|split; [reflexivity|simpl; lia]]|]. constructor.
  - exists self'. split; [exact Hrun|].
    pose proof Hrun as H2. vm_compute in H2. by injection H2 as <-.
Defined.

(** X23. A numeric name that is not made of decimal digits stops the scan
    of the accounts: [str.isnumeric] accepts characters, the superscript
    two for one, that [int] rejects, so that with such an entry in
    [userdata] [auto_set_account_id] raises [ValueError], and no account is
    set. *)
Theorem auto_set_account_id_rejects_other_numerals self w t es name :
  Os.find (PosixPath.join2 (get_steam_root self) "userdata") (fs w) = Some (Dir t es) ->
  name ∈ map fst es ->
  isnumeric name = true ->
  forallb decimal_char name = false ->
  auto_set_account_id self w = (Raise ValueError, w).
Proof.
  intros Hdir Hin Hn Hd.
  unfold auto_set_account_id.
  rewrite (bind_ok _ _ _ _ _ (listdir_dir _ _ _ _ Hdir)).
  by rewrite (bind_raise _ _ _ _ _ (entries_reject _ _ w Hin Hn Hd)).
Qed.

(** The theorem on a [userdata] directory with the account 7 and an
    entry named by the superscript two. *)
Lemma auto_set_account_id_rejects_other_numerals_example :
  auto_set_account_id (DemoX.accounts []) DemoX.odd_library
  = (Raise ValueError, DemoX.odd_library).
Proof.
  apply (auto_set_account_id_rejects_other_numerals (DemoX.accounts [])
           DemoX.odd_library 0 DemoX.odd_userdata DemoX.superscript_two).
  - vm_compute. reflexivity.
  - right. left.
  - vm_compute. reflexivity.
  - vm_compute. reflexivity.
Defined.

End Accounts.

(** ** Finding the save roots *)

Module ResolverFacts.

Import Store Change Frame Manifest Tree AssocFacts ValidationFacts ManifestFacts Run ReadOnly.



Lemma parse_vcf_returns path w : returns_at w (_parse_vcf path).
Proof.
  unfold returns_at, _parse_vcf, try_except, bind.
  pose proof (ParseVcf.readlines_state path w) as Hst.
  destruct (Os.readlines path w) as [[lines|e] w1]; simpl in Hst; subst w1; by eexists.
Qed.

Section WithRoot.

Variables (self : Engine) (gi : GameInfo).

Hypothesis Hroot : install_root gi <> "".








End WithRoot.





End ResolverFacts.

Section Resolver.

Import Store Change Frame Manifest Tree ValidationFacts ManifestFacts ResolverFacts Run ReadOnly.



End Resolver.

(** ** The games of the libraries *)

Module ScanFacts.

Import Store Frame Libraries ResolverFacts Run ReadOnly.

Lemma careful_fold {S A} (good : S -> Prop) (f : S -> A -> M S) l w :
  (forall s a, good s -> careful good w (f s a)) ->
  forall s, good s -> careful good w (fold_M f l s).
Proof.
  intros Hf. induction l as [|a l IH]; intros s Hs; [by exists (Ok s)|].
  simpl. destruct (Hf s a Hs) as ([s'|e] & Hrun & Hr); unfold careful.
  - rewrite (bind_ok _ _ _ _ _ Hrun). by apply IH.
  - exists (Raise e). by rewrite (bind_raise _ _ _ _ _ Hrun).
Qed.

Lemma int_careful s w :
  exists r, int_ s w = (r, w) /\ forall e, r = Raise e -> e = ValueError.
Proof.
  unfold int_. destruct (match strip s with [] => _ | _ => _ end) as [neg body].
  destruct (digits_of_groups _) as [ds|].
  - destruct (_ <? _)%nat; eexists; split; try reflexivity; by intros e [= <-].
  - eexists. split; [reflexivity|]. by intros e [= <-].
Qed.

Lemma indexes_nil : indexes ∅ [].
Proof.
  intros i g. rewrite lookup_empty. split; [done|].
  intros (before & after & H & _). by destruct before.
Qed.

Lemma indexes_snoc all games g :
  indexes all games -> indexes (<[game_id g := g]> all) (games ++ [g]).
Proof.
  intros H i g'. destruct (decide (game_id g = i)) as [<-|Hne].
  - rewrite lookup_insert_eq. split.
    + intros [= <-]. exists games, []. by repeat split.
    + intros (before & after & Heq & Hid & Hafter).
      destruct (decide (after = [])) as [->|Hne].
      * apply app_inj_tail in Heq as [_ ->]. done.
      * exfalso. destruct (exists_last Hne) as (after' & x & ->).
        rewrite app_comm_cons, app_assoc in Heq. apply app_inj_tail in Heq as [_ ->].
        rewrite Forall_app, Forall_singleton in Hafter. by destruct Hafter.
  - rewrite lookup_insert_ne by done. rewrite (H i g'). split.
    + intros (before & after & -> & Hid & Hafter).
      exists before, (after ++ [g]). rewrite <- app_assoc. split; [done|]. split; [done|].
      apply Forall_app. split; [done|]. by apply Forall_singleton.
    + intros (before & after & Heq & Hid & Hafter).
      destruct (decide (after = [])) as [->|Hne'].
      * apply app_inj_tail in Heq as [_ ->]. done.
      * destruct (exists_last Hne') as (after' & x & ->).
        rewrite app_comm_cons, app_assoc in Heq. apply app_inj_tail in Heq as [-> ->].
        exists before, after'. split; [done|]. split; [done|].
        by apply Forall_app in Hafter as [? _].
Qed.

Lemma game_step_careful libs steam_dir app_dir st f w :
  steam_dir ∈ libs -> scan_ok libs st ->
  careful (scan_ok libs) w (game_step steam_dir app_dir st f).
Proof.
  intros Hlib [Hgood Hidx]. destruct st as [r rdict]. unfold game_step.
  destruct (parse_vcf_returns (PosixPath.join2 app_dir f) w) as [vcf Hvcf].
  unfold careful. rewrite (bind_ok _ _ _ _ _ Hvcf).
  destruct (vcf !! ("appid" : str)) as [id_|]; [|by exists (Ok (r, rdict))].
  destruct (vcf !! ("name" : str)) as [name|]; [|by exists (Ok (r, rdict))].
  destruct (bool_decide (id_ = "")); [by exists (Ok (r, rdict))|].
  case_bool_decide as Hname; [by exists (Ok (r, rdict))|]. cbn [negb andb].
  destruct (int_careful id_ w) as ([i|e] & Hint & He).
  - rewrite (bind_ok _ _ _ _ _ Hint). eexists. split; [reflexivity|]. split.
    + simpl. apply Forall_app. split; [done|]. by apply Forall_singleton.
    + simpl. by apply (indexes_snoc rdict r
        {| install_root := steam_dir; game_id := i; game_name := name;
           save_games_roots := None; save_games_root := None |}).
  - exists (Raise e). rewrite (bind_raise _ _ _ _ _ Hint). split; [done|]. by apply He.
Qed.

Lemma library_step_careful libs st steam_dir w :
  steam_dir ∈ libs -> scan_ok libs st ->
  careful (scan_ok libs) w (library_step st steam_dir).
Proof.
  intros Hlib Hst. unfold library_step.
  assert (exists files,
            try_except
              (do names <- Os.listdir (PosixPath.join2 steam_dir "steamapps");
               ret (List.filter is_appmanifest names))
              (fun _ => true) (fun _ => ret []) w = (Ok files, w)) as [files Hfiles].
  { unfold try_except.
    destruct (bind _ _ w) as [[names|e] w1] eqn:E.
    - apply bind_inv_ok in E as (ns & w2 & H1 & H2).
      apply readonly_run in H1 as ->; [|apply readonly_listdir].
      injection H2 as <- <-. by eexists.
    - apply bind_inv in E as [(ns & w2 & _ & [=])|(e' & H1 & _)].
      apply readonly_run in H1 as ->; [|apply readonly_listdir]. by eexists. }
  unfold careful. rewrite (bind_ok _ _ _ _ _ Hfiles).
  apply careful_fold; [|done]. intros s f Hs. by apply game_step_careful.
Qed.

Lemma careful_fold_in {S A} (good : S -> Prop) (f : S -> A -> M S) l w :
  (forall s a, a ∈ l -> good s -> careful good w (f s a)) ->
  forall s, good s -> careful good w (fold_M f l s).
Proof.
  induction l as [|a l IH]; intros Hf s Hs; [by exists (Ok s)|].
  simpl. destruct (Hf s a ltac:(by left) Hs) as ([s'|e] & Hrun & Hr); unfold careful.
  - rewrite (bind_ok _ _ _ _ _ Hrun). apply IH; [|done].
    intros s0 a0 Ha0. apply Hf. by right.
  - exists (Raise e). by rewrite (bind_raise _ _ _ _ _ Hrun).
Qed.

(** The libraries that cannot be listed add nothing. *)
Lemma library_step_unlisted st steam_dir w e :
  Os.listdir (PosixPath.join2 steam_dir "steamapps") w = (Raise e, w) ->
  library_step st steam_dir w = (Ok st, w).
Proof.
  intros H. unfold library_step.
  assert (try_except
            (do names <- Os.listdir (PosixPath.join2 steam_dir "steamapps");
             ret (List.filter is_appmanifest names))
            (fun _ => true) (fun _ => ret []) w = (Ok [], w)) as Hfiles.
  { unfold try_except. by rewrite (bind_raise _ _ _ _ _ H). }
  by rewrite (bind_ok _ _ _ _ _ Hfiles).
Qed.

End ScanFacts.

Section Scan.

Import Store Frame Libraries ResolverFacts ScanFacts Run ReadOnly.

(** X26. The scan of the libraries.  When the library list is read,
    [find_all_game_info] leaves the state as it is and either raises
    [ValueError] (an [appid] that [int] rejects) or returns a list of
    game-infos and the dictionary for [all_games]: every game-info has one
    of the libraries as its install root, a name, and no save roots, and
    the dictionary has for an id the last game-info of the list with that
    id, and nothing else.  A library whose [steamapps] directory
    cannot be listed is passed over. *)
Theorem find_all_game_info_scans_libraries self w libs :
  _get_all_library self w = (Ok libs, w) ->
  (exists r,
     find_all_game_info self w = (r, w)
     /\ match r with
        | Ok (games, all) => Forall (scanned libs) games /\ indexes all games
        | Raise e => e = ValueError
        end)
  /\ (Forall (fun lib => exists e,
                Os.listdir (PosixPath.join2 lib "steamapps") w = (Raise e, w)) libs ->
      find_all_game_info self w = (Ok ([], ∅), w)).
Proof.
  intros Hlibs. unfold find_all_game_info. rewrite (bind_ok _ _ _ _ _ Hlibs). split.
  - assert (scan_ok libs ([], ∅)) as Hstart
      by (split; [constructor | apply indexes_nil]).
    assert (forall s lib, lib ∈ libs -> scan_ok libs s ->
                          careful (scan_ok libs) w (library_step s lib)) as Hstep.
    { intros s lib Hin Hs. by apply library_step_careful. }
    destruct (careful_fold_in (scan_ok libs) library_step libs w Hstep _ Hstart)
      as (r & Hrun & Hr).
    exists r. split; [done|]. destruct r as [[games all]|e]; [|done]. exact Hr.
  - clear Hlibs. intros Hall. generalize ([] : list GameInfo, ∅ : gmap Z GameInfo).
    induction Hall as [|lib libs' [e He] _ IH]; intros st; [done|]. simpl.
    rewrite (bind_ok _ _ _ _ _ (library_step_unlisted st lib w e He)). apply IH.
Qed.

(** The theorem on a library with the manifests of two games; the second
    library of the list is not mounted. *)
Lemma find_all_game_info_scans_libraries_example :
  exists games all,
    find_all_game_info Demo.engine DemoX.games = (Ok (games, all), DemoX.games)
    /\ map game_id games = [1; 20]
    /\ Forall (scanned ["/steam"; "/run/media/sd"]) games
    /\ indexes all games.
Proof.
  destruct (proj1 (find_all_game_info_scans_libraries Demo.engine DemoX.games
                     ["/steam"; "/run/media/sd"] ltac:(vm_compute; reflexivity)))
    as (r & Hrun & Hr).
  destruct r as [[games all]|e].
  - exists games, all. split; [exact Hrun|]. split; [|exact Hr].
    pose proof (f_equal (fun x => match x.1 with Ok (g, _) => map game_id g | _ => [] end)
                  Hrun) as H.
    vm_compute in H. symmetry. exact H.
  - exfalso. pose proof (f_equal (fun x => match x.1 with Ok _ => true | _ => false end)
                           Hrun) as H.
    vm_compute in H. discriminate H.
Defined.

End Scan.
